(** * hdl-js: the generated LALR(1) parser of the HDL dialect

    A shallow embedding of [src/parser/generated/hdl-parser.js]: the
    tokenizer (lexical rules, location tracking, error reporting), the
    table-driven parser loop with its semantic actions, and the module-level
    arrays [inputs], [outputs] and [parts] the actions push into.

    Conventions of the embedding.
    - A JavaScript string is a [string]; a character is a code unit in the
      range U+0000..U+00FF.
    - Numbers that the code only uses as indices, offsets, lines and columns
      are [nat].
    - JavaScript arrays are objects with identity: a value of array type is
      a reference [VArr l] into a store, and [push] updates the store in
      place, so that every holder of the reference sees the change.
    - An exception ends the call: the outcome is [Throw e], together with
      the module state as it was left. *)

From Stdlib Require Import String Ascii List Arith Lia Bool DecimalString.
From stdpp Require Import base list.
Import ListNotations.

Local Open Scope nat_scope.

(** ** JavaScript strings *)

Notation "s1 +++ s2" := (String.append s1 s2)
  (at level 60, right associativity).

(** The line feed and the double quote, as one-character strings. *)
Definition LF : ascii := ascii_of_nat 10.
Definition nl : string := String LF EmptyString.
Definition dq : string := String (ascii_of_nat 34) EmptyString.

(** [string.slice(n)]: the suffix from index [n] on. *)
Fixpoint slice (n : nat) (s : string) : string :=
  match n, s with
  | 0, _ => s
  | S n', String _ s' => slice n' s'
  | S _, EmptyString => EmptyString
  end.

(** [string[0]] inside a template literal: the first character, or the text
    [undefined] when there is none. *)
Definition char0 (s : string) : string :=
  match s with
  | String c _ => String c EmptyString
  | EmptyString => "undefined"%string
  end.

(** [string.split('\n')]. *)
Fixpoint split_lines (s : string) : list string :=
  match s with
  | EmptyString => [EmptyString]
  | String c s' =>
      if Ascii.eqb c LF then EmptyString :: split_lines s'
      else match split_lines s' with
           | l :: ls => String c l :: ls
           | [] => [String c EmptyString]
           end
  end.

(** [' '.repeat(n)]. *)
Fixpoint repeat_space (n : nat) : string :=
  match n with
  | 0 => EmptyString
  | S n' => String " "%char (repeat_space n')
  end.

(** Decimal rendering of a non-negative integer in a template literal. *)
Definition string_of_nat (n : nat) : string :=
  NilEmpty.string_of_uint (Nat.to_uint n).

(** [lit] stands at the start of [s]: what an anchored literal such as
    [/^CHIP/] tests. *)
Fixpoint starts_with (lit s : string) : bool :=
  match lit with
  | EmptyString => true
  | String a lit' =>
      match s with
      | EmptyString => false
      | String b s' => Ascii.eqb a b && starts_with lit' s'
      end
  end.

(** The longest prefix whose characters all satisfy [p]. *)
Fixpoint take_while (p : ascii -> bool) (s : string) : string :=
  match s with
  | EmptyString => EmptyString
  | String c s' => if p c then String c (take_while p s') else EmptyString
  end.

(** ** Character classes of the regular expressions *)

(** [\w] is [[A-Za-z0-9_]]. *)
Definition is_word (c : ascii) : bool :=
  let n := nat_of_ascii c in
  ((65 <=? n) && (n <=? 90)) || ((97 <=? n) && (n <=? 122))
  || ((48 <=? n) && (n <=? 57)) || (n =? 95).

(** [\s]: tab, line feed, vertical tab, form feed, carriage return, space
    and the no-break space U+00A0 (the white space below U+0100). *)
Definition is_space (c : ascii) : bool :=
  let n := nat_of_ascii c in
  ((9 <=? n) && (n <=? 13)) || (n =? 32) || (n =? 160).

(** [.] matches every character but the line terminators (below U+0100:
    line feed and carriage return). *)
Definition is_dot (c : ascii) : bool :=
  let n := nat_of_ascii c in
  negb ((n =? 10) || (n =? 13)).

(** ** The lexical rules *)

(** A compiled regular expression, anchored at the start of the string: the
    text it matches, if it matches. *)
Definition regexp := string -> option string.

(** A literal anchored at the start, such as [/^CHIP/] or [/^\{/]. *)
Definition re_lit (lit : string) : regexp :=
  fun s => if starts_with lit s then Some lit else None.

(** [/^\/\/.*/]: two slashes and the rest of the line. *)
Definition re_line_comment : regexp :=
  fun s =>
    if starts_with "//" s
    then Some ("//" +++ take_while is_dot (slice 2 s))
    else None.

(** The lazy body of a block comment: the shortest text (of any characters,
    [(.|\s)] covering them all) that is followed by the closing mark. *)
Fixpoint until_close (s : string) : option string :=
  if starts_with "*/" s then Some EmptyString
  else match s with
       | EmptyString => None
       | String c s' =>
           match until_close s' with
           | Some body => Some (String c body)
           | None => None
           end
       end.

(** [/^\/\*(.|\s)*?\*\//]: a block comment up to the first closing mark. *)
Definition re_block_comment : regexp :=
  fun s =>
    if starts_with "/*" s
    then match until_close (slice 2 s) with
         | Some body => Some ("/*" +++ body +++ "*/")
         | None => None
         end
    else None.

(** [/^\s+/] and [/^\w+/]: a non-empty longest run of the class. *)
Definition re_plus (p : ascii -> bool) : regexp :=
  fun s =>
    match take_while p s with
    | EmptyString => None
    | m => Some m
    end.

(** A rule pairs a regular expression with its handler; the handler returns
    the token type, or nothing for text that is skipped. *)
Definition lex_rule : Type := regexp * option string.

Definition lexRules : list lex_rule :=
  [ (re_line_comment, None);
    (re_block_comment, None);
    (re_plus is_space, None);
    (re_lit "CHIP", Some "CHIP"%string);
    (re_lit "IN", Some "IN"%string);
    (re_lit "OUT", Some "OUT"%string);
    (re_lit "PARTS", Some "PARTS"%string);
    (re_plus is_word, Some "ID"%string);
    (re_lit "{", Some "'{'"%string);
    (re_lit "}", Some "'}'"%string);
    (re_lit ";", Some "';'"%string);
    (re_lit ":", Some "':'"%string);
    (re_lit ",", Some "','"%string);
    (re_lit "(", Some "'('"%string);
    (re_lit ")", Some "')'"%string);
    (re_lit "=", Some "'='"%string) ].

(** ** Tokens and locations *)

Record location := mkLoc {
  startOffset : nat;
  endOffset : nat;
  startLine : nat;
  endLine : nat;
  startColumn : nat;
  endColumn : nat
}.

(** A token: its type, its text, and its location; [EOF_TOKEN] is the one
    token without location fields. *)
Record token := mkToken {
  type : string;
  value : string;
  tloc : option location
}.

Definition EOF : string := "$".

Definition EOF_TOKEN : token :=
  {| type := EOF; value := EmptyString; tloc := None |}.

(** ** Exceptions *)

Inductive exn :=
| SyntaxError (message : string)
| TypeError.

(** ** The tokenizer *)

(** The fields [initString] sets. [_states] and [_tokensQueue] are left
    out: no handler of this grammar changes the lexer state or returns
    several tokens, so they stay [['INITIAL']] and [[]]. *)
Record tokenizer := mkTokenizer {
  _string : string;
  _cursor : nat;
  _currentLine : nat;
  _currentColumn : nat;
  _currentLineBeginOffset : nat;
  _tokenStartOffset : nat;
  _tokenEndOffset : nat;
  _tokenStartLine : nat;
  _tokenEndLine : nat;
  _tokenStartColumn : nat;
  _tokenEndColumn : nat
}.

Definition initString (str : string) : tokenizer :=
  {| _string := str;
     _cursor := 0;
     _currentLine := 1;
     _currentColumn := 0;
     _currentLineBeginOffset := 0;
     _tokenStartOffset := 0;
     _tokenEndOffset := 0;
     _tokenStartLine := 1;
     _tokenEndLine := 1;
     _tokenStartColumn := 0;
     _tokenEndColumn := 0 |}.

Definition isEOF (tk : tokenizer) : bool :=
  _cursor tk =? String.length (_string tk).

Definition hasMoreTokens (tk : tokenizer) : bool :=
  _cursor tk <=? String.length (_string tk).

Definition set_cursor (n : nat) (tk : tokenizer) : tokenizer :=
  {| _string := _string tk;
     _cursor := n;
     _currentLine := _currentLine tk;
     _currentColumn := _currentColumn tk;
     _currentLineBeginOffset := _currentLineBeginOffset tk;
     _tokenStartOffset := _tokenStartOffset tk;
     _tokenEndOffset := _tokenEndOffset tk;
     _tokenStartLine := _tokenStartLine tk;
     _tokenEndLine := _tokenEndLine tk;
     _tokenStartColumn := _tokenStartColumn tk;
     _tokenEndColumn := _tokenEndColumn tk |}.

(** The [while] loop of [_captureLocation]: for every line feed of the
    matched text, at index [idx], the line counter goes up and the line
    begins right after it. Returns the line and the line's begin offset. *)
Fixpoint scan_newlines (matched : string) (idx start line lbo : nat)
  : nat * nat :=
  match matched with
  | EmptyString => (line, lbo)
  | String c m' =>
      if Ascii.eqb c LF
      then scan_newlines m' (S idx) start (S line) (start + idx + 1)
      else scan_newlines m' (S idx) start line lbo
  end.

Definition _captureLocation (matched : string) (tk : tokenizer) : tokenizer :=
  let tokenStartOffset := _cursor tk in
  let tokenStartLine := _currentLine tk in
  let tokenStartColumn := tokenStartOffset - _currentLineBeginOffset tk in
  let '(line, lbo) :=
    scan_newlines matched 0 tokenStartOffset
      (_currentLine tk) (_currentLineBeginOffset tk) in
  let tokenEndOffset := _cursor tk + String.length matched in
  {| _string := _string tk;
     _cursor := _cursor tk;
     _currentLine := line;
     _currentColumn := tokenEndOffset - lbo;
     _currentLineBeginOffset := lbo;
     _tokenStartOffset := tokenStartOffset;
     _tokenEndOffset := tokenEndOffset;
     _tokenStartLine := tokenStartLine;
     _tokenEndLine := line;
     _tokenStartColumn := tokenStartColumn;
     _tokenEndColumn := tokenEndOffset - lbo |}.

(** [_match(string, regexp)]: on a match the location is captured and the
    cursor moves past the matched text. *)
Definition _match (str : string) (re : regexp) (tk : tokenizer)
  : option string * tokenizer :=
  match re str with
  | Some matched =>
      let tk1 := _captureLocation matched tk in
      (Some matched, set_cursor (_cursor tk1 + String.length matched) tk1)
  | None => (None, tk)
  end.

Definition _toToken (tokenType yytext : string) (tk : tokenizer) : token :=
  {| type := tokenType;
     value := yytext;
     tloc := Some {| startOffset := _tokenStartOffset tk;
                     endOffset := _tokenEndOffset tk;
                     startLine := _tokenStartLine tk;
                     endLine := _tokenEndLine tk;
                     startColumn := _tokenStartColumn tk;
                     endColumn := _tokenEndColumn tk |} |}.

(** The source line [line] of the text, as [split('\n')[line - 1]] finds
    it; nothing when the index is out of range. *)
Definition line_source (str : string) (line : nat) : option string :=
  match line with
  | 0 => None
  | S k => nth_error (split_lines str) k
  end.

(** The message of the "Unexpected token" error: the source line and a
    caret under the column (when the line is there and not empty), then the
    symbol and [line:column]. *)
Definition unexpected_token_message
  (str symbol : string) (line column : nat) : string :=
  let lineData :=
    match line_source str line with
    | Some EmptyString | None => EmptyString
    | Some lineSource =>
        nl +++ nl +++ lineSource +++ nl +++ repeat_space column +++ "^" +++ nl
    end in
  lineData +++ "Unexpected token: " +++ dq +++ symbol +++ dq +++ " at "
    +++ string_of_nat line +++ ":" +++ string_of_nat column +++ ".".

Definition throwUnexpectedToken
  (tk : tokenizer) (symbol : string) (line column : nat) : exn :=
  SyntaxError (unexpected_token_message (_string tk) symbol line column).

(** The [for] loop of [getNextToken] over the rules of the (only) lexer
    state: the first rule that matches wins. *)
Fixpoint scan_rules (rules : list lex_rule) (str : string) (tk : tokenizer)
  : option (string * option string * tokenizer) :=
  match rules with
  | [] => None
  | (re, handler) :: rest =>
      match _match str re tk with
      | (Some matched, tk1) =>
          let tk2 :=
            if (String.eqb str EmptyString && String.eqb matched EmptyString)%bool
            then set_cursor (S (_cursor tk1)) tk1
            else tk1 in
          Some (matched, handler, tk2)
      | (None, _) => scan_rules rest str tk
      end
  end.

Inductive lex_outcome :=
| LexToken (t : token) (tk : tokenizer)
| LexThrow (e : exn)
| LexOutOfFuel.

(** [getNextToken]. The JavaScript function calls itself after skipped
    text; [fuel] bounds these calls. *)
Fixpoint getNextToken (fuel : nat) (tk : tokenizer) : lex_outcome :=
  match fuel with
  | 0 => LexOutOfFuel
  | S fuel' =>
      if negb (hasMoreTokens tk) then LexToken EOF_TOKEN tk
      else
        let str := slice (_cursor tk) (_string tk) in
        match scan_rules lexRules str tk with
        | Some (yytext, None, tk') => getNextToken fuel' tk'
        | Some (yytext, Some tokenType, tk') =>
            LexToken (_toToken tokenType yytext tk') tk'
        | None =>
            if isEOF tk
            then LexToken EOF_TOKEN (set_cursor (S (_cursor tk)) tk)
            else LexThrow
                   (throwUnexpectedToken tk (char0 str)
                      (_currentLine tk) (_currentColumn tk))
        end
  end.

(** ** Values, the store of arrays, and the module-level variables *)

(** An array reference: an index into the store. *)
Abbreviation loc := nat (only parsing).

(** The values the semantic actions build: token texts, arrays (by
    reference) and the three kinds of AST object, by their [type] tag. *)
Inductive jsval :=
| VUndef
| VStr (s : string)
| VArr (l : loc)
| VArgument (name val : jsval)
| VChipCall (name arguments : jsval)
| VChip (name inputs outputs parts : jsval).

(** The mutable state of the module: the arrays allocated so far, the
    result variables [__] and [__loc] of the semantic actions, and the
    variables [inputs], [outputs] and [parts], each holding a reference to
    the array created when the module was loaded. [yytext] and [yyleng]
    are never read by the actions and are left out; [yy.options] stays
    [{captureLocations: true}]. *)
Record modstate := mkMod {
  store : list (list jsval);
  yy_result : jsval;
  yy_loc : option location;
  m_inputs : loc;
  m_outputs : loc;
  m_parts : loc
}.

(** The module right after loading: [let inputs = []; let outputs = [];
    let parts = [];], with [__] and [__loc] undefined. *)
Definition fresh : modstate :=
  {| store := [[]; []; []];
     yy_result := VUndef;
     yy_loc := None;
     m_inputs := 0;
     m_outputs := 1;
     m_parts := 2 |}.

Definition set_store (h : list (list jsval)) (m : modstate) : modstate :=
  {| store := h; yy_result := yy_result m; yy_loc := yy_loc m;
     m_inputs := m_inputs m; m_outputs := m_outputs m; m_parts := m_parts m |}.

Definition set_result (v : jsval) (m : modstate) : modstate :=
  {| store := store m; yy_result := v; yy_loc := yy_loc m;
     m_inputs := m_inputs m; m_outputs := m_outputs m; m_parts := m_parts m |}.

Definition set_loc (l : option location) (m : modstate) : modstate :=
  {| store := store m; yy_result := yy_result m; yy_loc := l;
     m_inputs := m_inputs m; m_outputs := m_outputs m; m_parts := m_parts m |}.

(** How a statement list ends: normally, or with an exception thrown in
    the state reached so far. *)
Inductive completion :=
| Normal (m : modstate)
| Abrupt (e : exn) (m : modstate).

(** [yyloc(start, end)] with [captureLocations] on; [None] stands for a
    location that is [null] or [undefined]. *)
Definition yyloc (start end_ : option location) : option location :=
  match start, end_ with
  | Some s, Some e =>
      Some {| startOffset := startOffset s;
              endOffset := endOffset e;
              startLine := startLine s;
              endLine := endLine e;
              startColumn := startColumn s;
              endColumn := endColumn e |}
  | Some s, None => Some s
  | None, e => e
  end.

(** [...v]: the elements of an array, or the characters of a string;
    other values are not iterable. *)
Definition spread (v : jsval) (m : modstate) : option (list jsval) :=
  match v with
  | VArr l => store m !! l
  | VStr s => Some (map (fun c => VStr (String c EmptyString)) (list_ascii_of_string s))
  | _ => None
  end.

(** [a.push(v1, ..., vn)]: only arrays have the method. *)
Definition array_push (a : jsval) (vs : list jsval) (m : modstate) : completion :=
  match a with
  | VArr l =>
      match store m !! l with
      | Some arr => Normal (set_store (<[l := arr ++ vs]> (store m)) m)
      | None => Abrupt TypeError m
      end
  | _ => Abrupt TypeError m
  end.

(** [array.push(...v)]. *)
Definition push_spread (array : loc) (v : jsval) (m : modstate) : completion :=
  match spread v m with
  | Some vs => array_push (VArr array) vs m
  | None => Abrupt TypeError m
  end.

(** [__ = [v]]: a new array. *)
Definition new_array (v : jsval) (m : modstate) : modstate :=
  set_result (VArr (length (store m))) (set_store (store m ++ [[v]]) m).

(** ** Productions and their semantic actions *)

(** An action receives the semantic values [_1 .. _n] and the locations
    [_1loc .. _nloc] of the right-hand side. *)
Definition action := list jsval -> list (option location) -> modstate -> completion.

Definition arg (k : nat) (args : list jsval) : jsval := nth k args VUndef.
Definition larg (k : nat) (locs : list (option location)) : option location :=
  nth k locs None.

(** [__loc = yyloc(_1loc, _1loc); __ = _1]. *)
Definition act_first : action := fun args locs m =>
  Normal (set_result (arg 0 args) (set_loc (yyloc (larg 0 locs) (larg 0 locs)) m)).

(** Production 1: the [Chip] object refers to the module-level arrays. *)
Definition act_chip : action := fun args locs m =>
  let m := set_loc (yyloc (larg 0 locs) (larg 4 locs)) m in
  Normal (set_result
            (VChip (arg 1 args) (VArr (m_inputs m)) (VArr (m_outputs m))
               (VArr (m_parts m))) m).

(** Productions 6, 7 and 8: [inputs.push(..._2)], [outputs.push(..._2)],
    [parts.push(..._3)]; [__] is left as it was. *)
Definition act_inputs : action := fun args locs m =>
  let m := set_loc (yyloc (larg 0 locs) (larg 2 locs)) m in
  push_spread (m_inputs m) (arg 1 args) m.

Definition act_outputs : action := fun args locs m =>
  let m := set_loc (yyloc (larg 0 locs) (larg 2 locs)) m in
  push_spread (m_outputs m) (arg 1 args) m.

Definition act_parts : action := fun args locs m =>
  let m := set_loc (yyloc (larg 0 locs) (larg 2 locs)) m in
  push_spread (m_parts m) (arg 2 args) m.

(** [__ = [_1]]. *)
Definition act_single : action := fun args locs m =>
  Normal (new_array (arg 0 args) (set_loc (yyloc (larg 0 locs) (larg 0 locs)) m)).

(** [_1.push(_k); __ = _1], with [_k] the last of [n] symbols. *)
Definition act_append (n : nat) : action := fun args locs m =>
  let m := set_loc (yyloc (larg 0 locs) (larg (n - 1) locs)) m in
  match array_push (arg 0 args) [arg (n - 1) args] m with
  | Normal m' => Normal (set_result (arg 0 args) m')
  | Abrupt e m' => Abrupt e m'
  end.

Definition act_chipcall : action := fun args locs m =>
  let m := set_loc (yyloc (larg 0 locs) (larg 4 locs)) m in
  Normal (set_result (VChipCall (arg 0 args) (arg 2 args)) m).

Definition act_argument : action := fun args locs m =>
  let m := set_loc (yyloc (larg 0 locs) (larg 2 locs)) m in
  Normal (set_result (VArgument (arg 0 args) (arg 2 args)) m).

(** A production: its left-hand side (a non-terminal number; [None] is the
    [-1] of the augmented production), the length of its right-hand side,
    and its action if it has one. *)
Definition production : Type := option nat * nat * option action.

Definition productions : list production :=
  [ (None, 1, Some act_first);
    (Some 0, 5, Some act_chip);
    (Some 1, 3, None);
    (Some 2, 1, Some act_first);
    (Some 2, 1, Some act_first);
    (Some 2, 1, Some act_first);
    (Some 3, 3, Some act_inputs);
    (Some 4, 3, Some act_outputs);
    (Some 5, 3, Some act_parts);
    (Some 6, 1, Some act_single);
    (Some 6, 3, Some (act_append 3));
    (Some 7, 1, Some act_first);
    (Some 7, 1, Some act_first);
    (Some 7, 1, Some act_first);
    (Some 7, 1, Some act_first);
    (Some 7, 1, Some act_first);
    (Some 8, 1, Some act_single);
    (Some 8, 2, Some (act_append 2));
    (Some 9, 5, Some act_chipcall);
    (Some 10, 1, Some act_single);
    (Some 10, 3, Some (act_append 3));
    (Some 11, 3, Some act_argument) ].

(** ** Encoded tokens and the parsing table *)

(** A lookup by key in an object literal. *)
Fixpoint assoc {K V : Type} (eqb : K -> K -> bool) (k : K) (l : list (K * V))
  : option V :=
  match l with
  | [] => None
  | (k', v) :: rest => if eqb k k' then Some v else assoc eqb k rest
  end.

(** The map from token types to the columns of the table. The keys of the
    table are the strings ["0"] .. ["25"]; they are numbers here. *)
Definition tokens : list (string * nat) :=
  [ ("CHIP"%string, 12); ("IN"%string, 13); ("OUT"%string, 14);
    ("PARTS"%string, 15); ("ID"%string, 16); ("'{'"%string, 17);
    ("'}'"%string, 18); ("';'"%string, 19); ("':'"%string, 20);
    ("','"%string, 21); ("'('"%string, 22); ("')'"%string, 23);
    ("'='"%string, 24); ("$"%string, 25) ].

(** An entry of the table: a number (the state after a reduction), or one
    of the strings [sN] (shift), [rN] (reduce) and [acc]. *)
Inductive entry :=
| Goto (n : nat)
| Shift (n : nat)
| Reduce (p : nat)
| Accept.

Definition table : list (list (nat * entry)) :=
  [ (*  0 *) [(0, Goto 30); (12, Shift 1)];
    (*  1 *) [(7, Goto 2); (12, Shift 32); (13, Shift 33); (14, Shift 34); (15, Shift 35); (16, Shift 31)];
    (*  2 *) [(17, Shift 3)];
    (*  3 *) [(1, Goto 4); (2, Goto 5); (3, Goto 36); (4, Goto 37); (5, Goto 38); (13, Shift 6); (14, Shift 7); (15, Shift 8)];
    (*  4 *) [(18, Shift 39)];
    (*  5 *) [(2, Goto 9); (3, Goto 36); (4, Goto 37); (5, Goto 38); (13, Shift 6); (14, Shift 7); (15, Shift 8)];
    (*  6 *) [(6, Goto 10); (7, Goto 11); (12, Shift 32); (13, Shift 33); (14, Shift 34); (15, Shift 35); (16, Shift 31)];
    (*  7 *) [(6, Goto 14); (7, Goto 11); (12, Shift 32); (13, Shift 33); (14, Shift 34); (15, Shift 35); (16, Shift 31)];
    (*  8 *) [(20, Shift 15)];
    (*  9 *) [(2, Goto 40); (3, Goto 36); (4, Goto 37); (5, Goto 38); (13, Shift 6); (14, Shift 7); (15, Shift 8)];
    (* 10 *) [(19, Shift 41); (21, Shift 12)];
    (* 11 *) [(19, Reduce 9); (21, Reduce 9)];
    (* 12 *) [(7, Goto 13); (12, Shift 32); (13, Shift 33); (14, Shift 34); (15, Shift 35); (16, Shift 31)];
    (* 13 *) [(19, Reduce 10); (21, Reduce 10)];
    (* 14 *) [(19, Shift 42); (21, Shift 12)];
    (* 15 *) [(8, Goto 16); (9, Goto 17); (16, Shift 18)];
    (* 16 *) [(9, Goto 19); (13, Reduce 8); (14, Reduce 8); (15, Reduce 8); (16, Shift 18); (18, Reduce 8)];
    (* 17 *) [(13, Reduce 16); (14, Reduce 16); (15, Reduce 16); (16, Reduce 16); (18, Reduce 16)];
    (* 18 *) [(22, Shift 20)];
    (* 19 *) [(13, Reduce 17); (14, Reduce 17); (15, Reduce 17); (16, Reduce 17); (18, Reduce 17)];
    (* 20 *) [(10, Goto 21); (11, Goto 22); (16, Shift 23)];
    (* 21 *) [(21, Shift 25); (23, Shift 24)];
    (* 22 *) [(21, Reduce 19); (23, Reduce 19)];
    (* 23 *) [(24, Shift 28)];
    (* 24 *) [(19, Shift 26)];
    (* 25 *) [(11, Goto 27); (16, Shift 23)];
    (* 26 *) [(13, Reduce 18); (14, Reduce 18); (15, Reduce 18); (16, Reduce 18); (18, Reduce 18)];
    (* 27 *) [(21, Reduce 20); (23, Reduce 20)];
    (* 28 *) [(16, Shift 29)];
    (* 29 *) [(21, Reduce 21); (23, Reduce 21)];
    (* 30 *) [(25, Accept)];
    (* 31 *) [(17, Reduce 11); (19, Reduce 11); (21, Reduce 11)];
    (* 32 *) [(17, Reduce 12); (19, Reduce 12); (21, Reduce 12)];
    (* 33 *) [(17, Reduce 13); (19, Reduce 13); (21, Reduce 13)];
    (* 34 *) [(17, Reduce 14); (19, Reduce 14); (21, Reduce 14)];
    (* 35 *) [(17, Reduce 15); (19, Reduce 15); (21, Reduce 15)];
    (* 36 *) [(13, Reduce 3); (14, Reduce 3); (15, Reduce 3); (18, Reduce 3)];
    (* 37 *) [(13, Reduce 4); (14, Reduce 4); (15, Reduce 4); (18, Reduce 4)];
    (* 38 *) [(13, Reduce 5); (14, Reduce 5); (15, Reduce 5); (18, Reduce 5)];
    (* 39 *) [(25, Reduce 1)];
    (* 40 *) [(18, Reduce 2)];
    (* 41 *) [(13, Reduce 6); (14, Reduce 6); (15, Reduce 6); (18, Reduce 6)];
    (* 42 *) [(13, Reduce 7); (14, Reduce 7); (15, Reduce 7); (18, Reduce 7)] ].

(** ** The parsing stack *)

(** What the parser pushes next to a state: the symbol, its semantic value
    (absent after a production without action) and its location. *)
Record stack_entry := mkEntry {
  symbol : option nat;
  semanticValue : option jsval;
  eloc : option location
}.

(** The stack [[0, e1, s1, ..., ek, sk]] is the list of the pairs
    [(ek, sk) .. (e1, s1)], the top first, over the bottom state [0]:
    entries and states are always pushed and popped in pairs. *)
Definition frame : Type := stack_entry * nat.

Definition top_state (stack : list frame) : nat :=
  match stack with
  | [] => 0
  | (_, s) :: _ => s
  end.

(** The loop that pops the right-hand side: [n] pairs, the entries
    returned in the order of the production ([unshift]). Nothing when the
    stack holds fewer pairs. *)
Fixpoint pop_frames (n : nat) (stack : list frame)
  : option (list stack_entry * list frame) :=
  match n with
  | 0 => Some ([], stack)
  | S n' =>
      match stack with
      | [] => None
      | (e, _) :: rest =>
          match pop_frames n' rest with
          | Some (es, rest') => Some (es ++ [e], rest')
          | None => None
          end
      end
  end.

(** [stackEntry.semanticValue]: [undefined] when the property is absent. *)
Definition value_of (e : stack_entry) : jsval :=
  match semanticValue e with
  | Some v => v
  | None => VUndef
  end.

(** ** Errors of the parser *)

Definition unexpectedEndOfInput : exn :=
  SyntaxError "Unexpected end of input.".

(** [unexpectedToken(token)]. A token other than [EOF_TOKEN] always has
    its location; were it missing, line and column would print as
    [undefined]. *)
Definition unexpectedToken (tk : tokenizer) (t : token) : exn :=
  if String.eqb (type t) EOF then unexpectedEndOfInput
  else match tloc t with
       | Some l => throwUnexpectedToken tk (value t) (startLine l) (startColumn l)
       | None =>
           SyntaxError ("Unexpected token: " +++ dq +++ value t +++ dq
                          +++ " at undefined:undefined.")
       end.

(** ** The parser loop *)

Inductive outcome :=
| Return (v : jsval)
| ReturnTrue
| ReturnUndefined
| Throw (e : exn)
| OutOfFuel.

(** The variables of one [parse] call. [shiftedToken] only feeds [yytext]
    and [yyleng] and is left out with them. *)
Record pstate := mkState {
  p_tokenizer : tokenizer;
  p_stack : list frame;
  p_token : token;
  p_mod : modstate
}.

Inductive step_result :=
| Continue (st : pstate)
| Finish (o : outcome) (m : modstate).

(** The recursion depth [getNextToken] is given: it skips at most one run
    of text per character. *)
Definition lex_fuel (str : string) : nat := String.length str + 2.

(** The shift action. *)
Definition do_shift (column n : nat) (st : pstate) : step_result :=
  let t := p_token st in
  let e := {| symbol := Some column;
              semanticValue := Some (VStr (value t));
              eloc := tloc t |} in
  let tk := p_tokenizer st in
  match getNextToken (lex_fuel (_string tk)) tk with
  | LexToken t' tk' =>
      Continue {| p_tokenizer := tk';
                  p_stack := (e, n) :: p_stack st;
                  p_token := t';
                  p_mod := p_mod st |}
  | LexThrow ex => Finish (Throw ex) (p_mod st)
  | LexOutOfFuel => Finish OutOfFuel (p_mod st)
  end.

(** The reduce action. A state that is missing where the table is read
    after the reduction would be pushed as [undefined] and fail the next
    table access; the [TypeError] is raised here. *)
Definition do_reduce (productionNumber : nat) (st : pstate) : step_result :=
  let m := p_mod st in
  match nth_error productions productionNumber with
  | None => Finish (Throw TypeError) m
  | Some (lhs, rhsLength, act) =>
      match pop_frames rhsLength (p_stack st) with
      | None => Finish (Throw TypeError) m
      | Some (es, stack') =>
          let run :=
            match act with
            | Some f => f (map value_of es) (map eloc es) m
            | None => Normal m
            end in
          match run with
          | Abrupt ex m' => Finish (Throw ex) m'
          | Normal m' =>
              let reduceStackEntry :=
                match act with
                | Some _ => {| symbol := lhs;
                               semanticValue := Some (yy_result m');
                               eloc := yy_loc m' |}
                | None => {| symbol := lhs; semanticValue := None; eloc := None |}
                end in
              let nextState := top_state stack' in
              match nth_error table nextState, lhs with
              | Some row, Some symbolToReduceWith =>
                  match assoc Nat.eqb symbolToReduceWith row with
                  | Some (Goto s) =>
                      Continue {| p_tokenizer := p_tokenizer st;
                                  p_stack := (reduceStackEntry, s) :: stack';
                                  p_token := p_token st;
                                  p_mod := m' |}
                  | _ => Finish (Throw TypeError) m'
                  end
              | _, _ => Finish (Throw TypeError) m'
              end
          end
      end
  end.

(** The accept action. *)
Definition do_accept (st : pstate) : step_result :=
  let m := p_mod st in
  match p_stack st with
  | [(parsed, _)] =>
      if hasMoreTokens (p_tokenizer st)
      then Finish (Throw (unexpectedToken (p_tokenizer st) (p_token st))) m
      else match semanticValue parsed with
           | Some v => Finish (Return v) m
           | None => Finish ReturnTrue m
           end
  | _ => Finish (Throw (unexpectedToken (p_tokenizer st) (p_token st))) m
  end.

(** One turn of the [do ... while] body. An entry that is a number matches
    none of the three branches, and the turn changes nothing. *)
Definition parse_step (st : pstate) : step_result :=
  let state := top_state (p_stack st) in
  match nth_error table state with
  | None => Finish (Throw TypeError) (p_mod st)
  | Some row =>
      match assoc String.eqb (type (p_token st)) tokens with
      | None =>
          Finish (Throw (unexpectedToken (p_tokenizer st) (p_token st))) (p_mod st)
      | Some column =>
          match assoc Nat.eqb column row with
          | None =>
              Finish (Throw (unexpectedToken (p_tokenizer st) (p_token st)))
                (p_mod st)
          | Some (Shift n) => do_shift column n st
          | Some (Reduce p) => do_reduce p st
          | Some Accept => do_accept st
          | Some (Goto _) => Continue st
          end
      end
  end.

(** The loop condition [tokenizer.hasMoreTokens() || stack.length > 1]. *)
Definition loop_condition (st : pstate) : bool :=
  hasMoreTokens (p_tokenizer st)
  || match p_stack st with [] => false | _ => true end.

Fixpoint parse_loop (fuel : nat) (st : pstate) : outcome * modstate :=
  match fuel with
  | 0 => (OutOfFuel, p_mod st)
  | S fuel' =>
      match parse_step st with
      | Finish o m => (o, m)
      | Continue st' =>
          if loop_condition st' then parse_loop fuel' st'
          else (ReturnUndefined, p_mod st')
      end
  end.

(** The number of turns the loop is given: every turn either shifts a
    token, shortens the stack, or moves to a state of lower rank. *)
Definition parse_fuel (str : string) : nat := (String.length str + 2) * 8.

(** [yyparse.parse(string)], called without [parseOptions], in the module
    state [m]. The hooks [onParseBegin] and [onParseEnd] are the empty
    defaults. *)
Definition parse (str : string) (m : modstate) : outcome * modstate :=
  let tk := initString str in
  match getNextToken (lex_fuel str) tk with
  | LexToken t tk' =>
      parse_loop (parse_fuel str)
        {| p_tokenizer := tk'; p_stack := []; p_token := t; p_mod := m |}
  | LexThrow ex => (Throw ex, m)
  | LexOutOfFuel => (OutOfFuel, m)
  end.

(** ** Reading an AST out of the store *)

#[local] Set Warnings "-register-all".

(** The AST as a tree: what [JSON.stringify] would print of a value, the
    arrays followed through the store. *)
Inductive ast :=
| AUndef
| AStr (s : string)
| AArr (elems : list ast)
| AArgument (name val : ast)
| AChipCall (name arguments : ast)
| AChip (name inputs outputs parts : ast).

Fixpoint all_some {A : Type} (l : list (option A)) : option (list A) :=
  match l with
  | [] => Some []
  | Some a :: rest =>
      match all_some rest with
      | Some r => Some (a :: r)
      | None => None
      end
  | None :: _ => None
  end.

(** [read depth h v]: the tree of [v] in the store [h], down to [depth]
    levels of nesting. *)
Fixpoint read (depth : nat) (h : list (list jsval)) (v : jsval) : option ast :=
  match depth with
  | 0 => None
  | S d =>
      match v with
      | VUndef => Some AUndef
      | VStr s => Some (AStr s)
      | VArr l =>
          match h !! l with
          | Some vs =>
              match all_some (map (read d h) vs) with
              | Some ts => Some (AArr ts)
              | None => None
              end
          | None => None
          end
      | VArgument n v =>
          match read d h n, read d h v with
          | Some n', Some v' => Some (AArgument n' v')
          | _, _ => None
          end
      | VChipCall n a =>
          match read d h n, read d h a with
          | Some n', Some a' => Some (AChipCall n' a')
          | _, _ => None
          end
      | VChip n i o p =>
          match read d h n, read d h i, read d h o, read d h p with
          | Some n', Some i', Some o', Some p' => Some (AChip n' i' o' p')
          | _, _, _, _ => None
          end
      end
  end.

(** ** The example chip of the repository *)

(** A text from its lines, each ended by a line feed. *)
Definition unlines (l : list string) : string :=
  String.concat nl l +++ nl.

(** The HDL text of the [Mux] chip, comments included. *)
Definition Mux_hdl : string :=
  unlines
    [ "// This file is part of www.nand2tetris.org";
      "// and the book " +++ dq +++ "The Elements of Computing Systems" +++ dq;
      "// by Nisan and Schocken, MIT Press.";
      "";
      "/**";
      " * Multiplexor:";
      " * out = a if sel == 0";
      " *       b otherwise";
      " */";
      "";
      "CHIP Mux {";
      "  IN a, b, sel;";
      "  OUT out;";
      "";
      "  PARTS:";
      "";
      "  Not(in=sel, out=nel);";
      "  And(a=a, b=nel, out=A);";
      "  And(a=b, b=sel, out=B);";
      "  Or(a=A, b=B, out=out);";
      "}" ]%string.

(** The AST of [Mux]. *)
Definition Mux_inputs : list ast := [AStr "a"; AStr "b"; AStr "sel"].

Definition Mux_outputs : list ast := [AStr "out"].

Definition Mux_parts : list ast :=
  [ AChipCall (AStr "Not")
      (AArr [AArgument (AStr "in") (AStr "sel");
             AArgument (AStr "out") (AStr "nel")]);
    AChipCall (AStr "And")
      (AArr [AArgument (AStr "a") (AStr "a");
             AArgument (AStr "b") (AStr "nel");
             AArgument (AStr "out") (AStr "A")]);
    AChipCall (AStr "And")
      (AArr [AArgument (AStr "a") (AStr "b");
             AArgument (AStr "b") (AStr "sel");
             AArgument (AStr "out") (AStr "B")]);
    AChipCall (AStr "Or")
      (AArr [AArgument (AStr "a") (AStr "A");
             AArgument (AStr "b") (AStr "B");
             AArgument (AStr "out") (AStr "out")]) ].

Definition Mux_ast : ast :=
  AChip (AStr "Mux") (AArr Mux_inputs) (AArr Mux_outputs) (AArr Mux_parts).

(** * Specification *)

(** ** Texts and positions *)

(** The first [n] characters of a text. *)
Fixpoint str_take (n : nat) (s : string) : string :=
  match n, s with
  | S n', String c s' => String c (str_take n' s')
  | _, _ => EmptyString
  end.

Fixpoint count_lf (s : string) : nat :=
  match s with
  | EmptyString => 0
  | String c s' => (if Ascii.eqb c LF then 1 else 0) + count_lf s'
  end.

Fixpoint str_forallb (p : ascii -> bool) (s : string) : bool :=
  match s with
  | EmptyString => true
  | String c s' => p c && str_forallb p s'
  end.

Fixpoint str_existsb (p : ascii -> bool) (s : string) : bool :=
  match s with
  | EmptyString => false
  | String c s' => p c || str_existsb p s'
  end.

(** The line counter and the line's begin offset that the tokenizer has
    after reading the text [t] from its initial state. *)
Definition pos_of (t : string) : nat * nat := scan_newlines t 0 0 1 0.

(** Offset [o] of [s] is on line [line], [col] characters after the
    begin of that line: the text before [o] is [before +++ here], where
    [before] is empty or ends with a line feed and [here] has none. Lines
    count from one, columns from zero. *)
Definition position (s : string) (o line col : nat) : Prop :=
  exists before here,
    str_take o s = before +++ here
    /\ (before = EmptyString \/ exists b, before = b +++ nl)
    /\ count_lf here = 0
    /\ line = S (count_lf before)
    /\ col = String.length here.

(** The layout of the message of a located syntax error. *)
Definition located_message (src sym : string) (line col : nat) : string :=
  nl +++ nl +++ src +++ nl +++ repeat_space col +++ "^" +++ nl
    +++ "Unexpected token: " +++ dq +++ sym +++ dq +++ " at "
    +++ string_of_nat line +++ ":" +++ string_of_nat col +++ ".".

(** ** Identifiers and keywords *)

Definition keyword (w : string) : bool :=
  String.eqb w "CHIP" || String.eqb w "IN"
  || String.eqb w "OUT" || String.eqb w "PARTS".

Definition keyword_prefixed (w : string) : bool :=
  starts_with "CHIP" w || starts_with "IN" w
  || starts_with "OUT" w || starts_with "PARTS" w.

(** A non-empty run of [\w] characters: what the grammar takes as a
    [Name], an [ID] or a keyword. *)
Definition word_run (w : string) : bool :=
  negb (String.eqb w EmptyString) && str_forallb is_word w.

(** The text of an [ID] token: a run of [\w] characters that is not a
    keyword. *)
Definition id_text (w : string) : bool := word_run w && negb (keyword w).

(** The runs the tokenizer reads as one [ID] token: those that do not
    begin with a keyword. *)
Definition ident (w : string) : bool :=
  word_run w && negb (keyword_prefixed w).

(** The characters some lexical rule can match outside comments. *)
Definition lexable (c : ascii) : bool :=
  is_space c || is_word c
  || existsb (Ascii.eqb c) (list_ascii_of_string "{};:,()=").

Definition is_slash (c : ascii) : bool := Ascii.eqb c "/".

(** ** The tokenizer *)

Record tk_inv (s : string) (tk : tokenizer) : Prop := mk_tk_inv {
  inv_string : _string tk = s;
  inv_cursor : _cursor tk <= String.length s + 1;
  inv_pos : (_currentLine tk, _currentLineBeginOffset tk)
            = pos_of (str_take (_cursor tk) s);
  inv_col : _cursor tk <= String.length s ->
            _currentColumn tk = _cursor tk - _currentLineBeginOffset tk
}.

(** A match of a lexical rule: a non-empty prefix of the text. *)
Definition re_sound (re : regexp) : Prop :=
  forall s m, re s = Some m ->
    m <> EmptyString /\ s = m +++ slice (String.length m) s.

(** The rule with handler [h] is the first of [rules] to match [str], and
    it matches [m]. *)
Definition first_match (rules : list lex_rule) (str : string)
  (h : option string) (m : string) : Prop :=
  exists before re after,
    rules = before ++ (re, h) :: after
    /\ Forall (fun r : lex_rule => fst r str = None) before
    /\ re str = Some m.

(** The token [t] is what the first matching rule matches at
    [startOffset l] in [s], and [l] is where it stands. *)
Record token_at (s : string) (t : token) (l : location) : Prop := mk_token_at {
  ta_loc : tloc t = Some l;
  ta_rule : first_match lexRules (slice (startOffset l) s)
              (Some (type t)) (value t);
  ta_end : endOffset l = startOffset l + String.length (value t);
  ta_bound : endOffset l <= String.length s;
  ta_start : exists bol, (startLine l, bol) = pos_of (str_take (startOffset l) s)
                         /\ startColumn l = startOffset l - bol;
  ta_stop : exists bol, (endLine l, bol) = pos_of (str_take (endOffset l) s)
                        /\ endColumn l = endOffset l - bol
}.

Definition tok_inv (s : string) (tk : tokenizer) (t : token) : Prop :=
  (t = EOF_TOKEN /\ _cursor tk = String.length s + 1)
  \/ (exists l, token_at s t l /\ _cursor tk <= String.length s).

(** The error of the tokenizer at offset [o]: no rule matches there. *)
Definition lex_error_at (s : string) (o : nat) (e : exn) : Prop :=
  exists c rest bol line,
    slice o s = String c rest
    /\ Forall (fun r : lex_rule => fst r (String c rest) = None) lexRules
    /\ (line, bol) = pos_of (str_take o s)
    /\ e = SyntaxError (unexpected_token_message s (String c EmptyString) line (o - bol)).

(** The states the tokenizer goes through on the text [s]. *)
Inductive lexer_state (s : string) : tokenizer -> Prop :=
| lexer_init : lexer_state s (initString s)
| lexer_next fuel tk t tk' :
    lexer_state s tk -> getNextToken fuel tk = LexToken t tk' ->
    lexer_state s tk'.

(** The text still to be read holds no slash (so no comment can start) and
    holds a character that no rule matches. *)
Definition stuck_ahead (tk : tokenizer) : Prop :=
  str_existsb is_slash (slice (_cursor tk) (_string tk)) = false
  /\ str_existsb (fun c => negb (lexable c)) (slice (_cursor tk) (_string tk)) = true.

(** ** The automaton behind the table *)

Definition table_lookup (s c : nat) : option entry :=
  match nth_error table s with
  | Some row => assoc Nat.eqb c row
  | None => None
  end.

Definition targets (e : entry) : option nat :=
  match e with
  | Goto n | Shift n => Some n
  | _ => None
  end.

Definition table_forall (P : nat -> nat -> entry -> bool) : bool :=
  forallb (fun sr : nat * list (nat * entry) =>
             forallb (fun ce : nat * entry => P (fst sr) (fst ce) (snd ce)) (snd sr))
    (combine (seq 0 (length table)) table).

(** The grammar symbol on which each state is entered. *)
Definition acc_sym : list nat :=
  [ 0; 12; 7; 17; 1; 2; 13; 14; 15; 2; 6; 7; 21; 7; 6; 20; 8; 9; 16; 9; 22;
    10; 11; 16; 23; 21; 19; 11; 24; 16; 0; 16; 12; 13; 14; 15; 3; 4; 5; 18;
    2; 19; 19 ].

(** The right-hand sides of the productions, as grammar symbols:
    non-terminals [0] Chip, [1] Sections, [2] Section, [3] Inputs,
    [4] Outputs, [5] Parts, [6] Names, [7] Name, [8] ChipCalls,
    [9] ChipCall, [10] ArgsList, [11] Argument, and the token columns. *)
Definition rhs : list (list nat) :=
  [ [0]; [12; 7; 17; 1; 18]; [2; 2; 2]; [3]; [4]; [5];
    [13; 6; 19]; [14; 6; 19]; [15; 20; 8]; [7]; [6; 21; 7];
    [16]; [12]; [13]; [14]; [15]; [9]; [8; 9]; [16; 22; 10; 23; 19];
    [11]; [10; 21; 11]; [16; 24; 16] ].

Definition enters (t : nat) (s : nat) : bool :=
  match nth_error table s with
  | Some row =>
      existsb (fun ce : nat * entry =>
                 match targets (snd ce) with
                 | Some t' => t' =? t
                 | None => false
                 end) row
  | None => false
  end.

(** The states with a transition into [t]. *)
Definition preds (t : nat) : list nat :=
  filter (fun s => enters t s) (seq 0 (length table)).

(** The rank of a state: the length of the longest chain of unit
    reductions that can start in it. *)
Definition rank (t : nat) : nat :=
  nth t
    [ 0; 0; 0; 0; 0; 0; 0; 0; 0; 0; 0; 1; 0; 0; 0; 0; 0; 1; 0; 0; 0; 0; 1; 0;
      0; 0; 0; 0; 0; 0; 0; 2; 2; 2; 2; 2; 1; 1; 1; 0; 0; 0; 0 ] 0.

(** Every path of the automaton that spells [rhs_rev] backwards and ends in
    [t] starts in a state with a transition on [A], into a state that
    satisfies [Q]. *)
Fixpoint check_path (Q : nat -> bool) (rhs_rev : list nat) (t A : nat) : bool :=
  match rhs_rev with
  | [] =>
      match table_lookup t A with
      | Some (Goto t') => Q t'
      | _ => false
      end
  | X :: more =>
      match nth_error acc_sym t with
      | Some X' => X' =? X
      | None => false
      end
      && negb (t =? 0)
      && forallb (fun t' => check_path Q more t' A) (preds t)
  end.

(** What the proofs need of one entry of the table. *)
Definition check_entry (s c : nat) (e : entry) : bool :=
  match e with
  | Goto t =>
      (c <? 12) && match nth_error acc_sym t with Some X => X =? c | None => false end
      && existsb (Nat.eqb s) (preds t)
  | Shift t =>
      (12 <=? c) && (c <=? 24)
      && match nth_error acc_sym t with Some X => X =? c | None => false end
      && existsb (Nat.eqb s) (preds t)
  | Accept => (s =? 30) && (c =? 25)
  | Reduce p =>
      (12 <=? c) &&
      match nth_error productions p, nth_error rhs p with
      | Some (Some A, n, _), Some r =>
          (length r =? n) && (1 <=? n)
          && check_path (fun t' => (2 <=? n) || (rank t' <? rank s)) (rev r) s A
      | _, _ => false
      end
  end.

(** ** Well-typed stores and stacks *)

(** The kinds of array the actions build: names, arguments, chip calls. *)
Inductive kind := KStr | KArg | KCall.

Definition elem_ok (ty : list kind) (k : kind) (v : jsval) : Prop :=
  match k with
  | KStr => exists s, v = VStr s /\ word_run s = true
  | KArg => exists a b, v = VArgument (VStr a) (VStr b)
                        /\ id_text a = true /\ id_text b = true
  | KCall => exists n l, v = VChipCall (VStr n) (VArr l)
                         /\ id_text n = true /\ ty !! l = Some KArg
  end.

Definition store_ok (ty : list kind) (h : list (list jsval)) : Prop :=
  Forall2 (fun k vs => Forall (elem_ok ty k) vs) ty h.

Record wf_mod (ty : list kind) (m : modstate) : Prop := mk_wf_mod {
  wf_store : store_ok ty (store m);
  wf_inputs : ty !! m_inputs m = Some KStr;
  wf_outputs : ty !! m_outputs m = Some KStr;
  wf_parts : ty !! m_parts m = Some KCall
}.

Definition same_vars (m m' : modstate) : Prop :=
  m_inputs m' = m_inputs m /\ m_outputs m' = m_outputs m
  /\ m_parts m' = m_parts m.

Definition is_chip (m : modstate) (v : jsval) : Prop :=
  exists n, v = VChip (VStr n) (VArr (m_inputs m)) (VArr (m_outputs m))
                  (VArr (m_parts m))
            /\ word_run n = true.

(** The text of a token of column [c]. *)
Definition text_ok (c : nat) (w : string) : Prop :=
  match c with
  | 12 | 13 | 14 | 15 => keyword w = true
  | 16 => ident w = true
  | _ => True
  end.

(** The semantic value of a stack entry for the grammar symbol [X]. *)
Definition sym_ok (ty : list kind) (m : modstate) (X : nat) (v : option jsval)
  : Prop :=
  match X with
  | 0 => exists c, v = Some c /\ is_chip m c
  | 1 | 2 | 3 | 4 | 5 => True
  | 6 => exists l, v = Some (VArr l) /\ ty !! l = Some KStr
  | 7 => exists c, v = Some c /\ elem_ok ty KStr c
  | 8 => exists l, v = Some (VArr l) /\ ty !! l = Some KCall
  | 9 => exists c, v = Some c /\ elem_ok ty KCall c
  | 10 => exists l, v = Some (VArr l) /\ ty !! l = Some KArg
  | 11 => exists a, v = Some a /\ elem_ok ty KArg a
  | _ => exists w, v = Some (VStr w) /\ text_ok X w
  end.

Inductive valid_stack (ty : list kind) (m : modstate) : list frame -> Prop :=
| valid_nil : valid_stack ty m []
| valid_push e t X stack :
    valid_stack ty m stack ->
    nth_error acc_sym t = Some X ->
    In (top_state stack) (preds t) ->
    sym_ok ty m X (semanticValue e) ->
    valid_stack ty m ((e, t) :: stack).

(** ** The invariant of the parser loop *)

Record Inv (s : string) (ty : list kind) (st : pstate) : Prop := mk_Inv {
  I_tk : tk_inv s (p_tokenizer st);
  I_tok : tok_inv s (p_tokenizer st) (p_token st);
  I_mod : wf_mod ty (p_mod st);
  I_stack : valid_stack ty (p_mod st) (p_stack st)
}.

Definition measure (s : string) (st : pstate) : nat :=
  8 * (String.length s + 1 - _cursor (p_tokenizer st))
  + 3 * length (p_stack st) + rank (top_state (p_stack st)).

(** The "Unexpected token" error for the text [sym] found at offset [o]:
    [sym] starts there, with a character that is not white space, and the
    message names the line of [o] and its distance to the line's begin. *)
Definition syntax_error_at (s : string) (o : nat) (sym : string) (e : exn)
  : Prop :=
  exists c rest line bol,
    slice o s = String c rest /\ is_space c = false
    /\ (exists r1 r2, sym = String c r1 /\ rest = r1 +++ r2)
    /\ (line, bol) = pos_of (str_take o s)
    /\ e = SyntaxError (unexpected_token_message s sym line (o - bol)).

Definition good_error (s : string) (e : exn) : Prop :=
  e = unexpectedEndOfInput \/ exists o sym, syntax_error_at s o sym e.

Definition good_result (s : string) (o : outcome) (m' : modstate) : Prop :=
  match o with
  | Return v => is_chip m' v
  | Throw e => good_error s e
  | _ => False
  end.

Definition step_ok (s : string) (ty : list kind) (st : pstate)
  (r : step_result) : Prop :=
  match r with
  | Continue st' =>
      (exists ty', Inv s (ty ++ ty') st')
      /\ measure s st' < measure s st
      /\ p_stack st' <> []
      /\ same_vars (p_mod st) (p_mod st')
  | Finish o m' =>
      (exists ty', wf_mod (ty ++ ty') m')
      /\ same_vars (p_mod st) m'
      /\ good_result s o m'
  end.

(** ** The shape of the AST *)

(** A declared pin: a bare name. *)
Definition pin_ast (a : ast) : Prop :=
  exists s, a = AStr s /\ word_run s = true.

(** An argument: the texts of two [ID] tokens. *)
Definition argument_ast (a : ast) : Prop :=
  exists k w, a = AArgument (AStr k) (AStr w)
              /\ id_text k = true /\ id_text w = true.

(** A part: the text of an [ID] token and a list of arguments. *)
Definition call_ast (a : ast) : Prop :=
  exists n args, a = AChipCall (AStr n) (AArr args)
                 /\ id_text n = true /\ Forall argument_ast args.

Definition chip_ast (a : ast) : Prop :=
  exists n ins outs calls,
    a = AChip (AStr n) (AArr ins) (AArr outs) (AArr calls)
    /\ word_run n = true
    /\ Forall pin_ast ins /\ Forall pin_ast outs /\ Forall call_ast calls.

(** ** Chip texts with any number of sections *)

Inductive section_kind := SecIn | SecOut | SecParts.

(** One well-formed section of each kind. *)
Definition section_text (k : section_kind) : string :=
  match k with
  | SecIn => " IN a;"
  | SecOut => " OUT b;"
  | SecParts => " PARTS: Not(in=a, out=b);"
  end.

Fixpoint sections_text (ks : list section_kind) (close : string) : string :=
  match ks with
  | [] => close
  | k :: ks' => section_text k +++ sections_text ks' close
  end.

(** The chip [Foo] with the sections [ks] as its body. *)
Definition chip_text (ks : list section_kind) : string :=
  "CHIP Foo {" +++ sections_text ks " }".

(** The typing of the store of a freshly loaded module. *)
Definition fresh_ty : list kind := [KStr; KStr; KCall].

(** What a second parse of the [Mux] text yields: every list twice. *)
Definition Mux_ast_twice : ast :=
  AChip (AStr "Mux") (AArr (Mux_inputs ++ Mux_inputs))
    (AArr (Mux_outputs ++ Mux_outputs)) (AArr (Mux_parts ++ Mux_parts)).

(** ** Example texts *)

(** The text that follows a word ends it: the text is over, or its first
    character is outside [\w]. *)
Definition word_end (rest : string) : Prop :=
  rest = EmptyString \/ exists c r, rest = String c r /\ is_word c = false.

Definition keywords : list string :=
  ["CHIP"%string; "IN"%string; "OUT"%string; "PARTS"%string].

(** A chip whose chip name and pin names are keywords, and whose part
    name, argument names and argument values are [true] and [false]. *)
Definition keyword_names_text : string :=
  "CHIP IN { IN CHIP, OUT; OUT PARTS; PARTS: true(false=true, true=false); }".

Definition keyword_names_ast : ast :=
  AChip (AStr "IN") (AArr [AStr "CHIP"; AStr "OUT"]) (AArr [AStr "PARTS"])
    (AArr [AChipCall (AStr "true")
             (AArr [AArgument (AStr "false") (AStr "true");
                    AArgument (AStr "true") (AStr "false")])]).

(** Texts that begin a part list with a keyword as part name, as argument
    name and as argument value; [tail] is the rest of the text. *)
Definition keyword_part_name (kw tail : string) : string :=
  "CHIP Foo { IN a; OUT b; PARTS: " +++ kw +++ tail.

Definition keyword_argument_name (kw tail : string) : string :=
  "CHIP Foo { IN a; OUT b; PARTS: Not(" +++ kw +++ tail.

Definition keyword_argument_value (kw tail : string) : string :=
  "CHIP Foo { IN a; OUT b; PARTS: Not(in=" +++ kw +++ tail.

(** An argument whose value is a plain identifier or a literal. *)
Definition plain_argument_text : string :=
  "CHIP Foo { IN a; OUT b; PARTS: Not(in=a, out=b) ; Or(a=true, b=false, out=b); }".

Definition plain_argument_ast : ast :=
  AChip (AStr "Foo") (AArr [AStr "a"]) (AArr [AStr "b"])
    (AArr [AChipCall (AStr "Not")
             (AArr [AArgument (AStr "in") (AStr "a");
                    AArgument (AStr "out") (AStr "b")]);
           AChipCall (AStr "Or")
             (AArr [AArgument (AStr "a") (AStr "true");
                    AArgument (AStr "b") (AStr "false");
                    AArgument (AStr "out") (AStr "b")])]).

(** Texts with an opening bracket after an argument value and after a
    declared pin; [tail] is the rest of the text. *)
Definition indexed_argument_text (tail : string) : string :=
  "CHIP Foo { IN a; OUT b; PARTS: Not(in=a[" +++ tail.


Definition error_text : string := "CHIP Foo { IN a IN b; }".

(** ** The grammar of the table *)

(** The generated file keeps of each production its left-hand side and
    the length of its right-hand side; the right-hand sides themselves
    are [rhs], read off the automaton ([check_table] verifies that a
    reduction pops frames pushed for exactly these symbols). A derivation
    tree has a token column at each leaf and a production at each node. *)
Inductive tree :=
| Leaf (c : nat)
| Node (p : nat) (children : list tree).

Definition lhs (p : nat) : option nat :=
  match nth_error productions p with
  | Some (A, _, _) => A
  | None => None
  end.

(** The grammar symbol a tree stands for. *)
Definition root (t : tree) : option nat :=
  match t with
  | Leaf c => Some c
  | Node p _ => lhs p
  end.

(** The token columns at the leaves, from left to right. *)
Fixpoint yield (t : tree) : list nat :=
  match t with
  | Leaf c => [c]
  | Node _ children => concat (map yield children)
  end.

Definition roots_are (r : list nat) (children : list tree) : bool :=
  forallb (fun Xt : nat * tree =>
             match root (snd Xt) with
             | Some Y => fst Xt =? Y
             | None => false
             end) (combine r children)
  && (length r =? length children).

(** A tree built by the productions: leaves are tokens other than the end
    of the input, and the children of a node are the right-hand side of
    its production. *)
Fixpoint wf_tree (t : tree) : bool :=
  match t with
  | Leaf c => (12 <=? c) && (c <=? 24)
  | Node p children =>
      (1 <=? p)
      && match nth_error rhs p with
         | Some r => roots_are r children
         | None => false
         end
      && forallb wf_tree children
  end.

(** The list of token columns [w] is derived from the grammar symbol [X]. *)
Definition derives (X : nat) (w : list nat) : Prop :=
  exists t, wf_tree t = true /\ root t = Some X /\ yield t = w.

(** The grammar symbols of the claims, by their numbers in the table. *)
Definition Chip_sym : nat := 0.
Definition Section_sym : nat := 2.
Definition Name_sym : nat := 7.

(** The column of a token type. *)
Definition col (ty : string) : nat :=
  match assoc String.eqb ty tokens with
  | Some c => c
  | None => 0
  end.

(** ** The tokens of a text *)

(** The columns of the token [t] and of the tokens the tokenizer [tk] has
    yet to produce, up to the end of the input (column 25). *)
Inductive stream : tokenizer -> token -> list nat -> Prop :=
| stream_end tk t :
    assoc String.eqb (type t) tokens = Some 25 -> stream tk t [25]
| stream_next tk t c t' tk' ts :
    assoc String.eqb (type t) tokens = Some c -> c <> 25 ->
    getNextToken (lex_fuel (_string tk)) tk = LexToken t' tk' ->
    stream tk' t' ts ->
    stream tk t (c :: ts).

(** The text [s] is read as the tokens of columns [ts], the last of them
    the end of the input. *)
Definition lexes (s : string) (ts : list nat) : Prop :=
  exists t tk,
    getNextToken (lex_fuel s) (initString s) = LexToken t tk /\ stream tk t ts.

(** The frames of the stack were pushed for the tokens [w]: each frame
    for a list of tokens derived from the symbol on which its state is
    entered. *)
Inductive spells : list frame -> list nat -> Prop :=
| spells_nil : spells [] []
| spells_push e t X stack w y :
    spells stack w ->
    nth_error acc_sym t = Some X ->
    In (top_state stack) (preds t) ->
    derives X y ->
    spells ((e, t) :: stack) (w ++ y).

(** ** Runs of the automaton *)

(** The state reached from [q] over the grammar symbols [syms]. *)
Fixpoint path (q : nat) (syms : list nat) : option nat :=
  match syms with
  | [] => Some q
  | X :: more =>
      match table_lookup q X with
      | Some e =>
          match targets e with
          | Some t => path t more
          | None => None
          end
      | None => None
      end
  end.

(** In the state reached from [q] over the right-hand side of [p], the
    token [a] makes the parser reduce by [p]. *)
Definition reduces (q p a : nat) : bool :=
  match nth_error rhs p with
  | Some r =>
      match path q r with
      | Some qn =>
          match table_lookup qn a with
          | Some (Reduce p') => p' =? p
          | _ => false
          end
      | None => false
      end
  | None => false
  end.

Definition prods_of (A : nat) : list nat :=
  List.filter (fun p => match lhs p with Some B => B =? A | None => false end)
    (seq 1 21).

Definition shifts (q b : nat) : bool :=
  match table_lookup q b with
  | Some (Shift _) => true
  | _ => false
  end.

(** The tokens that can follow the symbol that leads from [q] to [t],
    when [more] is what remains of the right-hand side and [a] follows
    it. *)
Definition followers (t : nat) (more : list nat) (a : nat) : list nat :=
  match more with
  | [] => [a]
  | Z :: _ => if Z <? 12 then List.filter (shifts t) (seq 12 13) else [Z]
  end.

(** Along the right-hand side [r] from [q], with [a] after it: every
    token is shifted, and every production of every non-terminal is
    reduced on the tokens that can follow it. *)
Fixpoint check_children (q : nat) (r : list nat) (a : nat) : bool :=
  match r with
  | [] => true
  | Y :: more =>
      match table_lookup q Y with
      | Some (Shift t) => check_children t more a
      | Some (Goto t) =>
          forallb (fun b => forallb (fun p => reduces q p b) (prods_of Y))
            (followers t more a)
          && check_children t more a
      | _ => false
      end
  end.

Definition check_la (q p a : nat) : bool :=
  implb (reduces q p a)
    match nth_error rhs p with
    | Some r => check_children q r a
    | None => false
    end.

Definition check_goto (q c : nat) (e : entry) : bool :=
  match e with
  | Goto _ =>
      forallb (fun p =>
                 match nth_error rhs p with
                 | Some (Y :: _) =>
                     match table_lookup q Y with
                     | Some (Shift _) => 12 <=? Y
                     | Some (Goto _) => Y <? 12
                     | _ => false
                     end
                 | _ => false
                 end) (prods_of c)
  | _ => true
  end.

(** ** More of the tokenizer *)

(** [getCursor()], [getCurrentLine()], [getCurrentColumn()]. *)
Definition getCursor (tk : tokenizer) : nat := _cursor tk.
Definition getCurrentLine (tk : tokenizer) : nat := _currentLine tk.
Definition getCurrentColumn (tk : tokenizer) : nat := _currentColumn tk.

(** One of the three rules without a token matches [m] at the start of
    [str]: a line comment, a block comment, or a run of white space. *)
Definition skip_match (str m : string) : Prop :=
  re_line_comment str = Some m
  \/ re_block_comment str = Some m
  \/ re_plus is_space str = Some m.

(** From offset [o] to offset [o'] the text [s] is a sequence of comments
    and runs of white space, each matched where the one before ends. *)
Inductive skips (s : string) : nat -> nat -> Prop :=
| skips_refl o : skips s o o
| skips_step o m o' :
    skip_match (slice o s) m -> skips s (o + String.length m) o' ->
    skips s o o'.

(** The text of the tokens that are literals of the grammar. *)
Definition literal_text (ty : string) : option string :=
  assoc String.eqb ty
    [ ("CHIP", "CHIP"); ("IN", "IN"); ("OUT", "OUT"); ("PARTS", "PARTS");
      ("'{'", "{"); ("'}'", "}"); ("';'", ";"); ("':'", ":"); ("','", ",");
      ("'('", "("); ("')'", ")"); ("'='", "=") ]%string.

(** ** The store over a parse *)

(** Every array of [h] is still there in [h'], with its elements in
    place and possibly more after them. *)
Definition store_extends (h h' : list (list jsval)) : Prop :=
  forall l vs, h !! l = Some vs -> exists more, h' !! l = Some (vs ++ more).

(** A session: the texts parsed one after the other by one module
    instance, with the outcome of each call. *)
Fixpoint parse_all (texts : list string) (m : modstate)
  : list outcome * modstate :=
  match texts with
  | [] => ([], m)
  | s :: rest =>
      let (o, m1) := parse s m in
      let (os, m2) := parse_all rest m1 in
      (o :: os, m2)
  end.

(** ** The lexer states of the tokenizer *)

(** The functions on the field [_states], the stack of lexer states with
    the current state last; [initString] sets it to [['INITIAL']]. *)
Definition initial_states : list string := ["INITIAL"%string].

(** [getCurrentState()]: [this._states[this._states.length - 1]]. *)
Definition getCurrentState (states : list string) : option string :=
  last states.

(** [pushState(state)] and its alias [begin(state)]. *)
Definition pushState (state : string) (states : list string) : list string :=
  states ++ [state].

Definition begin (state : string) (states : list string) : list string :=
  pushState state states.

(** [popState()]: the last state is popped and returned when there is
    more than one; otherwise the first is returned and stays. *)
Definition popState (states : list string) : option string * list string :=
  if 1 <? length states then (last states, removelast states)
  else (head states, states).

(** A call of one of the three functions that change [_states]. *)
Inductive state_call :=
| CallPush (state : string)
| CallBegin (state : string)
| CallPop.

Definition call_state (c : state_call) (states : list string) : list string :=
  match c with
  | CallPush x => pushState x states
  | CallBegin x => begin x states
  | CallPop => snd (popState states)
  end.

Definition call_states (cs : list state_call) (states : list string)
  : list string :=
  fold_left (fun st c => call_state c st) cs states.

(** ** [runSlice] of the command line *)

(** One call of [runSlice(data, index, action)] in [hdl-js-cli.js]: the
    slice [data.slice(index, index + 1)] handed to [action], and the
    index of the call the timer makes next. Indices are never negative,
    so [index === data.length - 1] is [index + 1 === data.length]. *)
Definition runSlice_shown {A : Type} (data : list A) (index : nat) : list A :=
  firstn 1 (skipn index data).

Definition runSlice_next {A : Type} (data : list A) (index : nat) : nat :=
  if index + 1 =? length data then 0 else index + 1.

(** The index of the [k]-th call after the one with [index]. *)
Fixpoint runSlice_index {A : Type} (data : list A) (index k : nat) : nat :=
  match k with
  | 0 => index
  | S k' => runSlice_index data (runSlice_next data index) k'
  end.

(** ** Tokens with their texts, and what the actions compute *)

(** The columns and the texts of the token [t] and of the tokens the
    tokenizer [tk] has yet to produce, up to the end of the input. *)
Inductive vstream : tokenizer -> token -> list (nat * string) -> Prop :=
| vstream_end tk t :
    assoc String.eqb (type t) tokens = Some 25 ->
    vstream tk t [(25, value t)]
| vstream_next tk t c t' tk' ts :
    assoc String.eqb (type t) tokens = Some c -> c <> 25 ->
    getNextToken (lex_fuel (_string tk)) tk = LexToken t' tk' ->
    vstream tk' t' ts ->
    vstream tk t ((c, value t) :: ts).

(** The text [s] is read as the tokens [ts], columns and texts. *)
Definition vlexes (s : string) (ts : list (nat * string)) : Prop :=
  exists t tk,
    getNextToken (lex_fuel s) (initString s) = LexToken t tk /\ vstream tk t ts.

(** A derivation tree with the text of each token. *)
Inductive vtree :=
| VLeaf (c : nat) (text : string)
| VNode (p : nat) (children : list vtree).

Fixpoint erase (t : vtree) : tree :=
  match t with
  | VLeaf c _ => Leaf c
  | VNode p children => Node p (map erase children)
  end.

Fixpoint vyield (t : vtree) : list (nat * string) :=
  match t with
  | VLeaf c text => [(c, text)]
  | VNode _ children => concat (map vyield children)
  end.

Definition value_or_undef (v : option jsval) : jsval :=
  match v with
  | Some x => x
  | None => VUndef
  end.

(** What the reductions along a tree compute, children first and from
    left to right: the semantic value the parser pushes for the tree, and
    the module state the actions leave. Locations are left out: no
    action reads one. *)
Fixpoint exec (t : vtree) (m : modstate) : option jsval * modstate :=
  match t with
  | VLeaf _ text => (Some (VStr text), m)
  | VNode p children =>
      let '(vals, m1) :=
        (fix run (l : list vtree) (m0 : modstate)
           : list (option jsval) * modstate :=
           match l with
           | [] => ([], m0)
           | t0 :: l' =>
               let '(v, m1) := exec t0 m0 in
               let '(vs, m2) := run l' m1 in
               (v :: vs, m2)
           end) children m in
      match nth_error productions p with
      | Some (_, _, Some f) =>
          match f (map value_or_undef vals) (map (fun _ => None) vals) m1 with
          | Normal m2 => (Some (yy_result m2), m2)
          | Abrupt _ m2 => (None, m2)
          end
      | _ => (None, m1)
      end
  end.

Fixpoint exec_children (l : list vtree) (m0 : modstate)
  : list (option jsval) * modstate :=
  match l with
  | [] => ([], m0)
  | t0 :: l' =>
      let '(v, m1) := exec t0 m0 in
      let '(vs, m2) := exec_children l' m1 in
      (v :: vs, m2)
  end.

(** Two module states that differ at most in [__loc]. *)
Definition loc_eq (m m' : modstate) : Prop :=
  store m = store m' /\ yy_result m = yy_result m'
  /\ m_inputs m = m_inputs m' /\ m_outputs m = m_outputs m'
  /\ m_parts m = m_parts m'.

(** ** Chips as data *)

(** A part: its name and its arguments, each a name and a value. The
    lists of the grammar are never empty: they are written as a first
    element and the rest. *)
Record part := mkPart {
  part_name : string;
  first_argument : string * string;
  more_arguments : list (string * string)
}.

(** A section: the pin names of an IN or OUT section, the parts of a
    PARTS section. *)
Inductive section :=
| In_section (first : string) (more : list string)
| Out_section (first : string) (more : list string)
| Parts_section (first : part) (more : list part).

Record chip := mkChip {
  chip_name : string;
  section1 : section;
  section2 : section;
  section3 : section
}.

(** The column of a name: the keyword's own, or that of [ID]. *)
Definition name_col (w : string) : nat :=
  if String.eqb w "CHIP" then 12
  else if String.eqb w "IN" then 13
  else if String.eqb w "OUT" then 14
  else if String.eqb w "PARTS" then 15
  else 16.

(** The production [Name -> ID | CHIP | IN | OUT | PARTS] of a column. *)
Definition name_prod (c : nat) : nat := if c =? 16 then 11 else c.

Definition name_tree (w : string) : vtree :=
  VNode (name_prod (name_col w)) [VLeaf (name_col w) w].

(** [Names -> Name | Names ',' Name], left recursive. *)
Definition names_tree (first : string) (more : list string) : vtree :=
  fold_left (fun t w => VNode 10 [t; VLeaf 21 ","; name_tree w]) more
    (VNode 9 [name_tree first]).

Definition argument_tree (a : string * string) : vtree :=
  VNode 21 [VLeaf 16 (fst a); VLeaf 24 "="; VLeaf 16 (snd a)].

Definition arguments_tree (first : string * string)
  (more : list (string * string)) : vtree :=
  fold_left (fun t a => VNode 20 [t; VLeaf 21 ","; argument_tree a]) more
    (VNode 19 [argument_tree first]).

Definition part_tree (pt : part) : vtree :=
  VNode 18 [VLeaf 16 (part_name pt); VLeaf 22 "(";
            arguments_tree (first_argument pt) (more_arguments pt);
            VLeaf 23 ")"; VLeaf 19 ";"].

Definition parts_tree (first : part) (more : list part) : vtree :=
  fold_left (fun t pt => VNode 17 [t; part_tree pt]) more
    (VNode 16 [part_tree first]).

Definition section_tree (sec : section) : vtree :=
  match sec with
  | In_section first more =>
      VNode 3 [VNode 6 [VLeaf 13 "IN"; names_tree first more; VLeaf 19 ";"]]
  | Out_section first more =>
      VNode 4 [VNode 7 [VLeaf 14 "OUT"; names_tree first more; VLeaf 19 ";"]]
  | Parts_section first more =>
      VNode 5 [VNode 8 [VLeaf 15 "PARTS"; VLeaf 20 ":"; parts_tree first more]]
  end.

Definition chip_tree (c : chip) : vtree :=
  VNode 1 [VLeaf 12 "CHIP"; name_tree (chip_name c); VLeaf 17 "{";
           VNode 2 [section_tree (section1 c); section_tree (section2 c);
                    section_tree (section3 c)];
           VLeaf 18 "}"].

(** The tokens of a chip, columns and texts. *)
Definition chip_tokens (c : chip) : list (nat * string) :=
  vyield (chip_tree c).

(** The pins and parts a section declares. *)
Definition section_inputs (sec : section) : list string :=
  match sec with In_section first more => first :: more | _ => [] end.

Definition section_outputs (sec : section) : list string :=
  match sec with Out_section first more => first :: more | _ => [] end.

Definition section_parts (sec : section) : list part :=
  match sec with Parts_section first more => first :: more | _ => [] end.

Definition chip_inputs (c : chip) : list string :=
  section_inputs (section1 c) ++ section_inputs (section2 c)
    ++ section_inputs (section3 c).

Definition chip_outputs (c : chip) : list string :=
  section_outputs (section1 c) ++ section_outputs (section2 c)
    ++ section_outputs (section3 c).

Definition chip_parts (c : chip) : list part :=
  section_parts (section1 c) ++ section_parts (section2 c)
    ++ section_parts (section3 c).

(** The AST of a part, and the AST of a chip over the lists the module
    arrays already hold. *)
Definition argument_ast_of (a : string * string) : ast :=
  AArgument (AStr (fst a)) (AStr (snd a)).

Definition part_ast_of (pt : part) : ast :=
  AChipCall (AStr (part_name pt))
    (AArr (map argument_ast_of (first_argument pt :: more_arguments pt))).

Definition chip_ast_over (ins outs pts : list ast) (c : chip) : ast :=
  AChip (AStr (chip_name c))
    (AArr (ins ++ map AStr (chip_inputs c)))
    (AArr (outs ++ map AStr (chip_outputs c)))
    (AArr (pts ++ map part_ast_of (chip_parts c))).

(** The text of a token of column [c]: the literal of the grammar, any
    text that is not a keyword for an [ID], nothing at the end of the
    input. *)
Definition token_text (c : nat) (text : string) : Prop :=
  match c with
  | 12 => text = "CHIP"%string
  | 13 => text = "IN"%string
  | 14 => text = "OUT"%string
  | 15 => text = "PARTS"%string
  | 16 => name_col text = 16
  | 17 => text = "{"%string
  | 18 => text = "}"%string
  | 19 => text = ";"%string
  | 20 => text = ":"%string
  | 21 => text = ","%string
  | 22 => text = "("%string
  | 23 => text = ")"%string
  | 24 => text = "="%string
  | 25 => text = EmptyString
  | _ => True
  end.

Definition texts_ok (ts : list (nat * string)) : Prop :=
  Forall (fun ct => token_text (fst ct) (snd ct)) ts.

(** The text of the [Mux] chip without its comments and line breaks. *)
Definition Mux_plain : string :=
  "CHIP Mux{IN a,b,sel;OUT out;PARTS:Not(in=sel,out=nel);And(a=a,b=nel,out=A);And(a=b,b=sel,out=B);Or(a=A,b=B,out=out);}".

(** The [Mux] chip of the repository. *)
Definition Mux_chip : chip :=
  (mkChip "Mux" (In_section "a" ["b"; "sel"]) (Out_section "out" [])
     (Parts_section
        (mkPart "Not" ("in", "sel") [("out", "nel")])
        [ mkPart "And" ("a", "a") [("b", "nel"); ("out", "A")];
          mkPart "And" ("a", "b") [("b", "sel"); ("out", "B")];
          mkPart "Or" ("a", "A") [("b", "B"); ("out", "out")] ]))%string.

(** ** How a text is read *)

(** How the reading of a text ends: at its end, or at a character no rule
    matches, with the error the tokenizer throws there. *)
Inductive ending :=
| AtEnd
| BadChar (e : exn).

(** The tokens of a text from the token [t] on, [tk] being the tokenizer
    that has produced [t]: [t] and the tokens after it, the end of the
    input left out, and how the reading ends. *)
Inductive scan : tokenizer -> token -> list token -> ending -> Prop :=
| scan_end tk t :
    assoc String.eqb (type t) tokens = Some 25 -> scan tk t [] AtEnd
| scan_bad tk t c e :
    assoc String.eqb (type t) tokens = Some c -> c <> 25 ->
    getNextToken (lex_fuel (_string tk)) tk = LexThrow e ->
    scan tk t [t] (BadChar e)
| scan_next tk t c t' tk' ts e :
    assoc String.eqb (type t) tokens = Some c -> c <> 25 ->
    getNextToken (lex_fuel (_string tk)) tk = LexToken t' tk' ->
    scan tk' t' ts e ->
    scan tk t (t :: ts) e.

(** The tokens of the text [s], as [parse] gets them from the tokenizer,
    and how the reading ends. *)
Definition scans (s : string) (ts : list token) (e : ending) : Prop :=
  match getNextToken (lex_fuel s) (initString s) with
  | LexToken t tk => scan tk t ts e
  | LexThrow ex => ts = [] /\ e = BadChar ex
  | LexOutOfFuel => False
  end.

(** The columns of the table for a list of tokens. *)
Definition columns (ts : list token) : list nat :=
  map (fun t => col (type t)) ts.

(** The tokens [w] are the beginning of the tokens of a chip. *)
Definition begins (w : list nat) : Prop :=
  exists w', derives Chip_sym (w ++ w').

(** ** The offsets the tokenizer comes to *)

(** The rule that matches first at the start of [str], with its handler
    and what it matches. *)
Fixpoint match_first (rules : list lex_rule) (str : string)
  : option (option string * string) :=
  match rules with
  | [] => None
  | (re, h) :: rest =>
      match re str with
      | Some m => Some (h, m)
      | None => match_first rest str
      end
  end.

(** The offsets of the text where the tokenizer looks for a match: the
    start of the text, and the end of every match found at such an
    offset, be it a token, a comment or a run of white space. *)
Inductive reaches (s : string) : nat -> Prop :=
| reaches_start : reaches s 0
| reaches_next o h m :
    reaches s o -> match_first lexRules (slice o s) = Some (h, m) ->
    reaches s (o + String.length m).

(** Offset [o] lies in a comment: a line comment or a block comment is
    matched at an offset the tokenizer comes to, and covers [o]. *)
Definition in_comment (s : string) (o : nat) : Prop :=
  exists a m,
    reaches s a
    /\ (re_line_comment (slice a s) = Some m
        \/ re_block_comment (slice a s) = Some m)
    /\ a <= o < a + String.length m.

(** ** Texts from tokens *)

(** A column and a text that go together: the literal of a keyword or of
    a punctuation mark, or an identifier for [ID]. *)
Definition token_valid (ct : nat * string) : Prop :=
  match fst ct with
  | 12 => snd ct = "CHIP"%string
  | 13 => snd ct = "IN"%string
  | 14 => snd ct = "OUT"%string
  | 15 => snd ct = "PARTS"%string
  | 16 => ident (snd ct) = true
  | 17 => snd ct = "{"%string
  | 18 => snd ct = "}"%string
  | 19 => snd ct = ";"%string
  | 20 => snd ct = ":"%string
  | 21 => snd ct = ","%string
  | 22 => snd ct = "("%string
  | 23 => snd ct = ")"%string
  | 24 => snd ct = "="%string
  | _ => False
  end.

(** The texts of the tokens, a space after each. *)
Definition print_tokens (ts : list (nat * string)) : string :=
  fold_right (fun ct rest => snd ct +++ " " +++ rest) EmptyString ts.

(** The text of a chip. *)
Definition chip_source (c : chip) : string := print_tokens (chip_tokens c).

(** A name of a chip or of a pin: a keyword or an identifier. *)
Definition name_ok (w : string) : Prop := keyword w = true \/ ident w = true.

Definition argument_ok (a : string * string) : Prop :=
  ident (fst a) = true /\ ident (snd a) = true.

Definition part_ok (pt : part) : Prop :=
  ident (part_name pt) = true
  /\ Forall argument_ok (first_argument pt :: more_arguments pt).

Definition section_ok (sec : section) : Prop :=
  match sec with
  | In_section first more | Out_section first more =>
      Forall name_ok (first :: more)
  | Parts_section first more => Forall part_ok (first :: more)
  end.

(** A chip the tokenizer reads back from its text: the chip and its pins
    are named by keywords or identifiers, the parts and their arguments
    by identifiers. *)
Definition chip_ok (c : chip) : Prop :=
  name_ok (chip_name c)
  /\ section_ok (section1 c) /\ section_ok (section2 c)
  /\ section_ok (section3 c).

(** * Proofs *)

(** ** Strings and the regular expressions *)

Lemma app_empty_r s : s +++ EmptyString = s.
Proof. induction s; simpl; congruence. Qed.

Lemma app_assoc' a b c : (a +++ b) +++ c = a +++ (b +++ c).
Proof. induction a; simpl; congruence. Qed.

Lemma app_length a b : String.length (a +++ b) = String.length a + String.length b.
Proof. induction a; simpl; lia. Qed.

Lemma slice_empty n : slice n EmptyString = EmptyString.
Proof. destruct n; reflexivity. Qed.

Lemma slice_length n s : String.length (slice n s) = String.length s - n.
Proof. revert s; induction n; intros [|c s]; simpl; auto. Qed.

Lemma slice_app m r : slice (String.length m) (m +++ r) = r.
Proof. induction m; simpl; auto. Qed.

Lemma slice_slice a b s : slice a (slice b s) = slice (b + a) s.
Proof.
  revert s; induction b; intros s; simpl; auto.
  destruct s; simpl; auto using slice_empty.
Qed.

Lemma take_slice n s : str_take n s +++ slice n s = s.
Proof. revert s; induction n; intros [|c s]; simpl; auto. f_equal; auto. Qed.

Lemma take_length n s : n <= String.length s -> String.length (str_take n s) = n.
Proof. revert s; induction n; intros [|c s]; simpl; intros; auto; try lia. rewrite IHn; lia. Qed.

Lemma take_app m r : str_take (String.length m) (m +++ r) = m.
Proof. induction m; simpl; [destruct r; reflexivity|congruence]. Qed.

Lemma take_add a b s :
  str_take (a + b) s = str_take a s +++ str_take b (slice a s).
Proof.
  revert s; induction a; intros s; simpl; auto.
  destruct s; simpl; [destruct b; reflexivity|]. f_equal; auto.
Qed.

Lemma slice_nonempty n s : n < String.length s -> slice n s <> EmptyString.
Proof.
  intros H E. pose proof (slice_length n s) as L. rewrite E in L. simpl in L. lia.
Qed.

Lemma slice_all n s : String.length s <= n -> slice n s = EmptyString.
Proof.
  intros H. pose proof (slice_length n s) as L.
  destruct (slice n s); auto. simpl in L. lia.
Qed.

Lemma prefix_app p s : starts_with p s = true -> s = p +++ slice (String.length p) s.
Proof.
  revert s; induction p as [|a p IH]; intros [|b s] H; simpl in *;
    auto; try discriminate.
  apply andb_prop in H as [Hab H]. apply Ascii.eqb_eq in Hab. subst b.
  f_equal; auto.
Qed.

Lemma take_while_prefix p s : s = take_while p s +++ slice (String.length (take_while p s)) s.
Proof. induction s; simpl; auto. destruct (p a); simpl; congruence. Qed.

Lemma until_close_prefix s body :
  until_close s = Some body -> s = (body +++ "*/") +++ slice (String.length (body +++ "*/")) s.
Proof.
  revert body; induction s; intros body H.
  - simpl in H. discriminate.
  - unfold until_close in H; fold until_close in H.
    destruct (starts_with "*/" (String a s)) eqn:P.
    + inversion H; subst. simpl (EmptyString +++ _). now apply prefix_app.
    + destruct (until_close s) eqn:U; [|discriminate].
      inversion H; subst. simpl. f_equal. now apply IHs.
Qed.

Lemma re_lit_sound lit : lit <> EmptyString -> re_sound (re_lit lit).
Proof.
  intros Hne s m. unfold re_lit. destruct (starts_with lit s) eqn:P; [|discriminate].
  intros [= <-]. split; auto using prefix_app.
Qed.

Lemma re_plus_sound p : re_sound (re_plus p).
Proof.
  intros s m. unfold re_plus. pose proof (take_while_prefix p s) as T.
  destruct (take_while p s) eqn:E; [discriminate|].
  intros [= <-]. split; [discriminate|exact T].
Qed.

Lemma prefix2_inv c1 c2 s :
  starts_with (String c1 (String c2 EmptyString)) s = true ->
  exists r, s = String c1 (String c2 r).
Proof.
  intros P. apply prefix_app in P. simpl in P. eauto.
Qed.

Lemma re_line_comment_sound : re_sound re_line_comment.
Proof.
  intros s m. unfold re_line_comment.
  destruct (starts_with "//" s) eqn:P; [|discriminate].
  apply prefix2_inv in P as [r ->].
  intros [= <-]. split; [discriminate|].
  simpl. do 2 f_equal. apply take_while_prefix.
Qed.

Lemma re_block_comment_sound : re_sound re_block_comment.
Proof.
  intros s m. unfold re_block_comment.
  destruct (starts_with "/*" s) eqn:P; [|discriminate].
  apply prefix2_inv in P as [r ->]. simpl slice.
  destruct (until_close r) eqn:U; [|discriminate].
  intros [= <-]. split; [discriminate|].
  apply until_close_prefix in U.
  simpl. do 2 f_equal. exact U.
Qed.

Lemma lexRules_sound : Forall (fun r : lex_rule => re_sound (fst r)) lexRules.
Proof.
  unfold lexRules.
  repeat (constructor; [first
    [ apply re_line_comment_sound | apply re_block_comment_sound
    | apply re_plus_sound | apply re_lit_sound; discriminate ] |]).
  constructor.
Qed.

(** ** The tokenizer keeps its invariant *)

Lemma scan_newlines_shift m : forall idx start line lbo,
  scan_newlines m idx start line lbo = scan_newlines m 0 (start + idx) line lbo.
Proof.
  induction m as [|c m IH]; intros; simpl; auto.
  destruct (Ascii.eqb c LF).
  - rewrite (IH (S idx)), (IH 1). f_equal; lia.
  - rewrite (IH (S idx)), (IH 1). f_equal; lia.
Qed.

Lemma scan_newlines_app a : forall b start line lbo,
  scan_newlines (a +++ b) 0 start line lbo
  = scan_newlines b 0 (start + String.length a)
      (fst (scan_newlines a 0 start line lbo))
      (snd (scan_newlines a 0 start line lbo)).
Proof.
  induction a as [|c a IH]; intros; simpl.
  - f_equal; lia.
  - destruct (Ascii.eqb c LF);
      rewrite (scan_newlines_shift (a +++ b)), (scan_newlines_shift a), IH;
      f_equal; lia.
Qed.

Lemma pos_of_app t m :
  pos_of (t +++ m)
  = scan_newlines m 0 (String.length t) (fst (pos_of t)) (snd (pos_of t)).
Proof. unfold pos_of. now rewrite scan_newlines_app. Qed.

Lemma take_all n s : String.length s <= n -> str_take n s = s.
Proof.
  revert s; induction n; intros [|c s] H; simpl in *; auto; try lia.
  f_equal. apply IHn. lia.
Qed.

Lemma take_prefix o m s :
  slice o s = m +++ slice (String.length m) (slice o s) ->
  str_take (o + String.length m) s = str_take o s +++ m.
Proof.
  intros H. rewrite take_add. f_equal. rewrite H. apply take_app.
Qed.

Lemma prefix_bound o m s :
  o <= String.length s ->
  slice o s = m +++ slice (String.length m) (slice o s) ->
  o + String.length m <= String.length s.
Proof.
  intros Ho H. apply (f_equal String.length) in H.
  rewrite app_length, !slice_length in H. lia.
Qed.

Lemma capture_inv s tk m :
  tk_inv s tk -> _cursor tk <= String.length s ->
  slice (_cursor tk) s = m +++ slice (String.length m) (slice (_cursor tk) s) ->
  tk_inv s (set_cursor (_cursor tk + String.length m) (_captureLocation m tk)).
Proof.
  intros [Hs Hc Hp Hcol] Hle Hm.
  pose proof (prefix_bound _ _ _ Hle Hm) as Hb.
  unfold _captureLocation.
  destruct (scan_newlines m 0 (_cursor tk) (_currentLine tk)
              (_currentLineBeginOffset tk)) as [line lbo] eqn:E.
  constructor; simpl; auto; try lia.
  rewrite (take_prefix _ _ _ Hm), pos_of_app, <- Hp. simpl.
  rewrite take_length by lia. now rewrite E.
Qed.

Lemma first_match_in rules str h m :
  first_match rules str h m -> exists re, In (re, h) rules /\ re str = Some m.
Proof.
  intros (before & re & after & -> & _ & Hm). exists re. split; auto.
  apply in_or_app. right. left. reflexivity.
Qed.

Lemma scan_rules_some rules str tk m h tk' :
  Forall (fun r : lex_rule => re_sound (fst r)) rules ->
  scan_rules rules str tk = Some (m, h, tk') ->
  first_match rules str h m
  /\ tk' = set_cursor (_cursor tk + String.length m) (_captureLocation m tk).
Proof.
  induction 1 as [|[re0 h0] rules Hre Hrules IH]; simpl; [discriminate|].
  unfold _match. destruct (re0 str) as [m0|] eqn:E.
  - destruct (Hre str m0 E) as [Hne _].
    assert (String.eqb m0 EmptyString = false) as ->
      by (apply String.eqb_neq; exact Hne).
    rewrite andb_false_r. intros [= <- <- <-].
    split; [exists [], re0, rules; repeat split; auto|].
    unfold _captureLocation.
    destruct (scan_newlines m0 0 (_cursor tk) (_currentLine tk)
              (_currentLineBeginOffset tk)); reflexivity.
  - intros H. destruct (IH H) as ((before & re & after & -> & Hb & Hm) & Htk).
    split; auto. exists ((re0, h0) :: before), re, after.
    repeat split; auto.
Qed.

Lemma scan_rules_none rules str tk :
  scan_rules rules str tk = None ->
  Forall (fun r : lex_rule => fst r str = None) rules.
Proof.
  induction rules as [|[re0 h0] rules IH]; simpl; [constructor|].
  unfold _match. destruct (re0 str) eqn:E; [discriminate|].
  intros H. constructor; auto.
Qed.

Lemma set_cursor_eof_inv s tk :
  tk_inv s tk -> _cursor tk = String.length s ->
  tk_inv s (set_cursor (S (_cursor tk)) tk).
Proof.
  intros [Hs Hc Hp Hcol] He. constructor.
  - exact Hs.
  - simpl. lia.
  - cbn [set_cursor _cursor _currentLine _currentLineBeginOffset].
    rewrite Hp, He, !take_all by lia. reflexivity.
  - simpl. lia.
Qed.

Lemma getNextToken_unfold fuel tk :
  getNextToken (S fuel) tk =
  if negb (hasMoreTokens tk) then LexToken EOF_TOKEN tk
  else
    match scan_rules lexRules (slice (_cursor tk) (_string tk)) tk with
    | Some (yytext, None, tk') => getNextToken fuel tk'
    | Some (yytext, Some tokenType, tk') =>
        LexToken (_toToken tokenType yytext tk') tk'
    | None =>
        if isEOF tk
        then LexToken EOF_TOKEN (set_cursor (S (_cursor tk)) tk)
        else LexThrow
               (throwUnexpectedToken tk (char0 (slice (_cursor tk) (_string tk)))
                  (_currentLine tk) (_currentColumn tk))
    end.
Proof. reflexivity. Qed.

Lemma getNextToken_spec s : forall fuel tk,
  tk_inv s tk -> _cursor tk <= String.length s ->
  String.length s + 2 <= fuel + _cursor tk ->
  match getNextToken fuel tk with
  | LexToken t tk' => tk_inv s tk' /\ _cursor tk < _cursor tk' /\ tok_inv s tk' t
  | LexThrow e => exists o, _cursor tk <= o < String.length s /\ lex_error_at s o e
  | LexOutOfFuel => False
  end.
Proof.
  induction fuel as [|fuel IH]; intros tk Hinv Hle Hfuel; [lia|].
  rewrite getNextToken_unfold. unfold hasMoreTokens.
  pose proof (inv_string _ _ Hinv) as Hs. rewrite Hs.
  destruct (Nat.leb_spec (_cursor tk) (String.length s)); [|lia].
  cbn [negb].
  destruct (scan_rules lexRules (slice (_cursor tk) s) tk)
    as [[[m h] tk']|] eqn:E.
  - destruct (scan_rules_some _ _ _ _ _ _ lexRules_sound E) as (Hfirst & ->).
    destruct (first_match_in _ _ _ _ Hfirst) as (re & Hin & Hm).
    pose proof lexRules_sound as Hsound.
    rewrite List.Forall_forall in Hsound.
    destruct (Hsound _ Hin _ _ Hm) as [Hne Hpre]. simpl in Hne, Hpre.
    pose proof (capture_inv _ _ _ Hinv Hle Hpre) as Hinv'.
    pose proof (prefix_bound _ _ _ Hle Hpre) as Hb.
    assert (0 < String.length m) by (destruct m; simpl; [congruence|lia]).
    destruct h as [ty|]; cbv beta iota.
    + split; [exact Hinv'|]. split; [simpl; lia|].
      destruct Hinv as [_ _ Hp Hcol].
      unfold _toToken, _captureLocation.
      destruct (scan_newlines m 0 (_cursor tk) (_currentLine tk)
                  (_currentLineBeginOffset tk)) as [line lbo] eqn:Esc.
      right. eexists. split; [|simpl; lia].
      constructor; simpl; try reflexivity; auto; try lia.
      * exists (_currentLineBeginOffset tk). simpl. split; auto.
      * exists lbo. simpl. split; auto.
        rewrite (take_prefix _ _ _ Hpre), pos_of_app, <- Hp. simpl.
        rewrite take_length by lia. now rewrite Esc.
    + assert (IH' := IH _ Hinv' ltac:(simpl; lia) ltac:(simpl; lia)).
      clear IH; rename IH' into IH.
      destruct (getNextToken fuel _) as [t tk''|e|]; auto.
      * destruct IH as (Hi & Hlt & Ht). split; [assumption|].
        split; [|assumption]. simpl in Hlt. lia.
      * destruct IH as (o & Ho & He). exists o. split; auto. simpl in Ho. lia.
  - unfold isEOF. rewrite Hs.
    destruct (Nat.eqb_spec (_cursor tk) (String.length s)) as [Heq|Hneq].
    + split; [now apply set_cursor_eof_inv|]. split; [simpl; lia|].
      left. split; auto. simpl. lia.
    + exists (_cursor tk). split; [lia|].
      pose proof (slice_nonempty (_cursor tk) s ltac:(lia)) as Hne.
      destruct (slice (_cursor tk) s) as [|c rest] eqn:Esl; [congruence|].
      exists c, rest, (_currentLineBeginOffset tk), (_currentLine tk).
      repeat split; auto.
      * now apply scan_rules_none in E.
      * apply (inv_pos _ _ Hinv).
      * unfold throwUnexpectedToken. rewrite Hs. simpl.
        now rewrite (inv_col _ _ Hinv) by lia.
Qed.

Lemma initString_inv s : tk_inv s (initString s).
Proof. constructor; simpl; auto; lia. Qed.

(** ** The table *)

Lemma assoc_in {V} c (row : list (nat * V)) e :
  assoc Nat.eqb c row = Some e -> In (c, e) row.
Proof.
  induction row as [|[c' e'] row IH]; simpl; [discriminate|].
  destruct (Nat.eqb_spec c c') as [->|]; [intros [= ->]; auto|auto].
Qed.

Lemma in_combine_seq {A} (l : list A) : forall start s x,
  nth_error l s = Some x -> In (start + s, x) (combine (seq start (length l)) l).
Proof.
  induction l as [|a l IH]; intros start [|s] x H; simpl in *; try discriminate.
  - inversion H; subst. left. f_equal. lia.
  - right. replace (start + S s) with (S start + s) by lia. auto.
Qed.

Lemma table_forall_spec P :
  table_forall P = true ->
  forall s c e, table_lookup s c = Some e -> P s c e = true.
Proof.
  unfold table_forall, table_lookup. intros H s c e.
  destruct (nth_error table s) as [row|] eqn:E; [|discriminate].
  intros Hc. apply assoc_in in Hc.
  rewrite forallb_forall in H.
  specialize (H (s, row) (in_combine_seq table 0 s row E)). simpl in H.
  rewrite forallb_forall in H. exact (H (c, e) Hc).
Qed.

Lemma check_table : table_forall check_entry = true.
Proof. vm_compute. reflexivity. Qed.

Lemma preds_0 : preds 0 = [].
Proof. vm_compute. reflexivity. Qed.

Lemma preds_30 : preds 30 = [0].
Proof. vm_compute. reflexivity. Qed.

Lemma rank_le t : rank t <= 2.
Proof.
  unfold rank.
  do 43 (destruct t as [|t]; [simpl; lia|]). simpl. destruct t; lia.
Qed.

Lemma existsb_eqb_In s l : existsb (Nat.eqb s) l = true -> In s l.
Proof.
  rewrite existsb_exists. intros (x & Hin & Heq).
  apply Nat.eqb_eq in Heq. now subst.
Qed.

Lemma shift_facts s c t :
  table_lookup s c = Some (Shift t) ->
  12 <= c <= 24 /\ nth_error acc_sym t = Some c /\ In s (preds t).
Proof.
  intros H. apply (table_forall_spec _ check_table) in H. unfold check_entry in H.
  apply andb_prop in H as [H H3]. apply andb_prop in H as [H H2].
  apply andb_prop in H as [H0 H1].
  apply Nat.leb_le in H0, H1. apply existsb_eqb_In in H3.
  destruct (nth_error acc_sym t) as [X|]; [|discriminate].
  apply Nat.eqb_eq in H2. subst. auto.
Qed.

Lemma goto_facts s c t :
  table_lookup s c = Some (Goto t) ->
  c < 12 /\ nth_error acc_sym t = Some c /\ In s (preds t).
Proof.
  intros H. apply (table_forall_spec _ check_table) in H. unfold check_entry in H.
  apply andb_prop in H as [H H3]. apply andb_prop in H as [H1 H2].
  apply Nat.ltb_lt in H1. apply existsb_eqb_In in H3.
  destruct (nth_error acc_sym t) as [X|]; [|discriminate].
  apply Nat.eqb_eq in H2. subst. auto.
Qed.

Lemma accept_facts s c :
  table_lookup s c = Some Accept -> s = 30 /\ c = 25.
Proof.
  intros H. apply (table_forall_spec _ check_table) in H. unfold check_entry in H.
  apply andb_prop in H as [H1 H2].
  apply Nat.eqb_eq in H1, H2. auto.
Qed.

Lemma reduce_facts s c p :
  table_lookup s c = Some (Reduce p) ->
  12 <= c /\
  exists A n act r,
    nth_error productions p = Some (Some A, n, act)
    /\ nth_error rhs p = Some r
    /\ length r = n /\ 1 <= n
    /\ check_path (fun t' => (2 <=? n) || (rank t' <? rank s)) (rev r) s A = true.
Proof.
  intros H. apply (table_forall_spec _ check_table) in H. unfold check_entry in H.
  apply andb_prop in H as [H0 H]. apply Nat.leb_le in H0. split; auto.
  destruct (nth_error productions p) as [[[[A|] n] act]|]; try discriminate.
  destruct (nth_error rhs p) as [r|]; try discriminate.
  apply andb_prop in H as [H H3]. apply andb_prop in H as [H1 H2].
  apply Nat.eqb_eq in H1. apply Nat.leb_le in H2.
  exists A, n, act, r. auto.
Qed.

(** Extension of the typing of the store. *)
Lemma elem_ok_mono ty ty' k v :
  elem_ok ty k v -> elem_ok (ty ++ ty') k v.
Proof.
  destruct k; simpl; auto.
  intros (n & l & -> & Hn & Hl). exists n, l. repeat split; auto.
  now apply lookup_app_l_Some.
Qed.

Lemma sym_ok_mono ty ty' m m' X v :
  m_inputs m' = m_inputs m -> m_outputs m' = m_outputs m ->
  m_parts m' = m_parts m ->
  sym_ok ty m X v -> sym_ok (ty ++ ty') m' X v.
Proof.
  intros Hi Ho Hp.
  destruct X as [|[|[|[|[|[|[|[|[|[|[|[|X]]]]]]]]]]]]; cbn [sym_ok]; auto.
  1: { intros (c & -> & n & -> & Hn). eexists; split; eauto.
       exists n. now rewrite Hi, Ho, Hp. }
  all: try (intros (l & -> & Hl); exists l; split; auto;
            now apply lookup_app_l_Some).
  all: intros (c & -> & Hc); exists c; split; auto.
  now apply (elem_ok_mono ty ty' KCall).
Qed.

Lemma valid_stack_mono ty ty' m m' stack :
  m_inputs m' = m_inputs m -> m_outputs m' = m_outputs m ->
  m_parts m' = m_parts m ->
  valid_stack ty m stack -> valid_stack (ty ++ ty') m' stack.
Proof.
  intros Hi Ho Hp. induction 1; econstructor; eauto using sym_ok_mono.
Qed.

Lemma valid_top_lt ty m stack :
  valid_stack ty m stack -> top_state stack < length table.
Proof.
  destruct 1 as [|e t X stack _ Hacc _ _]; simpl.
  - vm_compute. lia.
  - assert (nth_error acc_sym t <> None) as H by congruence.
    apply nth_error_Some in H. exact H.
Qed.

Lemma valid_top_0 ty m stack :
  valid_stack ty m stack -> top_state stack = 0 -> stack = [].
Proof.
  destruct 1 as [|e t X stack _ _ Hin _]; simpl; auto.
  intros ->. rewrite preds_0 in Hin. destruct Hin.
Qed.

Lemma pop_valid ty m Q A : forall rhs_rev t stack,
  valid_stack ty m stack -> top_state stack = t ->
  check_path Q rhs_rev t A = true ->
  exists es stack' t',
    pop_frames (length rhs_rev) stack = Some (es, stack')
    /\ valid_stack ty m stack'
    /\ Forall2 (fun X e => sym_ok ty m X (semanticValue e)) (rev rhs_rev) es
    /\ length stack' + length rhs_rev = length stack
    /\ table_lookup (top_state stack') A = Some (Goto t')
    /\ Q t' = true.
Proof.
  induction rhs_rev as [|X more IH]; intros t stack Hv Ht Hc; simpl in Hc.
  - subst t. destruct (table_lookup (top_state stack) A) as [[t'| | |]|] eqn:E;
      try discriminate.
    exists [], stack, t'. simpl. repeat split; auto.
  - apply andb_prop in Hc as [Hc H3]. apply andb_prop in Hc as [H1 H2].
    destruct Hv as [|e t0 X0 stack Hv Hacc Hin Hsym].
    + simpl in Ht. subst t. discriminate.
    + simpl in Ht. subst t0. rewrite Hacc in H1. apply Nat.eqb_eq in H1. subst X0.
      rewrite forallb_forall in H3. specialize (H3 _ Hin).
      destruct (IH _ _ Hv eq_refl H3) as (es & stack' & t' & Hp & Hv' & Hall & Hlen & Hg & HQ).
      exists (es ++ [e]), stack', t'. simpl. rewrite Hp.
      repeat split; auto; [|lia].
      apply Forall2_app; auto.
Qed.

(** ** The semantic actions keep the store well typed *)

Lemma store_ok_length ty h : store_ok ty h -> length ty = length h.
Proof. apply Forall2_length. Qed.

Lemma store_ok_lookup ty h l k :
  store_ok ty h -> ty !! l = Some k ->
  exists vs, h !! l = Some vs /\ Forall (elem_ok ty k) vs.
Proof. intros H Hl. apply (Forall2_lookup_l _ _ _ _ _ H Hl). Qed.

Lemma store_ok_push ty h l k arr vs :
  store_ok ty h -> ty !! l = Some k -> h !! l = Some arr ->
  Forall (elem_ok ty k) vs ->
  store_ok ty (<[l := arr ++ vs]> h).
Proof.
  intros H Hl Harr Hvs. unfold store_ok.
  rewrite <- (list_insert_id ty l k Hl).
  apply Forall2_insert.
  - rewrite (list_insert_id ty l k Hl). exact H.
  - rewrite (list_insert_id ty l k Hl).
    destruct (store_ok_lookup _ _ _ _ H Hl) as (vs0 & E & Hall).
    rewrite Harr in E. inversion E; subst.
    apply Forall_app. split; auto.
Qed.

Lemma store_ok_alloc ty h k v :
  store_ok ty h -> elem_ok ty k v ->
  store_ok (ty ++ [k]) (h ++ [[v]]) /\ (ty ++ [k]) !! length h = Some k.
Proof.
  intros H Hv. split.
  - apply Forall2_app.
    + eapply Forall2_impl; [exact H|]. intros k0 vs Hall.
      eapply Forall_impl; [exact Hall|]. intros x. apply elem_ok_mono.
    + repeat constructor. now apply elem_ok_mono.
  - rewrite <- (store_ok_length _ _ H).
    rewrite lookup_app_r by lia. now rewrite Nat.sub_diag.
Qed.

Lemma wf_mod_mono_store ty m h :
  wf_mod ty m -> store_ok ty h -> wf_mod ty (set_store h m).
Proof. intros [H1 H2 H3 H4] H. constructor; simpl; auto. Qed.

Lemma keyword_is_prefixed w : keyword w = true -> keyword_prefixed w = true.
Proof.
  unfold keyword. intros H.
  repeat (apply orb_prop in H as [H|H]);
    apply String.eqb_eq in H; subst w; reflexivity.
Qed.

Lemma ident_word w : ident w = true -> word_run w = true.
Proof. unfold ident. intros H. now apply andb_prop in H as [-> _]. Qed.

Lemma ident_id_text w : ident w = true -> id_text w = true.
Proof.
  unfold ident, id_text. intros H. apply andb_prop in H as [-> H]. simpl.
  destruct (keyword w) eqn:E; auto.
  apply keyword_is_prefixed in E. now rewrite E in H.
Qed.

Lemma keyword_word w : keyword w = true -> word_run w = true.
Proof.
  unfold keyword. intros H.
  repeat (apply orb_prop in H as [H|H]);
    apply String.eqb_eq in H; subst w; reflexivity.
Qed.

Ltac inv_forall2 :=
  repeat match goal with
  | H : Forall2 _ (_ :: _) _ |- _ =>
      apply Forall2_cons_inv_l in H as (? & ? & ? & H & ->)
  | H : Forall2 _ [] _ |- _ => apply Forall2_nil_inv_l in H as ->
  end.

Ltac use_sym :=
  repeat match goal with
  | H : sym_ok _ _ _ _ |- _ => progress cbn [sym_ok elem_ok text_ok] in H
  | H : exists _, _ |- _ => destruct H
  | H : _ /\ _ |- _ => destruct H
  end.

Ltac each_production p Hp :=
  destruct p as [|p];
  [ | simpl in Hp;
      first [ solve [destruct p; discriminate Hp] | each_production p Hp ] ].

Lemma value_of_some e v : semanticValue e = Some v -> value_of e = v.
Proof. unfold value_of. now intros ->. Qed.

Lemma wf_mod_set_loc ty m l : wf_mod ty m -> wf_mod ty (set_loc l m).
Proof. intros [H1 H2 H3 H4]. constructor; simpl; auto. Qed.

Lemma wf_mod_set_result ty m v : wf_mod ty m -> wf_mod ty (set_result v m).
Proof. intros [H1 H2 H3 H4]. constructor; simpl; auto. Qed.

Lemma array_push_ok ty m l k vs :
  wf_mod ty m -> ty !! l = Some k -> Forall (elem_ok ty k) vs ->
  exists m', array_push (VArr l) vs m = Normal m'
    /\ wf_mod ty m' /\ same_vars m m' /\ yy_result m' = yy_result m.
Proof.
  intros Hwf Hl Hvs. unfold array_push.
  destruct (store_ok_lookup _ _ _ _ (wf_store _ _ Hwf) Hl) as (arr & E & Harr).
  rewrite E.
  eexists. split; [reflexivity|]. split; [|split; [repeat split|reflexivity]].
  apply wf_mod_mono_store; auto.
  eapply store_ok_push; eauto using wf_store.
Qed.

Lemma push_spread_ok ty m array l k :
  wf_mod ty m -> ty !! array = Some k -> ty !! l = Some k ->
  exists m', push_spread array (VArr l) m = Normal m'
    /\ wf_mod ty m' /\ same_vars m m' /\ yy_result m' = yy_result m.
Proof.
  intros Hwf Ha Hl. unfold push_spread, spread.
  destruct (store_ok_lookup _ _ _ _ (wf_store _ _ Hwf) Hl) as (vs & -> & Hvs).
  eapply array_push_ok; eauto.
Qed.

Lemma new_array_ok ty m k v :
  wf_mod ty m -> elem_ok ty k v ->
  wf_mod (ty ++ [k]) (new_array v m)
  /\ same_vars m (new_array v m)
  /\ exists l, yy_result (new_array v m) = VArr l /\ (ty ++ [k]) !! l = Some k.
Proof.
  intros [H1 H2 H3 H4] Hv.
  destruct (store_ok_alloc _ _ k v H1 Hv) as [Hs Hl].
  split; [constructor; simpl; auto using lookup_app_l_Some|].
  split; [repeat split|]. eexists; split; [reflexivity|exact Hl].
Qed.

(** The action of a production, run on a right-hand side of well-typed
    values, ends normally in a well-typed module state with a well-typed
    result. *)
Lemma action_ok ty m p A n act r es :
  nth_error productions p = Some (Some A, n, act) ->
  nth_error rhs p = Some r ->
  Forall2 (fun X e => sym_ok ty m X (semanticValue e)) r es ->
  wf_mod ty m ->
  match act with
  | Some f =>
      exists ty' m',
        f (map value_of es) (map eloc es) m = Normal m'
        /\ wf_mod (ty ++ ty') m' /\ same_vars m m'
        /\ sym_ok (ty ++ ty') m' A (Some (yy_result m'))
  | None => sym_ok ty m A None
  end.
Proof.
  intros Hp Hr Hall Hwf.
  assert (Hnil : forall m', wf_mod ty m' -> wf_mod (ty ++ []) m')
    by (intros; now rewrite app_nil_r).
  each_production p Hp.
  all: simpl in Hp, Hr; inversion Hp; inversion Hr; subst; clear Hp Hr;
    inv_forall2; use_sym; subst;
    repeat match goal with
    | H : semanticValue _ = Some _ |- _ => apply value_of_some in H
    end.
  all: try exact I.
  all: cbn [map arg larg nth act_first act_chip act_chipcall act_argument].
  all: repeat match goal with H : value_of _ = _ |- _ => rewrite H; clear H end.
  all: lazymatch goal with
    | |- context [act_inputs] => unfold act_inputs
    | |- context [act_outputs] => unfold act_outputs
    | |- context [act_parts] => unfold act_parts
    | |- context [act_single] => unfold act_single
    | |- context [act_append] => unfold act_append
    | _ => idtac
    end; cbn [arg larg nth Nat.sub].
  all: lazymatch goal with
    | |- context [push_spread ?a (VArr ?l) ?m0] =>
        (* inputs.push(..._2), outputs.push(..._2), parts.push(..._3) *)
        edestruct (push_spread_ok ty m0 a l) as (m' & E & Hwf' & Hsame & _);
        [ apply wf_mod_set_loc; exact Hwf
        | simpl; first [apply (wf_inputs _ _ Hwf) | apply (wf_outputs _ _ Hwf)
                       | apply (wf_parts _ _ Hwf)]
        | eassumption
        | exists [], m'; split; [exact E|]; split; [now apply Hnil|];
          split; [exact Hsame | exact I] ]
    | |- context [new_array ?w ?m0] =>
        (* __ = [_1] *)
        let k := lazymatch w with
                 | VStr _ => constr:(KStr)
                 | VArgument _ _ => constr:(KArg)
                 | _ => constr:(KCall)
                 end in
        destruct (new_array_ok ty m0 k w) as (Hwf' & Hsame & l & El & Hl);
        [ apply wf_mod_set_loc; exact Hwf
        | cbn [elem_ok]; eauto 8 using ident_word, ident_id_text, keyword_word
        | exists [k]; eexists; split; [reflexivity|]; split; [exact Hwf'|];
          split; [exact Hsame|]; rewrite El; cbn [sym_ok]; eauto ]
    | Hl : _ !! ?l = Some ?k |- context [array_push (VArr ?l) [?w] ?m0] =>
        (* _1.push(_k); __ = _1 *)
        destruct (array_push_ok ty m0 l k [w]) as (m' & E & Hwf' & Hsame & _);
        [ apply wf_mod_set_loc; exact Hwf | exact Hl
        | constructor;
          [cbn [elem_ok]; eauto 8 using ident_word, ident_id_text, keyword_word
          |constructor]
        | rewrite E; exists []; eexists; split; [reflexivity|];
          split; [apply Hnil; now apply wf_mod_set_result|];
          split; [exact Hsame|]; rewrite app_nil_r; cbn [sym_ok]; eauto ]
    | _ =>
        (* __ = _1 and the object literals *)
        exists []; eexists; split; [reflexivity|];
        split; [apply Hnil; apply wf_mod_set_result, wf_mod_set_loc; exact Hwf|];
        split; [repeat split|];
        rewrite app_nil_r;
        cbn [sym_ok elem_ok yy_result set_result set_loc m_inputs m_outputs
               m_parts];
        unfold is_chip;
        cbn [yy_result set_result set_loc m_inputs m_outputs m_parts];
        eauto 10 using ident_word, ident_id_text, keyword_word
    end.
Qed.

(** ** Tokens and errors *)

Lemma is_word_not_space c : is_word c = true -> is_space c = false.
Proof.
  destruct c as [[] [] [] [] [] [] [] []]; vm_compute; congruence.
Qed.

Lemma re_lit_inv lit str v : re_lit lit str = Some v -> v = lit.
Proof. unfold re_lit. destruct (starts_with lit str); congruence. Qed.

Lemma re_plus_inv p str v :
  re_plus p str = Some v -> exists c v', v = String c v' /\ p c = true.
Proof.
  unfold re_plus. destruct str as [|c str]; simpl; [discriminate|].
  destruct (p c) eqn:E; [|discriminate]. intros [= <-]. eauto.
Qed.

Lemma re_lit_none lit str :
  re_lit lit str = None -> starts_with lit str = false.
Proof. unfold re_lit. destruct (starts_with lit str); congruence. Qed.

Lemma prefix_of_prefix a : forall v r,
  starts_with a v = true -> starts_with a (v +++ r) = true.
Proof.
  induction a as [|c a IH]; intros [|d v] r H; simpl in *;
    try discriminate; auto.
  apply andb_prop in H as [-> H]. simpl. auto.
Qed.

Lemma str_forallb_take_while p s : str_forallb p (take_while p s) = true.
Proof.
  induction s as [|c s IH]; simpl; auto.
  destruct (p c) eqn:E; simpl; auto. now rewrite E.
Qed.

(** The text of an [ID] token: the keyword rules come first. *)
Lemma id_rule_text str v :
  Forall (fun r : lex_rule => fst r str = None)
    [ (re_lit "CHIP", Some "CHIP"%string); (re_lit "IN", Some "IN"%string);
      (re_lit "OUT", Some "OUT"%string); (re_lit "PARTS", Some "PARTS"%string) ] ->
  re_plus is_word str = Some v -> ident v = true.
Proof.
  intros Hnone Hm.
  pose proof (re_plus_sound is_word str v Hm) as [Hne Hpre].
  assert (Hall : str_forallb is_word v = true).
  { unfold re_plus in Hm. pose proof (str_forallb_take_while is_word str) as H.
    destruct (take_while is_word str); [discriminate|]. now inversion Hm; subst. }
  assert (Hkw : forall kw, starts_with kw str = false ->
                           starts_with kw v = false).
  { intros kw Hp. destruct (starts_with kw v) eqn:E; auto.
    rewrite Hpre in Hp. now rewrite (prefix_of_prefix _ _ _ E) in Hp. }
  inversion Hnone as [|? ? H1 Hn1]; subst. inversion Hn1 as [|? ? H2 Hn2]; subst.
  inversion Hn2 as [|? ? H3 Hn3]; subst. inversion Hn3 as [|? ? H4 _]; subst.
  simpl in H1, H2, H3, H4.
  apply re_lit_none, Hkw in H1, H2, H3, H4.
  unfold ident, word_run, keyword_prefixed. rewrite Hall, H1, H2, H3, H4.
  apply String.eqb_neq in Hne. now rewrite Hne.
Qed.

(** What the first matching rule matches, when its handler returns a token
    type. *)
Lemma token_rule ty str v :
  first_match lexRules str (Some ty) v ->
  (exists col, assoc String.eqb ty tokens = Some col /\ 12 <= col <= 24
               /\ text_ok col v)
  /\ String.eqb ty EOF = false
  /\ exists c v', v = String c v' /\ is_space c = false.
Proof.
  intros (before & re & after & E & Hb & Hm). unfold lexRules in E.
  assert (Hkw : Forall (fun r : lex_rule => fst r str = None) (skipn 3 before)
                \/ length before < 7).
  { destruct before as [|r0 [|r1 [|r2 before]]]; simpl; auto; try (right; lia).
    left. now do 3 apply Forall_cons_1 in Hb as [_ Hb]. }
  clear Hb.
  do 16 (destruct before as [|? before]; simpl in E;
    [ inversion E; subst; clear E;
      first [ apply re_lit_inv in Hm; subst v;
              split; [eexists; split; [reflexivity|split; [lia|reflexivity]]|];
              split; [reflexivity|]; eexists _, _; split; reflexivity
            | destruct Hkw as [Hkw|Hkw]; [|simpl in Hkw; lia];
              simpl in Hkw;
              pose proof (id_rule_text _ _ Hkw Hm) as Hid;
              apply re_plus_inv in Hm as (c & v' & -> & Hc);
              split; [eexists; split; [reflexivity|split; [lia|exact Hid]]|];
              split; [reflexivity|]; exists c, v'; split; auto;
              now apply is_word_not_space ]
    | injection E as ? E; subst ]).
  all: try (destruct before; discriminate).
Qed.

Lemma sym_ok_terminal ty m c w :
  12 <= c -> text_ok c w -> sym_ok ty m c (Some (VStr w)).
Proof.
  intros H Hw. do 12 (destruct c as [|c]; [lia|]). cbn [sym_ok]. eauto.
Qed.

Lemma token_at_error s tk t l :
  _string tk = s -> token_at s t l ->
  unexpectedToken tk t
  = throwUnexpectedToken tk (value t) (startLine l) (startColumn l)
  /\ syntax_error_at s (startOffset l) (value t)
       (throwUnexpectedToken tk (value t) (startLine l) (startColumn l)).
Proof.
  intros Hs [Hloc Hfirst Hend Hb (bol & Hpos & Hcol) _].
  destruct (first_match_in _ _ _ _ Hfirst) as (re & Hin & Hm).
  pose proof lexRules_sound as Hsound. rewrite List.Forall_forall in Hsound.
  destruct (Hsound _ Hin _ _ Hm) as [_ Hpre]. simpl in Hpre.
  destruct (token_rule _ _ _ Hfirst) as (_ & Hne & c & v' & Hv & Hc).
  split.
  - unfold unexpectedToken. now rewrite Hne, Hloc.
  - rewrite Hv in Hpre. simpl in Hpre.
    exists c, (v' +++ slice (String.length (value t)) (slice (startOffset l) s)),
      (startLine l), bol.
    repeat split; auto.
    + rewrite Hpre at 1. rewrite Hv. reflexivity.
    + exists v'. eexists. split; [exact Hv|reflexivity].
    + unfold throwUnexpectedToken. now rewrite Hs, Hcol.
Qed.

Lemma unexpected_token_good s tk t :
  tk_inv s tk -> tok_inv s tk t -> good_error s (unexpectedToken tk t).
Proof.
  intros Hinv [[-> _]|(l & Hat & _)].
  - left. reflexivity.
  - right. destruct (token_at_error s tk t l (inv_string _ _ Hinv) Hat) as [-> H].
    eauto.
Qed.

Lemma lex_error_good s o e : lex_error_at s o e -> good_error s e.
Proof.
  intros (c & rest & bol & line & Hsl & Hnone & Hpos & ->).
  right. exists o, (String c EmptyString), c, rest, line, bol.
  repeat split; auto.
  - unfold lexRules in Hnone.
    inversion Hnone as [|? ? _ H1]; subst. inversion H1 as [|? ? _ H2]; subst.
    inversion H2 as [|? ? H3 _]; subst. simpl in H3.
    unfold re_plus in H3. simpl in H3. destruct (is_space c); congruence.
  - exists EmptyString, rest. split; reflexivity.
Qed.

Lemma token_column s tk t c :
  tok_inv s tk t -> assoc String.eqb (type t) tokens = Some c ->
  (c = 25 /\ t = EOF_TOKEN /\ _cursor tk = String.length s + 1)
  \/ (12 <= c <= 24 /\ text_ok c (value t)
      /\ exists l, token_at s t l /\ _cursor tk <= String.length s).
Proof.
  intros [[-> Hc]|(l & Hat & Hc)] Hcol.
  - left. vm_compute in Hcol. inversion Hcol. auto.
  - right. pose proof (ta_rule _ _ _ Hat) as Hfirst.
    destruct (token_rule _ _ _ Hfirst) as ((col & Hcol' & Hrange & Htext) & _).
    rewrite Hcol in Hcol'. inversion Hcol'; subst col. eauto.
Qed.

(** ** One turn of the loop, and the loop *)

Lemma same_vars_refl m : same_vars m m.
Proof. repeat split. Qed.

Lemma wf_mod_nil ty m : wf_mod ty m -> exists ty', wf_mod (ty ++ ty') m.
Proof. exists []. now rewrite app_nil_r. Qed.

Lemma Inv_nil s ty st : Inv s ty st -> exists ty', Inv s (ty ++ ty') st.
Proof. exists []. now rewrite app_nil_r. Qed.

Lemma throw_ok s ty st e :
  Inv s ty st -> good_error s e -> step_ok s ty st (Finish (Throw e) (p_mod st)).
Proof.
  intros [_ _ Hm _] He. split; [now apply wf_mod_nil|].
  split; [apply same_vars_refl|exact He].
Qed.

Lemma do_shift_ok s ty st c n :
  Inv s ty st ->
  assoc String.eqb (type (p_token st)) tokens = Some c ->
  table_lookup (top_state (p_stack st)) c = Some (Shift n) ->
  step_ok s ty st (do_shift c n st).
Proof.
  intros HI Hcol Hsh. pose proof HI as [Htk Htok Hm Hst].
  destruct (shift_facts _ _ _ Hsh) as (Hc & Hacc & Hin).
  destruct (token_column _ _ _ _ Htok Hcol)
    as [(-> & _)|(_ & Htext & l & Hat & Hcur)]; [lia|].
  unfold do_shift. rewrite (inv_string _ _ Htk).
  pose proof (getNextToken_spec s (lex_fuel s) _ Htk Hcur) as Hlex.
  unfold lex_fuel in *. specialize (Hlex ltac:(lia)).
  destruct (getNextToken _ _) as [t' tk'|e|].
  - destruct Hlex as (Htk' & Hlt & Htok').
    split; [|split; [|split; [discriminate|apply same_vars_refl]]].
    + apply Inv_nil. constructor; simpl; auto.
      econstructor; eauto. simpl. apply sym_ok_terminal; [lia|exact Htext].
    + unfold measure. simpl.
      pose proof (rank_le n). pose proof (inv_cursor _ _ Htk').
      lia.
  - destruct Hlex as (o & _ & He). apply throw_ok; auto.
    eapply lex_error_good; eauto.
  - destruct Hlex.
Qed.

Lemma do_reduce_ok s ty st c p :
  Inv s ty st ->
  table_lookup (top_state (p_stack st)) c = Some (Reduce p) ->
  step_ok s ty st (do_reduce p st).
Proof.
  intros HI Hred. pose proof HI as [Htk Htok Hm Hst].
  destruct (reduce_facts _ _ _ Hred)
    as (_ & A & n & act & r & Hprod & Hrhs & Hlen & Hn & Hpath).
  destruct (pop_valid ty (p_mod st) _ A _ _ _ Hst eq_refl Hpath)
    as (es & stack' & t' & Hpop & Hst' & Hall & Hsz & Hgoto & HQ).
  rewrite length_rev, Hlen in Hpop, Hsz. rewrite rev_involutive in Hall.
  pose proof (action_ok _ _ _ _ _ _ _ _ Hprod Hrhs Hall Hm) as Hact.
  destruct (goto_facts _ _ _ Hgoto) as (_ & Hacc & Hin).
  unfold do_reduce. rewrite Hprod, Hpop.
  unfold table_lookup in Hgoto.
  destruct (nth_error table (top_state stack')) as [row|] eqn:Erow;
    [|discriminate].
  assert (Hmeasure : forall tok m0 e0,
    measure s {| p_tokenizer := p_tokenizer st; p_stack := (e0, t') :: stack';
                 p_token := tok; p_mod := m0 |} < measure s st).
  { intros. unfold measure. simpl.
    pose proof (rank_le t').
    destruct (Nat.leb_spec 2 n); simpl in HQ.
    - lia.
    - apply Nat.ltb_lt in HQ. assert (n = 1) by lia. subst n. lia. }
  destruct act as [f|].
  - destruct Hact as (ty' & m' & -> & Hwf' & Hsame & Hsym).
    rewrite Hgoto.
    split; [|split; [apply Hmeasure|split; [discriminate|exact Hsame]]].
    exists ty'. destruct Hsame as (Hi & Ho & Hp).
    constructor; simpl; auto.
    econstructor; eauto using valid_stack_mono.
  - rewrite Hgoto.
    split; [|split; [apply Hmeasure|split; [discriminate|apply same_vars_refl]]].
    apply Inv_nil. constructor; simpl; auto.
    econstructor; eauto.
Qed.

Lemma do_accept_ok s ty st c :
  Inv s ty st ->
  assoc String.eqb (type (p_token st)) tokens = Some c ->
  table_lookup (top_state (p_stack st)) c = Some Accept ->
  step_ok s ty st (do_accept st).
Proof.
  intros HI Hcol Hacc. pose proof HI as [Htk Htok Hm Hst].
  destruct (accept_facts _ _ Hacc) as [Htop ->].
  destruct (token_column _ _ _ _ Htok Hcol) as [(_ & _ & Hcur)|(? & _)]; [|lia].
  unfold do_accept.
  destruct Hst as [|e t X stack Hst Hsym Hin Hok]; [discriminate|].
  simpl in Htop. subst t. rewrite preds_30 in Hin.
  destruct Hin as [Hin|[]]. symmetry in Hin.
  apply (valid_top_0 _ _ _ Hst) in Hin. subst stack.
  unfold hasMoreTokens. rewrite (inv_string _ _ Htk), Hcur.
  destruct (Nat.leb_spec (String.length s + 1) (String.length s)); [lia|].
  vm_compute in Hsym. inversion Hsym; subst X.
  destruct Hok as (v & Hv & Hchip). rewrite Hv.
  split; [now apply wf_mod_nil|]. split; [apply same_vars_refl|exact Hchip].
Qed.

Lemma parse_step_ok s ty st :
  Inv s ty st -> step_ok s ty st (parse_step st).
Proof.
  intros HI. pose proof HI as [Htk Htok Hm Hst].
  unfold parse_step.
  pose proof (valid_top_lt _ _ _ Hst) as Hlt.
  destruct (nth_error table (top_state (p_stack st))) as [row|] eqn:Erow.
  2: { apply nth_error_None in Erow. lia. }
  destruct (assoc String.eqb (type (p_token st)) tokens) as [c|] eqn:Ecol.
  2: { apply throw_ok; auto. now apply unexpected_token_good. }
  assert (Hlook : table_lookup (top_state (p_stack st)) c = assoc Nat.eqb c row)
    by (unfold table_lookup; now rewrite Erow).
  destruct (assoc Nat.eqb c row) as [[t|t|p|]|] eqn:Eentry.
  - destruct (goto_facts _ _ _ Hlook) as (Hc & _).
    destruct (token_column _ _ _ _ Htok Ecol) as [(-> & _)|(? & _)]; lia.
  - now apply do_shift_ok.
  - eapply do_reduce_ok; eauto.
  - now apply (do_accept_ok s ty st c).
  - apply throw_ok; auto. now apply unexpected_token_good.
Qed.

Lemma parse_loop_ok s : forall fuel ty st,
  Inv s ty st -> measure s st < fuel ->
  (exists ty', wf_mod (ty ++ ty') (snd (parse_loop fuel st)))
  /\ same_vars (p_mod st) (snd (parse_loop fuel st))
  /\ good_result s (fst (parse_loop fuel st)) (snd (parse_loop fuel st)).
Proof.
  induction fuel as [|fuel IH]; intros ty st HI Hfuel; [lia|].
  simpl. pose proof (parse_step_ok s ty st HI) as Hstep.
  destruct (parse_step st) as [st'|o m']; simpl in Hstep.
  - destruct Hstep as ((ty' & HI') & Hlt & Hne & Hsame).
    unfold loop_condition.
    destruct (p_stack st') eqn:E; [congruence|]. rewrite orb_true_r.
    destruct (IH _ _ HI' ltac:(lia)) as ((ty'' & Hwf) & Hsame' & Hgood).
    split; [exists (ty' ++ ty''); now rewrite app_assoc|].
    split; auto.
    destruct Hsame as (? & ? & ?), Hsame' as (? & ? & ?).
    repeat split; congruence.
  - exact Hstep.
Qed.

(** [parse] is total: from a well-typed module state it returns a [Chip]
    object or throws one of the two syntax errors, and leaves the module
    state well typed. *)
Lemma parse_ok s ty m :
  wf_mod ty m ->
  (exists ty', wf_mod (ty ++ ty') (snd (parse s m)))
  /\ same_vars m (snd (parse s m))
  /\ good_result s (fst (parse s m)) (snd (parse s m)).
Proof.
  intros Hwf. unfold parse.
  pose proof (getNextToken_spec s (lex_fuel s) _ (initString_inv s)) as Hlex.
  simpl in Hlex. unfold lex_fuel in *. specialize (Hlex ltac:(lia) ltac:(lia)).
  destruct (getNextToken _ _) as [t tk|e|]; simpl.
  - destruct Hlex as (Htk & Hlt & Htok).
    apply (parse_loop_ok s (parse_fuel s) ty).
    + constructor; simpl; auto. constructor.
    + unfold measure, parse_fuel. simpl. change (rank 0) with 0. lia.
  - destruct Hlex as (o & _ & He).
    split; [now apply wf_mod_nil|]. split; [apply same_vars_refl|].
    eapply lex_error_good; eauto.
  - destruct Hlex.
Qed.

(** ** Positions and messages *)

(** Declarative reading of [scan_newlines]. *)
Lemma count_lf_app a b : count_lf (a +++ b) = count_lf a + count_lf b.
Proof. induction a; simpl; auto. rewrite IHa. lia. Qed.

Lemma scan_newlines_spec m : forall start line lbo,
  fst (scan_newlines m 0 start line lbo) = line + count_lf m
  /\ ((count_lf m = 0 /\ snd (scan_newlines m 0 start line lbo) = lbo)
      \/ exists m1 m2, m = (m1 +++ nl) +++ m2 /\ count_lf m2 = 0
           /\ snd (scan_newlines m 0 start line lbo)
              = start + String.length (m1 +++ nl)).
Proof.
  induction m as [|c m IH]; intros; simpl.
  - split; [lia|]. left; auto.
  - rewrite !(scan_newlines_shift m 1).
    destruct (Ascii.eqb_spec c LF) as [->|Hne].
    + destruct (IH (start + 1) (S line) (start + 0 + 1)) as [H1 H2].
      split; [rewrite H1; lia|].
      right. destruct H2 as [[H2 H3]|(m1 & m2 & -> & H2 & H3)].
      * exists EmptyString, m. simpl. repeat split; auto. rewrite H3. lia.
      * exists (String LF m1), m2. simpl. repeat split; auto.
        rewrite H3. lia.
    + destruct (IH (start + 1) line lbo) as [H1 H2].
      split; [rewrite H1; lia|].
      destruct H2 as [[H2 H3]|(m1 & m2 & -> & H2 & H3)].
      * left. auto.
      * right. exists (String c m1), m2. simpl. repeat split; auto.
        rewrite H3. lia.
Qed.

(** The line and the line's begin that the tokenizer keeps are the
    position of the offset as [position] defines it. *)
Lemma pos_of_position s o line bol :
  o <= String.length s ->
  (line, bol) = pos_of (str_take o s) ->
  position s o line (o - bol).
Proof.
  intros Ho Hpos. unfold pos_of in Hpos.
  destruct (scan_newlines_spec (str_take o s) 0 1 0) as [H1 H2].
  rewrite <- Hpos in H1, H2. simpl in H1, H2.
  destruct H2 as [[H2 ->]|(m1 & m2 & E & H2 & ->)].
  - exists EmptyString, (str_take o s). simpl.
    rewrite take_length by lia. repeat split; auto; lia.
  - exists (m1 +++ nl), m2. repeat split; auto.
    + right. eauto.
    + rewrite H1. rewrite E, count_lf_app, H2. lia.
    + apply (f_equal String.length) in E.
      rewrite take_length, app_length in E by lia. lia.
Qed.

(** The line of an offset is there in [split('\n')], and it is not empty
    when the character at the offset is no line feed. *)
Lemma split_lines_cons s : exists l ls, split_lines s = l :: ls.
Proof.
  induction s as [|c s (l & ls & E)]; simpl; eauto.
  destruct (Ascii.eqb c LF); eauto. rewrite E. eauto.
Qed.

Lemma line_source_at s : forall o c rest,
  slice o s = String c rest -> c <> LF ->
  exists src, nth_error (split_lines s) (count_lf (str_take o s)) = Some src
              /\ src <> EmptyString.
Proof.
  induction s as [|a s IH]; intros o c rest Hsl Hc.
  - rewrite slice_empty in Hsl. discriminate.
  - destruct o as [|o]; simpl in *.
    + inversion Hsl; subst.
      destruct (Ascii.eqb_spec c LF) as [->|_]; [congruence|].
      destruct (split_lines_cons rest) as (l & ls & ->).
      simpl. eexists; split; [reflexivity|discriminate].
    + destruct (IH _ _ _ Hsl Hc) as (src & Hnth & Hne).
      destruct (Ascii.eqb_spec a LF) as [->|_]; simpl.
      * eauto.
      * destruct (split_lines_cons s) as (l & ls & E). rewrite E in *.
        destruct (count_lf (str_take o s)); simpl in *.
        -- inversion Hnth; subst. eexists; split; [reflexivity|discriminate].
        -- eauto.
Qed.

Lemma space_LF : is_space LF = true.
Proof. reflexivity. Qed.

Lemma syntax_error_located s o sym e :
  syntax_error_at s o sym e ->
  exists line col src,
    o < String.length s
    /\ position s o line col
    /\ line_source s line = Some src /\ src <> EmptyString
    /\ e = SyntaxError (located_message src sym line col).
Proof.
  intros (c & rest & line & bol & Hsl & Hsp & _ & Hpos & ->).
  assert (Ho : o < String.length s).
  { destruct (Nat.lt_ge_cases o (String.length s)) as [|Hge]; auto.
    rewrite (slice_all _ _ Hge) in Hsl. discriminate. }
  assert (Hc : c <> LF) by (intros ->; rewrite space_LF in Hsp; discriminate).
  destruct (line_source_at s o c rest Hsl Hc) as (src & Hnth & Hne).
  pose proof (pos_of_position s o line bol ltac:(lia) Hpos) as Hposn.
  assert (Hline : line = S (count_lf (str_take o s))).
  { unfold pos_of in Hpos.
    destruct (scan_newlines_spec (str_take o s) 0 1 0) as [H1 _].
    rewrite <- Hpos in H1. simpl in H1. lia. }
  exists line, (o - bol), src. repeat split; auto.
  - subst line. exact Hnth.
  - unfold unexpected_token_message, located_message.
    subst line. unfold line_source. rewrite Hnth.
    destruct src; [congruence|]. rewrite !app_assoc'. reflexivity.
Qed.

(** ** The states of the tokenizer *)

Lemma getNextToken_fuel tk : forall fuel k,
  getNextToken fuel tk <> LexOutOfFuel ->
  getNextToken (fuel + k) tk = getNextToken fuel tk.
Proof.
  intros fuel; revert tk. induction fuel as [|fuel IH]; intros tk k H.
  - simpl in H. congruence.
  - change (S fuel + k) with (S (fuel + k)).
    rewrite !getNextToken_unfold in *.
    destruct (negb (hasMoreTokens tk)); auto.
    destruct (scan_rules _ _ _) as [[[m [ty|]] tk']|]; auto.
Qed.

Lemma getNextToken_token s fuel tk t tk' :
  tk_inv s tk -> getNextToken fuel tk = LexToken t tk' ->
  tk_inv s tk' /\ (tloc t = None \/ exists l, token_at s t l).
Proof.
  intros Hinv Hlex.
  destruct (Nat.le_gt_cases (_cursor tk) (String.length s)) as [Hle|Hgt].
  - pose proof (getNextToken_fuel tk fuel (String.length s + 2)) as Hmono.
    rewrite Hlex in Hmono. specialize (Hmono ltac:(discriminate)).
    pose proof (getNextToken_spec s (fuel + (String.length s + 2)) tk Hinv Hle
                  ltac:(lia)) as Hspec.
    rewrite Hmono in Hspec. destruct Hspec as (Hinv' & _ & Htok).
    split; auto. destruct Htok as [[-> _]|(l & Hat & _)]; eauto.
  - destruct fuel as [|fuel]; [discriminate|].
    rewrite getNextToken_unfold in Hlex. unfold hasMoreTokens in Hlex.
    rewrite (inv_string _ _ Hinv) in Hlex.
    destruct (Nat.leb_spec (_cursor tk) (String.length s)); [lia|].
    simpl in Hlex. inversion Hlex; subst. auto.
Qed.

Lemma lexer_state_inv s tk : lexer_state s tk -> tk_inv s tk.
Proof.
  induction 1 as [|fuel tk t tk' _ IH Hlex].
  - apply initString_inv.
  - now destruct (getNextToken_token _ _ _ _ _ IH Hlex).
Qed.

Lemma token_at_position s t l :
  token_at s t l ->
  position s (startOffset l) (startLine l) (startColumn l)
  /\ position s (endOffset l) (endLine l) (endColumn l)
  /\ endOffset l = startOffset l + String.length (value t)
  /\ str_take (String.length (value t)) (slice (startOffset l) s) = value t.
Proof.
  intros [Hloc Hfirst Hend Hb (b1 & Hp1 & ->) (b2 & Hp2 & ->)].
  destruct (first_match_in _ _ _ _ Hfirst) as (re & Hin & Hm).
  pose proof lexRules_sound as Hsound. rewrite List.Forall_forall in Hsound.
  destruct (Hsound _ Hin _ _ Hm) as [_ Hpre]. simpl in Hpre.
  repeat split; auto.
  - apply pos_of_position; auto. lia.
  - apply pos_of_position; auto.
  - rewrite Hpre. apply take_app.
Qed.

(** ** Texts the tokenizer cannot read *)

Lemma str_forallb_app p a b :
  str_forallb p (a +++ b) = str_forallb p a && str_forallb p b.
Proof. induction a; simpl; auto. rewrite IHa. now rewrite andb_assoc. Qed.

Lemma str_existsb_app p a b :
  str_existsb p (a +++ b) = str_existsb p a || str_existsb p b.
Proof. induction a; simpl; auto. rewrite IHa. now rewrite orb_assoc. Qed.

Lemma take_while_forallb p s : str_forallb p (take_while p s) = true.
Proof. induction s; simpl; auto. destruct (p a) eqn:E; simpl; auto. now rewrite E. Qed.

Lemma forallb_weaken (p q : ascii -> bool) s :
  (forall c, p c = true -> q c = true) ->
  str_forallb p s = true -> str_forallb q s = true.
Proof.
  intros H. induction s; simpl; auto.
  intros Hp. apply andb_prop in Hp as [H1 H2]. rewrite (H _ H1). auto.
Qed.

Lemma lexable_not_bad m :
  str_forallb lexable m = true ->
  str_existsb (fun c => negb (lexable c)) m = false.
Proof.
  induction m; simpl; auto. intros H. apply andb_prop in H as [-> H]. auto.
Qed.

(** Without a slash ahead, what a rule matches is made of lexable
    characters. *)
Lemma match_lexable re h str m :
  In (re, h) lexRules -> re str = Some m ->
  str_existsb is_slash str = false ->
  str_forallb lexable m = true.
Proof.
  intros Hin Hm Hns. unfold lexRules in Hin. simpl in Hin.
  destruct Hin as [Hin|[Hin|Hin]].
  - inversion Hin; subst. unfold re_line_comment in Hm.
    destruct (starts_with "//" str) eqn:P; [|discriminate].
    apply prefix2_inv in P as [r ->]. simpl in Hns. discriminate.
  - inversion Hin; subst. unfold re_block_comment in Hm.
    destruct (starts_with "/*" str) eqn:P; [|discriminate].
    apply prefix2_inv in P as [r ->]. simpl in Hns. discriminate.
  - repeat (destruct Hin as [Hin|Hin];
      [inversion Hin; subst; clear Hin;
       first [ apply re_lit_inv in Hm; subst m; reflexivity
             | unfold re_plus in Hm;
               match type of Hm with
               | context [take_while ?p str] =>
                   pose proof (take_while_forallb p str) as Hall;
                   destruct (take_while p str); [discriminate|];
                   inversion Hm; subst;
                   apply (forallb_weaken p); [|exact Hall];
                   intros c Hc; unfold lexable; rewrite Hc;
                   rewrite ?orb_true_r; reflexivity
               end ] |]).
    destruct Hin.
Qed.

Lemma stuck_ahead_step tk re h m :
  stuck_ahead tk ->
  In (re, h) lexRules ->
  re (slice (_cursor tk) (_string tk)) = Some m ->
  stuck_ahead (set_cursor (_cursor tk + String.length m) (_captureLocation m tk)).
Proof.
  intros [Hns Hbad] Hin Hm.
  pose proof (match_lexable _ _ _ _ Hin Hm Hns) as Hlex.
  pose proof lexRules_sound as Hsound. rewrite List.Forall_forall in Hsound.
  destruct (Hsound _ Hin _ _ Hm) as [_ Hpre]. simpl in Hpre.
  unfold stuck_ahead, _captureLocation.
  destruct (scan_newlines _ _ _ _ _). simpl.
  rewrite <- slice_slice.
  set (rest := slice (String.length m) (slice (_cursor tk) (_string tk))) in *.
  rewrite Hpre in Hns, Hbad.
  rewrite str_existsb_app in Hns, Hbad.
  apply orb_false_elim in Hns as [_ Hns].
  rewrite (lexable_not_bad _ Hlex) in Hbad. simpl in Hbad. auto.
Qed.

Lemma stuck_ahead_lex : forall fuel tk,
  stuck_ahead tk ->
  match getNextToken fuel tk with
  | LexToken t tk' => stuck_ahead tk' /\ String.eqb (type t) EOF = false
  | _ => True
  end.
Proof.
  induction fuel as [|fuel IH]; intros tk Hst; [exact I|].
  rewrite getNextToken_unfold.
  assert (Hlt : _cursor tk < String.length (_string tk)).
  { destruct (Nat.lt_ge_cases (_cursor tk) (String.length (_string tk))) as [|Hge];
      auto.
    destruct Hst as [_ Hbad]. rewrite (slice_all _ _ Hge) in Hbad. discriminate. }
  unfold hasMoreTokens, isEOF.
  destruct (Nat.leb_spec (_cursor tk) (String.length (_string tk))); [|lia].
  destruct (Nat.eqb_spec (_cursor tk) (String.length (_string tk))); [lia|].
  cbn [negb].
  destruct (scan_rules _ _ _) as [[[m h] tk']|] eqn:E; auto.
  destruct (scan_rules_some _ _ _ _ _ _ lexRules_sound E) as (Hfirst & ->).
  destruct (first_match_in _ _ _ _ Hfirst) as (re & Hin & Hm).
  pose proof (stuck_ahead_step _ _ _ _ Hst Hin Hm) as Hst'.
  destruct h as [ty|].
  - split; auto. simpl.
    now destruct (token_rule _ _ _ Hfirst) as (_ & Hne & _).
  - now apply IH.
Qed.

Lemma assoc_tokens_25 ty :
  assoc String.eqb ty tokens = Some 25 -> String.eqb ty EOF = true.
Proof.
  unfold tokens. simpl.
  repeat (destruct (String.eqb ty _); [discriminate|]).
  destruct (String.eqb ty "$") eqn:E; [auto|discriminate].
Qed.

Lemma do_reduce_inv p st :
  match do_reduce p st with
  | Continue st' =>
      p_tokenizer st' = p_tokenizer st /\ p_token st' = p_token st
  | Finish o _ => exists e, o = Throw e
  end.
Proof.
  unfold do_reduce.
  destruct (nth_error productions p) as [[[lhs n] act]|]; [|eauto].
  destruct (pop_frames n (p_stack st)) as [[es stack']|]; [|eauto].
  destruct act as [f|].
  - destruct (f _ _ _); [|eauto].
    destruct (nth_error table _); [|eauto]. destruct lhs; [|eauto].
    destruct (assoc _ _ _) as [[]|]; eauto.
  - destruct (nth_error table _); [|eauto]. destruct lhs; [|eauto].
    destruct (assoc _ _ _) as [[]|]; eauto.
Qed.

(** A parse that cannot reach the end of the text returns nothing. *)
Lemma parse_loop_stuck : forall fuel st v,
  stuck_ahead (p_tokenizer st) ->
  String.eqb (type (p_token st)) EOF = false ->
  fst (parse_loop fuel st) <> Return v.
Proof.
  induction fuel as [|fuel IH]; intros st v Hst Hne; simpl; [discriminate|].
  unfold parse_step.
  destruct (nth_error table _) as [row|] eqn:Erow; [|discriminate].
  destruct (assoc String.eqb _ tokens) as [c|] eqn:Ecol; [|discriminate].
  destruct (assoc Nat.eqb c row) as [[t|t|p|]|] eqn:Eentry; try discriminate.
  - unfold loop_condition.
    destruct (_ || _); [now apply IH|discriminate].
  - unfold do_shift.
    pose proof (stuck_ahead_lex (lex_fuel (_string (p_tokenizer st))) _ Hst) as Hlex.
    destruct (getNextToken _ _) as [t' tk'|e|]; try discriminate.
    destruct Hlex as [Hst' Hne'].
    unfold loop_condition. simpl. rewrite orb_true_r. now apply IH.
  - pose proof (do_reduce_inv p st) as Hred.
    destruct (do_reduce p st) as [st'|o m'].
    + destruct Hred as [E1 E2].
      destruct (loop_condition st'); [|discriminate].
      apply IH; congruence.
    + destruct Hred as [e ->]. discriminate.
  - assert (Hlook : table_lookup (top_state (p_stack st)) c = Some Accept)
      by (unfold table_lookup; now rewrite Erow).
    destruct (accept_facts _ _ Hlook) as [_ ->].
    apply assoc_tokens_25 in Ecol. congruence.
Qed.

Lemma parse_stuck s m v :
  str_existsb is_slash s = false ->
  str_existsb (fun c => negb (lexable c)) s = true ->
  fst (parse s m) <> Return v.
Proof.
  intros Hns Hbad. unfold parse.
  pose proof (stuck_ahead_lex (lex_fuel s) (initString s)) as Hlex.
  specialize (Hlex ltac:(split; simpl; assumption)).
  destruct (getNextToken _ _) as [t tk|e|]; try discriminate.
  destruct Hlex as [Hst Hne]. now apply parse_loop_stuck.
Qed.

(** A text without slash that holds a character outside the lexical
    grammar always fails with a syntax error. *)
Lemma unlexable_rejected s ty m :
  wf_mod ty m ->
  str_existsb is_slash s = false ->
  str_existsb (fun c => negb (lexable c)) s = true ->
  exists msg, fst (parse s m) = Throw (SyntaxError msg).
Proof.
  intros Hwf Hns Hbad.
  destruct (parse_ok s ty m Hwf) as (_ & _ & Hgood).
  pose proof (parse_stuck s m) as Hstuck.
  destruct (fst (parse s m)) as [v| | |e|]; simpl in Hgood; try contradiction.
  - exfalso. now apply (Hstuck v).
  - destruct Hgood as [->|(o & sym & c & rest & line & bol & _ & _ & _ & _ & ->)];
      eexists; reflexivity.
Qed.

(** ** The tree of a returned value; identifiers *)

Lemma read_names ty h d vs :
  Forall (elem_ok ty KStr) vs ->
  exists ts, all_some (map (read (S d) h) vs) = Some ts /\ Forall pin_ast ts.
Proof.
  induction 1 as [|v vs (s & -> & Hs) _ (ts & E & Hts)]; simpl.
  - exists []. split; auto.
  - simpl in E. rewrite E. exists (AStr s :: ts). split; auto.
    constructor; auto. now exists s.
Qed.

Lemma read_arguments ty h d vs :
  Forall (elem_ok ty KArg) vs ->
  exists ts, all_some (map (read (S (S d)) h) vs) = Some ts
             /\ Forall argument_ast ts.
Proof.
  induction 1 as [|v vs (k & w & -> & Hk & Hw) _ (ts & E & Hts)].
  - exists []. split; auto.
  - cbn [map all_some]. rewrite E. simpl.
    exists (AArgument (AStr k) (AStr w) :: ts). split; auto.
    constructor; auto. now exists k, w.
Qed.

Lemma read_array h d l vs ts :
  h !! l = Some vs -> all_some (map (read d h) vs) = Some ts ->
  read (S d) h (VArr l) = Some (AArr ts).
Proof. intros E1 E2. simpl. now rewrite E1, E2. Qed.

Lemma read_calls ty h d vs :
  store_ok ty h ->
  Forall (elem_ok ty KCall) vs ->
  exists ts, all_some (map (read (S (S (S (S d)))) h) vs) = Some ts
             /\ Forall call_ast ts.
Proof.
  intros Hst.
  induction 1 as [|v vs (n & l & -> & Hn & Hl) _ (ts & E & Hts)].
  - exists []. split; auto.
  - cbn [map all_some]. rewrite E.
    destruct (store_ok_lookup _ _ _ _ Hst Hl) as (args & Hargs & Hall).
    destruct (read_arguments ty h d args Hall) as (as' & Eas & Has).
    change (read (S (S (S (S d)))) h (VChipCall (VStr n) (VArr l)))
      with (match read (S (S (S d))) h (VStr n), read (S (S (S d))) h (VArr l) with
            | Some n', Some a' => Some (AChipCall n' a')
            | _, _ => None
            end).
    rewrite (read_array _ _ _ _ _ Hargs Eas). simpl.
    exists (AChipCall (AStr n) (AArr as') :: ts). split; auto.
    constructor; auto. exists n, as'. auto.
Qed.

(** The tree of a [Chip] object in a well-typed store. *)
Lemma read_chip ty m v :
  wf_mod ty m -> is_chip m v ->
  exists a, read 6 (store m) v = Some a /\ chip_ast a.
Proof.
  intros [Hst Hi Ho Hp] (n & -> & Hn).
  destruct (store_ok_lookup _ _ _ _ Hst Hi) as (vi & Ei & Hvi).
  destruct (store_ok_lookup _ _ _ _ Hst Ho) as (vo & Eo & Hvo).
  destruct (store_ok_lookup _ _ _ _ Hst Hp) as (vp & Ep & Hvp).
  destruct (read_names ty (store m) 3 vi Hvi) as (ins & Eins & Hins).
  destruct (read_names ty (store m) 3 vo Hvo) as (outs & Eouts & Houts).
  destruct (read_calls ty (store m) 0 vp Hst Hvp) as (calls & Ecalls & Hcalls).
  exists (AChip (AStr n) (AArr ins) (AArr outs) (AArr calls)).
  split; [|exists n, ins, outs, calls; auto].
  change (read 6 (store m) (VChip (VStr n) (VArr (m_inputs m))
                             (VArr (m_outputs m)) (VArr (m_parts m))))
    with (match read 5 (store m) (VStr n), read 5 (store m) (VArr (m_inputs m)),
                read 5 (store m) (VArr (m_outputs m)),
                read 5 (store m) (VArr (m_parts m)) with
          | Some n', Some i', Some o', Some p' => Some (AChip n' i' o' p')
          | _, _, _, _ => None
          end).
  rewrite (read_array _ _ _ _ _ Ei Eins), (read_array _ _ _ _ _ Eo Eouts),
    (read_array _ _ _ _ _ Ep Ecalls).
  reflexivity.
Qed.

(** Lexing identifiers. *)
Lemma prefix_word_app kw : forall w rest,
  str_forallb is_word kw = true ->
  w <> EmptyString ->
  (rest = EmptyString \/ exists c r, rest = String c r /\ is_word c = false) ->
  starts_with kw (w +++ rest) = true -> starts_with kw w = true.
Proof.
  induction kw as [|k kw IH]; intros w rest Hkw Hw Hrest Hp; [reflexivity|].
  destruct w as [|a w]; [congruence|].
  simpl in *. apply andb_prop in Hp as [Hka Hp]. rewrite Hka. simpl.
  apply andb_prop in Hkw as [Hk Hkw].
  destruct w as [|b w].
  - simpl in Hp. destruct kw as [|k2 kw]; auto.
    destruct Hrest as [->|(c & r & -> & Hc)]; [discriminate|].
    simpl in Hp. apply andb_prop in Hp as [Hkc _].
    apply Ascii.eqb_eq in Hkc. subst c.
    simpl in Hkw. rewrite Hc in Hkw. discriminate.
  - apply (IH (String b w) rest); auto.
Qed.

Lemma take_while_word w : forall rest,
  str_forallb is_word w = true ->
  (rest = EmptyString \/ exists c r, rest = String c r /\ is_word c = false) ->
  take_while is_word (w +++ rest) = w.
Proof.
  induction w as [|a w IH]; intros rest Hw Hrest; simpl in *.
  - destruct Hrest as [->|(c & r & -> & Hc)]; simpl; auto. now rewrite Hc.
  - apply andb_prop in Hw as [-> Hw]. f_equal. auto.
Qed.

Lemma prefix_cons_ne c p a s :
  c <> a -> starts_with (String c p) (String a s) = false.
Proof.
  intros H. cbn [starts_with].
  apply Ascii.eqb_neq in H. now rewrite H.
Qed.

Lemma scan_rules_identifier tk w rest :
  slice (_cursor tk) (_string tk) = w +++ rest ->
  w <> EmptyString ->
  str_forallb is_word w = true ->
  keyword_prefixed w = false ->
  (rest = EmptyString \/ exists c r, rest = String c r /\ is_word c = false) ->
  scan_rules lexRules (w +++ rest) tk
  = Some (w, Some "ID"%string,
          set_cursor (_cursor tk + String.length w) (_captureLocation w tk)).
Proof.
  intros Hsl Hne Hw Hkw Hrest.
  unfold keyword_prefixed in Hkw.
  apply orb_false_elim in Hkw as [Hkw H4]. apply orb_false_elim in Hkw as [Hkw H3].
  apply orb_false_elim in Hkw as [H1 H2].
  assert (Hk : forall kw, str_forallb is_word kw = true ->
             starts_with kw w = false -> re_lit kw (w +++ rest) = None).
  { intros kw Hall Hp. unfold re_lit.
    destruct (starts_with kw (w +++ rest)) eqn:P; auto.
    rewrite (prefix_word_app kw w rest Hall Hne Hrest P) in Hp. discriminate. }
  destruct w as [|a w]; [congruence|].
  simpl in Hw. apply andb_prop in Hw as [Ha Hw].
  assert (Hsp : is_space a = false) by now apply is_word_not_space.
  assert (Hsl' : a <> "/"%char) by (intros ->; discriminate).
  unfold lexRules, scan_rules.
  unfold _match at 1. unfold re_line_comment.
  change (String a w +++ rest) with (String a (w +++ rest)).
  rewrite prefix_cons_ne by congruence.
  unfold _match at 1. unfold re_block_comment.
  rewrite prefix_cons_ne by congruence.
  unfold _match at 1. unfold re_plus at 1.
  replace (take_while is_space (String a (w +++ rest))) with EmptyString
    by (simpl; now rewrite Hsp).
  change (String a (w +++ rest)) with (String a w +++ rest).
  unfold _match at 1. rewrite (Hk "CHIP"%string eq_refl H1).
  unfold _match at 1. rewrite (Hk "IN"%string eq_refl H2).
  unfold _match at 1. rewrite (Hk "OUT"%string eq_refl H3).
  unfold _match at 1. rewrite (Hk "PARTS"%string eq_refl H4).
  unfold _match at 1. unfold re_plus at 1.
  rewrite (take_while_word (String a w) rest) by (simpl; rewrite ?Ha; auto).
  cbn [String.eqb andb]. rewrite andb_false_r.
  unfold _captureLocation. destruct (scan_newlines _ _ _ _ _). reflexivity.
Qed.

(** ** The parser and the grammar *)

(** Induction on derivation trees, with the hypothesis for every child. *)
Fixpoint tree_induction (P : tree -> Prop)
  (Hleaf : forall c, P (Leaf c))
  (Hnode : forall p children, Forall P children -> P (Node p children))
  (t : tree) : P t :=
  match t with
  | Leaf c => Hleaf c
  | Node p children =>
      Hnode p children
        ((fix all (l : list tree) : Forall P l :=
            match l with
            | [] => @List.Forall_nil tree P
            | x :: more =>
                @List.Forall_cons tree P x more
                  (tree_induction P Hleaf Hnode x) (all more)
            end) children)
  end.

Lemma check_gotos : table_forall check_goto = true.
Proof. vm_compute. reflexivity. Qed.

Lemma check_las q p a : check_la q p a = true.
Proof.
  unfold check_la. destruct (reduces q p a) eqn:E; [|reflexivity].
  unfold reduces in E.
  destruct (nth_error rhs p) as [r|] eqn:Er; [|discriminate].
  destruct (path q r) as [qn|] eqn:Ep; [|discriminate].
  destruct (table_lookup qn a) as [[| |p'|]|] eqn:Ea; try discriminate.
  apply Nat.eqb_eq in E. subst p'.
  assert (Hq : q < 43).
  { destruct r as [|X r]; simpl in Ep.
    - assert (Hp : p < length rhs) by (apply nth_error_Some; congruence).
      simpl in Hp.
      do 22 (destruct p as [|p]; [vm_compute in Er; discriminate|]). lia.
    - unfold table_lookup in Ep.
      destruct (nth_error table q) eqn:Eq; [|discriminate].
      change 43 with (length table). apply nth_error_Some. congruence. }
  assert (Hp : p < length rhs) by (apply nth_error_Some; congruence).
  simpl in Hp.
  assert (Ha : 12 <= a < 26).
  { pose proof Ea as Ea'. apply reduce_facts in Ea' as [H12 _]. split; auto.
    unfold table_lookup in Ea.
    destruct (nth_error table qn) as [row|] eqn:Eq; [|discriminate].
    apply assoc_in in Ea.
    assert (Hall : forallb (fun row : list (nat * entry) =>
                      forallb (fun ce : nat * entry => fst ce <? 26) row) table = true)
      by (vm_compute; reflexivity).
    rewrite forallb_forall in Hall. apply nth_error_In in Eq.
    specialize (Hall _ Eq). rewrite forallb_forall in Hall.
    specialize (Hall _ Ea). now apply Nat.ltb_lt in Hall. }
  assert (Hall : forallb (fun q => forallb (fun p => forallb (fun a => check_la q p a)
                   (seq 12 14)) (seq 0 22)) (seq 0 43) = true)
    by (vm_compute; reflexivity).
  rewrite forallb_forall in Hall. specialize (Hall q).
  rewrite forallb_forall in Hall. specialize (Hall ltac:(apply in_seq; lia) p).
  rewrite forallb_forall in Hall. specialize (Hall ltac:(apply in_seq; lia) a).
  specialize (Hall ltac:(apply in_seq; lia)).
  unfold check_la in Hall. unfold reduces in Hall.
  rewrite Er, Ep, Ea, Nat.eqb_refl in Hall. exact Hall.
Qed.

Lemma lhs_lt p A : lhs p = Some A -> A < 12 /\ p < 22.
Proof.
  unfold lhs.
  do 22 (destruct p as [|p]; [simpl; intros [=<-]; lia|]).
  simpl. destruct p; discriminate.
Qed.

Lemma lhs_prods p A : lhs p = Some A -> 1 <= p -> In p (prods_of A).
Proof.
  intros H Hp. destruct (lhs_lt _ _ H) as [_ Hlt].
  unfold prods_of. apply filter_In. split; [apply in_seq; lia|].
  rewrite H. apply Nat.eqb_refl.
Qed.

(** ** Single turns of the loop *)

(** A run of the loop: turns that continue. *)
Inductive steps : pstate -> pstate -> Prop :=
| steps_refl st : steps st st
| steps_step st st1 st2 :
    parse_step st = Continue st1 -> steps st1 st2 -> steps st st2.

Lemma steps_trans st1 st2 st3 : steps st1 st2 -> steps st2 st3 -> steps st1 st3.
Proof. induction 1; eauto using steps. Qed.

Lemma steps_one st st' : parse_step st = Continue st' -> steps st st'.
Proof. eauto using steps. Qed.

Lemma stream_column tk t c ts :
  stream tk t (c :: ts) -> assoc String.eqb (type t) tokens = Some c.
Proof. inversion 1; subst; auto. Qed.

Lemma step_Inv s ty st st' :
  Inv s ty st -> parse_step st = Continue st' -> exists ty', Inv s (ty ++ ty') st'.
Proof.
  intros HI Hstep. pose proof (parse_step_ok s ty st HI) as Hok.
  rewrite Hstep in Hok. apply Hok.
Qed.

Lemma steps_Inv s st st' :
  steps st st' -> forall ty, Inv s ty st -> exists ty', Inv s (ty ++ ty') st'.
Proof.
  induction 1 as [st|st st1 st2 Hstep _ IH]; intros ty HI.
  - now apply Inv_nil.
  - destruct (step_Inv _ _ _ _ HI Hstep) as [ty1 HI1].
    destruct (IH _ HI1) as [ty2 HI2].
    exists (ty1 ++ ty2). now rewrite app_assoc.
Qed.

(** The loop follows a run, and its fuel lasts. *)
Lemma steps_loop s st st' :
  steps st st' -> forall ty fuel,
  Inv s ty st -> measure s st < fuel ->
  exists fuel', measure s st' < fuel'
                /\ parse_loop fuel st = parse_loop fuel' st'.
Proof.
  induction 1 as [st|st st1 st2 Hstep _ IH]; intros ty fuel HI Hfuel.
  - exists fuel. auto.
  - pose proof (parse_step_ok s ty st HI) as Hok. rewrite Hstep in Hok.
    destruct Hok as ((ty1 & HI1) & Hlt & Hne & _).
    destruct fuel as [|fuel]; [lia|].
    destruct (IH _ fuel HI1 ltac:(lia)) as (fuel' & Hf & Heq).
    exists fuel'. split; auto. simpl. rewrite Hstep.
    unfold loop_condition. destruct (p_stack st1); [congruence|].
    now rewrite orb_true_r.
Qed.

(** A shift. *)
Lemma shift_step st c ts n :
  stream (p_tokenizer st) (p_token st) (c :: ts) ->
  table_lookup (top_state (p_stack st)) c = Some (Shift n) ->
  exists st' e,
    parse_step st = Continue st'
    /\ p_stack st' = (e, n) :: p_stack st
    /\ stream (p_tokenizer st') (p_token st') ts.
Proof.
  intros Hs Hsh. destruct (shift_facts _ _ _ Hsh) as (Hc & _).
  inversion Hs as [|tk t c' t' tk' ts' Hcol Hne Hlex Hrest]; subst; [lia|].
  unfold parse_step. unfold table_lookup in Hsh.
  destruct (nth_error table _) as [row|]; [|discriminate].
  rewrite Hcol, Hsh. unfold do_shift. rewrite Hlex.
  eexists _, _. split; [reflexivity|]. split; [reflexivity|exact Hrest].
Qed.

(** A turn on a token the state has no entry for. *)
Lemma stuck_step st c ts :
  stream (p_tokenizer st) (p_token st) (c :: ts) ->
  table_lookup (top_state (p_stack st)) c = None ->
  exists e, parse_step st = Finish (Throw e) (p_mod st).
Proof.
  intros Hs Hnone. apply stream_column in Hs.
  unfold parse_step. unfold table_lookup in Hnone.
  destruct (nth_error table _) as [row|]; [|eauto].
  rewrite Hs, Hnone. eauto.
Qed.

Lemma pop_frames_app : forall frames stack,
  exists es, pop_frames (length frames) (frames ++ stack) = Some (es, stack).
Proof.
  induction frames as [|[e q] frames IH]; intros stack; simpl; eauto.
  destruct (IH stack) as [es ->]. eauto.
Qed.

(** A reduction: the frames of the right-hand side are popped and the
    state the table gives for the left-hand side is pushed. *)
Lemma reduce_turn s ty st c p :
  Inv s ty st ->
  assoc String.eqb (type (p_token st)) tokens = Some c ->
  table_lookup (top_state (p_stack st)) c = Some (Reduce p) ->
  exists A r es stack' t' st' e,
    lhs p = Some A /\ nth_error rhs p = Some r
    /\ pop_frames (length r) (p_stack st) = Some (es, stack')
    /\ table_lookup (top_state stack') A = Some (Goto t')
    /\ parse_step st = Continue st'
    /\ p_stack st' = (e, t') :: stack'
    /\ p_tokenizer st' = p_tokenizer st /\ p_token st' = p_token st.
Proof.
  intros HI Hs Hred. pose proof HI as [Htk Htok Hm Hst].
  destruct (reduce_facts _ _ _ Hred)
    as (_ & A & n & act & r & Hprod & Hrhs & Hlen & Hn & Hpath).
  destruct (pop_valid ty (p_mod st) _ A _ _ _ Hst eq_refl Hpath)
    as (es & stack' & t' & Hpop & Hst' & Hall & Hsz & Hgoto & HQ).
  rewrite length_rev in Hpop. rewrite rev_involutive in Hall.
  pose proof (action_ok _ _ _ _ _ _ _ _ Hprod Hrhs Hall Hm) as Hact.
  assert (Hstep : parse_step st = do_reduce p st).
  { unfold parse_step. unfold table_lookup in Hred.
    destruct (nth_error table _) as [row|]; [|discriminate].
    now rewrite Hs, Hred. }
  assert (Hlhs : lhs p = Some A) by (unfold lhs; now rewrite Hprod).
  rewrite Hlen in Hpop.
  unfold do_reduce in Hstep. rewrite Hprod, Hpop in Hstep.
  pose proof Hgoto as Hgoto'. unfold table_lookup in Hgoto'.
  destruct (nth_error table (top_state stack')) as [row|] eqn:Erow;
    [|discriminate].
  destruct act as [f|].
  - destruct Hact as (ty' & m' & Hrun & _). rewrite Hrun, Hgoto' in Hstep.
    eexists A, r, es, stack', t', _, _. rewrite Hlen.
    split; [exact Hlhs|]. split; [exact Hrhs|]. split; [exact Hpop|].
    split; [exact Hgoto|]. split; [exact Hstep|]. repeat split.
  - rewrite Hgoto' in Hstep.
    eexists A, r, es, stack', t', _, _. rewrite Hlen.
    split; [exact Hlhs|]. split; [exact Hrhs|]. split; [exact Hpop|].
    split; [exact Hgoto|]. split; [exact Hstep|]. repeat split.
Qed.

Lemma reduce_step s ty st c ts p :
  Inv s ty st ->
  stream (p_tokenizer st) (p_token st) (c :: ts) ->
  table_lookup (top_state (p_stack st)) c = Some (Reduce p) ->
  exists A r es stack' t' st' e,
    lhs p = Some A /\ nth_error rhs p = Some r
    /\ pop_frames (length r) (p_stack st) = Some (es, stack')
    /\ table_lookup (top_state stack') A = Some (Goto t')
    /\ parse_step st = Continue st'
    /\ p_stack st' = (e, t') :: stack'
    /\ stream (p_tokenizer st') (p_token st') (c :: ts).
Proof.
  intros HI Hs Hred.
  destruct (reduce_turn s ty st c p HI (stream_column _ _ _ _ Hs) Hred)
    as (A & r & es & stack' & t' & st' & e & H1 & H2 & H3 & H4 & H5 & H6 & E1 & E2).
  exists A, r, es, stack', t', st', e. rewrite E1, E2. auto 10.
Qed.

(** The accept action on a stack of one frame. *)
Lemma accept_step s ty st e :
  Inv s ty st ->
  stream (p_tokenizer st) (p_token st) [25] ->
  p_stack st = [(e, 30)] ->
  exists v, parse_step st = Finish (Return v) (p_mod st).
Proof.
  intros HI Hs Hstack. pose proof HI as [Htk Htok Hm Hst].
  apply stream_column in Hs.
  destruct (token_column _ _ _ _ Htok Hs) as [(_ & _ & Hcur)|(? & _)]; [|lia].
  unfold parse_step. rewrite Hstack. simpl top_state.
  change (nth_error table 30) with (Some [(25, Accept)]).
  rewrite Hs. simpl assoc. unfold do_accept. rewrite Hstack.
  unfold hasMoreTokens. rewrite (inv_string _ _ Htk), Hcur.
  destruct (Nat.leb_spec (String.length s + 1) (String.length s)); [lia|].
  rewrite Hstack in Hst.
  inversion Hst as [|e' t X stack _ Hsym _ Hok]; subst.
  vm_compute in Hsym. inversion Hsym; subst X.
  destruct Hok as (v & Hv & _). rewrite Hv. eauto.
Qed.

(** The state in which the loop starts. *)
Lemma initial_Inv s ty m t tk :
  wf_mod ty m ->
  getNextToken (lex_fuel s) (initString s) = LexToken t tk ->
  let st := {| p_tokenizer := tk; p_stack := []; p_token := t; p_mod := m |} in
  Inv s ty st /\ measure s st < parse_fuel s.
Proof.
  intros Hwf Hlex.
  pose proof (getNextToken_spec s (lex_fuel s) _ (initString_inv s)) as Hspec.
  simpl in Hspec. unfold lex_fuel in *. specialize (Hspec ltac:(lia) ltac:(lia)).
  rewrite Hlex in Hspec. destruct Hspec as (Htk & Hlt & Htok).
  split.
  - constructor; simpl; auto. constructor.
  - unfold measure, parse_fuel. simpl. change (rank 0) with 0. lia.
Qed.

(** ** The parser follows a derivation *)

Lemma roots_are_cons r children :
  roots_are r children = true ->
  match r, children with
  | [], [] => True
  | Y :: r', t :: children' => root t = Some Y /\ roots_are r' children' = true
  | _, _ => False
  end.
Proof.
  unfold roots_are. intros H. apply andb_prop in H as [H1 H2].
  apply Nat.eqb_eq in H2.
  destruct r as [|Y r'], children as [|t children']; try discriminate; auto.
  simpl in H1, H2. apply andb_prop in H1 as [H0 H1].
  destruct (root t) as [Z|]; [|discriminate]. apply Nat.eqb_eq in H0. subst Z.
  split; auto. rewrite H1. simpl. apply Nat.eqb_eq. lia.
Qed.

Lemma wf_node p children :
  wf_tree (Node p children) = true ->
  1 <= p /\ (exists r, nth_error rhs p = Some r /\ roots_are r children = true)
  /\ forallb wf_tree children = true.
Proof.
  cbn [wf_tree]. intros H. apply andb_prop in H as [H H3].
  apply andb_prop in H as [H1 H2]. apply Nat.leb_le in H1.
  destruct (nth_error rhs p) as [r|]; [|discriminate]. eauto.
Qed.

(** A tree for a token is a leaf, a tree for a non-terminal a node. *)
Lemma root_token t Y :
  wf_tree t = true -> root t = Some Y -> 12 <= Y -> t = Leaf Y.
Proof.
  destruct t as [c|p children]; simpl.
  - now intros _ [= ->].
  - intros _ H. apply lhs_lt in H. lia.
Qed.

Lemma root_nonterminal t Y :
  wf_tree t = true -> root t = Some Y -> Y < 12 ->
  exists p children, t = Node p children /\ lhs p = Some Y.
Proof.
  destruct t as [c|p children]; cbn [wf_tree root].
  - intros H [= ->]. apply andb_prop in H as [H _]. apply Nat.leb_le in H. lia.
  - eauto.
Qed.

(** The first token of what a symbol derives is shifted wherever the
    symbol has a transition. *)
Lemma first_shift t :
  wf_tree t = true ->
  forall q X e n,
    root t = Some X -> table_lookup q X = Some e -> targets e = Some n ->
    exists b w, yield t = b :: w /\ shifts q b = true /\ 12 <= b <= 24.
Proof.
  induction t as [c|p children IH] using tree_induction; intros Hwf q X e n Hroot He Hn.
  - simpl in Hroot. injection Hroot as <-. cbn [wf_tree] in Hwf.
    apply andb_prop in Hwf as [H1 H2]. apply Nat.leb_le in H1, H2.
    exists c, []. split; [reflexivity|]. split; [|lia].
    unfold shifts. rewrite He.
    destruct e as [t| | |]; try discriminate; auto.
    apply goto_facts in He. lia.
  - simpl in Hroot. destruct (lhs_lt _ _ Hroot) as [HX _].
    destruct (wf_node _ _ Hwf) as (Hp & (r & Hr & Hroots) & Hall).
    destruct e as [t| | |]; try discriminate.
    2: { apply shift_facts in He. lia. }
    pose proof (table_forall_spec _ check_gotos _ _ _ He) as Hg.
    unfold check_goto in Hg. rewrite forallb_forall in Hg.
    specialize (Hg p (lhs_prods _ _ Hroot Hp)). rewrite Hr in Hg.
    destruct r as [|Y r']; [discriminate|].
    apply roots_are_cons in Hroots.
    destruct children as [|t1 children']; [destruct Hroots|].
    destruct Hroots as [Hroot1 _].
    simpl in Hall. apply andb_prop in Hall as [Hwf1 _].
    inversion IH as [|? ? IH1 _]; subst.
    destruct (table_lookup q Y) as [e1|] eqn:E1; [|discriminate].
    assert (Ht : exists n1, targets e1 = Some n1)
      by (destruct e1; try discriminate; simpl; eauto).
    destruct Ht as [n1 Hn1].
    destruct (IH1 Hwf1 q Y e1 n1 Hroot1 E1 Hn1) as (b & w & Hy & Hsh & Hb).
    exists b, (w ++ concat (map yield children')).
    split; [|auto]. simpl. now rewrite Hy.
Qed.

Lemma followers_next :
  forall n more a rest children,
    roots_are more children = true ->
    forallb wf_tree children = true ->
    (forall Z more', more = Z :: more' ->
       exists e t', table_lookup n Z = Some e /\ targets e = Some t') ->
    12 <= a ->
    exists b rest',
      concat (map yield children) ++ a :: rest = b :: rest'
      /\ In b (followers n more a) /\ 12 <= b.
Proof.
  intros n more a rest children Hroots Hall Hnext Ha.
  apply roots_are_cons in Hroots.
  destruct more as [|Z more'], children as [|t2 children']; try destruct Hroots.
  - exists a, rest. simpl. auto.
  - rename H into Hroot2. simpl in Hall. apply andb_prop in Hall as [Hwf2 _].
    destruct (Hnext Z more' eq_refl) as (e & t' & He & Ht').
    destruct (first_shift t2 Hwf2 n Z e t' Hroot2 He Ht') as (b & w & Hy & Hsh & Hb).
    exists b, (w ++ concat (map yield children') ++ a :: rest).
    split; [simpl; rewrite Hy; simpl; now rewrite <- app_assoc|].
    split; [|lia].
    unfold followers. destruct (Nat.ltb_spec Z 12) as [Hlt|Hge].
    + apply filter_In. split; [apply in_seq; lia|exact Hsh].
    + rewrite (root_token _ _ Hwf2 Hroot2 Hge) in Hy. simpl in Hy.
      injection Hy as <- _. now left.
Qed.

(** The parser follows the tree [t]: from a state with a transition on
    the root of [t], reading the tokens of [t] with a token [a] after
    them on which the production of [t] is reduced, it arrives at the
    target of that transition, with [a] the next token. *)
Definition follows (s : string) (t : tree) : Prop :=
  forall p children, t = Node p children ->
  wf_tree t = true ->
  forall ty st a rest q' X,
    Inv s ty st ->
    stream (p_tokenizer st) (p_token st) (yield t ++ a :: rest) ->
    12 <= a ->
    reduces (top_state (p_stack st)) p a = true ->
    lhs p = Some X ->
    table_lookup (top_state (p_stack st)) X = Some (Goto q') ->
    exists st' e ty',
      steps st st'
      /\ p_stack st' = (e, q') :: p_stack st
      /\ stream (p_tokenizer st') (p_token st') (a :: rest)
      /\ Inv s (ty ++ ty') st'.

Lemma run_children s children :
  Forall (follows s) children ->
  forall r q a rest ty st,
    forallb wf_tree children = true ->
    roots_are r children = true ->
    check_children q r a = true ->
    top_state (p_stack st) = q ->
    12 <= a ->
    Inv s ty st ->
    stream (p_tokenizer st) (p_token st)
      (concat (map yield children) ++ a :: rest) ->
    exists st' frames ty',
      steps st st'
      /\ p_stack st' = frames ++ p_stack st
      /\ length frames = length r
      /\ path q r = Some (top_state (p_stack st'))
      /\ stream (p_tokenizer st') (p_token st') (a :: rest)
      /\ Inv s (ty ++ ty') st'.
Proof.
  induction 1 as [|t children' Ht _ IH];
    intros r q a rest ty st Hall Hroots Hcheck Hq Ha HI Hs;
    apply roots_are_cons in Hroots.
  - destruct r; [|destruct Hroots].
    exists st, [], []. rewrite app_nil_r. subst q.
    split; [apply steps_refl|]. split; [reflexivity|]. split; [reflexivity|].
    split; [reflexivity|]. split; [exact Hs|exact HI].
  - destruct r as [|Y r']; [destruct Hroots|].
    destruct Hroots as [Hroot Hroots].
    simpl in Hall. apply andb_prop in Hall as [Hwf Hall].
    cbn [check_children] in Hcheck.
    assert (Hnext : forall n, check_children n r' a = true ->
              forall Z more', r' = Z :: more' ->
              exists e t', table_lookup n Z = Some e /\ targets e = Some t').
    { intros n Hc Z more' ->. cbn [check_children] in Hc.
      destruct (table_lookup n Z) as [[t'|t'| |]|]; try discriminate; simpl; eauto. }
    destruct (table_lookup q Y) as [[n|n| |]|] eqn:EY; try discriminate.
    + (* a non-terminal *)
      apply andb_prop in Hcheck as [Hfoll Hcheck].
      destruct (goto_facts _ _ _ EY) as (HY & _).
      destruct (root_nonterminal _ _ Hwf Hroot HY) as (p & ch0 & -> & Hlhs).
      destruct (followers_next n r' a rest children' Hroots Hall
                  (Hnext n Hcheck) Ha) as (b & rest' & Heq & Hin & Hb).
      rewrite forallb_forall in Hfoll. specialize (Hfoll b Hin).
      rewrite forallb_forall in Hfoll.
      destruct (wf_node _ _ Hwf) as (Hp & _).
      specialize (Hfoll p (lhs_prods _ _ Hlhs Hp)).
      cbn [map concat] in Hs. rewrite <- app_assoc, Heq in Hs.
      subst q.
      destruct (Ht p ch0 eq_refl Hwf ty st b rest' n Y HI Hs Hb Hfoll Hlhs EY)
        as (st1 & e & ty1 & Hsteps1 & Hstack1 & Hs1 & HI1).
      rewrite <- Heq in Hs1.
      destruct (IH r' n a rest _ st1 Hall Hroots Hcheck
                  ltac:(now rewrite Hstack1) Ha HI1 Hs1)
        as (st' & frames & ty2 & Hsteps2 & Hstack2 & Hlen & Hpath & Hs2 & HI2).
      exists st', (frames ++ [(e, n)]), (ty1 ++ ty2).
      split; [eapply steps_trans; eauto|].
      split; [rewrite Hstack2, Hstack1, <- app_assoc; reflexivity|].
      split; [rewrite length_app; simpl; lia|].
      split; [simpl; rewrite EY; simpl; exact Hpath|].
      split; [exact Hs2|]. now rewrite app_assoc.
    + (* a token *)
      destruct (shift_facts _ _ _ EY) as (HY & _).
      rewrite (root_token _ _ Hwf Hroot ltac:(lia)) in Hs.
      cbn [map concat yield] in Hs. simpl app in Hs. subst q.
      destruct (shift_step st Y _ n Hs EY) as (st1 & e & Hstep & Hstack1 & Hs1).
      destruct (step_Inv _ _ _ _ HI Hstep) as [ty1 HI1].
      destruct (IH r' n a rest _ st1 Hall Hroots Hcheck
                  ltac:(now rewrite Hstack1) Ha HI1 Hs1)
        as (st' & frames & ty2 & Hsteps2 & Hstack2 & Hlen & Hpath & Hs2 & HI2).
      exists st', (frames ++ [(e, n)]), (ty1 ++ ty2).
      split; [eapply steps_step; eauto|].
      split; [rewrite Hstack2, Hstack1, <- app_assoc; reflexivity|].
      split; [rewrite length_app; simpl; lia|].
      split; [simpl; rewrite EY; simpl; exact Hpath|].
      split; [exact Hs2|]. now rewrite app_assoc.
Qed.

(** The parser follows every derivation tree. *)
Lemma run_tree s t : follows s t.
Proof.
  induction t as [c|p children IH] using tree_induction;
    intros p0 ch0 Heq Hwf ty st a rest q' X HI Hs Ha Hred Hlhs Hgoto;
    [discriminate|].
  injection Heq as <- <-.
  destruct (wf_node _ _ Hwf) as (Hp & (r & Hr & Hroots) & Hall).
  pose proof (check_las (top_state (p_stack st)) p a) as Hla.
  unfold check_la in Hla. rewrite Hred, Hr in Hla. simpl in Hla.
  unfold reduces in Hred. rewrite Hr in Hred.
  destruct (path (top_state (p_stack st)) r) as [qn|] eqn:Epath; [|discriminate].
  destruct (table_lookup qn a) as [[| |p'|]|] eqn:Ea; try discriminate.
  apply Nat.eqb_eq in Hred. subst p'.
  cbn [yield] in Hs.
  destruct (run_children s children IH r _ a rest ty st Hall Hroots Hla
              eq_refl Ha HI Hs)
    as (st1 & frames & ty1 & Hsteps1 & Hstack1 & Hlen & Hpath & Hs1 & HI1).
  rewrite Epath in Hpath. injection Hpath as Hqn.
  rewrite Hqn in Ea.
  destruct (reduce_step _ _ _ _ _ _ HI1 Hs1 Ea)
    as (A & r0 & es & stack' & t' & st2 & e & Hlhs' & Hr' & Hpop & Hgoto'
        & Hstep & Hstack2 & Hs2).
  rewrite Hr in Hr'. injection Hr' as <-.
  rewrite Hlhs in Hlhs'. injection Hlhs' as <-.
  rewrite Hstack1, <- Hlen in Hpop.
  destruct (pop_frames_app frames (p_stack st)) as [es0 Hpop0].
  rewrite Hpop0 in Hpop. injection Hpop as _ <-.
  rewrite Hgoto in Hgoto'. injection Hgoto' as <-.
  destruct (step_Inv _ _ _ _ HI1 Hstep) as [ty2 HI2].
  exists st2, e, (ty1 ++ ty2).
  split; [eapply steps_trans; [exact Hsteps1|now apply steps_one]|].
  split; [exact Hstack2|]. split; [exact Hs2|]. now rewrite app_assoc.
Qed.

(** ** Whole parses *)

Lemma roots_are_intro r children :
  Forall2 (fun Y t => root t = Some Y) r children -> roots_are r children = true.
Proof.
  unfold roots_are. induction 1 as [|Y t r children Hroot _ IH]; auto.
  apply andb_prop in IH as [IH1 IH2].
  simpl. rewrite Hroot, Nat.eqb_refl, IH1. simpl. exact IH2.
Qed.

(** [parse] follows a run of the loop from its first state to the turn
    that ends the loop. *)
Lemma parse_run s ty m t tk st' o m' :
  wf_mod ty m ->
  getNextToken (lex_fuel s) (initString s) = LexToken t tk ->
  steps {| p_tokenizer := tk; p_stack := []; p_token := t; p_mod := m |} st' ->
  parse_step st' = Finish o m' ->
  parse s m = (o, m').
Proof.
  intros Hwf Hlex Hsteps Hfin. unfold parse. rewrite Hlex.
  destruct (initial_Inv s ty m t tk Hwf Hlex) as [HI Hfuel].
  destruct (steps_loop s _ _ Hsteps ty _ HI Hfuel) as (fuel' & Hf & ->).
  destruct fuel' as [|fuel']; [lia|]. simpl. now rewrite Hfin.
Qed.

(** A text that begins with the tokens of the trees [children], which
    spell [r] from the initial state, and goes on with a token the state
    after [r] has no entry for, is rejected. *)
Lemma prefix_rejected s ty m children r a rest q :
  wf_mod ty m ->
  forallb wf_tree children = true ->
  Forall2 (fun Y t => root t = Some Y) r children ->
  check_children 0 r a = true ->
  path 0 r = Some q ->
  table_lookup q a = None ->
  12 <= a ->
  lexes s (concat (map yield children) ++ a :: rest) ->
  exists e, fst (parse s m) = Throw e.
Proof.
  intros Hwf Hall Hroots Hcheck Hpath Hnone Ha (t & tk & Hlex & Hs).
  destruct (initial_Inv s ty m t tk Hwf Hlex) as [HI _].
  destruct (run_children s children
              ltac:(apply Forall_forall; intros; apply run_tree)
              r 0 a rest ty
              {| p_tokenizer := tk; p_stack := []; p_token := t; p_mod := m |}
              Hall (roots_are_intro _ _ Hroots) Hcheck eq_refl Ha HI Hs)
    as (st' & frames & ty' & Hsteps & _ & _ & Hpath' & Hs' & _).
  rewrite Hpath in Hpath'. injection Hpath' as Hq. rewrite Hq in Hnone.
  destruct (stuck_step _ _ _ Hs' Hnone) as [e He].
  exists e. now rewrite (parse_run s ty m t tk st' _ _ Hwf Hlex Hsteps He).
Qed.

(** Completeness: a text whose tokens are derived from [Chip] is parsed
    to the end, and [parse] returns a value. *)
Lemma parse_accepts s ty m w :
  wf_mod ty m -> derives 0 w -> lexes s (w ++ [25]) ->
  exists v, fst (parse s m) = Return v.
Proof.
  intros Hwf (tr & Hwft & Hroot & <-) (t & tk & Hlex & Hs).
  destruct (initial_Inv s ty m t tk Hwf Hlex) as [HI _].
  destruct (root_nonterminal _ _ Hwft Hroot ltac:(lia)) as (p & children & -> & Hlhs).
  assert (Hp : p = 1).
  { destruct (wf_node _ _ Hwft) as (Hp & _). destruct (lhs_lt _ _ Hlhs) as [_ Hlt].
    destruct p as [|[|p]]; [lia|reflexivity|]. exfalso.
    do 20 (destruct p as [|p]; [vm_compute in Hlhs; discriminate|]). lia. }
  subst p.
  destruct (run_tree s _ 1 children eq_refl Hwft ty
              {| p_tokenizer := tk; p_stack := []; p_token := t; p_mod := m |}
              25 [] 30 0 HI Hs ltac:(lia) eq_refl eq_refl eq_refl)
    as (st' & e & ty' & Hsteps & Hstack & Hs' & HI').
  destruct (accept_step _ _ _ e HI' Hs' Hstack) as [v Hv].
  exists v. now rewrite (parse_run s ty m t tk st' _ _ Hwf Hlex Hsteps Hv).
Qed.

Lemma derives_trees X ws :
  Forall (derives X) ws ->
  exists ts, forallb wf_tree ts = true
             /\ Forall (fun t => root t = Some X) ts
             /\ map yield ts = ws.
Proof.
  induction 1 as [|w ws (t & Hwf & Hroot & Hy) _ (ts & Hall & Hroots & Hys)].
  - exists []. repeat split; auto.
  - exists (t :: ts). simpl. rewrite Hwf, Hall, Hy, Hys. repeat split; auto.
Qed.

(** A section begins with IN, OUT or PARTS. *)
Lemma section_first t :
  wf_tree t = true -> root t = Some Section_sym ->
  exists b w, yield t = b :: w /\ (b = 13 \/ b = 14 \/ b = 15).
Proof.
  intros Hwf Hroot.
  destruct (first_shift t Hwf 3 Section_sym (Goto 5) 5 Hroot eq_refl eq_refl)
    as (b & w & Hy & Hsh & Hb).
  exists b, w. split; auto.
  destruct Hb as [Hb1 Hb2].
  do 12 (destruct b as [|b]; [lia|]).
  do 13 (destruct b as [|b]; [vm_compute in Hsh; first [discriminate|lia]|]). lia.
Qed.

(** ** The parser accepts nothing but derivations *)

Lemma derives_token c : 12 <= c <= 24 -> derives c [c].
Proof.
  intros Hc. exists (Leaf c). cbn [wf_tree root yield].
  destruct (Nat.leb_spec 12 c); [|lia]. destruct (Nat.leb_spec c 24); [|lia].
  auto.
Qed.

Lemma derives_node p A r ys :
  1 <= p -> lhs p = Some A -> nth_error rhs p = Some r ->
  Forall2 derives r ys -> derives A (concat ys).
Proof.
  intros Hp Hlhs Hr Hall.
  assert (Hts : exists ts, forallb wf_tree ts = true
                           /\ Forall2 (fun Y t => root t = Some Y) r ts
                           /\ map yield ts = ys).
  { clear Hr. induction Hall as [|Y y r ys (t & Hwf & Hroot & Hy) _ (ts & H1 & H2 & H3)].
    - exists []. repeat split; auto.
    - exists (t :: ts). simpl. rewrite Hwf, H1, Hy, H3. repeat split; auto. }
  destruct Hts as (ts & Hwf & Hroots & <-).
  exists (Node p ts). cbn [wf_tree root yield].
  rewrite Hr, (roots_are_intro _ _ Hroots), Hwf.
  destruct (Nat.leb_spec 1 p); [|lia]. auto.
Qed.

(** The frames a reduction pops spell the right-hand side. *)
Lemma pop_spells Q A : forall rhs_rev t stack w,
  spells stack w -> top_state stack = t ->
  check_path Q rhs_rev t A = true ->
  exists es stack' w' ys,
    pop_frames (length rhs_rev) stack = Some (es, stack')
    /\ spells stack' w'
    /\ Forall2 derives (rev rhs_rev) ys
    /\ w = w' ++ concat ys.
Proof.
  induction rhs_rev as [|X more IH]; intros t stack w Hsp Ht Hc; simpl in Hc.
  - exists [], stack, w, []. simpl. rewrite app_nil_r. repeat split; auto.
  - apply andb_prop in Hc as [Hc H3]. apply andb_prop in Hc as [H1 H2].
    destruct Hsp as [|e t0 X0 stack w y Hsp Hacc Hin Hy].
    + simpl in Ht. subst t. discriminate.
    + simpl in Ht. subst t0. rewrite Hacc in H1. apply Nat.eqb_eq in H1. subst X0.
      rewrite forallb_forall in H3. specialize (H3 _ Hin).
      destruct (IH _ _ _ Hsp eq_refl H3) as (es & stack' & w' & ys & Hp & Hsp' & Hall & ->).
      exists (es ++ [e]), stack', w', (ys ++ [y]). simpl. rewrite Hp.
      repeat split; auto.
      * apply Forall2_app; auto.
      * rewrite concat_app. simpl. now rewrite app_nil_r, app_assoc.
Qed.

(** What the stack spells, followed by the tokens yet to come, is the
    text from its first token [t0] on. *)
Definition spelled (tk0 : tokenizer) (t0 : token) (st : pstate) : Prop :=
  exists w,
    spells (p_stack st) w
    /\ forall ts, stream (p_tokenizer st) (p_token st) ts ->
                  stream tk0 t0 (w ++ ts).

Lemma spelled_step s ty tk0 t0 st st' :
  Inv s ty st -> spelled tk0 t0 st ->
  parse_step st = Continue st' -> spelled tk0 t0 st'.
Proof.
  intros HI (w & Hsp & Hstream) Hstep.
  pose proof Hstep as Hstep'. unfold parse_step in Hstep'.
  destruct (nth_error table _) as [row|] eqn:Erow; [|discriminate].
  destruct (assoc String.eqb _ tokens) as [c|] eqn:Ecol; [|discriminate].
  assert (Hlook : table_lookup (top_state (p_stack st)) c = assoc Nat.eqb c row)
    by (unfold table_lookup; now rewrite Erow).
  destruct (assoc Nat.eqb c row) as [[t|t|p|]|] eqn:Eentry; try discriminate.
  - injection Hstep' as <-. exists w. auto.
  - destruct (shift_facts _ _ _ Hlook) as (Hc & Hacc & Hin).
    unfold do_shift in Hstep'.
    destruct (getNextToken _ _) as [t' tk'| |] eqn:Elex; try discriminate.
    injection Hstep' as <-. simpl.
    exists (w ++ [c]). split.
    + econstructor; eauto. now apply derives_token.
    + intros ts Hts. rewrite <- app_assoc. apply Hstream.
      eapply stream_next; eauto. lia.
  - destruct (reduce_turn s ty st c p HI Ecol Hlook)
      as (A & r & es & stack' & t' & st2 & e & Hlhs & Hr & Hpop & Hgoto & Hstep2
          & Hstack & E1 & E2).
    rewrite Hstep in Hstep2. injection Hstep2 as <-.
    destruct (reduce_facts _ _ _ Hlook)
      as (_ & A' & n & act & r' & Hprod & Hrhs & Hlen & Hn & Hpath).
    rewrite Hr in Hrhs. injection Hrhs as <-.
    destruct (pop_spells _ _ _ _ _ _ Hsp eq_refl Hpath)
      as (es' & stack'' & w' & ys & Hpop' & Hsp' & Hall & ->).
    rewrite length_rev, Hpop in Hpop'. injection Hpop' as <- <-.
    rewrite rev_involutive in Hall.
    destruct (goto_facts _ _ _ Hgoto) as (_ & Hacc & Hin).
    exists (w' ++ concat ys). split.
    + rewrite Hstack. econstructor; eauto.
      apply (derives_node p A r ys); auto.
      destruct p; [|lia]. vm_compute in Hlhs. discriminate.
    + rewrite E1, E2. exact Hstream.
  - unfold do_accept in Hstep'.
    destruct (p_stack st) as [|[parsed q] [|]]; try discriminate.
    destruct (hasMoreTokens _); [discriminate|].
    destruct (semanticValue parsed); discriminate.
Qed.

Lemma parse_loop_sound s tk0 t0 v : forall fuel ty st,
  Inv s ty st -> spelled tk0 t0 st ->
  fst (parse_loop fuel st) = Return v ->
  exists w, derives 0 w /\ stream tk0 t0 (w ++ [25]).
Proof.
  induction fuel as [|fuel IH]; intros ty st HI Hsp Hret; [discriminate|].
  simpl in Hret. destruct (parse_step st) as [st'|o m'] eqn:Hstep.
  - destruct (step_Inv _ _ _ _ HI Hstep) as [ty' HI'].
    pose proof (spelled_step _ _ _ _ _ _ HI Hsp Hstep) as Hsp'.
    destruct (loop_condition st'); [|discriminate].
    exact (IH _ _ HI' Hsp' Hret).
  - simpl in Hret. subst o. unfold parse_step in Hstep.
    destruct (nth_error table _) as [row|] eqn:Erow; [|discriminate].
    destruct (assoc String.eqb _ tokens) as [c|] eqn:Ecol; [|discriminate].
    assert (Hlook : table_lookup (top_state (p_stack st)) c = assoc Nat.eqb c row)
      by (unfold table_lookup; now rewrite Erow).
    destruct (assoc Nat.eqb c row) as [[t|t|p|]|] eqn:Eentry; try discriminate.
    + unfold do_shift in Hstep.
      destruct (getNextToken _ _); discriminate.
    + pose proof (do_reduce_inv p st) as Hred. rewrite Hstep in Hred.
      destruct Hred as [e He]. discriminate.
    + destruct (accept_facts _ _ Hlook) as [Htop ->].
      destruct Hsp as (w & Hsp & Hstream).
      unfold do_accept in Hstep.
      destruct (p_stack st) as [|[parsed q] [|]] eqn:Estack; try discriminate.
      simpl in Htop. subst q.
      inversion Hsp as [|e t X stack w0 y Hsp0 Hacc Hin Hy]; subst.
      inversion Hsp0; subst.
      vm_compute in Hacc. injection Hacc as <-.
      exists y. split; [exact Hy|]. apply (Hstream [25]).
      now apply stream_end.
Qed.

(** Soundness: when [parse] returns a value, the text was read to its end
    and its tokens are derived from [Chip]. *)
Lemma parse_sound s ty m v :
  wf_mod ty m -> fst (parse s m) = Return v ->
  exists w, derives 0 w /\ lexes s (w ++ [25]).
Proof.
  intros Hwf Hret. unfold parse in Hret.
  destruct (getNextToken (lex_fuel s) (initString s)) as [t tk| |] eqn:Hlex;
    try discriminate.
  destruct (initial_Inv s ty m t tk Hwf Hlex) as [HI _].
  destruct (parse_loop_sound s tk t v _ ty _ HI
              ltac:(exists []; split; [constructor|auto]) Hret)
    as (w & Hw & Hs).
  exists w. split; auto. exists t, tk. auto.
Qed.

(** The children of a node are a list as long as the right-hand side. *)
Lemma node_children p children r :
  wf_tree (Node p children) = true -> nth_error rhs p = Some r ->
  Forall2 (fun Y t => root t = Some Y /\ wf_tree t = true) r children.
Proof.
  intros Hwf Hr. destruct (wf_node _ _ Hwf) as (_ & (r' & Hr' & Hroots) & Hall).
  rewrite Hr in Hr'. injection Hr' as <-. clear Hwf Hr.
  revert children Hroots Hall.
  induction r as [|Y r IH]; intros children Hroots Hall;
    apply roots_are_cons in Hroots; destruct children as [|t children];
    try contradiction.
  - constructor.
  - destruct Hroots as [Hroot Hroots].
    simpl in Hall. apply andb_prop in Hall as [Hwf Hall].
    constructor; auto.
Qed.

(** What is derived from [Chip]: CHIP, a name, an opening brace, three
    sections and a closing brace. *)
Lemma chip_sections w :
  derives Chip_sym w ->
  exists n s1 s2 s3,
    derives Name_sym [n] /\ derives Section_sym s1
    /\ derives Section_sym s2 /\ derives Section_sym s3
    /\ w = [12; n; 17] ++ s1 ++ s2 ++ s3 ++ [18].
Proof.
  intros (t & Hwf & Hroot & <-).
  destruct (root_nonterminal _ _ Hwf Hroot ltac:(unfold Chip_sym; lia))
    as (p & children & -> & Hlhs).
  destruct (wf_node _ _ Hwf) as (Hp & _).
  pose proof (lhs_prods _ _ Hlhs Hp) as Hin. vm_compute in Hin.
  destruct Hin as [<-|[]].
  pose proof (node_children _ _ _ Hwf eq_refl) as Hch.
  inversion Hch as [|? c1 ? ? [R1 W1] Hch1]; subst.
  inversion Hch1 as [|? c2 ? ? [R2 W2] Hch2]; subst.
  inversion Hch2 as [|? c3 ? ? [R3 W3] Hch3]; subst.
  inversion Hch3 as [|? c4 ? ? [R4 W4] Hch4]; subst.
  inversion Hch4 as [|? c5 ? ? [R5 W5] Hch5]; subst.
  inversion Hch5; subst.
  rewrite (root_token _ _ W1 R1 ltac:(lia)), (root_token _ _ W3 R3 ltac:(lia)),
    (root_token _ _ W5 R5 ltac:(lia)).
  (* the name *)
  destruct (root_nonterminal _ _ W2 R2 ltac:(lia)) as (pn & chn & -> & Hlhsn).
  destruct (wf_node _ _ W2) as (Hpn & _).
  pose proof (lhs_prods _ _ Hlhsn Hpn) as Hinn. vm_compute in Hinn.
  assert (Hname : exists n, yield (Node pn chn) = [n]).
  { destruct Hinn as [<-|[<-|[<-|[<-|[<-|[]]]]]];
      pose proof (node_children _ _ _ W2 eq_refl) as Hn;
      inversion Hn as [|? n1 ? ? [Rn Wn] Hn1]; subst; inversion Hn1; subst;
      rewrite (root_token _ _ Wn Rn ltac:(lia)); simpl; eauto. }
  destruct Hname as [n Hn].
  (* the sections *)
  destruct (root_nonterminal _ _ W4 R4 ltac:(lia)) as (ps & chs & -> & Hlhss).
  destruct (wf_node _ _ W4) as (Hps & _).
  pose proof (lhs_prods _ _ Hlhss Hps) as Hins. vm_compute in Hins.
  destruct Hins as [<-|[]].
  pose proof (node_children _ _ _ W4 eq_refl) as Hs.
  inversion Hs as [|? t1 ? ? [S1 V1] Hs1]; subst.
  inversion Hs1 as [|? t2 ? ? [S2 V2] Hs2]; subst.
  inversion Hs2 as [|? t3 ? ? [S3 V3] Hs3]; subst.
  inversion Hs3; subst.
  exists n, (yield t1), (yield t2), (yield t3).
  split; [exists (Node pn chn); auto|].
  split; [exists t1; auto|]. split; [exists t2; auto|]. split; [exists t3; auto|].
  cbn [yield map concat]. cbn [yield] in Hn. rewrite Hn. simpl.
  now rewrite !app_nil_r, <- !app_assoc.
Qed.

(** * The claims *)

Lemma fresh_wf : wf_mod fresh_ty fresh.
Proof. repeat constructor. Qed.

(** Every value [parse] returns is a [Chip] object whose tree is a
    [chip_ast]. *)
Lemma parse_returns_chip s ty m v :
  wf_mod ty m -> fst (parse s m) = Return v ->
  exists a, read 6 (store (snd (parse s m))) v = Some a /\ chip_ast a.
Proof.
  intros Hwf Hret.
  destruct (parse_ok s ty m Hwf) as ((ty' & Hwf') & _ & Hgood).
  rewrite Hret in Hgood. simpl in Hgood.
  eapply read_chip; eauto.
Qed.

(** The outcomes of [parse]. *)
Lemma parse_outcomes s ty m :
  wf_mod ty m ->
  (exists v, fst (parse s m) = Return v)
  \/ fst (parse s m) = Throw (SyntaxError "Unexpected end of input.")
  \/ exists o sym line col src,
       o < String.length s
       /\ position s o line col
       /\ line_source s line = Some src /\ src <> EmptyString
       /\ fst (parse s m) = Throw (SyntaxError (located_message src sym line col)).
Proof.
  intros Hwf. destruct (parse_ok s ty m Hwf) as (_ & _ & Hgood).
  destruct (fst (parse s m)) as [v| | |e|]; simpl in Hgood; try contradiction.
  - left. eauto.
  - destruct Hgood as [->|(o & sym & Herr)].
    + right. left. reflexivity.
    + right. right.
      destruct (syntax_error_located _ _ _ _ Herr)
        as (line & col & src & Ho & Hpos & Hsrc & Hne & ->).
      exists o, sym, line, col, src. auto.
Qed.

(** C1: parsing the HDL text of the Mux chip in a freshly loaded module
    succeeds and returns the Chip named Mux with the inputs a, b, sel, the
    output out, and the four parts Not, And, And, Or with their arguments,
    all in source order. *)
Theorem parse_Mux :
  exists v m,
    parse Mux_hdl fresh = (Return v, m) /\ read 6 (store m) v = Some Mux_ast.
Proof. eexists _, _. split; [vm_compute; reflexivity|]. vm_compute. reflexivity. Qed.

(** C2 (the code does otherwise): the second parse of the same text does
    not return a fresh AST. The arrays [inputs], [outputs] and [parts] are
    created once, when the module is loaded, and every parse pushes into
    them: after two parses of the Mux text the second AST holds every pin
    and part twice, and the AST the first call returned, which refers to
    the same arrays, has changed with it. *)
Theorem parse_twice_accumulates :
  exists v1 m1 v2 m2,
    parse Mux_hdl fresh = (Return v1, m1)
    /\ read 6 (store m1) v1 = Some Mux_ast
    /\ parse Mux_hdl m1 = (Return v2, m2)
    /\ read 6 (store m2) v2 = Some Mux_ast_twice
    /\ read 6 (store m2) v1 = Some Mux_ast_twice
    /\ Mux_ast_twice <> Mux_ast.
Proof.
  eexists _, _, _, _.
  split; [vm_compute; reflexivity|].
  split; [vm_compute; reflexivity|].
  split; [vm_compute; reflexivity|].
  split; [vm_compute; reflexivity|].
  split; [vm_compute; reflexivity|].
  vm_compute. discriminate.
Qed.

Lemma lexes_eq s l l' : lexes s l -> l = l' -> lexes s l'.
Proof. now intros H <-. Qed.

(** A chip with [k] sections is parsed if and only if [k = 3]. *)
Lemma sections_count s ty m n secs :
  wf_mod ty m ->
  derives Name_sym [n] ->
  Forall (derives Section_sym) secs ->
  lexes s ([col "CHIP"; n; col "'{'"] ++ concat secs ++ [col "'}'"; col "$"]) ->
  ((exists v, fst (parse s m) = Return v) <-> length secs = 3)
  /\ (length secs <> 3 ->
      exists msg, fst (parse s m) = Throw (SyntaxError msg)).
Proof.
  intros Hwf (tn & Hwfn & Hrootn & Hyn) Hsecs Hlex.
  change (col "CHIP") with 12 in Hlex. change (col "'{'") with 17 in Hlex.
  change (col "'}'") with 18 in Hlex. change (col "$") with 25 in Hlex.
  destruct (derives_trees _ _ Hsecs) as (ts & Hall & Hroots & <-).
  rewrite length_map.
  assert (Hthree : length ts = 3 -> exists v, fst (parse s m) = Return v).
  { intros Hlen. destruct ts as [|t1 [|t2 [|t3 [|t4 ts]]]]; try discriminate.
    apply (parse_accepts s ty m
             ([12; n; 17] ++ concat (map yield [t1; t2; t3]) ++ [18])); auto.
    - exists (Node 1 [Leaf 12; tn; Leaf 17; Node 2 [t1; t2; t3]; Leaf 18]).
      inversion Hroots as [|? ? R1 Hroots1]; subst.
      inversion Hroots1 as [|? ? R2 Hroots2]; subst.
      inversion Hroots2 as [|? ? R3 _]; subst.
      simpl in Hall. rewrite !andb_true_r in Hall.
      apply andb_prop in Hall as [W1 Hall]. apply andb_prop in Hall as [W2 W3].
      split; [|split; [reflexivity|]].
      + cbn [wf_tree forallb]. rewrite Hwfn, W1, W2, W3.
        unfold roots_are. simpl. unfold Section_sym, Name_sym in *.
        now rewrite Hrootn, R1, R2, R3.
      + simpl. rewrite Hyn. simpl. now rewrite !app_nil_r.
    - now rewrite <- !app_assoc. }
  assert (Hother : length ts <> 3 -> exists e, fst (parse s m) = Throw e).
  { intros Hlen.
    assert (Hpre : Forall2 (fun Y t => root t = Some Y) [12; 7; 17]
                     [Leaf 12; tn; Leaf 17]) by (repeat constructor; exact Hrootn).
    assert (Hwfpre : forallb wf_tree [Leaf 12; tn; Leaf 17] = true)
      by (simpl; now rewrite Hwfn).
    destruct ts as [|t1 [|t2 [|t3 [|t4 ts]]]]; try (simpl in Hlen; lia).
    - refine (prefix_rejected s ty m [Leaf 12; tn; Leaf 17] [12; 7; 17] 18 [25] 3
                Hwf Hwfpre Hpre eq_refl eq_refl eq_refl _ _); [lia|].
      simpl. rewrite Hyn. exact Hlex.
    - inversion Hroots as [|? ? R1 _]; subst.
      simpl in Hall. rewrite !andb_true_r in Hall.
      refine (prefix_rejected s ty m [Leaf 12; tn; Leaf 17; t1] [12; 7; 17; 2]
                18 [25] 5 Hwf _ _ eq_refl eq_refl eq_refl _ _).
      + simpl. now rewrite Hwfn, Hall.
      + repeat constructor; assumption.
      + lia.
      + simpl. rewrite Hyn. simpl in Hlex.
        apply (lexes_eq _ _ _ Hlex). rewrite !app_nil_r. simpl.
        repeat (rewrite <- app_assoc; simpl). reflexivity.
    - inversion Hroots as [|? ? R1 Hroots1]; subst.
      inversion Hroots1 as [|? ? R2 _]; subst.
      simpl in Hall. rewrite !andb_true_r in Hall.
      apply andb_prop in Hall as [W1 W2].
      refine (prefix_rejected s ty m [Leaf 12; tn; Leaf 17; t1; t2]
                [12; 7; 17; 2; 2] 18 [25] 9 Hwf _ _ eq_refl eq_refl eq_refl _ _).
      + simpl. now rewrite Hwfn, W1, W2.
      + repeat constructor; assumption.
      + lia.
      + simpl. rewrite Hyn. simpl in Hlex.
        apply (lexes_eq _ _ _ Hlex). rewrite !app_nil_r. simpl.
        repeat (rewrite <- app_assoc; simpl). reflexivity.
    - inversion Hroots as [|? ? R1 Hroots1]; subst.
      inversion Hroots1 as [|? ? R2 Hroots2]; subst.
      inversion Hroots2 as [|? ? R3 Hroots3]; subst.
      inversion Hroots3 as [|? ? R4 _]; subst.
      simpl in Hall.
      apply andb_prop in Hall as [W1 Hall]. apply andb_prop in Hall as [W2 Hall].
      apply andb_prop in Hall as [W3 Hall]. apply andb_prop in Hall as [W4 _].
      destruct (section_first t4 W4 R4) as (b & w & Hy4 & Hb).
      refine (prefix_rejected s ty m [Leaf 12; tn; Leaf 17; t1; t2; t3]
                [12; 7; 17; 2; 2; 2] b
                (w ++ concat (map yield ts) ++ [18; 25]) 40 Hwf _ _ _ eq_refl _ _ _).
      + simpl. now rewrite Hwfn, W1, W2, W3.
      + repeat constructor; assumption.
      + destruct Hb as [->|[->| ->]]; reflexivity.
      + destruct Hb as [->|[->| ->]]; reflexivity.
      + lia.
      + simpl. rewrite Hyn. simpl in Hlex. rewrite Hy4 in Hlex.
        apply (lexes_eq _ _ _ Hlex). rewrite !app_nil_r. simpl.
        repeat (rewrite <- app_assoc; simpl). reflexivity. }
  split; [split|].
  - intros [v Hv]. destruct (Nat.eq_dec (length ts) 3) as [|Hne]; auto.
    destruct (Hother Hne) as [e He]. congruence.
  - exact Hthree.
  - intros Hne. destruct (Hother Hne) as [e He].
    destruct (parse_outcomes s ty m Hwf)
      as [[v Hv]|[Heoi|(o & sym & line & c & src & _ & _ & _ & _ & Hmsg)]];
      [congruence|eauto..].
Qed.

(** C3 as the code has it: the body of a chip is exactly three sections.
    A text that is read as CHIP, a name, an opening brace, the tokens of
    [k] sections (each derived from [Section]: an IN, an OUT or a PARTS
    section, of any kinds and in any order) and a closing brace is parsed
    to a value if and only if [k = 3]; for any other [k] parsing fails
    with a syntax error. And every text that is parsed to a value is read
    as CHIP, a name, an opening brace, three sections and a closing
    brace. *)
Theorem three_sections :
  (forall s ty m n secs,
      wf_mod ty m ->
      derives Name_sym [n] ->
      Forall (derives Section_sym) secs ->
      lexes s ([col "CHIP"; n; col "'{'"] ++ concat secs
                 ++ [col "'}'"; col "$"]) ->
      ((exists v, fst (parse s m) = Return v) <-> length secs = 3)
      /\ (length secs <> 3 ->
          exists msg, fst (parse s m) = Throw (SyntaxError msg)))
  /\ (forall s ty m v,
        wf_mod ty m -> fst (parse s m) = Return v ->
        exists n s1 s2 s3,
          derives Name_sym [n] /\ derives Section_sym s1
          /\ derives Section_sym s2 /\ derives Section_sym s3
          /\ lexes s ([col "CHIP"; n; col "'{'"] ++ s1 ++ s2 ++ s3
                        ++ [col "'}'"; col "$"])).
Proof.
  split; [exact sections_count|].
  intros s ty m v Hwf Hret.
  destruct (parse_sound s ty m v Hwf Hret) as (w & Hw & Hlex).
  destruct (chip_sections w Hw) as (n & s1 & s2 & s3 & Hn & H1 & H2 & H3 & ->).
  exists n, s1, s2, s3. repeat (split; [assumption|]).
  apply (lexes_eq _ _ _ Hlex). simpl.
  repeat (rewrite <- app_assoc; simpl). reflexivity.
Qed.

(** C3 as the spec has it fails: a chip with no section is rejected at its
    closing brace. *)
Lemma no_section_rejected :
  fst (parse (chip_text []) fresh)
  = Throw (SyntaxError (located_message "CHIP Foo { }" "}" 1 11)).
Proof. vm_compute. reflexivity. Qed.

Lemma three_sections_witness :
  wf_mod fresh_ty fresh
  /\ derives Name_sym [16]
  /\ Forall (derives Section_sym)
       [ [13; 16; 19]; [14; 16; 19];
         [15; 20; 16; 22; 16; 24; 16; 21; 16; 24; 16; 23; 19] ]
  /\ exists v, fst (parse (chip_text [SecIn; SecOut; SecParts]) fresh) = Return v.
Proof.
  assert (Hwf : wf_mod fresh_ty fresh) by (repeat constructor).
  assert (Hn : derives Name_sym [16])
    by (exists (Node 11 [Leaf 16]); repeat split).
  assert (Hsecs : Forall (derives Section_sym)
            [ [13; 16; 19]; [14; 16; 19];
              [15; 20; 16; 22; 16; 24; 16; 21; 16; 24; 16; 23; 19] ]).
  { repeat apply List.Forall_cons; [| | |apply List.Forall_nil].
    - exists (Node 3 [Node 6 [Leaf 13; Node 9 [Node 11 [Leaf 16]]; Leaf 19]]).
      repeat split.
    - exists (Node 4 [Node 7 [Leaf 14; Node 9 [Node 11 [Leaf 16]]; Leaf 19]]).
      repeat split.
    - exists (Node 5 [Node 8 [Leaf 15; Leaf 20;
                Node 16 [Node 18 [Leaf 16; Leaf 22;
                  Node 20 [Node 19 [Node 21 [Leaf 16; Leaf 24; Leaf 16]];
                           Leaf 21; Node 21 [Leaf 16; Leaf 24; Leaf 16]];
                  Leaf 23; Leaf 19]]]]).
      repeat split. }
  assert (Hlex : lexes (chip_text [SecIn; SecOut; SecParts])
            ([col "CHIP"; 16; col "'{'"]
               ++ concat [ [13; 16; 19]; [14; 16; 19];
                           [15; 20; 16; 22; 16; 24; 16; 21; 16; 24; 16; 23; 19] ]
               ++ [col "'}'"; col "$"])).
  { eexists _, _. split; [vm_compute; reflexivity|].
    repeat (eapply stream_next;
            [reflexivity|discriminate|vm_compute; reflexivity|]).
    apply stream_end. reflexivity. }
  split; [exact Hwf|]. split; [exact Hn|]. split; [exact Hsecs|].
  apply (proj2 (proj1 (proj1 three_sections _ fresh_ty fresh 16 _ Hwf Hn Hsecs Hlex))).
  reflexivity.
Defined.

Lemma app_empty_inv a b : a +++ b = EmptyString -> a = EmptyString /\ b = EmptyString.
Proof. destruct a; simpl; [auto|discriminate]. Qed.

Lemma app_ends_nl a : forall b x,
  a +++ b = x +++ nl -> b = EmptyString \/ exists b', b = b' +++ nl.
Proof.
  induction a as [|c a IH]; intros b x H; simpl in H.
  - right. eauto.
  - destruct x as [|d x]; simpl in H.
    + injection H as Hc Hab. apply app_empty_inv in Hab as [_ Hb].
      left. exact Hb.
    + injection H as Hc Hab. eauto.
Qed.

Lemma position_start s line col : position s 0 line col -> line = 1 /\ col = 0.
Proof.
  intros (before & here & E & _ & _ & -> & ->).
  assert (str_take 0 s = EmptyString) as E0 by (destruct s; reflexivity).
  rewrite E0 in E. symmetry in E. apply app_empty_inv in E as [-> ->]. auto.
Qed.

Lemma position_after_lf s o rest line col :
  slice o s = String LF rest -> position s (S o) line col -> col = 0.
Proof.
  intros Hsl (before & here & E & _ & Hlf & _ & ->).
  replace (S o) with (o + 1) in E by lia.
  rewrite take_add, Hsl in E. simpl in E.
  change (String LF EmptyString) with nl in E. symmetry in E.
  destruct (app_ends_nl _ _ _ E) as [->|(b' & ->)]; auto.
  rewrite count_lf_app in Hlf. simpl in Hlf. lia.
Qed.

Lemma id_text_not_keyword w : id_text w = true -> ~ In w keywords.
Proof.
  unfold id_text. intros H Hin. apply andb_prop in H as [_ H].
  apply negb_true_iff in H. simpl in Hin.
  repeat (destruct Hin as [<-|Hin]; [discriminate|]). destruct Hin.
Qed.

(** A keyword where the grammar asks for an ID token: the name of a part,
    the name of an argument, the value of an argument. *)
Lemma keyword_rejected_as_id kw tail :
  In kw keywords ->
  (exists msg, fst (parse (keyword_part_name kw tail) fresh)
               = Throw (SyntaxError msg))
  /\ (exists msg, fst (parse (keyword_argument_name kw tail) fresh)
                  = Throw (SyntaxError msg))
  /\ (exists msg, fst (parse (keyword_argument_value kw tail) fresh)
                  = Throw (SyntaxError msg)).
Proof.
  intros Hin. simpl in Hin.
  repeat (destruct Hin as [<-|Hin];
    [split; [|split]; vm_compute; eexists; reflexivity|]).
  destruct Hin.
Qed.

Lemma ident_inv w :
  ident w = true ->
  w <> EmptyString /\ str_forallb is_word w = true /\ keyword_prefixed w = false.
Proof.
  unfold ident, word_run. intros H. apply andb_prop in H as [H H3].
  apply andb_prop in H as [H1 H2].
  apply negb_true_iff in H1, H3. apply String.eqb_neq in H1. auto.
Qed.

(** The tokenizer on an identifier that ends where the text ends or a
    character outside [\w] follows. *)
Lemma lex_identifier fuel tk w rest :
  slice (_cursor tk) (_string tk) = w +++ rest ->
  ident w = true ->
  word_end rest ->
  exists t tk',
    getNextToken (S fuel) tk = LexToken t tk'
    /\ type t = "ID"%string /\ value t = w
    /\ _cursor tk' = _cursor tk + String.length w.
Proof.
  intros Hsl Hid Hrest. unfold word_end in Hrest. destruct (ident_inv _ Hid) as (Hne & Hw & Hkw).
  rewrite getNextToken_unfold. unfold hasMoreTokens.
  assert (Hlt : _cursor tk < String.length (_string tk)).
  { destruct (Nat.lt_ge_cases (_cursor tk) (String.length (_string tk))) as [|Hge];
      auto.
    rewrite (slice_all _ _ Hge) in Hsl. destruct w; [congruence|discriminate]. }
  destruct (Nat.leb_spec (_cursor tk) (String.length (_string tk))); [|lia].
  cbn [negb]. rewrite Hsl.
  rewrite (scan_rules_identifier tk w rest Hsl Hne Hw Hkw Hrest).
  eexists _, _. split; [reflexivity|].
  unfold _captureLocation. destruct (scan_newlines _ _ _ _ _).
  repeat split.
Qed.

Lemma id_token_text s fuel tk t tk' :
  lexer_state s tk -> getNextToken fuel tk = LexToken t tk' ->
  type t = "ID"%string -> ident (value t) = true.
Proof.
  intros Hst Hlex Hty.
  pose proof (lexer_state_inv _ _ Hst) as Hinv.
  destruct (getNextToken_token _ _ _ _ _ Hinv Hlex) as [_ [Hnone|(l & Hat)]].
  - destruct fuel as [|fuel]; [discriminate|].
    exfalso.
    destruct (Nat.le_gt_cases (_cursor tk) (String.length s)) as [Hle|Hgt].
    + pose proof (getNextToken_fuel tk (S fuel) (String.length s + 2)) as Hmono.
      rewrite Hlex in Hmono. specialize (Hmono ltac:(discriminate)).
      pose proof (getNextToken_spec s _ tk Hinv Hle
                    ltac:(instantiate (1 := S fuel + (String.length s + 2)); lia))
        as Hspec.
      rewrite Hmono in Hspec. destruct Hspec as (_ & _ & [[-> _]|(l & Hat & _)]).
      * discriminate.
      * rewrite (ta_loc _ _ _ Hat) in Hnone. discriminate.
    + rewrite getNextToken_unfold in Hlex. unfold hasMoreTokens in Hlex.
      rewrite (inv_string _ _ Hinv) in Hlex.
      destruct (Nat.leb_spec (_cursor tk) (String.length s)); [lia|].
      simpl in Hlex. inversion Hlex; subst. discriminate.
  - destruct (token_rule _ _ _ (ta_rule _ _ _ Hat))
      as ((col & Hcol & _ & Htext) & _).
    rewrite Hty in Hcol. vm_compute in Hcol. inversion Hcol; subst col.
    exact Htext.
Qed.

(** C8 as the code has it: the ID rule is [\w+], tried after the keyword
    rules. A non-empty run of letters, digits and underscores that does not
    begin with CHIP, IN, OUT or PARTS, followed by the end of the text or
    by a character outside [\w], is one ID token with the run as its text,
    a leading digit included; and the text of every ID token the tokenizer
    produces is a non-empty run of such characters. *)
Theorem identifiers :
  (forall fuel tk w rest,
      slice (_cursor tk) (_string tk) = w +++ rest ->
      ident w = true ->
      word_end rest ->
      exists t tk',
        getNextToken (S fuel) tk = LexToken t tk'
        /\ type t = "ID"%string /\ value t = w
        /\ _cursor tk' = _cursor tk + String.length w)
  /\ (forall s fuel tk t tk',
        lexer_state s tk -> getNextToken fuel tk = LexToken t tk' ->
        type t = "ID"%string -> word_run (value t) = true).
Proof.
  split; [exact lex_identifier|].
  intros s fuel tk t tk' Hst Hlex Hty.
  apply ident_word. eapply id_token_text; eauto.
Qed.

(** C8 as the spec has it fails: a run that starts with a digit is an ID
    token, and an identifier that begins with a keyword is split into the
    keyword and the rest. *)
Lemma digit_led_identifier :
  (exists t tk,
      getNextToken 3 (initString "1abc") = LexToken t tk
      /\ type t = "ID"%string /\ value t = "1abc"%string)
  /\ (exists t1 tk1 t2 tk2,
        getNextToken 3 (initString "OUTx") = LexToken t1 tk1
        /\ type t1 = "OUT"%string /\ value t1 = "OUT"%string
        /\ getNextToken 3 tk1 = LexToken t2 tk2
        /\ type t2 = "ID"%string /\ value t2 = "x"%string).
Proof.
  split.
  - eexists _, _. split; [vm_compute; reflexivity|]. split; reflexivity.
  - eexists _, _, _, _. split; [vm_compute; reflexivity|].
    split; [reflexivity|]. split; [reflexivity|].
    split; [vm_compute; reflexivity|]. split; reflexivity.
Qed.

Lemma identifiers_witness :
  slice (_cursor (initString "sel;")) (_string (initString "sel;"))
  = ("sel" +++ ";")%string
  /\ ident "sel" = true
  /\ word_end ";"
  /\ exists t tk',
       getNextToken 1 (initString "sel;") = LexToken t tk'
       /\ type t = "ID"%string /\ value t = "sel"%string
       /\ _cursor tk' = _cursor (initString "sel;") + String.length "sel".
Proof.
  assert (H1 : slice (_cursor (initString "sel;")) (_string (initString "sel;"))
               = ("sel" +++ ";")%string) by reflexivity.
  assert (H2 : ident "sel" = true) by reflexivity.
  assert (H3 : word_end ";") by (right; eexists _, _; split; reflexivity).
  split; [exact H1|]. split; [exact H2|]. split; [exact H3|].
  exact (proj1 identifiers 0 (initString "sel;") "sel"%string ";"%string H1 H2 H3).
Defined.

(** C10: parsing [CHIP Foo { IN a IN b; }] fails, in any module state,
    with the syntax error located at the second IN: line 1, column 16 (the
    offset of that IN in the line, the first IN being at 11), and the
    message shows the input line with a caret under that column. *)
Theorem parse_error_location :
  (forall m,
      fst (parse error_text m)
      = Throw (SyntaxError (located_message error_text "IN" 1 16)))
  /\ line_source error_text 1 = Some error_text
  /\ String.index 0 "IN" error_text = Some 11
  /\ String.index 12 "IN" error_text = Some 16
  /\ position error_text 16 1 16.
Proof.
  split; [intros m; vm_compute; reflexivity|].
  split; [reflexivity|]. split; [reflexivity|]. split; [reflexivity|].
  exists EmptyString, (str_take 16 error_text). repeat split. now left.
Qed.

(** * More of the code *)

(** ** What the tokenizer skips *)

(** The rules without a token are the two comments and the white space. *)
Lemma first_match_skip str m :
  first_match lexRules str None m -> skip_match str m.
Proof.
  intros (before & re & after & E & _ & Hm).
  assert (Hn : nth_error lexRules (length before) = Some (re, None)).
  { rewrite E, nth_error_app2, Nat.sub_diag by lia. reflexivity. }
  clear E. unfold lexRules in Hn.
  destruct (length before) as [|[|[|n]]]; simpl in Hn.
  - injection Hn as <-. now left.
  - injection Hn as <-. right. now left.
  - injection Hn as <-. right. now right.
  - do 13 (destruct n as [|n]; [discriminate|]; simpl in Hn).
    destruct n; discriminate.
Qed.

Lemma space_not_slash c : is_space c = true -> Ascii.eqb "/" c = false.
Proof.
  intros H. destruct (Ascii.eqb_spec "/"%char c) as [E|]; [|reflexivity].
  subst c. discriminate H.
Qed.

Lemma skip_first_match str m :
  skip_match str m -> first_match lexRules str None m.
Proof.
  intros [H|[H|H]].
  - exists [], re_line_comment, (skipn 1 lexRules). repeat split; auto.
  - exists [(re_line_comment, None)], re_block_comment, (skipn 2 lexRules).
    repeat split; auto. constructor; [|constructor]. simpl.
    unfold re_block_comment in H. unfold re_line_comment.
    destruct (starts_with "/*" str) eqn:E; [|discriminate].
    destruct str as [|a [|b str]]; try discriminate.
    cbn [starts_with] in E |- *.
    apply andb_prop in E as [_ E]. apply andb_prop in E as [E _].
    apply Ascii.eqb_eq in E. subst b.
    change (Ascii.eqb "/" "*") with false. now rewrite andb_false_r.
  - exists [(re_line_comment, None); (re_block_comment, None)],
      (re_plus is_space), (skipn 3 lexRules).
    repeat split; auto.
    assert (Hc : exists c r, str = String c r /\ is_space c = true).
    { unfold re_plus in H. destruct str as [|c r]; [discriminate|].
      simpl in H. destruct (is_space c) eqn:E; [eauto|discriminate]. }
    destruct Hc as (c & r & -> & Hc). apply space_not_slash in Hc.
    constructor; [|constructor; [|constructor]]; cbn [fst].
    + unfold re_line_comment. cbn [starts_with]. now rewrite Hc.
    + unfold re_block_comment. cbn [starts_with]. now rewrite Hc.
Qed.

(** The loop over the rules finds the first rule that matches. *)
Lemma scan_rules_first rules str tk h m :
  Forall (fun r : lex_rule => re_sound (fst r)) rules ->
  first_match rules str h m ->
  scan_rules rules str tk
  = Some (m, h, set_cursor (_cursor tk + String.length m) (_captureLocation m tk)).
Proof.
  intros Hsound (before & re & after & -> & Hb & Hm).
  induction before as [|[re0 h0] before IH]; simpl.
  - unfold _match. rewrite Hm.
    apply Forall_cons_1 in Hsound as [Hre _].
    destruct (Hre str m Hm) as [Hne _].
    assert (String.eqb m EmptyString = false) as ->
      by (apply String.eqb_neq; exact Hne).
    rewrite andb_false_r.
    unfold _captureLocation.
    destruct (scan_newlines m 0 (_cursor tk) (_currentLine tk)
                (_currentLineBeginOffset tk)); reflexivity.
  - apply Forall_cons_1 in Hb as [H0 Hb]. simpl in H0.
    unfold _match. rewrite H0.
    apply Forall_cons_1 in Hsound as [_ Hsound]. now apply IH.
Qed.

(** What a call of [getNextToken] reads: comments and white space, then
    the token, the end of the text, or a character no rule matches. *)
Lemma getNextToken_skips s : forall fuel tk,
  tk_inv s tk -> _cursor tk <= String.length s ->
  match getNextToken fuel tk with
  | LexToken t tk' =>
      (t = EOF_TOKEN /\ skips s (_cursor tk) (String.length s)
       /\ _cursor tk' = S (String.length s))
      \/ (exists l, tloc t = Some l
                    /\ skips s (_cursor tk) (startOffset l)
                    /\ _cursor tk' = endOffset l
                    /\ first_match lexRules (slice (startOffset l) s)
                         (Some (type t)) (value t)
                    /\ endOffset l = startOffset l + String.length (value t)
                    /\ endOffset l <= String.length s)
  | LexThrow e =>
      exists o, skips s (_cursor tk) o /\ o < String.length s
                /\ lex_error_at s o e
  | LexOutOfFuel => True
  end.
Proof.
  induction fuel as [|fuel IH]; intros tk Hinv Hle; [exact I|].
  rewrite getNextToken_unfold. unfold hasMoreTokens.
  pose proof (inv_string _ _ Hinv) as Hs. rewrite Hs.
  destruct (Nat.leb_spec (_cursor tk) (String.length s)); [|lia].
  cbn [negb].
  destruct (scan_rules lexRules (slice (_cursor tk) s) tk)
    as [[[m h] tk']|] eqn:E.
  - destruct (scan_rules_some _ _ _ _ _ _ lexRules_sound E) as (Hfirst & ->).
    destruct (first_match_in _ _ _ _ Hfirst) as (re & Hin & Hm).
    pose proof lexRules_sound as Hsound.
    rewrite List.Forall_forall in Hsound.
    destruct (Hsound _ Hin _ _ Hm) as [Hne Hpre]. simpl in Hne, Hpre.
    pose proof (capture_inv _ _ _ Hinv Hle Hpre) as Hinv'.
    pose proof (prefix_bound _ _ _ Hle Hpre) as Hb.
    destruct h as [ty|]; cbv beta iota.
    + right. unfold _toToken, _captureLocation.
      destruct (scan_newlines m 0 (_cursor tk) (_currentLine tk)
                  (_currentLineBeginOffset tk)) as [line lbo].
      eexists. split; [reflexivity|]. simpl.
      split; [apply skips_refl|]. split; [reflexivity|].
      split; [exact Hfirst|]. split; [reflexivity|exact Hb].
    + specialize (IH _ Hinv' ltac:(simpl; lia)).
      assert (Hstep : forall o', skips s (_cursor tk + String.length m) o' ->
                                 skips s (_cursor tk) o')
        by (intros o'; apply skips_step; now apply first_match_skip).
      destruct (getNextToken fuel _) as [t tk''|e|]; auto.
      * destruct IH as [(-> & Hsk & Hc)|(l & Hl & Hsk & Hrest)].
        -- left. simpl in Hsk. auto.
        -- right. exists l. simpl in Hsk. auto.
      * destruct IH as (o & Hsk & Ho). exists o. simpl in Hsk. auto.
  - unfold isEOF. rewrite Hs.
    destruct (Nat.eqb_spec (_cursor tk) (String.length s)) as [Heq|Hneq].
    + left. rewrite Heq. simpl. repeat split; auto using skips_refl.
    + exists (_cursor tk). split; [apply skips_refl|]. split; [lia|].
      pose proof (slice_nonempty (_cursor tk) s ltac:(lia)) as Hne.
      destruct (slice (_cursor tk) s) as [|c rest] eqn:Esl; [congruence|].
      exists c, rest, (_currentLineBeginOffset tk), (_currentLine tk).
      repeat split; auto.
      * now apply scan_rules_none in E.
      * apply (inv_pos _ _ Hinv).
      * unfold throwUnexpectedToken. rewrite Hs. simpl.
        now rewrite (inv_col _ _ Hinv) by lia.
Qed.

(** Past the end of the text a call changes nothing. *)
Lemma getNextToken_past_end fuel tk :
  hasMoreTokens tk = false ->
  getNextToken (S fuel) tk = LexToken EOF_TOKEN tk.
Proof. intros H. rewrite getNextToken_unfold, H. reflexivity. Qed.

Lemma past_end s tk :
  tk_inv s tk -> String.length s < _cursor tk -> hasMoreTokens tk = false.
Proof.
  intros Hinv Hlt. unfold hasMoreTokens. rewrite (inv_string _ _ Hinv).
  destruct (Nat.leb_spec (_cursor tk) (String.length s)); [lia|reflexivity].
Qed.

Lemma skips_le s o o' : skips s o o' -> o <= o'.
Proof. induction 1; lia. Qed.

(** What each rule with a token matches. *)
Lemma first_match_token str ty v :
  first_match lexRules str (Some ty) v ->
  (forall w, literal_text ty = Some w -> v = w)
  /\ (literal_text ty = None -> ty = "ID"%string)
  /\ (ty = "ID"%string -> v = take_while is_word str).
Proof.
  intros (before & re & after & E & _ & Hm).
  assert (Hn : nth_error lexRules (length before) = Some (re, Some ty)).
  { rewrite E, nth_error_app2, Nat.sub_diag by lia. reflexivity. }
  clear E. revert Hn. generalize (length before) as n. clear before.
  intros n Hn. unfold lexRules in Hn.
  do 3 (destruct n as [|n]; [discriminate|]; simpl in Hn).
  do 4 (destruct n as [|n]; simpl in Hn;
        [injection Hn as <- <-; apply re_lit_inv in Hm; subst v;
         repeat split; try discriminate; now intros w [= <-]|]).
  destruct n as [|n]; simpl in Hn.
  { injection Hn as <- <-. repeat split; try discriminate.
    intros _. unfold re_plus in Hm.
    destruct (take_while is_word str); [discriminate|]. now injection Hm. }
  do 8 (destruct n as [|n]; simpl in Hn;
        [injection Hn as <- <-; apply re_lit_inv in Hm; subst v;
         repeat split; try discriminate; now intros w [= <-]|]).
  destruct n; discriminate.
Qed.

Lemma take_while_end p s :
  match slice (String.length (take_while p s)) s with
  | EmptyString => True
  | String c _ => p c = false
  end.
Proof.
  induction s as [|c s IH]; simpl; auto.
  destruct (p c) eqn:E; simpl; auto.
Qed.

(** Comments and white space up to the end of the text: the tokenizer
    reports the end. *)
Lemma skips_eof s : forall o o',
  skips s o o' -> o' = String.length s ->
  forall tk, tk_inv s tk -> _cursor tk = o ->
  exists fuel tk', getNextToken fuel tk = LexToken EOF_TOKEN tk'.
Proof.
  induction 1 as [o|o m o' Hm _ IH]; intros -> tk Hinv Hc.
  - exists 1. rewrite getNextToken_unfold. unfold hasMoreTokens, isEOF.
    rewrite (inv_string _ _ Hinv), Hc, Nat.leb_refl, Nat.eqb_refl.
    rewrite (slice_all _ _ (Nat.le_refl _)). cbn [negb]. eauto.
  - apply skip_first_match in Hm.
    assert (Hpre : slice o s = m +++ slice (String.length m) (slice o s)).
    { destruct (first_match_in _ _ _ _ Hm) as (re & Hin & Hre).
      pose proof lexRules_sound as Hsound. rewrite List.Forall_forall in Hsound.
      now destruct (Hsound _ Hin _ _ Hre). }
    assert (Hlt : o < String.length s).
    { destruct (Nat.lt_ge_cases o (String.length s)) as [|Hge]; auto.
      rewrite (slice_all _ _ Hge) in Hm.
      destruct (first_match_in _ _ _ _ Hm) as (re & Hin & Hre).
      pose proof lexRules_sound as Hsound. rewrite List.Forall_forall in Hsound.
      destruct (Hsound _ Hin _ _ Hre) as [Hne Hp]. simpl in Hp.
      destruct m; [congruence|discriminate]. }
    subst o.
    pose proof (capture_inv _ _ _ Hinv ltac:(lia) Hpre) as Hinv1.
    destruct (IH eq_refl _ Hinv1 eq_refl) as (fuel & tk' & Hlex).
    exists (S fuel), tk'. rewrite getNextToken_unfold. unfold hasMoreTokens.
    rewrite (inv_string _ _ Hinv).
    destruct (Nat.leb_spec (_cursor tk) (String.length s)); [|lia].
    cbn [negb]. now rewrite (scan_rules_first _ _ tk _ _ lexRules_sound Hm).
Qed.

(** With the fuel [parse] gives it, [getNextToken] returns what it
    returns with any fuel that suffices. *)
Lemma getNextToken_enough s fuel tk r :
  tk_inv s tk -> _cursor tk <= String.length s ->
  getNextToken fuel tk = r -> r <> LexOutOfFuel ->
  getNextToken (String.length s + 2) tk = r.
Proof.
  intros Hinv Hle Hlex Hne.
  pose proof (getNextToken_spec s (String.length s + 2) tk Hinv Hle ltac:(lia))
    as Hspec.
  pose proof (getNextToken_fuel tk fuel (String.length s + 2)) as H1.
  pose proof (getNextToken_fuel tk (String.length s + 2) fuel) as H2.
  rewrite Hlex in H1. specialize (H1 Hne).
  destruct (getNextToken (String.length s + 2) tk) eqn:E; try contradiction;
    rewrite <- H2, Nat.add_comm, H1 by discriminate; reflexivity.
Qed.

(** ** The store only grows *)

Lemma store_extends_refl h : store_extends h h.
Proof. intros l vs H. exists []. now rewrite app_nil_r. Qed.

Lemma store_extends_trans h1 h2 h3 :
  store_extends h1 h2 -> store_extends h2 h3 -> store_extends h1 h3.
Proof.
  intros H12 H23 l vs H. destruct (H12 _ _ H) as [m1 H1].
  destruct (H23 _ _ H1) as [m2 H2]. exists (m1 ++ m2).
  now rewrite app_assoc.
Qed.

(** What an action leaves: more in the store, the same variables. *)
Definition grows (m : modstate) (c : completion) : Prop :=
  match c with
  | Normal m' | Abrupt _ m' =>
      store_extends (store m) (store m') /\ same_vars m m'
  end.

Lemma grows_refl m : grows m (Normal m).
Proof. split; [apply store_extends_refl|repeat split]. Qed.

Lemma array_push_grows a vs m : grows m (array_push a vs m).
Proof.
  unfold array_push. destruct a as [| |l| | |];
    try (split; [apply store_extends_refl|repeat split]).
  destruct (store m !! l) as [arr|] eqn:E;
    [|split; [apply store_extends_refl|repeat split]].
  split; [|repeat split]. simpl. intros l' vs' H.
  destruct (Nat.eq_dec l' l) as [->|Hne].
  - rewrite E in H. injection H as <-. exists vs.
    apply list_lookup_insert_eq. now apply lookup_lt_Some in E.
  - exists []. rewrite app_nil_r. now rewrite list_lookup_insert_ne by auto.
Qed.

Lemma push_spread_grows l v m : grows m (push_spread l v m).
Proof.
  unfold push_spread. destruct (spread v m);
    [apply array_push_grows|split; [apply store_extends_refl|repeat split]].
Qed.

Lemma grows_set_loc l m c : grows (set_loc l m) c -> grows m c.
Proof. destruct c; exact id. Qed.

Lemma new_array_grows v m : grows m (Normal (new_array v m)).
Proof.
  split; [|repeat split]. simpl. intros l vs H. exists [].
  rewrite app_nil_r. now apply lookup_app_l_Some.
Qed.

Lemma plain_grows (m m' : modstate) :
  store m' = store m -> same_vars m m' -> grows m (Normal m').
Proof. intros E H. split; [rewrite E; apply store_extends_refl|exact H]. Qed.

Lemma act_append_grows n args locs m : grows m (act_append n args locs m).
Proof.
  unfold act_append.
  match goal with
  | |- grows m (match array_push ?a ?vs ?m0 with _ => _ end) =>
      pose proof (array_push_grows a vs m0) as H;
      destruct (array_push a vs m0); exact H
  end.
Qed.

Lemma action_grows p lhs n f args locs m :
  nth_error productions p = Some (lhs, n, Some f) -> grows m (f args locs m).
Proof.
  intros Hp. unfold productions in Hp.
  do 22 (destruct p as [|p];
    [ first
        [ discriminate
        | injection Hp as _ _ <-;
          first [ apply plain_grows; [reflexivity|repeat split]
                | eapply grows_set_loc, push_spread_grows
                | eapply grows_set_loc, new_array_grows
                | apply act_append_grows ] ]
    | simpl in Hp ]).
  destruct p; discriminate.
Qed.

Definition step_grows (m : modstate) (r : step_result) : Prop :=
  match r with
  | Continue st' => store_extends (store m) (store (p_mod st'))
                    /\ same_vars m (p_mod st')
  | Finish _ m' => store_extends (store m) (store m') /\ same_vars m m'
  end.

Lemma same_grows m : store_extends (store m) (store m) /\ same_vars m m.
Proof. split; [apply store_extends_refl|repeat split]. Qed.

Lemma do_reduce_grows p st : step_grows (p_mod st) (do_reduce p st).
Proof.
  unfold do_reduce.
  destruct (nth_error productions p) as [[[lhs n] act]|] eqn:Ep;
    [|apply same_grows].
  destruct (pop_frames n (p_stack st)) as [[es stack']|]; [|apply same_grows].
  destruct act as [f|].
  - pose proof (action_grows p lhs n f (map value_of es) (map eloc es)
                  (p_mod st) Ep) as Hg.
    destruct (f _ _ _) as [m'|e m']; [|exact Hg].
    destruct (nth_error table _); [|exact Hg]. destruct lhs; [|exact Hg].
    destruct (assoc _ _ _) as [[]|]; exact Hg.
  - destruct (nth_error table _); [|apply same_grows].
    destruct lhs; [|apply same_grows].
    destruct (assoc _ _ _) as [[]|]; apply same_grows.
Qed.

Lemma parse_step_grows st : step_grows (p_mod st) (parse_step st).
Proof.
  unfold parse_step.
  destruct (nth_error table _) as [row|]; [|apply same_grows].
  destruct (assoc String.eqb _ tokens) as [c|]; [|apply same_grows].
  destruct (assoc Nat.eqb c row) as [[t|t|p|]|]; try apply same_grows.
  - unfold do_shift. destruct (getNextToken _ _); apply same_grows.
  - apply do_reduce_grows.
  - unfold do_accept. destruct (p_stack st) as [|[parsed q] [|]];
      try apply same_grows.
    destruct (hasMoreTokens _); [apply same_grows|].
    destruct (semanticValue parsed); apply same_grows.
Qed.

Lemma same_vars_trans m1 m2 m3 :
  same_vars m1 m2 -> same_vars m2 m3 -> same_vars m1 m3.
Proof.
  intros (A1 & A2 & A3) (B1 & B2 & B3). repeat split; congruence.
Qed.

Lemma parse_loop_grows : forall fuel st,
  store_extends (store (p_mod st)) (store (snd (parse_loop fuel st)))
  /\ same_vars (p_mod st) (snd (parse_loop fuel st)).
Proof.
  induction fuel as [|fuel IH]; intros st; simpl; [apply same_grows|].
  pose proof (parse_step_grows st) as Hg.
  destruct (parse_step st) as [st'|o m']; simpl in Hg |- *; [|exact Hg].
  destruct Hg as [H1 H2].
  destruct (loop_condition st'); simpl; [|auto].
  destruct (IH st') as [H3 H4].
  split; [eapply store_extends_trans; eauto|eapply same_vars_trans; eauto].
Qed.

Lemma parse_grows s m :
  store_extends (store m) (store (snd (parse s m)))
  /\ same_vars m (snd (parse s m)).
Proof.
  unfold parse. destruct (getNextToken _ _) as [t tk| |];
    try apply same_grows.
  apply (parse_loop_grows _
           {| p_tokenizer := tk; p_stack := []; p_token := t; p_mod := m |}).
Qed.

(** ** A session *)

Lemma good_error_syntax s e : good_error s e -> exists msg, e = SyntaxError msg.
Proof.
  intros [->|(o & sym & c & rest & line & bol & _ & _ & _ & _ & ->)]; eauto.
Qed.

Lemma is_chip_same m m' v : same_vars m m' -> is_chip m v -> is_chip m' v.
Proof.
  intros (H1 & H2 & H3) (n & -> & Hn). exists n. now rewrite H1, H2, H3.
Qed.

(** What holds of the outcome of an earlier call in a later state. *)
Definition outcome_ok (m : modstate) (o : outcome) : Prop :=
  match o with
  | Return v => is_chip m v
  | Throw e => exists msg, e = SyntaxError msg
  | _ => False
  end.

Lemma parse_all_ok : forall texts ty m,
  wf_mod ty m ->
  (exists ty', wf_mod (ty ++ ty') (snd (parse_all texts m)))
  /\ same_vars m (snd (parse_all texts m))
  /\ Forall (outcome_ok (snd (parse_all texts m))) (fst (parse_all texts m)).
Proof.
  induction texts as [|s texts IH]; intros ty m Hwf; simpl.
  - split; [now apply wf_mod_nil|]. split; [repeat split|constructor].
  - destruct (parse_ok s ty m Hwf) as ((ty1 & Hwf1) & Hsame1 & Hgood).
    destruct (parse s m) as [o m1] eqn:Ep. simpl in *.
    destruct (IH _ _ Hwf1) as ((ty2 & Hwf2) & Hsame2 & Hall).
    destruct (parse_all texts m1) as [os m2]. simpl in *.
    split; [exists (ty1 ++ ty2); now rewrite app_assoc|].
    split; [eapply same_vars_trans; eauto|].
    constructor; auto.
    destruct o as [v| | |e|]; simpl in Hgood |- *; try contradiction.
    + eapply is_chip_same; eauto.
    + eapply good_error_syntax; eauto.
Qed.

(** ** Properties of the tokenizer and of the parser *)

(** X1: [parse] accepts the language of the grammar and nothing else. From
    a well-typed module state it returns a value if and only if the text
    is read, to its end, as a list of tokens derived from [Chip] by the
    productions. *)
Theorem grammar_language s ty m :
  wf_mod ty m ->
  ((exists v, fst (parse s m) = Return v)
   <-> exists w, derives Chip_sym w /\ lexes s (w ++ [col "$"])).
Proof.
  intros Hwf. split.
  - intros [v Hv]. exact (parse_sound s ty m v Hwf Hv).
  - intros (w & Hw & Hlex). exact (parse_accepts s ty m w Hwf Hw Hlex).
Qed.

Lemma grammar_language_witness :
  wf_mod fresh_ty fresh
  /\ ((exists v, fst (parse error_text fresh) = Return v)
      <-> exists w, derives Chip_sym w /\ lexes error_text (w ++ [col "$"])).
Proof.
  assert (Hwf : wf_mod fresh_ty fresh) by (repeat constructor).
  split; [exact Hwf|]. exact (grammar_language error_text fresh_ty fresh Hwf).
Defined.

(** X2: between two tokens the tokenizer skips comments and white space
    and nothing else. When a call of [getNextToken] returns a token, the
    text from the cursor before the call to the start of the token is a
    sequence of line comments, block comments and runs of white space, and
    the cursor after the call is the end of the token. *)
Theorem skipped_text s fuel tk t tk' l :
  lexer_state s tk ->
  getNextToken fuel tk = LexToken t tk' ->
  tloc t = Some l ->
  skips s (_cursor tk) (startOffset l)
  /\ _cursor tk <= startOffset l
  /\ _cursor tk' = endOffset l
  /\ endOffset l <= String.length s.
Proof.
  intros Hst Hlex Hloc. pose proof (lexer_state_inv _ _ Hst) as Hinv.
  destruct (Nat.le_gt_cases (_cursor tk) (String.length s)) as [Hle|Hgt].
  - pose proof (getNextToken_skips s fuel tk Hinv Hle) as H.
    rewrite Hlex in H.
    destruct H as [(-> & _)|(l' & Hl' & Hsk & Hc & _ & _ & Hb)];
      [discriminate|].
    rewrite Hloc in Hl'. injection Hl' as <-.
    repeat split; auto. now apply skips_le in Hsk.
  - destruct fuel as [|fuel]; [discriminate|].
    rewrite (getNextToken_past_end fuel tk (past_end s tk Hinv Hgt)) in Hlex.
    injection Hlex as <- _. discriminate.
Qed.

Lemma skipped_text_witness :
  exists t tk' l,
    lexer_state " /* a */ b" (initString " /* a */ b")
    /\ getNextToken 4 (initString " /* a */ b") = LexToken t tk'
    /\ tloc t = Some l
    /\ skips " /* a */ b" (_cursor (initString " /* a */ b")) (startOffset l)
    /\ _cursor (initString " /* a */ b") <= startOffset l
    /\ _cursor tk' = endOffset l
    /\ endOffset l <= String.length " /* a */ b".
Proof.
  eexists _, _, _.
  assert (H1 : lexer_state " /* a */ b" (initString " /* a */ b"))
    by constructor.
  split; [exact H1|]. split; [vm_compute; reflexivity|].
  split; [reflexivity|].
  eapply (skipped_text " /* a */ b" 4);
    [exact H1|vm_compute; reflexivity|reflexivity].
Defined.

(** X3: [getNextToken] throws only where, after comments and white
    space, a character stands that no lexical rule matches; the error is
    the [SyntaxError] that names this one character, with the line and the
    column of its offset. *)
Theorem tokenizer_error s fuel tk e :
  lexer_state s tk ->
  getNextToken fuel tk = LexThrow e ->
  exists o c rest line col,
    skips s (_cursor tk) o
    /\ slice o s = String c rest
    /\ Forall (fun r : lex_rule => fst r (String c rest) = None) lexRules
    /\ is_space c = false /\ is_word c = false
    /\ position s o line col
    /\ e = SyntaxError
             (unexpected_token_message s (String c EmptyString) line col).
Proof.
  intros Hst Hlex. pose proof (lexer_state_inv _ _ Hst) as Hinv.
  destruct (Nat.le_gt_cases (_cursor tk) (String.length s)) as [Hle|Hgt].
  - pose proof (getNextToken_skips s fuel tk Hinv Hle) as H.
    rewrite Hlex in H.
    destruct H as (o & Hsk & Ho & c & rest & bol & line & Hsl & Hnone & Hpos & ->).
    exists o, c, rest, line, (o - bol).
    split; [exact Hsk|]. split; [exact Hsl|]. split; [exact Hnone|].
    unfold lexRules in Hnone.
    pose proof (proj1 (List.Forall_forall _ _) Hnone) as Hall.
    assert (H2 : re_plus is_space (String c rest) = None)
      by (apply (Hall (re_plus is_space, None)); simpl; auto).
    assert (H7 : re_plus is_word (String c rest) = None)
      by (apply (Hall (re_plus is_word, Some "ID"%string)); simpl; auto 10).
    unfold re_plus in H2, H7. cbn [take_while] in H2, H7.
    split; [destruct (is_space c); [discriminate|reflexivity]|].
    split; [destruct (is_word c); [discriminate|reflexivity]|].
    split; [apply pos_of_position; [lia|exact Hpos]|reflexivity].
  - destruct fuel as [|fuel]; [discriminate|].
    rewrite (getNextToken_past_end fuel tk (past_end s tk Hinv Hgt)) in Hlex.
    discriminate.
Qed.

Lemma tokenizer_error_witness :
  exists e,
    lexer_state "? a" (initString "? a")
    /\ getNextToken 1 (initString "? a") = LexThrow e
    /\ exists o c rest line col,
         skips "? a" (_cursor (initString "? a")) o
         /\ slice o "? a" = String c rest
         /\ Forall (fun r : lex_rule => fst r (String c rest) = None) lexRules
         /\ is_space c = false /\ is_word c = false
         /\ position "? a" o line col
         /\ e = SyntaxError
                  (unexpected_token_message "? a" (String c EmptyString) line col).
Proof.
  eexists. split; [constructor|]. split; [vm_compute; reflexivity|].
  eapply (tokenizer_error "? a" 1);
    [apply lexer_init|vm_compute; reflexivity].
Defined.

(** X4: the end of the input. [getNextToken] returns [EOF_TOKEN] only
    when nothing but comments and white space is left of the text (or the
    end was reported before); the tokenizer then has no more tokens, and
    every later call returns [EOF_TOKEN] again and leaves the tokenizer as
    it is. *)
Theorem end_of_input s fuel tk tk' :
  lexer_state s tk ->
  getNextToken fuel tk = LexToken EOF_TOKEN tk' ->
  (String.length s < _cursor tk \/ skips s (_cursor tk) (String.length s))
  /\ hasMoreTokens tk' = false
  /\ forall fuel', getNextToken (S fuel') tk' = LexToken EOF_TOKEN tk'.
Proof.
  intros Hst Hlex. pose proof (lexer_state_inv _ _ Hst) as Hinv.
  assert (Hinv' : tk_inv s tk')
    by (apply (lexer_state_inv s); econstructor; eauto).
  destruct (Nat.le_gt_cases (_cursor tk) (String.length s)) as [Hle|Hgt].
  - pose proof (getNextToken_skips s fuel tk Hinv Hle) as H.
    rewrite Hlex in H.
    destruct H as [(_ & Hsk & Hc)|(l & Hl & _)]; [|discriminate].
    assert (Hmore : hasMoreTokens tk' = false)
      by (apply (past_end s); [exact Hinv'|lia]).
    split; [now right|]. split; [exact Hmore|].
    intros fuel'. now apply getNextToken_past_end.
  - destruct fuel as [|fuel]; [discriminate|].
    pose proof (past_end s tk Hinv Hgt) as Hmore.
    rewrite (getNextToken_past_end fuel tk Hmore) in Hlex.
    injection Hlex as <-.
    split; [now left|]. split; [exact Hmore|].
    intros fuel'. now apply getNextToken_past_end.
Qed.

Lemma end_of_input_witness :
  exists tk',
    lexer_state "// x" (initString "// x")
    /\ getNextToken 3 (initString "// x") = LexToken EOF_TOKEN tk'
    /\ (String.length "// x" < _cursor (initString "// x")
        \/ skips "// x" (_cursor (initString "// x")) (String.length "// x"))
    /\ hasMoreTokens tk' = false
    /\ forall fuel', getNextToken (S fuel') tk' = LexToken EOF_TOKEN tk'.
Proof.
  eexists. split; [constructor|]. split; [vm_compute; reflexivity|].
  eapply (end_of_input "// x" 3);
    [apply lexer_init|vm_compute; reflexivity].
Defined.

(** X5: a text without tokens. When the text is empty or holds nothing
    but comments and white space, [parse] throws the [SyntaxError]
    "Unexpected end of input." and leaves the module state as it was. *)
Theorem blank_text s m :
  skips s 0 (String.length s) ->
  parse s m = (Throw (SyntaxError "Unexpected end of input."), m).
Proof.
  intros Hsk.
  destruct (skips_eof s _ _ Hsk eq_refl (initString s) (initString_inv s) eq_refl)
    as (fuel & tk' & Hlex).
  apply (getNextToken_enough s) in Hlex;
    [|apply initString_inv|simpl; lia|discriminate].
  unfold parse, lex_fuel. rewrite Hlex.
  unfold parse_fuel. replace ((String.length s + 2) * 8)
    with (S ((String.length s + 2) * 8 - 1)) by lia.
  reflexivity.
Qed.

Lemma blank_text_witness :
  skips "  // no chip" 0 (String.length "  // no chip")
  /\ parse "  // no chip" fresh
     = (Throw (SyntaxError "Unexpected end of input."), fresh).
Proof.
  assert (H : skips "  // no chip" 0 (String.length "  // no chip")).
  { apply (skips_step _ 0 "  "); [right; right; reflexivity|].
    apply (skips_step _ 2 "// no chip"); [left; reflexivity|].
    apply skips_refl. }
  split; [exact H|]. exact (blank_text _ fresh H).
Defined.

(** X6: the text of a token. A keyword or punctuation token holds the
    literal of its rule; every other token is an [ID], and an [ID] token
    is a longest run of [\w] characters: the text goes on after it, if it
    does, with a character outside [\w]. *)
Theorem token_texts s fuel tk t tk' l :
  lexer_state s tk ->
  getNextToken fuel tk = LexToken t tk' ->
  tloc t = Some l ->
  (forall w, literal_text (type t) = Some w -> value t = w)
  /\ (literal_text (type t) = None -> type t = "ID"%string)
  /\ (type t = "ID"%string -> word_end (slice (endOffset l) s)).
Proof.
  intros Hst Hlex Hloc. pose proof (lexer_state_inv _ _ Hst) as Hinv.
  destruct (getNextToken_token _ _ _ _ _ Hinv Hlex) as [_ [Hnone|(l' & Hat)]];
    [congruence|].
  pose proof (ta_loc _ _ _ Hat) as Hloc'. rewrite Hloc in Hloc'.
  injection Hloc' as <-.
  destruct (first_match_token _ _ _ (ta_rule _ _ _ Hat)) as (H1 & H2 & H3).
  split; [exact H1|]. split; [exact H2|].
  intros Hid. specialize (H3 Hid).
  rewrite (ta_end _ _ _ Hat), <- slice_slice, H3.
  pose proof (take_while_end is_word (slice (startOffset l) s)) as Hend.
  unfold word_end.
  destruct (slice _ (slice (startOffset l) s)) as [|c r]; [now left|].
  right. eauto.
Qed.

Lemma token_texts_witness :
  exists t tk' l,
    lexer_state "sel)" (initString "sel)")
    /\ getNextToken 1 (initString "sel)") = LexToken t tk'
    /\ tloc t = Some l
    /\ (forall w, literal_text (type t) = Some w -> value t = w)
    /\ (literal_text (type t) = None -> type t = "ID"%string)
    /\ (type t = "ID"%string -> word_end (slice (endOffset l) "sel)")).
Proof.
  eexists _, _, _. split; [constructor|]. split; [vm_compute; reflexivity|].
  split; [reflexivity|].
  eapply (token_texts "sel)" 1);
    [apply lexer_init|vm_compute; reflexivity|reflexivity].
Defined.

(** X7: where the tokenizer stands. After any number of tokens, as long
    as the end has not been reported, [getCurrentLine()] and
    [getCurrentColumn()] are the line (from 1) and the column (from 0) of
    the offset [getCursor()] in the text. *)
Theorem current_position s tk :
  lexer_state s tk ->
  getCursor tk <= String.length s ->
  position s (getCursor tk) (getCurrentLine tk) (getCurrentColumn tk).
Proof.
  intros Hst Hle. pose proof (lexer_state_inv _ _ Hst) as [_ _ Hpos Hcol].
  unfold getCursor, getCurrentLine, getCurrentColumn in *.
  rewrite (Hcol Hle). now apply pos_of_position.
Qed.

Lemma current_position_witness :
  exists t tk,
    getNextToken 2 (initString (nl +++ " a b")) = LexToken t tk
    /\ lexer_state (nl +++ " a b") tk
    /\ getCursor tk <= String.length (nl +++ " a b")
    /\ position (nl +++ " a b") (getCursor tk) (getCurrentLine tk)
         (getCurrentColumn tk).
Proof.
  eexists _, _.
  assert (H : getNextToken 2 (initString (nl +++ " a b"))
              = LexToken
                  {| type := "ID"; value := "a";
                     tloc := Some {| startOffset := 2; endOffset := 3;
                                     startLine := 2; endLine := 2;
                                     startColumn := 1; endColumn := 2 |} |}
                  {| _string := nl +++ " a b"; _cursor := 3;
                     _currentLine := 2; _currentColumn := 2;
                     _currentLineBeginOffset := 1;
                     _tokenStartOffset := 2; _tokenEndOffset := 3;
                     _tokenStartLine := 2; _tokenEndLine := 2;
                     _tokenStartColumn := 1; _tokenEndColumn := 2 |})
    by (vm_compute; reflexivity).
  split; [exact H|].
  assert (Hst : lexer_state (nl +++ " a b")
                  {| _string := nl +++ " a b"; _cursor := 3;
                     _currentLine := 2; _currentColumn := 2;
                     _currentLineBeginOffset := 1;
                     _tokenStartOffset := 2; _tokenEndOffset := 3;
                     _tokenStartLine := 2; _tokenEndLine := 2;
                     _tokenStartColumn := 1; _tokenEndColumn := 2 |})
    by (eapply lexer_next; [apply lexer_init|exact H]).
  split; [exact Hst|].
  assert (Hle : 3 <= String.length (nl +++ " a b")) by (simpl; lia).
  split; [exact Hle|]. exact (current_position _ _ Hst Hle).
Defined.

(** X8: [parse] only appends. Whatever the text and whether the call
    returns or throws, every array of the store is still there afterwards
    with its elements in place, possibly with more after them, and
    [inputs], [outputs] and [parts] refer to the arrays they referred to
    before: nothing a caller holds is removed or overwritten. *)
Theorem appends_only s m :
  store_extends (store m) (store (snd (parse s m)))
  /\ same_vars m (snd (parse s m)).
Proof. apply parse_grows. Qed.

(** X9: a session keeps the arrays well formed. After any list of texts
    parsed by one module instance, each call either threw a
    [SyntaxError] or returned a value that, in the final store, still
    reads as a [Chip] with a name, lists of pin names and a list of
    [ChipCall]s with their [Argument]s; no call ends otherwise. *)
Theorem session_values texts ty m :
  wf_mod ty m ->
  Forall (fun o =>
            match o with
            | Return v =>
                exists a, read 6 (store (snd (parse_all texts m))) v = Some a
                          /\ chip_ast a
            | Throw e => exists msg, e = SyntaxError msg
            | _ => False
            end) (fst (parse_all texts m)).
Proof.
  intros Hwf.
  destruct (parse_all_ok texts ty m Hwf) as ((ty' & Hwf') & _ & Hall).
  eapply List.Forall_impl; [|exact Hall].
  intros [v| | |e|]; simpl; auto.
  intros Hchip. exact (read_chip _ _ _ Hwf' Hchip).
Qed.

Lemma session_values_witness :
  wf_mod fresh_ty fresh
  /\ Forall (fun o =>
               match o with
               | Return v =>
                   exists a,
                     read 6 (store (snd (parse_all [Mux_hdl; error_text] fresh))) v
                     = Some a
                     /\ chip_ast a
               | Throw e => exists msg, e = SyntaxError msg
               | _ => False
               end) (fst (parse_all [Mux_hdl; error_text] fresh)).
Proof.
  assert (Hwf : wf_mod fresh_ty fresh) by (repeat constructor).
  split; [exact Hwf|].
  exact (session_values [Mux_hdl; error_text] fresh_ty fresh Hwf).
Defined.

Lemma call_states_inv : forall cs st,
  head st = Some "INITIAL"%string ->
  head (call_states cs st) = Some "INITIAL"%string.
Proof.
  induction cs as [|c cs IH]; intros st Hst; simpl; auto.
  apply IH. destruct st as [|x st]; [discriminate|].
  destruct c as [y|y|]; simpl; auto.
  unfold popState. destruct (1 <? length (x :: st)) eqn:E; simpl; auto.
  destruct st; [discriminate|]. exact Hst.
Qed.

(** X10: the stack of lexer states never loses its first state. After
    any sequence of [pushState], [begin] and [popState] calls on a
    tokenizer that [initString] set up, ['INITIAL'] is still the first
    state and [getCurrentState()] is defined; [popState] on a stack of
    one state returns it and leaves it; and [popState] after
    [pushState(x)] returns [x] and restores the stack. *)
Theorem lexer_states cs :
  head (call_states cs initial_states) = Some "INITIAL"%string
  /\ (exists cur, getCurrentState (call_states cs initial_states) = Some cur)
  /\ popState initial_states = (Some "INITIAL"%string, initial_states)
  /\ (forall x, popState (pushState x (call_states cs initial_states))
                = (Some x, call_states cs initial_states)).
Proof.
  pose proof (call_states_inv cs initial_states eq_refl) as Hhead.
  destruct (call_states cs initial_states) as [|s0 st] eqn:E; [discriminate|].
  split; [exact Hhead|]. split.
  - unfold getCurrentState.
    destruct (last (s0 :: st)) as [cur|] eqn:El; [eauto|].
    apply last_None in El. discriminate.
  - split; [reflexivity|]. intros x. unfold popState, pushState.
    rewrite length_app. cbn [length].
    destruct (Nat.ltb_spec 1 (S (length st) + 1)); [|lia].
    now rewrite last_snoc, removelast_last.
Qed.

Lemma runSlice_shown_row {A : Type} (data : list A) i row :
  nth_error data i = Some row -> runSlice_shown data i = [row].
Proof.
  unfold runSlice_shown. revert i.
  induction data as [|x data IH]; intros [|i] H; simpl in *; try discriminate.
  - now injection H as ->.
  - now apply IH.
Qed.

Lemma runSlice_index_mod {A : Type} (data : list A) : forall k start,
  start < length data ->
  runSlice_index data start k = (start + k) mod length data.
Proof.
  induction k as [|k IH]; intros start Hlt; simpl.
  - rewrite Nat.add_0_r. symmetry. now apply Nat.mod_small.
  - unfold runSlice_next.
    destruct (Nat.eqb_spec (start + 1) (length data)) as [E|Hne].
    + rewrite IH by lia. simpl.
      replace (start + S k) with (k + 1 * length data) by lia.
      now rewrite Nat.Div0.mod_add.
    + rewrite IH by lia. f_equal. lia.
Qed.

(** X11: [runSlice] shows the rows in order and starts again after the
    last. Called with an index inside the data, the [k]-th call the timer
    makes after it has the index [(index + k) mod data.length] and hands
    [action] exactly the row at that index; on empty data every call
    hands [action] the empty slice and the index never comes back. *)
Theorem runSlice_cycles {A : Type} (data : list A) start k :
  (start < length data ->
   runSlice_index data start k = (start + k) mod length data
   /\ exists row,
        nth_error data ((start + k) mod length data) = Some row
        /\ runSlice_shown data (runSlice_index data start k) = [row])
  /\ (data = [] ->
      runSlice_index data start k = start + k
      /\ runSlice_shown data (runSlice_index data start k) = []).
Proof.
  split.
  - intros Hlt. pose proof (runSlice_index_mod data k start Hlt) as Hi.
    split; [exact Hi|].
    assert (Hm : (start + k) mod length data < length data)
      by (apply Nat.mod_upper_bound; lia).
    destruct (nth_error data ((start + k) mod length data)) as [row|] eqn:E.
    + exists row. split; [reflexivity|]. rewrite Hi.
      now apply runSlice_shown_row.
    + apply nth_error_None in E. lia.
  - intros ->. split.
    + revert start. induction k as [|k IH]; intros start; simpl; [lia|].
      unfold runSlice_next. simpl.
      destruct (Nat.eqb_spec (start + 1) 0); [lia|]. rewrite IH. lia.
    + unfold runSlice_shown. now rewrite skipn_nil.
Qed.

Lemma runSlice_cycles_witness :
  0 < length [10; 20; 30]
  /\ runSlice_index [10; 20; 30] 0 7 = (0 + 7) mod length [10; 20; 30]
  /\ exists row,
       nth_error [10; 20; 30] ((0 + 7) mod length [10; 20; 30]) = Some row
       /\ runSlice_shown [10; 20; 30] (runSlice_index [10; 20; 30] 0 7) = [row].
Proof.
  assert (H : 0 < length [10; 20; 30]) by (simpl; lia).
  split; [exact H|].
  exact (proj1 (runSlice_cycles [10; 20; 30] 0 7) H).
Defined.

(** ** The parser runs the actions along the derivation tree *)

(** ** The values the parser computes along a derivation *)

Fixpoint vtree_induction (P : vtree -> Prop)
  (Hleaf : forall c w, P (VLeaf c w))
  (Hnode : forall p children, Forall P children -> P (VNode p children))
  (t : vtree) : P t :=
  match t with
  | VLeaf c w => Hleaf c w
  | VNode p children =>
      Hnode p children
        ((fix all (l : list vtree) : Forall P l :=
            match l with
            | [] => @List.Forall_nil vtree P
            | x :: more =>
                @List.Forall_cons vtree P x more
                  (vtree_induction P Hleaf Hnode x) (all more)
            end) children)
  end.

Lemma yield_erase t : yield (erase t) = map fst (vyield t).
Proof.
  induction t as [c w|p children IH] using vtree_induction; simpl; auto.
  induction IH as [|t children Ht _ IH]; simpl; auto.
  now rewrite Ht, IH, map_app.
Qed.

Lemma yields_erase children :
  concat (map yield (map erase children))
  = map fst (concat (map vyield children)).
Proof.
  induction children as [|t children IH]; simpl; auto.
  now rewrite yield_erase, IH, map_app.
Qed.

Lemma vstream_stream tk t ts : vstream tk t ts -> stream tk t (map fst ts).
Proof. induction 1; simpl; econstructor; eauto. Qed.

Lemma exec_node p children m :
  exec (VNode p children) m
  = let '(vals, m1) := exec_children children m in
    match nth_error productions p with
    | Some (_, _, Some f) =>
        match f (map value_or_undef vals) (map (fun _ => None) vals) m1 with
        | Normal m2 => (Some (yy_result m2), m2)
        | Abrupt _ m2 => (None, m2)
        end
    | _ => (None, m1)
    end.
Proof.
  cbn [exec].
  match goal with
  | |- (let '(_, _) := ?run children m in _) = _ =>
      assert (E : forall l m0, run l m0 = exec_children l m0)
  end.
  { induction l as [|t0 l IH]; intros m0; simpl; [reflexivity|].
    destruct (exec t0 m0) as [v m1]; try now rewrite IH. }
  now rewrite E.
Qed.

Lemma loc_eq_refl m : loc_eq m m.
Proof. repeat split. Qed.

Lemma loc_eq_trans m1 m2 m3 : loc_eq m1 m2 -> loc_eq m2 m3 -> loc_eq m1 m3.
Proof.
  intros (A1 & A2 & A3 & A4 & A5) (B1 & B2 & B3 & B4 & B5).
  repeat split; congruence.
Qed.

(** No action reads a location or [__loc]. *)
Definition same_completion (c c' : completion) : Prop :=
  match c, c' with
  | Normal m, Normal m' => loc_eq m m'
  | Abrupt e m, Abrupt e' m' => e = e' /\ loc_eq m m'
  | _, _ => False
  end.

Lemma array_push_loc a vs m m' :
  loc_eq m m' -> same_completion (array_push a vs m) (array_push a vs m').
Proof.
  intros (E1 & E2 & E3 & E4 & E5). unfold array_push.
  destruct a as [| |l| | |]; simpl; try (repeat split; auto; fail).
  rewrite <- E1. destruct (store m !! l); simpl; repeat split; auto.
Qed.

Lemma push_spread_loc l v m m' :
  loc_eq m m' -> same_completion (push_spread l v m) (push_spread l v m').
Proof.
  intros H. unfold push_spread.
  assert (E : spread v m = spread v m').
  { destruct H as (E1 & _). destruct v; simpl; auto. now rewrite E1. }
  rewrite <- E. destruct (spread v m); [now apply array_push_loc|].
  simpl. split; auto.
Qed.

Lemma loc_eq_set_loc l l' m m' :
  loc_eq m m' -> loc_eq (set_loc l m) (set_loc l' m').
Proof. intros (E1 & E2 & E3 & E4 & E5). repeat split; auto. Qed.

Lemma action_loc p lhs0 n f args locs locs' m m' :
  nth_error productions p = Some (lhs0, n, Some f) ->
  loc_eq m m' ->
  same_completion (f args locs m) (f args locs' m').
Proof.
  intros Hp H. pose proof H as (E1 & E2 & E3 & E4 & E5).
  unfold productions in Hp.
  do 22 (destruct p as [|p];
    [ first
        [ discriminate
        | injection Hp as _ _ <-;
          first
            [ (* plain results *)
              simpl; repeat split; simpl; congruence
            | (* pushes into a module array *)
              unfold act_inputs, act_outputs, act_parts;
              cbn [m_inputs m_outputs m_parts set_loc];
              rewrite <- ?E3, <- ?E4, <- ?E5;
              apply push_spread_loc, loc_eq_set_loc, H
            | (* a new array *)
              unfold act_single, new_array; simpl; repeat split; simpl;
              congruence
            | (* a push into the array of the left operand *)
              unfold act_append;
              match goal with
              | |- same_completion
                     (match array_push ?a ?vs ?m1 with _ => _ end)
                     (match array_push ?a ?vs ?m2 with _ => _ end) =>
                  pose proof (array_push_loc a vs m1 m2
                                (loc_eq_set_loc _ _ _ _ H)) as Hp;
                  destruct (array_push a vs m1), (array_push a vs m2);
                  simpl in Hp |- *; try contradiction;
                  [ destruct Hp as (F1 & F2 & F3 & F4 & F5);
                    repeat split; simpl; congruence
                  | exact Hp ]
              end ] ]
    | simpl in Hp ]).
  destruct p; discriminate.
Qed.

(** A shift pushes the text of the token. *)
Lemma vshift_step st c w ts n :
  vstream (p_tokenizer st) (p_token st) ((c, w) :: ts) ->
  table_lookup (top_state (p_stack st)) c = Some (Shift n) ->
  exists st' e,
    parse_step st = Continue st'
    /\ p_stack st' = (e, n) :: p_stack st
    /\ semanticValue e = Some (VStr w)
    /\ p_mod st' = p_mod st
    /\ vstream (p_tokenizer st') (p_token st') ts.
Proof.
  intros Hs Hsh. destruct (shift_facts _ _ _ Hsh) as (Hc & _).
  inversion Hs as [|tk t c' t' tk' ts' Hcol Hne Hlex Hrest]; subst; [lia|].
  unfold parse_step. unfold table_lookup in Hsh.
  destruct (nth_error table _) as [row|]; [|discriminate].
  rewrite Hcol, Hsh. unfold do_shift. rewrite Hlex.
  eexists _, _. split; [reflexivity|]. split; [reflexivity|].
  split; [reflexivity|]. split; [reflexivity|exact Hrest].
Qed.

Lemma pop_frames_exact : forall frames stack,
  pop_frames (length frames) (frames ++ stack)
  = Some (map fst (rev frames), stack).
Proof.
  induction frames as [|[e q] frames IH]; intros stack; simpl; auto.
  rewrite IH. now rewrite map_app.
Qed.

(** A reduction runs the action of its production on the values of the
    frames it pops. *)
Lemma reduce_exact s ty st c p r frames stack :
  Inv s ty st ->
  assoc String.eqb (type (p_token st)) tokens = Some c ->
  table_lookup (top_state (p_stack st)) c = Some (Reduce p) ->
  nth_error rhs p = Some r ->
  p_stack st = frames ++ stack ->
  length frames = length r ->
  exists A t' st' e act,
    lhs p = Some A
    /\ (exists n, nth_error productions p = Some (Some A, n, act))
    /\ table_lookup (top_state stack) A = Some (Goto t')
    /\ parse_step st = Continue st'
    /\ p_stack st' = (e, t') :: stack
    /\ p_tokenizer st' = p_tokenizer st /\ p_token st' = p_token st
    /\ match act with
       | Some f =>
           f (map value_of (map fst (rev frames)))
             (map eloc (map fst (rev frames))) (p_mod st)
           = Normal (p_mod st')
           /\ semanticValue e = Some (yy_result (p_mod st'))
       | None => p_mod st' = p_mod st /\ semanticValue e = None
       end.
Proof.
  intros HI Hcol Hred Hr Hstack Hlen.
  destruct (reduce_turn s ty st c p HI Hcol Hred)
    as (A & r' & es & stack' & t' & st' & e & Hlhs & Hr' & Hpop & Hgoto
        & Hstep & Hst' & E1 & E2).
  rewrite Hr in Hr'. injection Hr' as <-.
  rewrite Hstack, <- Hlen, pop_frames_exact in Hpop.
  injection Hpop as <- <-.
  destruct (reduce_facts _ _ _ Hred)
    as (_ & A' & n & act & r' & Hprod & Hrhs & Hn & _).
  assert (A' = A) as -> by (unfold lhs in Hlhs; rewrite Hprod in Hlhs; congruence).
  rewrite Hr in Hrhs. injection Hrhs as <-.
  exists A, t', st', e, act.
  split; [exact Hlhs|]. split; [eauto|]. split; [exact Hgoto|].
  split; [exact Hstep|]. split; [exact Hst'|]. split; [exact E1|].
  split; [exact E2|].
  assert (Hdo : parse_step st = do_reduce p st).
  { unfold parse_step. unfold table_lookup in Hred.
    destruct (nth_error table _) as [row|]; [|discriminate].
    now rewrite Hcol, Hred. }
  rewrite Hstep in Hdo. unfold do_reduce in Hdo.
  rewrite Hprod, Hstack, <- Hn, <- Hlen, pop_frames_exact in Hdo.
  destruct act as [f|].
  - destruct (f _ _ _) as [m2|ex m2]; [|discriminate].
    destruct (nth_error table _); [|discriminate].
    destruct (assoc Nat.eqb A _) as [[]|]; try discriminate.
    injection Hdo as ->. simpl in Hst' |- *.
    injection Hst' as <- _. auto.
  - destruct (nth_error table _); [|discriminate].
    destruct (assoc Nat.eqb A _) as [[]|]; try discriminate.
    injection Hdo as ->. simpl in Hst' |- *.
    injection Hst' as <- _. auto.
Qed.

Lemma valued_followers n more a ta rest children :
  roots_are more (map erase children) = true ->
  forallb wf_tree (map erase children) = true ->
  (forall Z more', more = Z :: more' ->
     exists e t', table_lookup n Z = Some e /\ targets e = Some t') ->
  12 <= a ->
  exists b tb rest',
    concat (map vyield children) ++ (a, ta) :: rest = (b, tb) :: rest'
    /\ In b (followers n more a) /\ 12 <= b.
Proof.
  intros Hroots Hall Hnext Ha.
  destruct (followers_next n more a (map fst rest) (map erase children)
              Hroots Hall Hnext Ha) as (b & rest' & Heq & Hin & Hb).
  rewrite yields_erase in Heq.
  destruct (concat (map vyield children) ++ (a, ta) :: rest)
    as [|[b' tb] l] eqn:E.
  - destruct (concat (map vyield children)); discriminate.
  - apply (f_equal (map fst)) in E. rewrite map_app in E. simpl in E.
    rewrite Heq in E. injection E as Hb' _. subst b'.
    exists b, tb, l. auto.
Qed.

(** The parser follows the tree [t] and computes what [exec] computes:
    the value of [exec] is the semantic value of the frame it pushes,
    and the module state it leaves is the state of [exec], but for
    [__loc]. *)
Definition computes (s : string) (t : vtree) : Prop :=
  forall p children, t = VNode p children ->
  wf_tree (erase t) = true ->
  forall ty st a ta rest q' X m0,
    Inv s ty st ->
    loc_eq (p_mod st) m0 ->
    vstream (p_tokenizer st) (p_token st) (vyield t ++ (a, ta) :: rest) ->
    12 <= a ->
    reduces (top_state (p_stack st)) p a = true ->
    lhs p = Some X ->
    table_lookup (top_state (p_stack st)) X = Some (Goto q') ->
    exists st' e ty',
      steps st st'
      /\ p_stack st' = (e, q') :: p_stack st
      /\ vstream (p_tokenizer st') (p_token st') ((a, ta) :: rest)
      /\ Inv s (ty ++ ty') st'
      /\ semanticValue e = fst (exec t m0)
      /\ loc_eq (p_mod st') (snd (exec t m0)).

Lemma compute_children s children :
  Forall (computes s) children ->
  forall r q a ta rest ty st m0,
    forallb wf_tree (map erase children) = true ->
    roots_are r (map erase children) = true ->
    check_children q r a = true ->
    top_state (p_stack st) = q ->
    12 <= a ->
    Inv s ty st ->
    loc_eq (p_mod st) m0 ->
    vstream (p_tokenizer st) (p_token st)
      (concat (map vyield children) ++ (a, ta) :: rest) ->
    exists st' frames ty',
      steps st st'
      /\ p_stack st' = frames ++ p_stack st
      /\ length frames = length r
      /\ path q r = Some (top_state (p_stack st'))
      /\ vstream (p_tokenizer st') (p_token st') ((a, ta) :: rest)
      /\ Inv s (ty ++ ty') st'
      /\ map (fun f : frame => semanticValue (fst f)) (rev frames)
         = fst (exec_children children m0)
      /\ loc_eq (p_mod st') (snd (exec_children children m0)).
Proof.
  induction 1 as [|t children' Ht _ IH];
    intros r q a ta rest ty st m0 Hall Hroots Hcheck Hq Ha HI Hm Hs;
    apply roots_are_cons in Hroots.
  - destruct r; [|destruct Hroots].
    exists st, [], []. rewrite app_nil_r. subst q.
    split; [apply steps_refl|]. split; [reflexivity|]. split; [reflexivity|].
    split; [reflexivity|]. split; [exact Hs|]. split; [exact HI|].
    split; [reflexivity|exact Hm].
  - destruct r as [|Y r']; [destruct Hroots|].
    destruct Hroots as [Hroot Hroots].
    cbn [map forallb] in Hall. apply andb_prop in Hall as [Hwf Hall].
    cbn [check_children] in Hcheck.
    assert (Hnext : forall n, check_children n r' a = true ->
              forall Z more', r' = Z :: more' ->
              exists e t', table_lookup n Z = Some e /\ targets e = Some t').
    { intros n Hc Z more' ->. cbn [check_children] in Hc.
      destruct (table_lookup n Z) as [[t'|t'| |]|]; try discriminate; simpl; eauto. }
    cbn [exec_children].
    destruct (table_lookup q Y) as [[n|n| |]|] eqn:EY; try discriminate.
    + (* a non-terminal *)
      apply andb_prop in Hcheck as [Hfoll Hcheck].
      destruct (goto_facts _ _ _ EY) as (HY & _).
      destruct (root_nonterminal _ _ Hwf Hroot HY) as (p & ch0 & Het & Hlhs).
      destruct t as [c w|p1 ch1]; [discriminate|].
      simpl in Het. injection Het as <- _.
      destruct (valued_followers n r' a ta rest children' Hroots Hall
                  (Hnext n Hcheck) Ha) as (b & tb & rest' & Heq & Hin & Hb).
      rewrite forallb_forall in Hfoll. specialize (Hfoll b Hin).
      rewrite forallb_forall in Hfoll.
      destruct (wf_node _ _ Hwf) as (Hp & _).
      specialize (Hfoll p1 (lhs_prods _ _ Hlhs Hp)).
      cbn [map concat] in Hs. rewrite <- app_assoc, Heq in Hs.
      subst q.
      destruct (Ht p1 ch1 eq_refl Hwf ty st b tb rest' n Y m0 HI Hm Hs Hb Hfoll
                  Hlhs EY)
        as (st1 & e & ty1 & Hsteps1 & Hstack1 & Hs1 & HI1 & Hv1 & Hm1).
      rewrite <- Heq in Hs1.
      destruct (exec (VNode p1 ch1) m0) as [v1 m1] eqn:Ex. simpl in Hv1, Hm1.
      destruct (IH r' n a ta rest _ st1 m1 Hall Hroots Hcheck
                  ltac:(now rewrite Hstack1) Ha HI1 Hm1 Hs1)
        as (st' & frames & ty2 & Hsteps2 & Hstack2 & Hlen & Hpath & Hs2 & HI2
            & Hvals & Hm2).
      destruct (exec_children children' m1) as [vs m2] eqn:Exs.
      simpl in Hvals, Hm2 |- *.
      exists st', (frames ++ [(e, n)]), (ty1 ++ ty2).
      split; [eapply steps_trans; eauto|].
      split; [rewrite Hstack2, Hstack1, <- app_assoc; reflexivity|].
      split; [rewrite length_app; simpl; lia|].
      split; [simpl; rewrite EY; simpl; exact Hpath|].
      split; [exact Hs2|]. split; [now rewrite app_assoc|].
      split; [|exact Hm2].
      rewrite rev_app_distr. simpl. now rewrite Hv1, Hvals.
    + (* a token *)
      destruct (shift_facts _ _ _ EY) as (HY & _).
      pose proof (root_token _ _ Hwf Hroot ltac:(lia)) as Het.
      destruct t as [c w|p1 ch1]; [|discriminate].
      simpl in Het. injection Het as ->.
      cbn [map concat vyield] in Hs. simpl app in Hs. subst q.
      destruct (vshift_step st Y w _ n Hs EY)
        as (st1 & e & Hstep & Hstack1 & Hv1 & Hmod1 & Hs1).
      destruct (step_Inv _ _ _ _ HI Hstep) as [ty1 HI1].
      cbn [exec].
      destruct (IH r' n a ta rest _ st1 m0 Hall Hroots Hcheck
                  ltac:(now rewrite Hstack1) Ha HI1
                  ltac:(now rewrite Hmod1) Hs1)
        as (st' & frames & ty2 & Hsteps2 & Hstack2 & Hlen & Hpath & Hs2 & HI2
            & Hvals & Hm2).
      destruct (exec_children children' m0) as [vs m2] eqn:Exs.
      simpl in Hvals, Hm2 |- *.
      exists st', (frames ++ [(e, n)]), (ty1 ++ ty2).
      split; [eapply steps_step; eauto|].
      split; [rewrite Hstack2, Hstack1, <- app_assoc; reflexivity|].
      split; [rewrite length_app; simpl; lia|].
      split; [simpl; rewrite EY; simpl; exact Hpath|].
      split; [exact Hs2|]. split; [now rewrite app_assoc|].
      split; [|exact Hm2].
      rewrite rev_app_distr. simpl. now rewrite Hv1, Hvals.
Qed.

Lemma compute_tree s t : computes s t.
Proof.
  induction t as [c w|p children IH] using vtree_induction;
    intros p0 ch0 Heq Hwf ty st a ta rest q' X m0 HI Hm Hs Ha Hred Hlhs Hgoto;
    [discriminate|].
  injection Heq as <- <-. cbn [erase] in Hwf.
  destruct (wf_node _ _ Hwf) as (Hp & (r & Hr & Hroots) & Hall).
  pose proof (check_las (top_state (p_stack st)) p a) as Hla.
  unfold check_la in Hla. rewrite Hred, Hr in Hla. simpl in Hla.
  unfold reduces in Hred. rewrite Hr in Hred.
  destruct (path (top_state (p_stack st)) r) as [qn|] eqn:Epath; [|discriminate].
  destruct (table_lookup qn a) as [[| |p'|]|] eqn:Ea; try discriminate.
  apply Nat.eqb_eq in Hred. subst p'.
  cbn [vyield] in Hs.
  destruct (compute_children s children IH r _ a ta rest ty st m0 Hall Hroots
              Hla eq_refl Ha HI Hm Hs)
    as (st1 & frames & ty1 & Hsteps1 & Hstack1 & Hlen & Hpath & Hs1 & HI1
        & Hvals & Hm1).
  rewrite Epath in Hpath. injection Hpath as Hqn.
  rewrite Hqn in Ea.
  pose proof (vstream_stream _ _ _ Hs1) as Hs1'. simpl in Hs1'.
  destruct (reduce_exact s _ st1 a p r frames (p_stack st) HI1
              (stream_column _ _ _ _ Hs1') Ea Hr Hstack1 Hlen)
    as (A & t' & st2 & e & act & Hlhs' & (n & Hprod) & Hgoto' & Hstep & Hstack2
        & E1 & E2 & Hact).
  rewrite Hlhs in Hlhs'. injection Hlhs' as <-.
  rewrite Hgoto in Hgoto'. injection Hgoto' as <-.
  destruct (step_Inv _ _ _ _ HI1 Hstep) as [ty2 HI2].
  exists st2, e, (ty1 ++ ty2).
  split; [eapply steps_trans; [exact Hsteps1|now apply steps_one]|].
  split; [exact Hstack2|]. split; [now rewrite E1, E2|].
  split; [now rewrite app_assoc|].
  rewrite exec_node.
  destruct (exec_children children m0) as [vals m1] eqn:Ex.
  simpl in Hvals, Hm1. rewrite Hprod.
  assert (Hargs : map value_of (map fst (rev frames)) = map value_or_undef vals).
  { rewrite <- Hvals, !map_map. reflexivity. }
  destruct act as [f|].
  - destruct Hact as [Hrun Hval]. rewrite Hargs in Hrun.
    pose proof (action_loc p _ _ f (map value_or_undef vals)
                  (map eloc (map fst (rev frames))) (map (fun _ => None) vals)
                  _ _ Hprod Hm1) as Hsame.
    rewrite Hrun in Hsame.
    destruct (f (map value_or_undef vals) (map (fun _ => None) vals) m1)
      as [m2|ex m2]; simpl in Hsame; [|contradiction].
    simpl. split; [|exact Hsame].
    rewrite Hval. f_equal. apply Hsame.
  - destruct Hact as [Hmod Hval]. simpl. split; [exact Hval|].
    now rewrite Hmod.
Qed.

(** [parse] on a text that is read as the tokens of a derivation of
    [Chip] returns what [exec] computes along the derivation. *)
Lemma parse_exec s ty m t :
  wf_mod ty m ->
  wf_tree (erase t) = true -> root (erase t) = Some 0 ->
  vlexes s (vyield t ++ [(25, EmptyString)]) ->
  exists v m',
    parse s m = (Return v, m')
    /\ fst (exec t m) = Some v
    /\ loc_eq m' (snd (exec t m)).
Proof.
  intros Hwf Hwft Hroot (tok & tk & Hlex & Hs).
  destruct (initial_Inv s ty m tok tk Hwf Hlex) as [HI _].
  destruct (root_nonterminal _ _ Hwft Hroot ltac:(lia))
    as (p & children & Het & Hlhs).
  destruct t as [c w|p1 ch1]; [discriminate|].
  simpl in Het. injection Het as <- _.
  assert (Hp : p1 = 1).
  { destruct (wf_node _ _ Hwft) as (Hp & _). destruct (lhs_lt _ _ Hlhs) as [_ Hlt].
    destruct p1 as [|[|p1]]; [lia|reflexivity|]. exfalso.
    do 20 (destruct p1 as [|p1]; [vm_compute in Hlhs; discriminate|]). lia. }
  subst p1.
  destruct (compute_tree s _ 1 ch1 eq_refl Hwft ty
              {| p_tokenizer := tk; p_stack := []; p_token := tok; p_mod := m |}
              25 EmptyString [] 30 0 m HI (loc_eq_refl m) Hs ltac:(lia)
              eq_refl eq_refl eq_refl)
    as (st' & e & ty' & Hsteps & Hstack & Hs' & HI' & Hval & Hm').
  pose proof (vstream_stream _ _ _ Hs') as Hs1. simpl in Hs1.
  destruct (accept_step _ _ _ e HI' Hs1 Hstack) as [v Hv].
  pose proof Hv as Hv'. unfold parse_step in Hv'. rewrite Hstack in Hv'.
  simpl top_state in Hv'.
  change (nth_error table 30) with (Some [(25, Accept)]) in Hv'.
  rewrite (stream_column _ _ _ _ Hs1) in Hv'. simpl assoc in Hv'.
  unfold do_accept in Hv'. rewrite Hstack in Hv'.
  destruct (hasMoreTokens _); [discriminate|].
  destruct (semanticValue e) as [v0|] eqn:Ev; [|discriminate].
  injection Hv' as <-.
  exists v0, (p_mod st').
  split; [exact (parse_run s ty m tok tk st' _ _ Hwf Hlex Hsteps Hv)|].
  split; [now rewrite <- Hval|exact Hm'].
Qed.

(** ** What the actions of a chip compute *)

(** ** What the actions compute for a chip *)

(** The outcome of [exec]: a value, and a state with the store [h'] and
    the variables of [m]. *)
Definition gives (r : option jsval * modstate) (m : modstate)
  (v : jsval) (h' : list (list jsval)) : Prop :=
  fst r = Some v /\ store (snd r) = h' /\ same_vars m (snd r).

Lemma gives_eq r m v h' :
  gives r m v h' -> exists m', r = (Some v, m') /\ store m' = h' /\ same_vars m m'.
Proof. destruct r as [v0 m']. intros (E & H1 & H2). simpl in *. subst. eauto. Qed.

Lemma exec_name w m : gives (exec (name_tree w) m) m (VStr w) (store m).
Proof.
  unfold name_tree, name_col.
  destruct (String.eqb w "CHIP"); [repeat split|].
  destruct (String.eqb w "IN"); [repeat split|].
  destruct (String.eqb w "OUT"); [repeat split|].
  destruct (String.eqb w "PARTS"); repeat split.
Qed.

Lemma insert_last {A : Type} (h : list A) (x y : A) :
  <[length h := y]> (h ++ [x]) = h ++ [y].
Proof.
  rewrite insert_app_r_alt by lia. now rewrite Nat.sub_diag.
Qed.

Lemma lookup_last {A : Type} (h : list A) (x : A) :
  (h ++ [x]) !! length h = Some x.
Proof. now rewrite lookup_app_r, Nat.sub_diag by lia. Qed.

(** A list built from the left: [single] makes the array of the first
    element, [append] pushes each further one. *)
Lemma exec_names first more m :
  gives (exec (names_tree first more) m) m (VArr (length (store m)))
    (store m ++ [map VStr (first :: more)]).
Proof.
  unfold names_tree.
  assert (Hgen : forall more t done,
            gives (exec t m) m (VArr (length (store m))) (store m ++ [done]) ->
            gives (exec (fold_left (fun t w => VNode 10 [t; VLeaf 21 ","; name_tree w])
                           more t) m) m
              (VArr (length (store m)))
              (store m ++ [done ++ map VStr more])).
  { clear. induction more as [|w more IH]; intros t done Ht; simpl.
    - now rewrite app_nil_r.
    - replace (done ++ VStr w :: map VStr more)
        with ((done ++ [VStr w]) ++ map VStr more) by now rewrite <- app_assoc.
      apply IH. rewrite exec_node. cbn [exec_children].
      destruct (gives_eq _ _ _ _ Ht) as (m1 & -> & Hst & Hv).
      cbn [exec].
      destruct (gives_eq _ _ _ _ (exec_name w m1)) as (m2 & -> & Hst2 & Hv2).
      cbn [nth_error productions map value_or_undef].
      unfold act_append, array_push. cbn [arg nth Nat.sub set_loc store].
      rewrite Hst2, Hst, lookup_last.
      cbn. rewrite insert_last.
      split; [reflexivity|]. split; [reflexivity|].
      destruct Hv as (A1 & A2 & A3), Hv2 as (B1 & B2 & B3).
      repeat split; simpl; congruence. }
  apply (Hgen more _ [VStr first]).
  rewrite exec_node. cbn [exec_children].
  destruct (gives_eq _ _ _ _ (exec_name first m)) as (m1 & -> & Hst & Hv).
  cbn. rewrite Hst.
  split; [reflexivity|]. split; [simpl; now rewrite Hst|].
  destruct Hv as (A1 & A2 & A3). repeat split; simpl; auto.
Qed.

Definition argument_value (a : string * string) : jsval :=
  VArgument (VStr (fst a)) (VStr (snd a)).

Definition part_arguments (pt : part) : list jsval :=
  map argument_value (first_argument pt :: more_arguments pt).

Lemma exec_argument a m :
  gives (exec (argument_tree a) m) m (argument_value a) (store m).
Proof. repeat split. Qed.

Lemma exec_arguments first more m :
  gives (exec (arguments_tree first more) m) m (VArr (length (store m)))
    (store m ++ [map argument_value (first :: more)]).
Proof.
  unfold arguments_tree.
  assert (Hgen : forall more t done,
            gives (exec t m) m (VArr (length (store m))) (store m ++ [done]) ->
            gives (exec (fold_left
                           (fun t a => VNode 20 [t; VLeaf 21 ","; argument_tree a])
                           more t) m) m
              (VArr (length (store m)))
              (store m ++ [done ++ map argument_value more])).
  { clear. induction more as [|a more IH]; intros t done Ht; simpl.
    - now rewrite app_nil_r.
    - replace (done ++ argument_value a :: map argument_value more)
        with ((done ++ [argument_value a]) ++ map argument_value more)
        by now rewrite <- app_assoc.
      apply IH. rewrite exec_node. cbn [exec_children].
      destruct (gives_eq _ _ _ _ Ht) as (m1 & -> & Hst & Hv).
      cbn [exec].
      destruct (gives_eq _ _ _ _ (exec_argument a m1)) as (m2 & -> & Hst2 & Hv2).
      cbn [nth_error productions map value_or_undef].
      unfold act_append, array_push. cbn [arg nth Nat.sub set_loc store].
      rewrite Hst2, Hst, lookup_last.
      cbn. rewrite insert_last.
      split; [reflexivity|]. split; [reflexivity|].
      destruct Hv as (A1 & A2 & A3), Hv2 as (B1 & B2 & B3).
      repeat split; simpl; congruence. }
  apply (Hgen more _ [argument_value first]).
  rewrite exec_node. cbn [exec_children].
  destruct (gives_eq _ _ _ _ (exec_argument first m)) as (m1 & -> & Hst & Hv).
  cbn. rewrite Hst.
  split; [reflexivity|]. split; [simpl; now rewrite Hst|].
  destruct Hv as (A1 & A2 & A3). repeat split; simpl; auto.
Qed.

(** A part: the array of its arguments is new, and the [ChipCall]
    refers to it. *)
Lemma exec_part pt m :
  gives (exec (part_tree pt) m) m
    (VChipCall (VStr (part_name pt)) (VArr (length (store m))))
    (store m ++ [part_arguments pt]).
Proof.
  unfold part_tree. rewrite exec_node. cbn [exec_children exec].
  destruct (gives_eq _ _ _ _
              (exec_arguments (first_argument pt) (more_arguments pt) m))
    as (m1 & -> & Hst & Hv).
  cbn. split; [reflexivity|]. split; [exact Hst|].
  destruct Hv as (A1 & A2 & A3). repeat split; simpl; auto.
Qed.

(** The [ChipCall] of the part [pt]: it refers to an array, made after
    the store had [base] arrays and other than [lC], that holds the
    arguments of [pt]. *)
Definition call_at (h : list (list jsval)) (base lC : nat) (pt : part)
  (v : jsval) : Prop :=
  exists l, v = VChipCall (VStr (part_name pt)) (VArr l)
            /\ base <= l /\ l <> lC /\ h !! l = Some (part_arguments pt).

Record parts_built (m m' : modstate) (done : list part) : Prop := {
  pb_vars : same_vars m m';
  pb_len : S (length (store m)) < length (store m');
  pb_old : forall l, l < length (store m) -> store m' !! l = store m !! l;
  pb_calls : exists calls,
      store m' !! S (length (store m)) = Some calls
      /\ Forall2 (call_at (store m') (length (store m)) (S (length (store m))))
           done calls
}.

Lemma call_at_keep h h' base lC pt v :
  (forall l, l < length h -> l <> lC -> h' !! l = h !! l) ->
  call_at h base lC pt v -> call_at h' base lC pt v.
Proof.
  intros Hkeep (l & -> & Hb & Hne & Hl). exists l. repeat split; auto.
  rewrite Hkeep; auto. now apply lookup_lt_Some in Hl.
Qed.

Lemma exec_parts first more m :
  exists m',
    exec (parts_tree first more) m = (Some (VArr (S (length (store m)))), m')
    /\ parts_built m m' (first :: more).
Proof.
  unfold parts_tree.
  assert (Hgen : forall more t done,
            (exists m1, exec t m = (Some (VArr (S (length (store m)))), m1)
                        /\ parts_built m m1 done) ->
            exists m',
              exec (fold_left (fun t pt => VNode 17 [t; part_tree pt]) more t) m
              = (Some (VArr (S (length (store m)))), m')
              /\ parts_built m m' (done ++ more)).
  { clear. induction more as [|pt more IH]; intros t done Ht; simpl.
    - now rewrite app_nil_r.
    - replace (done ++ pt :: more) with ((done ++ [pt]) ++ more)
        by now rewrite <- app_assoc.
      apply IH. destruct Ht as (m1 & Ex & [Hv Hlen Hold (calls & Hc & Hall)]).
      rewrite exec_node. cbn [exec_children]. rewrite Ex.
      destruct (gives_eq _ _ _ _ (exec_part pt m1)) as (m2 & -> & Hst2 & Hv2).
      cbn [nth_error productions map value_or_undef].
      unfold act_append, array_push. cbn [arg nth Nat.sub set_loc store].
      rewrite Hst2, lookup_app_l, Hc by lia.
      eexists. split; [reflexivity|].
      assert (Hkeep : forall l, l < length (store m1) ->
                l <> S (length (store m)) ->
                <[S (length (store m)) := calls ++
                    [VChipCall (VStr (part_name pt)) (VArr (length (store m1)))]]>
                  (store m1 ++ [part_arguments pt]) !! l = store m1 !! l).
      { intros l Hl Hne. rewrite list_lookup_insert_ne by auto.
        now rewrite lookup_app_l. }
      constructor; cbn [store set_store set_result set_loc].
      + destruct Hv as (A1 & A2 & A3), Hv2 as (B1 & B2 & B3).
        repeat split; simpl; congruence.
      + rewrite length_insert, length_app. simpl. lia.
      + intros l Hl. rewrite Hkeep by lia. now apply Hold.
      + exists (calls ++ [VChipCall (VStr (part_name pt)) (VArr (length (store m1)))]).
        split.
        * apply list_lookup_insert_eq. rewrite length_app. simpl. lia.
        * apply Forall2_app.
          -- eapply Forall2_impl; [exact Hall|].
             intros pt0 v0. now apply call_at_keep.
          -- constructor; [|constructor].
             exists (length (store m1)). repeat split; try lia.
             rewrite list_lookup_insert_ne by lia. apply lookup_last. }
  apply (Hgen more _ [first]).
  rewrite exec_node. cbn [exec_children].
  destruct (gives_eq _ _ _ _ (exec_part first m)) as (m1 & -> & Hst & Hv).
  cbn [nth_error productions map value_or_undef].
  unfold act_single, new_array. cbn [arg nth set_loc store set_store].
  rewrite Hst, length_app. cbn [length]. rewrite Nat.add_1_r.
  eexists. split; [reflexivity|].
  constructor; cbn [store set_store set_result set_loc].
  - destruct Hv as (A1 & A2 & A3). repeat split; simpl; auto.
  - rewrite !length_app. simpl. lia.
  - intros l Hl. now rewrite <- app_assoc, lookup_app_l.
  - exists [VChipCall (VStr (part_name first)) (VArr (length (store m)))].
    split.
    + replace (S (length (store m)))
        with (length (store m ++ [part_arguments first]))
        by (rewrite length_app; simpl; lia).
      apply lookup_last.
    + constructor; [|constructor].
      exists (length (store m)). repeat split; try lia.
      rewrite lookup_app_l by (rewrite length_app; simpl; lia).
      apply lookup_last.
Qed.

(** ** The effect of a section, and of a chip *)

(** The three variables refer to three arrays of the store. *)
Definition vars_ok (m : modstate) : Prop :=
  m_inputs m < length (store m) /\ m_outputs m < length (store m)
  /\ m_parts m < length (store m)
  /\ m_inputs m <> m_outputs m /\ m_inputs m <> m_parts m
  /\ m_outputs m <> m_parts m.

Definition call_in (h : list (list jsval)) (base : nat) (pt : part)
  (v : jsval) : Prop :=
  exists l, v = VChipCall (VStr (part_name pt)) (VArr l)
            /\ base <= l /\ h !! l = Some (part_arguments pt).

(** From [m] to [m']: the pins [ins] and [outs] and the calls of the
    parts [pts] were pushed into the module arrays, and no other array
    of [m] has changed. *)
Record effect (m m' : modstate) (ins outs : list string) (pts : list part)
  : Prop := {
  eff_vars : same_vars m m';
  eff_len : length (store m) <= length (store m');
  eff_in : forall arr, store m !! m_inputs m = Some arr ->
           store m' !! m_inputs m = Some (arr ++ map VStr ins);
  eff_out : forall arr, store m !! m_outputs m = Some arr ->
            store m' !! m_outputs m = Some (arr ++ map VStr outs);
  eff_parts : forall arr, store m !! m_parts m = Some arr ->
              exists calls,
                store m' !! m_parts m = Some (arr ++ calls)
                /\ Forall2 (call_in (store m') (length (store m))) pts calls;
  eff_old : forall l, l < length (store m) ->
            l <> m_inputs m -> l <> m_outputs m -> l <> m_parts m ->
            store m' !! l = store m !! l
}.

Lemma vars_ok_same m m' :
  same_vars m m' -> length (store m) <= length (store m') ->
  vars_ok m -> vars_ok m'.
Proof.
  intros (E1 & E2 & E3) Hlen (H1 & H2 & H3 & H4 & H5 & H6).
  unfold vars_ok. rewrite E1, E2, E3. repeat split; auto; lia.
Qed.

Lemma effect_none m m' :
  store m' = store m -> same_vars m m' -> effect m m' [] [] [].
Proof.
  intros E Hv. constructor; rewrite ?E; auto.
  - intros arr H. now rewrite app_nil_r.
  - intros arr H. now rewrite app_nil_r.
  - intros arr H. exists []. rewrite app_nil_r. split; auto.
Qed.

Lemma effect_compose m m1 m2 i1 o1 p1 i2 o2 p2 :
  vars_ok m ->
  effect m m1 i1 o1 p1 -> effect m1 m2 i2 o2 p2 ->
  effect m m2 (i1 ++ i2) (o1 ++ o2) (p1 ++ p2).
Proof.
  intros (V1 & V2 & V3 & V4 & V5 & V6) [A1 A2 A3 A4 A5 A6] [B1 B2 B3 B4 B5 B6].
  pose proof A1 as (E1 & E2 & E3).
  rewrite E1, E2, E3 in *.
  constructor.
  - eapply same_vars_trans; eauto.
  - lia.
  - intros arr H. rewrite map_app, app_assoc. auto.
  - intros arr H. rewrite map_app, app_assoc. auto.
  - intros arr H. destruct (A5 _ H) as (c1 & H1 & F1).
    destruct (B5 _ H1) as (c2 & H2 & F2).
    exists (c1 ++ c2). rewrite app_assoc. split; auto.
    apply Forall2_app.
    + eapply Forall2_impl; [exact F1|].
      intros pt v (l & -> & Hb & Hl). exists l. repeat split; auto.
      rewrite B6; auto; try lia. now apply lookup_lt_Some in Hl.
    + eapply Forall2_impl; [exact F2|].
      intros pt v (l & -> & Hb & Hl). exists l. repeat split; auto. lia.
  - intros l Hl N1 N2 N3. rewrite B6; auto. lia.
Qed.

Lemma exec_section sec m :
  vars_ok m ->
  exists v m',
    exec (section_tree sec) m = (v, m')
    /\ effect m m' (section_inputs sec) (section_outputs sec)
         (section_parts sec).
Proof.
  intros (V1 & V2 & V3 & V4 & V5 & V6).
  destruct (lookup_lt_is_Some_2 _ _ V1) as [arr_i Hi].
  destruct (lookup_lt_is_Some_2 _ _ V2) as [arr_o Ho].
  destruct (lookup_lt_is_Some_2 _ _ V3) as [arr_p Hp].
  destruct sec as [first more|first more|first more]; cbn [section_tree].
  - (* IN *)
    rewrite exec_node. cbn [exec_children]. rewrite exec_node.
    cbn [exec_children exec].
    destruct (gives_eq _ _ _ _ (exec_names first more m))
      as (m1 & -> & Hst & (E1 & E2 & E3)).
    cbn [nth_error productions map value_or_undef].
    unfold act_inputs, push_spread, spread, array_push.
    cbn [arg nth set_loc store m_inputs].
    rewrite Hst, E1, lookup_last, lookup_app_l, Hi by lia.
    cbn. eexists _, _. split; [reflexivity|].
    constructor; cbn [store set_store set_result set_loc section_inputs
                        section_outputs section_parts map].
    + repeat split; simpl; auto.
    + rewrite length_insert, length_app. lia.
    + intros arr H. rewrite Hi in H. injection H as <-.
      apply list_lookup_insert_eq. rewrite length_app. lia.
    + intros arr H. rewrite app_nil_r.
      rewrite list_lookup_insert_ne by auto. now rewrite lookup_app_l.
    + intros arr H. exists []. rewrite app_nil_r. split; [|constructor].
      rewrite list_lookup_insert_ne by auto. now rewrite lookup_app_l.
    + intros l Hl N1 N2 N3.
      rewrite list_lookup_insert_ne by auto. now rewrite lookup_app_l.
  - (* OUT *)
    rewrite exec_node. cbn [exec_children]. rewrite exec_node.
    cbn [exec_children exec].
    destruct (gives_eq _ _ _ _ (exec_names first more m))
      as (m1 & -> & Hst & (E1 & E2 & E3)).
    cbn [nth_error productions map value_or_undef].
    unfold act_outputs, push_spread, spread, array_push.
    cbn [arg nth set_loc store m_outputs].
    rewrite Hst, E2, lookup_last, lookup_app_l, Ho by lia.
    cbn. eexists _, _. split; [reflexivity|].
    constructor; cbn [store set_store set_result set_loc section_inputs
                        section_outputs section_parts map].
    + repeat split; simpl; auto.
    + rewrite length_insert, length_app. lia.
    + intros arr H. rewrite app_nil_r.
      rewrite list_lookup_insert_ne by auto. now rewrite lookup_app_l.
    + intros arr H. rewrite Ho in H. injection H as <-.
      apply list_lookup_insert_eq. rewrite length_app. lia.
    + intros arr H. exists []. rewrite app_nil_r. split; [|constructor].
      rewrite list_lookup_insert_ne by auto. now rewrite lookup_app_l.
    + intros l Hl N1 N2 N3.
      rewrite list_lookup_insert_ne by auto. now rewrite lookup_app_l.
  - (* PARTS *)
    rewrite exec_node. cbn [exec_children]. rewrite exec_node.
    cbn [exec_children exec].
    destruct (exec_parts first more m)
      as (m1 & -> & [(E1 & E2 & E3) Hlen Hold (calls & Hc & Hall)]).
    cbn [nth_error productions map value_or_undef].
    unfold act_parts, push_spread, spread, array_push.
    cbn [arg nth set_loc store m_parts].
    rewrite Hc, E3, (Hold _ V3), Hp.
    cbn. eexists _, _. split; [reflexivity|].
    constructor; cbn [store set_store set_result set_loc section_inputs
                        section_outputs section_parts map].
    + repeat split; simpl; auto.
    + rewrite length_insert. lia.
    + intros arr H. rewrite app_nil_r.
      rewrite list_lookup_insert_ne by auto. now rewrite Hold.
    + intros arr H. rewrite app_nil_r.
      rewrite list_lookup_insert_ne by auto. now rewrite Hold.
    + intros arr H. rewrite Hp in H. injection H as <-.
      exists calls. split; [apply list_lookup_insert_eq; lia|].
      eapply Forall2_impl; [exact Hall|].
      intros pt v (l & -> & Hb & Hne & Hl). exists l. repeat split; auto.
      rewrite list_lookup_insert_ne by lia. exact Hl.
    + intros l Hl N1 N2 N3.
      rewrite list_lookup_insert_ne by auto. now apply Hold.
Qed.

Lemma effect_same_store m m1 m2 ins outs pts :
  store m2 = store m1 -> same_vars m1 m2 ->
  effect m m1 ins outs pts -> effect m m2 ins outs pts.
Proof.
  intros E Hv [A1 A2 A3 A4 A5 A6].
  constructor; rewrite ?E; auto.
  eapply same_vars_trans; eauto.
Qed.

Lemma exec_chip c m :
  vars_ok m ->
  exists m',
    exec (chip_tree c) m
    = (Some (VChip (VStr (chip_name c)) (VArr (m_inputs m))
               (VArr (m_outputs m)) (VArr (m_parts m))), m')
    /\ effect m m' (chip_inputs c) (chip_outputs c) (chip_parts c).
Proof.
  intros V. unfold chip_tree.
  rewrite exec_node. cbn [exec_children].
  change (exec (VLeaf 12 "CHIP") m) with (Some (VStr "CHIP"), m).
  cbn iota.
  destruct (gives_eq _ _ _ _ (exec_name (chip_name c) m))
    as (m1 & -> & Hst1 & Hv1).
  assert (E01 : effect m m1 [] [] []) by now apply effect_none.
  assert (V1 : vars_ok m1).
  { eapply vars_ok_same; eauto. rewrite Hst1. lia. }
  change (exec (VLeaf 17 "{") m1) with (Some (VStr "{"), m1).
  cbn iota. rewrite (exec_node 2). cbn [exec_children].
  destruct (exec_section (section1 c) m1 V1) as (v2 & m2 & -> & E12).
  assert (V2 : vars_ok m2).
  { eapply vars_ok_same; eauto using eff_vars, eff_len. }
  destruct (exec_section (section2 c) m2 V2) as (v3 & m3 & -> & E23).
  assert (V3 : vars_ok m3).
  { eapply vars_ok_same; eauto using eff_vars, eff_len. }
  destruct (exec_section (section3 c) m3 V3) as (v4 & m4 & -> & E34).
  pose proof (effect_compose _ _ _ _ _ _ _ _ _ V2 E23 E34) as E24.
  pose proof (effect_compose _ _ _ _ _ _ _ _ _ V1 E12 E24) as E14.
  pose proof (effect_compose _ _ _ _ _ _ _ _ _ V E01 E14) as E04.
  cbn [app] in E04.
  cbn [nth_error productions].
  unfold act_chip.
  destruct (eff_vars _ _ _ _ _ E04) as (F1 & F2 & F3).
  change (exec (VLeaf 18 "}") m4) with (Some (VStr "}"), m4).
  cbn [map value_or_undef arg nth yy_result set_result set_loc
       m_inputs m_outputs m_parts].
  rewrite F1, F2, F3.
  eexists. split; [reflexivity|].
  eapply effect_same_store; [| |exact E04]; [reflexivity|].
  repeat split.
Qed.

(** ** The tree of a chip is a derivation tree *)

Definition shaped (t : vtree) (X : nat) : Prop :=
  wf_tree (erase t) = true /\ root (erase t) = Some X.

Lemma shaped_node p r X children :
  nth_error rhs p = Some r -> lhs p = Some X -> (1 <=? p) = true ->
  Forall2 shaped children r ->
  shaped (VNode p children) X.
Proof.
  intros Hr Hl Hp Hall. split; [|exact Hl].
  cbn [erase wf_tree]. rewrite Hp, Hr. cbn [andb].
  apply andb_true_intro. split.
  - unfold roots_are. apply andb_true_intro. split.
    + clear Hr. induction Hall as [|t X0 ts r0 (_ & Ht) _ IH]; [reflexivity|].
      cbn [map combine forallb fst snd]. rewrite Ht, Nat.eqb_refl. exact IH.
    + rewrite length_map. apply Nat.eqb_eq. symmetry.
      eapply Forall2_length; eauto.
  - clear Hr. induction Hall as [|t X0 ts r0 (Ht & _) _ IH]; [reflexivity|].
    cbn [map forallb]. now rewrite Ht.
Qed.

Lemma shaped_leaf c text :
  (12 <=? c) && (c <=? 24) = true -> shaped (VLeaf c text) c.
Proof. intros H. split; [exact H|reflexivity]. Qed.

Ltac shape_children :=
  repeat first
    [ apply Forall2_nil_2
    | apply Forall2_cons_2; [first [apply shaped_leaf; reflexivity
                                   | eassumption | idtac]|] ].

Lemma name_shaped w : shaped (name_tree w) 7.
Proof.
  unfold name_tree, name_col.
  destruct (String.eqb w "CHIP");
    [eapply shaped_node; [reflexivity..|shape_children]|].
  destruct (String.eqb w "IN");
    [eapply shaped_node; [reflexivity..|shape_children]|].
  destruct (String.eqb w "OUT");
    [eapply shaped_node; [reflexivity..|shape_children]|].
  destruct (String.eqb w "PARTS");
    eapply shaped_node; try reflexivity; shape_children.
Qed.

Lemma names_shaped first more : shaped (names_tree first more) 6.
Proof.
  unfold names_tree.
  assert (H : shaped (VNode 9 [name_tree first]) 6).
  { eapply shaped_node; try reflexivity. shape_children. apply name_shaped. }
  revert H. generalize (VNode 9 [name_tree first]).
  induction more as [|w more IH]; intros t H; [exact H|].
  cbn [fold_left]. apply IH.
  eapply shaped_node; try reflexivity. shape_children. apply name_shaped.
Qed.

Lemma argument_shaped a : shaped (argument_tree a) 11.
Proof. eapply shaped_node; try reflexivity. shape_children. Qed.

Lemma arguments_shaped first more : shaped (arguments_tree first more) 10.
Proof.
  unfold arguments_tree.
  assert (H : shaped (VNode 19 [argument_tree first]) 10).
  { eapply shaped_node; try reflexivity. shape_children.
    apply argument_shaped. }
  revert H. generalize (VNode 19 [argument_tree first]).
  induction more as [|w more IH]; intros t H; [exact H|].
  cbn [fold_left]. apply IH.
  eapply shaped_node; try reflexivity. shape_children.
  apply argument_shaped.
Qed.

Lemma part_shaped pt : shaped (part_tree pt) 9.
Proof.
  eapply shaped_node; try reflexivity. shape_children.
  apply arguments_shaped.
Qed.

Lemma parts_shaped first more : shaped (parts_tree first more) 8.
Proof.
  unfold parts_tree.
  assert (H : shaped (VNode 16 [part_tree first]) 8).
  { eapply shaped_node; try reflexivity. shape_children. apply part_shaped. }
  revert H. generalize (VNode 16 [part_tree first]).
  induction more as [|w more IH]; intros t H; [exact H|].
  cbn [fold_left]. apply IH.
  eapply shaped_node; try reflexivity. shape_children. apply part_shaped.
Qed.

Lemma section_shaped sec : shaped (section_tree sec) 2.
Proof.
  destruct sec as [first more|first more|first more]; cbn [section_tree].
  - eapply shaped_node; try reflexivity. shape_children.
    eapply shaped_node; try reflexivity. shape_children.
    apply names_shaped.
  - eapply shaped_node; try reflexivity. shape_children.
    eapply shaped_node; try reflexivity. shape_children.
    apply names_shaped.
  - eapply shaped_node; try reflexivity. shape_children.
    eapply shaped_node; try reflexivity. shape_children.
    apply parts_shaped.
Qed.

Lemma chip_shaped c : shaped (chip_tree c) 0.
Proof.
  eapply shaped_node; try reflexivity. shape_children.
  - apply name_shaped.
  - eapply shaped_node; try reflexivity.
    shape_children; apply section_shaped.
Qed.

(** ** Reading the result *)

Lemma wf_vars_ok ty m :
  wf_mod ty m -> m_inputs m <> m_outputs m -> vars_ok m.
Proof.
  intros [Hst Hi Ho Hp] Hne.
  pose proof (Forall2_length _ _ _ Hst) as Hlen.
  apply lookup_lt_Some in Hi as Li. apply lookup_lt_Some in Ho as Lo.
  apply lookup_lt_Some in Hp as Lp.
  unfold vars_ok. repeat split; try lia.
  - intros E. rewrite E in Hi. congruence.
  - intros E. rewrite E in Ho. congruence.
Qed.

Lemma all_some_app {A : Type} (l1 l2 : list (option A)) a1 a2 :
  all_some l1 = Some a1 -> all_some l2 = Some a2 ->
  all_some (l1 ++ l2) = Some (a1 ++ a2).
Proof.
  revert a1. induction l1 as [|[x|] l1 IH]; intros a1 H1 H2; simpl in *.
  - now injection H1 as <-.
  - destruct (all_some l1) as [r|]; [|discriminate].
    injection H1 as <-. now rewrite (IH r eq_refl H2).
  - discriminate.
Qed.

Lemma read_array_inv h d l vs ts :
  h !! l = Some vs -> read (S d) h (VArr l) = Some (AArr ts) ->
  all_some (map (read d h) vs) = Some ts.
Proof.
  intros E H. simpl in H. rewrite E in H.
  destruct (all_some _); [now injection H as ->|discriminate].
Qed.

Lemma read_new_names h d l :
  all_some (map (read (S d) h) (map VStr l)) = Some (map AStr l).
Proof. induction l as [|w l IH]; simpl in *; [|rewrite IH]; reflexivity. Qed.

Lemma map_agree {A B : Type} (f g : A -> B) l :
  Forall (fun x => f x = g x) l -> map f l = map g l.
Proof. induction 1; simpl; congruence. Qed.

Lemma read_old_names ty h h' d vs :
  Forall (elem_ok ty KStr) vs ->
  map (read (S d) h') vs = map (read (S d) h) vs.
Proof.
  intros H. apply map_agree. eapply Forall_impl; [exact H|].
  now intros v (s & -> & _).
Qed.

Lemma read_old_arguments ty h h' d vs :
  Forall (elem_ok ty KArg) vs ->
  map (read (S (S d)) h') vs = map (read (S (S d)) h) vs.
Proof.
  intros H. apply map_agree. eapply Forall_impl; [exact H|].
  now intros v (a & b & -> & _).
Qed.

Lemma read_old_calls ty m m' d vs ins outs pts :
  wf_mod ty m -> effect m m' ins outs pts ->
  Forall (elem_ok ty KCall) vs ->
  map (read (S (S (S (S d)))) (store m')) vs
  = map (read (S (S (S (S d)))) (store m)) vs.
Proof.
  intros [Hst Hi Ho Hp] Heff H. apply map_agree.
  eapply Forall_impl; [exact H|].
  intros v (n & l & -> & _ & Hl).
  destruct (store_ok_lookup _ _ _ _ Hst Hl) as (args & Hargs & Hall).
  assert (E : store m' !! l = Some args).
  { rewrite (eff_old _ _ _ _ _ Heff); auto.
    - now apply lookup_lt_Some in Hargs.
    - intros ->. congruence.
    - intros ->. congruence.
    - intros ->. congruence. }
  change (read (S (S (S (S d)))) ?h (VChipCall (VStr n) (VArr l)))
    with (match read (S (S (S d))) h (VStr n), read (S (S (S d))) h (VArr l) with
          | Some n', Some a' => Some (AChipCall n' a')
          | _, _ => None
          end).
  change (read (S (S (S d))) ?h (VArr l))
    with (match h !! l with
          | Some vs =>
              match all_some (map (read (S (S d)) h) vs) with
              | Some ts => Some (AArr ts)
              | None => None
              end
          | None => None
          end).
  rewrite E, Hargs. now rewrite (read_old_arguments ty (store m) (store m')).
Qed.

Lemma read_new_arguments h d l :
  all_some (map (read (S (S d)) h) (map argument_value l))
  = Some (map argument_ast_of l).
Proof. induction l as [|a l IH]; simpl in *; [|rewrite IH]; reflexivity. Qed.

Lemma read_new_calls h base d pts calls :
  Forall2 (call_in h base) pts calls ->
  all_some (map (read (S (S (S (S d)))) h) calls)
  = Some (map part_ast_of pts).
Proof.
  induction 1 as [|pt v pts calls (l & -> & _ & Hl) _ IH]; [reflexivity|].
  cbn [map all_some].
  change (read (S (S (S (S d)))) h (VChipCall ?n (VArr l)))
    with (match read (S (S (S d))) h n, read (S (S (S d))) h (VArr l) with
          | Some n', Some a' => Some (AChipCall n' a')
          | _, _ => None
          end).
  rewrite (read_array _ _ _ _ _ Hl (read_new_arguments h d _)), IH.
  reflexivity.
Qed.

(** The tree of the [Chip] object after the actions of a chip have run. *)
Lemma read_effect ty m m' c ins outs pts :
  wf_mod ty m ->
  effect m m' (chip_inputs c) (chip_outputs c) (chip_parts c) ->
  read 5 (store m) (VArr (m_inputs m)) = Some (AArr ins) ->
  read 5 (store m) (VArr (m_outputs m)) = Some (AArr outs) ->
  read 5 (store m) (VArr (m_parts m)) = Some (AArr pts) ->
  read 6 (store m')
    (VChip (VStr (chip_name c)) (VArr (m_inputs m)) (VArr (m_outputs m))
       (VArr (m_parts m)))
  = Some (chip_ast_over ins outs pts c).
Proof.
  intros Hwf Heff Ri Ro Rp.
  pose proof Hwf as [Hst Hi Ho Hp].
  destruct (store_ok_lookup _ _ _ _ Hst Hi) as (arr_i & Ei & Fi).
  destruct (store_ok_lookup _ _ _ _ Hst Ho) as (arr_o & Eo & Fo).
  destruct (store_ok_lookup _ _ _ _ Hst Hp) as (arr_p & Ep & Fp).
  apply (read_array_inv _ _ _ _ _ Ei) in Ri.
  apply (read_array_inv _ _ _ _ _ Eo) in Ro.
  apply (read_array_inv _ _ _ _ _ Ep) in Rp.
  pose proof (eff_in _ _ _ _ _ Heff _ Ei) as Ei'.
  pose proof (eff_out _ _ _ _ _ Heff _ Eo) as Eo'.
  destruct (eff_parts _ _ _ _ _ Heff _ Ep) as (calls & Ep' & Hcalls).
  change (read 6 ?h (VChip ?n ?i ?o ?p))
    with (match read 5 h n, read 5 h i, read 5 h o, read 5 h p with
          | Some n', Some i', Some o', Some p' => Some (AChip n' i' o' p')
          | _, _, _, _ => None
          end).
  rewrite (read_array (store m') 4 _ _ (ins ++ map AStr (chip_inputs c)) Ei').
  2:{ rewrite map_app. apply all_some_app; [|apply read_new_names].
      now rewrite (read_old_names ty (store m) (store m')). }
  rewrite (read_array (store m') 4 _ _ (outs ++ map AStr (chip_outputs c)) Eo').
  2:{ rewrite map_app. apply all_some_app; [|apply read_new_names].
      now rewrite (read_old_names ty (store m) (store m')). }
  rewrite (read_array (store m') 4 _ _
             (pts ++ map part_ast_of (chip_parts c)) Ep').
  2:{ rewrite map_app. apply all_some_app.
      - now rewrite (read_old_calls ty m m' 0 _ _ _ _ Hwf Heff Fp).
      - eapply read_new_calls; eauto. }
  reflexivity.
Qed.

(** ** The texts of the tokens *)

Lemma starts_with_take_while p s : starts_with (take_while p s) s = true.
Proof.
  induction s as [|a s IH]; simpl; [reflexivity|].
  destruct (p a); simpl; [|reflexivity].
  now rewrite Ascii.eqb_refl.
Qed.

Lemma split_at {A : Type} (l before after : list A) x :
  l = before ++ x :: after ->
  before = firstn (length before) l /\ nth_error l (length before) = Some x.
Proof.
  intros ->. split.
  - now rewrite firstn_app, Nat.sub_diag, firstn_all, app_nil_r.
  - now rewrite nth_error_app2, Nat.sub_diag by lia.
Qed.

Lemma keyword_first str lit ty :
  In (re_lit lit, Some ty) (firstn 7 lexRules) ->
  Forall (fun r : lex_rule => fst r str = None) (firstn 7 lexRules) ->
  String.eqb (take_while is_word str) lit = false.
Proof.
  intros Hin Hall. rewrite List.Forall_forall in Hall.
  specialize (Hall _ Hin). cbn [fst] in Hall. unfold re_lit in Hall.
  destruct (String.eqb_spec (take_while is_word str) lit) as [E|]; auto.
  rewrite <- E, starts_with_take_while in Hall. discriminate.
Qed.

Lemma first_match_text str ty v :
  first_match lexRules str (Some ty) v -> token_text (col ty) v.
Proof.
  intros (before & re & after & E & Hbefore & Hm).
  apply split_at in E as [Eb Hn]. rewrite Eb in Hbefore. clear Eb.
  match type of Hn with nth_error _ ?k = _ => set (n := k) in * end.
  clearbody n. clear before. unfold lexRules in Hn.
  do 3 (destruct n as [|n]; [discriminate|]; simpl in Hn).
  do 4 (destruct n as [|n]; simpl in Hn;
        [injection Hn as <- <-; apply re_lit_inv in Hm; subst v;
         reflexivity|]).
  destruct n as [|n]; simpl in Hn.
  { injection Hn as <- <-.
    assert (Ev : v = take_while is_word str).
    { unfold re_plus in Hm.
      destruct (take_while is_word str); [discriminate|]. now injection Hm. }
    subst v. change (col "ID") with 16. cbn [token_text]. unfold name_col.
    rewrite (keyword_first str "CHIP" "CHIP"), (keyword_first str "IN" "IN"),
      (keyword_first str "OUT" "OUT"), (keyword_first str "PARTS" "PARTS");
      auto; simpl; auto 10. }
  do 8 (destruct n as [|n]; simpl in Hn;
        [injection Hn as <- <-; apply re_lit_inv in Hm; subst v;
         reflexivity|]).
  destruct n; discriminate.
Qed.

Lemma getNextToken_text s fuel tk t tk' :
  tk_inv s tk -> getNextToken fuel tk = LexToken t tk' ->
  tk_inv s tk' /\ token_text (col (type t)) (value t).
Proof.
  intros Hinv Hlex.
  destruct (Nat.le_gt_cases (_cursor tk) (String.length s)) as [Hle|Hgt].
  - pose proof (getNextToken_fuel tk fuel (String.length s + 2)) as Hmono.
    rewrite Hlex in Hmono. specialize (Hmono ltac:(discriminate)).
    pose proof (getNextToken_spec s (fuel + (String.length s + 2)) tk Hinv Hle
                  ltac:(lia)) as Hspec.
    rewrite Hmono in Hspec. destruct Hspec as (Hinv' & _ & Htok).
    split; auto. destruct Htok as [[-> _]|(l & Hat & _)]; [reflexivity|].
    apply first_match_text with (str := slice (startOffset l) s).
    apply (ta_rule _ _ _ Hat).
  - destruct fuel as [|fuel]; [discriminate|].
    rewrite getNextToken_unfold in Hlex. unfold hasMoreTokens in Hlex.
    rewrite (inv_string _ _ Hinv) in Hlex.
    destruct (Nat.leb_spec (_cursor tk) (String.length s)); [lia|].
    simpl in Hlex. inversion Hlex; subst. split; [auto|reflexivity].
Qed.

(** The tokens of a text have texts, and each text is that of its column. *)
Lemma stream_texts s tk t w :
  stream tk t w ->
  tk_inv s tk -> token_text (col (type t)) (value t) ->
  exists ts, vstream tk t ts /\ map fst ts = w /\ texts_ok ts.
Proof.
  induction 1 as [tk t Ht|tk t c t' tk' w Ht Hc Hlex _ IH]; intros Hinv Htext.
  - exists [(25, value t)]. split; [now constructor|]. split; [reflexivity|].
    constructor; [|constructor]. unfold col in Htext. now rewrite Ht in Htext.
  - pose proof (inv_string _ _ Hinv) as Hs. rewrite Hs in Hlex.
    destruct (getNextToken_text _ _ _ _ _ Hinv Hlex) as [Hinv' Htext'].
    destruct (IH Hinv' Htext') as (ts & Hv & Hm & Hok).
    exists ((c, value t) :: ts). split.
    + econstructor; eauto. now rewrite Hs.
    + split; [simpl; now rewrite Hm|].
      constructor; auto. unfold col in Htext. now rewrite Ht in Htext.
Qed.

Lemma lexes_texts s w :
  lexes s w -> exists ts, vlexes s ts /\ map fst ts = w /\ texts_ok ts.
Proof.
  intros (t & tk & Hlex & Hstream).
  destruct (getNextToken_text s _ _ _ _ (initString_inv s) Hlex)
    as [Hinv Htext].
  destruct (stream_texts s tk t w Hstream Hinv Htext) as (ts & Hv & Hm & Hok).
  exists ts. split; [|auto]. exists t, tk. auto.
Qed.

(** ** Every derivation tree of a chip is the tree of a [chip] *)

Lemma annotate_children children :
  Forall (fun t => forall ts, map fst ts = yield t ->
                   exists vt, erase vt = t /\ vyield vt = ts) children ->
  forall ts, map fst ts = concat (map yield children) ->
  exists vts, map erase vts = children /\ concat (map vyield vts) = ts.
Proof.
  induction 1 as [|t children Ht _ IH]; intros ts Hts.
  - destruct ts; [|discriminate]. now exists [].
  - cbn [map concat] in Hts.
    apply List.map_eq_app in Hts as (ts1 & ts2 & -> & H1 & H2).
    destruct (Ht _ H1) as (vt & E1 & Y1).
    destruct (IH _ H2) as (vts & E2 & Y2).
    exists (vt :: vts). cbn [map concat]. now rewrite E1, E2, Y1, Y2.
Qed.

Lemma annotate t : forall ts,
  map fst ts = yield t -> exists vt, erase vt = t /\ vyield vt = ts.
Proof.
  induction t as [c|p children IH] using tree_induction; intros ts Hts.
  - destruct ts as [|[c' w] [|? ?]]; try discriminate.
    injection Hts as ->. now exists (VLeaf c w).
  - destruct (annotate_children children IH ts Hts) as (vts & E & Y).
    exists (VNode p vts). cbn [erase vyield]. now rewrite E, Y.
Qed.

Lemma shaped_children r : forall children,
  roots_are r (map erase children) = true ->
  forallb wf_tree (map erase children) = true ->
  Forall2 shaped children r.
Proof.
  unfold roots_are.
  induction r as [|X r IH]; intros [|t children] Hr Hwf;
    cbn [map combine forallb length] in *;
    try (apply andb_prop in Hr as [_ Hr]; discriminate).
  - constructor.
  - apply andb_prop in Hr as [Hr Hlen]. apply andb_prop in Hr as [HX Hr].
    apply andb_prop in Hwf as [Ht Hwf]. cbn [fst snd] in HX.
    constructor.
    + split; [exact Ht|]. destruct (root (erase t)); [|discriminate].
      apply Nat.eqb_eq in HX. now subst.
    + apply IH; auto. now rewrite Hr.
Qed.

Lemma shaped_nonterminal t X :
  shaped t X -> X < 12 ->
  exists p children r,
    t = VNode p children /\ nth_error rhs p = Some r /\ lhs p = Some X
    /\ 1 <= p /\ Forall2 shaped children r.
Proof.
  intros [Hwf Hroot] HX. destruct t as [c w|p children].
  - cbn [erase wf_tree root] in *. injection Hroot as ->.
    apply andb_prop in Hwf as [H _]. apply Nat.leb_le in H. lia.
  - cbn [erase] in Hwf. apply wf_node in Hwf as (Hp & (r & Hr & Hroots) & Hall).
    exists p, children, r. repeat split; auto.
    now apply shaped_children.
Qed.

Lemma shaped_token t X :
  shaped t X -> 12 <= X -> exists w, t = VLeaf X w.
Proof.
  intros [Hwf Hroot] HX. destruct t as [c w|p children].
  - injection Hroot as ->. now exists w.
  - cbn [erase root] in Hroot. apply lhs_lt in Hroot. lia.
Qed.

(** The productions of a non-terminal, their children one by one, and
    the tokens among them as leaves. *)
Ltac production_cases p Hr Hl Hp n :=
  lazymatch n with
  | O => destruct p; discriminate Hr
  | S ?k =>
      destruct p as [|p];
      [first [lia | discriminate Hl | injection Hr as <-]
      |production_cases p Hr Hl Hp k]
  end.

Ltac productions_of H :=
  let p := fresh "p" in
  let Hr := fresh "Hr" in
  let Hl := fresh "Hl" in
  let Hp := fresh "Hp" in
  let Hall := fresh "Hall" in
  let E := fresh "E" in
  apply shaped_nonterminal in H as (p & ? & ? & E & Hr & Hl & Hp & Hall);
  [|lia];
  production_cases p Hr Hl Hp 22;
  clear Hl Hp;
  repeat match goal with
         | H0 : Forall2 _ _ (_ :: _) |- _ =>
             apply Forall2_cons_inv_r in H0 as (? & ? & ? & H0 & ->)
         | H0 : Forall2 _ _ [] |- _ => apply Forall2_nil_inv_r in H0 as ->
         end;
  repeat match goal with
         | H0 : shaped _ ?c |- _ =>
             apply shaped_token in H0 as (? & ->); [|lia]
         end;
  first [injection E as -> -> | subst].

Ltac texts_in H :=
  unfold texts_ok in H; cbn [vyield map concat app] in H;
  repeat first [rewrite Forall_app in H | rewrite Forall_cons in H];
  cbn [fst snd token_text] in H;
  repeat match goal with
         | H0 : _ /\ _ |- _ => destruct H0
         | H0 : Forall _ [] |- _ => clear H0
         | H0 : ?x = String _ _ |- _ => subst x
         end.

(** The subtree of a non-terminal, by the lemma [lem] for it. *)
Ltac subtree X lem :=
  match goal with
  | Hs : shaped ?t X, Hy : Forall _ (vyield ?t) |- _ =>
      let H := fresh "Hsub" in
      pose proof (lem t Hs Hy) as H; clear Hs Hy
  end.

Lemma name_inv t :
  shaped t 7 -> texts_ok (vyield t) -> exists w, t = name_tree w.
Proof.
  intros H Ht. productions_of H; texts_in Ht.
  - match goal with
    | Hw : name_col ?x = 16 |- _ =>
        exists x; unfold name_tree; now rewrite Hw
    end.
  - now exists "CHIP"%string.
  - now exists "IN"%string.
  - now exists "OUT"%string.
  - now exists "PARTS"%string.
Qed.

Lemma names_inv t :
  shaped t 6 -> texts_ok (vyield t) ->
  exists first more, t = names_tree first more.
Proof.
  induction t as [c w|p children IH] using vtree_induction; intros H Ht.
  - apply shaped_nonterminal in H as (? & ? & ? & [=] & _); lia.
  - productions_of H; texts_in Ht.
    + subtree 7 name_inv. destruct Hsub as (w & ->). now exists w, [].
    + apply List.Forall_inv in IH.
      subtree 7 name_inv. destruct Hsub as (w & ->).
      match goal with
      | Hs : shaped ?t 6, Hy : Forall _ (vyield ?t) |- _ =>
          destruct (IH Hs Hy) as (first & more & ->)
      end.
      exists first, (more ++ [w]). unfold names_tree.
      rewrite fold_left_app. reflexivity.
Qed.

Lemma argument_inv t :
  shaped t 11 -> texts_ok (vyield t) -> exists a, t = argument_tree a.
Proof.
  intros H Ht. productions_of H; texts_in Ht.
  match goal with
  | |- exists _, VNode _ [VLeaf _ ?a; _; VLeaf _ ?b] = _ => now exists (a, b)
  end.
Qed.

Lemma arguments_inv t :
  shaped t 10 -> texts_ok (vyield t) ->
  exists first more, t = arguments_tree first more.
Proof.
  induction t as [c w|p children IH] using vtree_induction; intros H Ht.
  - apply shaped_nonterminal in H as (? & ? & ? & [=] & _); lia.
  - productions_of H; texts_in Ht.
    + subtree 11 argument_inv. destruct Hsub as (w & ->). now exists w, [].
    + apply List.Forall_inv in IH.
      subtree 11 argument_inv. destruct Hsub as (w & ->).
      match goal with
      | Hs : shaped ?t 10, Hy : Forall _ (vyield ?t) |- _ =>
          destruct (IH Hs Hy) as (first & more & ->)
      end.
      exists first, (more ++ [w]). unfold arguments_tree.
      rewrite fold_left_app. reflexivity.
Qed.

Lemma part_inv t :
  shaped t 9 -> texts_ok (vyield t) -> exists pt, t = part_tree pt.
Proof.
  intros H Ht. productions_of H; texts_in Ht.
  subtree 10 arguments_inv. destruct Hsub as (first & more & ->).
  match goal with
  | |- exists _, VNode _ (VLeaf _ ?n :: _) = _ => now exists (mkPart n first more)
  end.
Qed.

Lemma parts_inv t :
  shaped t 8 -> texts_ok (vyield t) ->
  exists first more, t = parts_tree first more.
Proof.
  induction t as [c w|p children IH] using vtree_induction; intros H Ht.
  - apply shaped_nonterminal in H as (? & ? & ? & [=] & _); lia.
  - productions_of H; texts_in Ht.
    + subtree 9 part_inv. destruct Hsub as (w & ->). now exists w, [].
    + apply List.Forall_inv in IH.
      subtree 9 part_inv. destruct Hsub as (w & ->).
      match goal with
      | Hs : shaped ?t 8, Hy : Forall _ (vyield ?t) |- _ =>
          destruct (IH Hs Hy) as (first & more & ->)
      end.
      exists first, (more ++ [w]). unfold parts_tree.
      rewrite fold_left_app. reflexivity.
Qed.

Lemma section_inv t :
  shaped t 2 -> texts_ok (vyield t) -> exists sec, t = section_tree sec.
Proof.
  intros H Ht. productions_of H.
  - productions_of H. texts_in Ht.
    subtree 6 names_inv. destruct Hsub as (first & more & ->).
    now exists (In_section first more).
  - productions_of H. texts_in Ht.
    subtree 6 names_inv. destruct Hsub as (first & more & ->).
    now exists (Out_section first more).
  - productions_of H. texts_in Ht.
    subtree 8 parts_inv. destruct Hsub as (first & more & ->).
    now exists (Parts_section first more).
Qed.

Lemma chip_inv t :
  shaped t 0 -> texts_ok (vyield t) -> exists c, t = chip_tree c.
Proof.
  intros H Ht. productions_of H.
  match goal with
  | Hs : shaped _ 1 |- _ => productions_of Hs
  end.
  texts_in Ht.
  subtree 7 name_inv. destruct Hsub as (w & ->).
  subtree 2 section_inv. destruct Hsub as (sec1 & ->).
  subtree 2 section_inv. destruct Hsub as (sec2 & ->).
  subtree 2 section_inv. destruct Hsub as (sec3 & ->).
  match goal with
  | |- exists _, VNode 1 [_; _; _; VNode 2 [section_tree ?a; section_tree ?b;
                                            section_tree ?c]; _] = _ =>
      now exists (mkChip w a b c)
  end.
Qed.

(** ** The value of a parse *)

(** What [parse] computes for the text of a chip. *)
Lemma chip_value s ty m c ins outs pts :
  wf_mod ty m ->
  m_inputs m <> m_outputs m ->
  read 5 (store m) (VArr (m_inputs m)) = Some (AArr ins) ->
  read 5 (store m) (VArr (m_outputs m)) = Some (AArr outs) ->
  read 5 (store m) (VArr (m_parts m)) = Some (AArr pts) ->
  vlexes s (chip_tokens c ++ [(25, EmptyString)]) ->
  exists v m',
    parse s m = (Return v, m')
    /\ read 6 (store m') v = Some (chip_ast_over ins outs pts c).
Proof.
  intros Hwf Hne Ri Ro Rp Hlex.
  destruct (chip_shaped c) as (Hshape & Hroot).
  destruct (parse_exec s ty m (chip_tree c) Hwf Hshape Hroot Hlex)
    as (v & m' & Hparse & Hv & Hloc).
  destruct (exec_chip c m (wf_vars_ok ty m Hwf Hne)) as (m2 & Hexec & Heff).
  rewrite Hexec in Hv, Hloc. cbn [fst snd] in Hv, Hloc.
  injection Hv as <-. destruct Hloc as (Hst & _).
  eexists _, m'. split; [exact Hparse|]. rewrite Hst.
  exact (read_effect ty m m2 c ins outs pts Hwf Heff Ri Ro Rp).
Qed.

(** A text that [parse] accepts is the text of a chip. *)
Lemma accepted_chip s ty m v :
  wf_mod ty m -> fst (parse s m) = Return v ->
  exists c, vlexes s (chip_tokens c ++ [(25, EmptyString)]).
Proof.
  intros Hwf Hret.
  destruct (parse_sound s ty m v Hwf Hret)
    as (w & (t & Ht & Hroot & Hy) & Hlex).
  destruct (lexes_texts s _ Hlex) as (ts & Hv & Hm & Hok).
  apply List.map_eq_app in Hm as (ts1 & ts2 & -> & H1 & H2).
  destruct ts2 as [|[c e] [|? ?]]; try discriminate.
  injection H2 as ->.
  unfold texts_ok in Hok. apply Forall_app in Hok as [Hok1 Hok2].
  apply List.Forall_inv in Hok2. cbn [fst snd token_text] in Hok2. subst e.
  rewrite <- Hy in H1.
  destruct (annotate t ts1 H1) as (vt & Et & Yt).
  assert (Hs : shaped vt 0) by (split; now rewrite Et).
  rewrite <- Yt in Hok1.
  destruct (chip_inv vt Hs Hok1) as (c & ->).
  exists c. unfold chip_tokens. now rewrite Yt.
Qed.

(** A text has one list of tokens. *)
Lemma vstream_fun tk t ts1 :
  vstream tk t ts1 -> forall ts2, vstream tk t ts2 -> ts1 = ts2.
Proof.
  induction 1 as [tk t Ht|tk t c t' tk' ts Ht Hc Hlex _ IH];
    intros ts2 H2; inversion H2; subst; try congruence.
  match goal with
  | H : getNextToken _ tk = LexToken ?a ?b |- _ =>
      rewrite Hlex in H; injection H as <- <-
  end.
  f_equal; [congruence|]. now apply IH.
Qed.

Lemma vlexes_fun s ts1 ts2 : vlexes s ts1 -> vlexes s ts2 -> ts1 = ts2.
Proof.
  intros (t1 & tk1 & H1 & S1) (t2 & tk2 & H2 & S2).
  rewrite H1 in H2. injection H2 as <- <-. eapply vstream_fun; eauto.
Qed.

(** Two texts with the same tokens have the same parse. *)
Lemma same_tokens s s' ts ty m v m1 :
  wf_mod ty m ->
  vlexes s ts -> vlexes s' ts ->
  parse s m = (Return v, m1) ->
  exists m2, parse s' m = (Return v, m2) /\ loc_eq m2 m1.
Proof.
  intros Hwf Hs Hs' Hparse.
  destruct (accepted_chip s ty m v Hwf) as (c & Hlex);
    [now rewrite Hparse|].
  pose proof (vlexes_fun _ _ _ Hs Hlex) as ->.
  destruct (chip_shaped c) as (Hshape & Hroot).
  destruct (parse_exec s ty m (chip_tree c) Hwf Hshape Hroot Hlex)
    as (v1 & m1' & P1 & V1 & L1).
  destruct (parse_exec s' ty m (chip_tree c) Hwf Hshape Hroot Hs')
    as (v2 & m2 & P2 & V2 & L2).
  rewrite Hparse in P1. injection P1 as <- <-.
  rewrite V1 in V2. injection V2 as <-.
  exists m2. split; [exact P2|].
  destruct L1 as (A1 & A2 & A3 & A4 & A5).
  destruct L2 as (B1 & B2 & B3 & B4 & B5).
  unfold loc_eq. repeat split; congruence.
Qed.

(** ** The value of a parse *)

(** X12: what [parse] computes for a chip. In a module state whose
    variables [inputs], [outputs] and [parts] refer to arrays of pins, of
    pins and of chip calls, the first two not the same array, a text that
    is read as the tokens of a chip [c] (the keyword CHIP, a name, and in
    braces three sections, each an IN or OUT list of names or a PARTS list
    of chip calls) is accepted. The [Chip] object returned has the name of
    [c], and as inputs, outputs and parts what the module arrays held
    before the call, followed by the pins of the IN sections, the pins of
    the OUT sections and the chip calls of the PARTS sections of [c], each
    in the order of the text. *)
Theorem parse_chip s ty m c ins outs pts :
  wf_mod ty m ->
  m_inputs m <> m_outputs m ->
  read 5 (store m) (VArr (m_inputs m)) = Some (AArr ins) ->
  read 5 (store m) (VArr (m_outputs m)) = Some (AArr outs) ->
  read 5 (store m) (VArr (m_parts m)) = Some (AArr pts) ->
  vlexes s (chip_tokens c ++ [(col "$", EmptyString)]) ->
  exists v m',
    parse s m = (Return v, m')
    /\ read 6 (store m') v = Some (chip_ast_over ins outs pts c).
Proof. exact (chip_value s ty m c ins outs pts). Qed.

Lemma parse_chip_witness :
  exists v m',
    parse "CHIP Or { OUT out; IN a, b; PARTS: Not(in=a, out=x); Nand(a=x, b=b, out=out); }"
      fresh = (Return v, m')
    /\ read 6 (store m') v
       = Some (AChip (AStr "Or")
                 (AArr [AStr "a"; AStr "b"])
                 (AArr [AStr "out"])
                 (AArr [ AChipCall (AStr "Not")
                           (AArr [ AArgument (AStr "in") (AStr "a");
                                   AArgument (AStr "out") (AStr "x") ]);
                         AChipCall (AStr "Nand")
                           (AArr [ AArgument (AStr "a") (AStr "x");
                                   AArgument (AStr "b") (AStr "b");
                                   AArgument (AStr "out") (AStr "out") ]) ])).
Proof.
  assert (Hwf : wf_mod fresh_ty fresh) by (repeat constructor).
  apply (parse_chip _ fresh_ty fresh
           (mkChip "Or" (Out_section "out" [])
              (In_section "a" ["b"])
              (Parts_section
                 (mkPart "Not" ("in", "a") [("out", "x")])
                 [mkPart "Nand" ("a", "x") [("b", "b"); ("out", "out")]]))%string
           [] [] [] Hwf).
  - vm_compute. discriminate.
  - reflexivity.
  - reflexivity.
  - reflexivity.
  - eexists _, _. split; [vm_compute; reflexivity|].
    repeat (eapply vstream_next;
            [reflexivity|discriminate|vm_compute; reflexivity|]).
    apply vstream_end. reflexivity.
Defined.

(** X13: the value of every parse. In a module state whose variables
    [inputs], [outputs] and [parts] refer to arrays of pins, of pins and
    of chip calls, the first two not the same array, when [parse] returns
    a value the text is read as the tokens of some chip [c] (a name and
    three sections), and the value is the [Chip] object of [c]: its name,
    and as inputs, outputs and parts what the module arrays held before
    the call followed by the pins and the chip calls of the sections of
    [c]. *)
Theorem parse_value s ty m v m' ins outs pts :
  wf_mod ty m ->
  m_inputs m <> m_outputs m ->
  read 5 (store m) (VArr (m_inputs m)) = Some (AArr ins) ->
  read 5 (store m) (VArr (m_outputs m)) = Some (AArr outs) ->
  read 5 (store m) (VArr (m_parts m)) = Some (AArr pts) ->
  parse s m = (Return v, m') ->
  exists c,
    vlexes s (chip_tokens c ++ [(col "$", EmptyString)])
    /\ read 6 (store m') v = Some (chip_ast_over ins outs pts c).
Proof.
  intros Hwf Hne Ri Ro Rp Hparse.
  destruct (accepted_chip s ty m v Hwf) as (c & Hlex);
    [now rewrite Hparse|].
  exists c. split; [exact Hlex|].
  destruct (chip_value s ty m c ins outs pts Hwf Hne Ri Ro Rp Hlex)
    as (v2 & m2 & Hparse2 & Hread).
  rewrite Hparse in Hparse2. now injection Hparse2 as -> ->.
Qed.

Lemma parse_value_witness :
  exists v m' c,
    parse Mux_hdl fresh = (Return v, m')
    /\ vlexes Mux_hdl (chip_tokens c ++ [(col "$", EmptyString)])
    /\ read 6 (store m') v = Some (chip_ast_over [] [] [] c).
Proof.
  assert (Hwf : wf_mod fresh_ty fresh) by (repeat constructor).
  assert (Hparse : exists v m', parse Mux_hdl fresh = (Return v, m')).
  { eexists _, _. vm_compute. reflexivity. }
  destruct Hparse as (v & m' & Hparse).
  destruct (parse_value Mux_hdl fresh_ty fresh v m' [] [] [] Hwf
              ltac:(vm_compute; discriminate) eq_refl eq_refl eq_refl Hparse)
    as (c & Hlex & Hread).
  exists v, m', c. auto.
Defined.

(** X14: comments and white space do not change what [parse] computes.
    In a module state whose variables refer to arrays of pins, of pins
    and of chip calls, when two texts are read as the same tokens, columns
    and texts, and [parse] returns a value for the first, then from the
    same module state it returns the same value for the second, and
    leaves the same arrays and the same variables [inputs], [outputs] and
    [parts]. *)
Theorem same_layout s s' ts ty m v m1 :
  wf_mod ty m ->
  vlexes s ts -> vlexes s' ts ->
  parse s m = (Return v, m1) ->
  exists m2,
    parse s' m = (Return v, m2)
    /\ store m2 = store m1
    /\ m_inputs m2 = m_inputs m1 /\ m_outputs m2 = m_outputs m1
    /\ m_parts m2 = m_parts m1.
Proof.
  intros Hwf Hs Hs' Hparse.
  destruct (same_tokens s s' ts ty m v m1 Hwf Hs Hs' Hparse)
    as (m2 & P2 & (E1 & _ & E3 & E4 & E5)).
  exists m2. auto.
Qed.

Lemma same_layout_witness :
  exists v m1 m2,
    parse Mux_plain fresh = (Return v, m1)
    /\ parse Mux_hdl fresh = (Return v, m2)
    /\ store m2 = store m1
    /\ m_inputs m2 = m_inputs m1 /\ m_outputs m2 = m_outputs m1
    /\ m_parts m2 = m_parts m1.
Proof.
  assert (Hwf : wf_mod fresh_ty fresh) by (repeat constructor).
  assert (Hparse : exists v m1, parse Mux_plain fresh = (Return v, m1)).
  { eexists _, _. vm_compute. reflexivity. }
  destruct Hparse as (v & m1 & Hparse).
  assert (Hs : vlexes Mux_plain
                 (chip_tokens Mux_chip ++ [(col "$", EmptyString)])).
  { eexists _, _. split; [vm_compute; reflexivity|].
    let ts := eval vm_compute in
                (chip_tokens Mux_chip ++ [(col "$", EmptyString)]) in
    change (chip_tokens Mux_chip ++ [(col "$", EmptyString)]) with ts.
    repeat (eapply vstream_next;
            [reflexivity|intros E; discriminate E|vm_compute; reflexivity|]).
    apply vstream_end. reflexivity. }
  assert (Hs' : vlexes Mux_hdl
                  (chip_tokens Mux_chip ++ [(col "$", EmptyString)])).
  { eexists _, _. split; [vm_compute; reflexivity|].
    let ts := eval vm_compute in
                (chip_tokens Mux_chip ++ [(col "$", EmptyString)]) in
    change (chip_tokens Mux_chip ++ [(col "$", EmptyString)]) with ts.
    repeat (eapply vstream_next;
            [reflexivity|intros E; discriminate E|vm_compute; reflexivity|]).
    apply vstream_end. reflexivity. }
  destruct (same_layout _ _ _ fresh_ty fresh v m1 Hwf Hs Hs' Hparse)
    as (m2 & H).
  exists v, m1, m2. auto.
Defined.

(** * Texts, tokens and the automaton *)

(** ** The tokenizer, one match at a time *)

Lemma match_first_spec rules str h m :
  match_first rules str = Some (h, m) <-> first_match rules str h m.
Proof.
  split.
  - induction rules as [|[re0 h0] rules IH]; simpl; [discriminate|].
    destruct (re0 str) as [m0|] eqn:E.
    + intros [= <- <-]. exists [], re0, rules. repeat split; auto.
    + intros H. destruct (IH H) as (before & re & after & -> & Hb & Hm).
      exists ((re0, h0) :: before), re, after. repeat split; auto.
  - intros (before & re & after & -> & Hb & Hm).
    induction before as [|[re0 h0] before IH]; simpl.
    + now rewrite Hm.
    + apply Forall_cons_1 in Hb as [H0 Hb]. simpl in H0. rewrite H0. auto.
Qed.

Lemma match_prefix str h m :
  match_first lexRules str = Some (h, m) ->
  m <> EmptyString /\ str = m +++ slice (String.length m) str.
Proof.
  intros H. apply match_first_spec in H.
  destruct (first_match_in _ _ _ _ H) as (re & Hin & Hre).
  pose proof lexRules_sound as Hsound. rewrite List.Forall_forall in Hsound.
  exact (Hsound _ Hin _ _ Hre).
Qed.

Lemma match_bound s o h m :
  o <= String.length s ->
  match_first lexRules (slice o s) = Some (h, m) ->
  o < String.length s /\ o + String.length m <= String.length s.
Proof.
  intros Hle H. destruct (match_prefix _ _ _ H) as [Hne Hpre].
  split; [|now apply prefix_bound].
  destruct (Nat.lt_ge_cases o (String.length s)) as [|Hge]; auto.
  rewrite (slice_all _ _ Hge) in Hpre. destruct m; [congruence|discriminate].
Qed.

(** A match with a token type is returned as a token. *)
Lemma lex_token_at s fuel tk ty m :
  tk_inv s tk -> _cursor tk <= String.length s ->
  match_first lexRules (slice (_cursor tk) s) = Some (Some ty, m) ->
  exists t tk',
    getNextToken (S fuel) tk = LexToken t tk'
    /\ type t = ty /\ value t = m
    /\ tk_inv s tk'
    /\ _cursor tk' = _cursor tk + String.length m
    /\ _cursor tk' <= String.length s.
Proof.
  intros Hinv Hle Hm.
  destruct (match_bound _ _ _ _ Hle Hm) as [Hlt Hb].
  destruct (match_prefix _ _ _ Hm) as [_ Hpre].
  apply match_first_spec in Hm.
  rewrite getNextToken_unfold. unfold hasMoreTokens.
  rewrite (inv_string _ _ Hinv).
  destruct (Nat.leb_spec (_cursor tk) (String.length s)); [|lia].
  cbn [negb]. rewrite (scan_rules_first _ _ tk _ _ lexRules_sound Hm).
  eexists _, _. split; [reflexivity|].
  split; [reflexivity|]. split; [reflexivity|].
  split; [now apply capture_inv|].
  unfold _captureLocation. destruct (scan_newlines _ _ _ _ _).
  simpl. split; [reflexivity|exact Hb].
Qed.

(** A match without one is skipped. *)
Lemma lex_skip_at s fuel tk m :
  tk_inv s tk -> _cursor tk <= String.length s ->
  match_first lexRules (slice (_cursor tk) s) = Some (None, m) ->
  exists tk',
    getNextToken (S fuel) tk = getNextToken fuel tk'
    /\ tk_inv s tk'
    /\ _cursor tk' = _cursor tk + String.length m
    /\ _cursor tk' <= String.length s.
Proof.
  intros Hinv Hle Hm.
  destruct (match_bound _ _ _ _ Hle Hm) as [Hlt Hb].
  destruct (match_prefix _ _ _ Hm) as [_ Hpre].
  apply match_first_spec in Hm.
  rewrite getNextToken_unfold. unfold hasMoreTokens.
  rewrite (inv_string _ _ Hinv).
  destruct (Nat.leb_spec (_cursor tk) (String.length s)); [|lia].
  cbn [negb]. rewrite (scan_rules_first _ _ tk _ _ lexRules_sound Hm).
  eexists. split; [reflexivity|].
  split; [now apply capture_inv|].
  unfold _captureLocation. destruct (scan_newlines _ _ _ _ _).
  simpl. split; [reflexivity|exact Hb].
Qed.

Lemma lex_end_at s fuel tk :
  tk_inv s tk -> _cursor tk = String.length s ->
  exists tk', getNextToken (S fuel) tk = LexToken EOF_TOKEN tk'.
Proof.
  intros Hinv Hc.
  rewrite getNextToken_unfold. unfold hasMoreTokens, isEOF.
  rewrite (inv_string _ _ Hinv), Hc, Nat.leb_refl, Nat.eqb_refl.
  rewrite (slice_all _ _ (Nat.le_refl _)). cbn [negb]. eauto.
Qed.

(** ** The text of a list of tokens is read back *)

(** The type of the tokens of a column. *)
Definition type_of (c : nat) : string :=
  nth (c - 12)
    [ "CHIP"; "IN"; "OUT"; "PARTS"; "ID"; "'{'"; "'}'"; "';'"; "':'"; "','";
      "'('"; "')'"; "'='" ]%string "$"%string.

Lemma valid_first_char ct :
  token_valid ct ->
  exists c r, snd ct = String c r /\ is_space c = false.
Proof.
  destruct ct as [c w]. unfold token_valid. cbn [fst snd].
  do 12 (destruct c as [|c]; [contradiction|]).
  do 4 (destruct c as [|c]; [intros ->; eexists _, _; split; reflexivity|]).
  destruct c as [|c].
  { intros H. unfold ident, word_run in H.
    apply andb_prop in H as [H _]. apply andb_prop in H as [H1 H2].
    destruct w as [|a w]; [discriminate|]. simpl in H2.
    apply andb_prop in H2 as [Ha _].
    exists a, w. split; [reflexivity|]. now apply is_word_not_space. }
  do 8 (destruct c as [|c]; [intros ->; eexists _, _; split; reflexivity|]).
  contradiction.
Qed.

Lemma valid_match tk ct rest :
  token_valid ct ->
  slice (_cursor tk) (_string tk) = snd ct +++ " " +++ rest ->
  match_first lexRules (snd ct +++ " " +++ rest)
  = Some (Some (type_of (fst ct)), snd ct)
  /\ assoc String.eqb (type_of (fst ct)) tokens = Some (fst ct)
  /\ fst ct <> 25.
Proof.
  destruct ct as [c w]. unfold token_valid. cbn [fst snd].
  do 12 (destruct c as [|c]; [contradiction|]).
  do 4 (destruct c as [|c];
        [intros -> _; split; [reflexivity|split; [reflexivity|lia]]|]).
  destruct c as [|c].
  { intros Hid Hsl. split; [|split; [reflexivity|lia]].
    destruct (ident_inv _ Hid) as (Hne & Hw & Hkw).
    assert (Hend : word_end (" " +++ rest))
      by (right; eexists _, _; split; reflexivity).
    pose proof (scan_rules_identifier tk w _ Hsl Hne Hw Hkw Hend) as Hscan.
    apply (scan_rules_some _ _ _ _ _ _ lexRules_sound) in Hscan as [Hfirst _].
    now apply match_first_spec. }
  do 8 (destruct c as [|c];
        [intros -> _; split; [reflexivity|split; [reflexivity|lia]]|]).
  contradiction.
Qed.

Lemma print_first_char ts :
  Forall token_valid ts ->
  print_tokens ts = EmptyString
  \/ exists c r, print_tokens ts = String c r /\ is_space c = false.
Proof.
  intros [|ct ts' Hct _]; [now left|]. right.
  destruct (valid_first_char ct Hct) as (c & r & E & Hc).
  exists c, (r +++ " " +++ print_tokens ts'). simpl. now rewrite E.
Qed.

Lemma space_match rest :
  (rest = EmptyString \/ exists c r, rest = String c r /\ is_space c = false) ->
  match_first lexRules (" " +++ rest) = Some (None, " "%string).
Proof.
  intros [->|(c & r & -> & Hc)]; [reflexivity|].
  cbn [match_first lexRules]. unfold re_line_comment, re_block_comment, re_plus.
  cbn. now rewrite Hc.
Qed.

Lemma print_vstream s ts :
  Forall token_valid ts ->
  forall tk,
    tk_inv s tk -> _cursor tk <= String.length s ->
    slice (_cursor tk) s = print_tokens ts ->
    exists t tk',
      getNextToken (lex_fuel s) tk = LexToken t tk'
      /\ vstream tk' t (ts ++ [(25, EmptyString)]).
Proof.
  induction 1 as [|ct ts Hct Hts IH]; intros tk Hinv Hle Hsl.
  - assert (Hc : _cursor tk = String.length s).
    { pose proof (slice_length (_cursor tk) s) as L. rewrite Hsl in L.
      simpl in L. lia. }
    destruct (lex_end_at s 0 tk Hinv Hc) as (tk' & Hlex).
    exists EOF_TOKEN, tk'. split.
    + apply (getNextToken_enough s 1 tk _ Hinv Hle Hlex). discriminate.
    + apply vstream_end. reflexivity.
  - cbn [print_tokens fold_right] in Hsl.
    pose proof (inv_string _ _ Hinv) as Hs.
    destruct (valid_match tk ct _ Hct ltac:(rewrite Hs; exact Hsl))
      as (Hm & Hcol & Hne).
    rewrite <- Hsl in Hm.
    destruct (lex_token_at s 0 tk _ _ Hinv Hle Hm)
      as (t & tk1 & Hlex & Hty & Hval & Hinv1 & Hc1 & Hle1).
    assert (Hsl1 : slice (_cursor tk1) s = " " +++ print_tokens ts).
    { rewrite Hc1, <- slice_slice, Hsl. apply slice_app. }
    pose proof (space_match _ (print_first_char ts Hts)) as Hsp.
    rewrite <- Hsl1 in Hsp.
    assert (Hskip : forall fuel, exists tk2,
               getNextToken (S fuel) tk1 = getNextToken fuel tk2
               /\ tk_inv s tk2 /\ _cursor tk2 = _cursor tk1 + 1
               /\ _cursor tk2 <= String.length s)
      by (intros fuel; exact (lex_skip_at s fuel tk1 _ Hinv1 Hle1 Hsp)).
    destruct (Hskip (lex_fuel s)) as (tk2 & Hlex2 & Hinv2 & Hc2 & Hle2).
    assert (Hsl2 : slice (_cursor tk2) s = print_tokens ts).
    { rewrite Hc2, <- slice_slice, Hsl1. reflexivity. }
    destruct (IH tk2 Hinv2 Hle2 Hsl2) as (t' & tk' & Hlex' & Hstream).
    rewrite Hlex' in Hlex2.
    exists t, tk1. split.
    + apply (getNextToken_enough s 1 tk _ Hinv Hle Hlex). discriminate.
    + destruct ct as [c w]. cbn [fst snd] in *. subst w.
      cbn [app].
      apply (vstream_next tk1 t c t' tk'); auto.
      * now rewrite Hty.
      * rewrite (inv_string _ _ Hinv1).
        apply (getNextToken_enough s _ tk1 _ Hinv1 Hle1 Hlex2). discriminate.
Qed.

(** The text printed from valid tokens is read as these tokens. *)
Lemma print_vlexes ts :
  Forall token_valid ts ->
  vlexes (print_tokens ts) (ts ++ [(25, EmptyString)]).
Proof.
  intros Hts.
  destruct (print_vstream (print_tokens ts) ts Hts (initString _)
              (initString_inv _) ltac:(simpl; lia) eq_refl)
    as (t & tk & Hlex & Hs).
  exists t, tk. auto.
Qed.

(** ** The text of a chip is read back *)

Lemma name_valid w : name_ok w -> token_valid (name_col w, w).
Proof.
  intros [Hk|Hid]; unfold token_valid, name_col; cbn [fst snd].
  - unfold keyword in Hk.
    destruct (String.eqb_spec w "CHIP"); [assumption|].
    destruct (String.eqb_spec w "IN"); [assumption|].
    destruct (String.eqb_spec w "OUT"); [assumption|].
    destruct (String.eqb_spec w "PARTS"); [assumption|].
    discriminate.
  - pose proof (ident_id_text _ Hid) as Ht. unfold id_text in Ht.
    apply andb_prop in Ht as [_ Ht]. apply negb_true_iff in Ht.
    unfold keyword in Ht.
    destruct (String.eqb w "CHIP"); [discriminate|].
    destruct (String.eqb w "IN"); [discriminate|].
    destruct (String.eqb w "OUT"); [discriminate|].
    destruct (String.eqb w "PARTS"); [discriminate|]. exact Hid.
Qed.

Lemma vyield_name w : vyield (name_tree w) = [(name_col w, w)].
Proof. reflexivity. Qed.

Lemma names_valid first more :
  Forall name_ok (first :: more) ->
  Forall token_valid (vyield (names_tree first more)).
Proof.
  intros H. apply Forall_cons_1 in H as [Hf Hm]. unfold names_tree.
  assert (H0 : Forall token_valid (vyield (VNode 9 [name_tree first]))).
  { cbn [vyield map concat]. rewrite vyield_name.
    constructor; [now apply name_valid|constructor]. }
  revert H0. generalize (VNode 9 [name_tree first]).
  induction Hm as [|w more Hw _ IH]; intros t H0; [exact H0|].
  cbn [fold_left]. apply IH. cbn [vyield map concat]. rewrite vyield_name.
  apply Forall_app. split; [exact H0|].
  constructor; [reflexivity|]. constructor; [now apply name_valid|constructor].
Qed.

Lemma argument_valid a :
  argument_ok a -> Forall token_valid (vyield (argument_tree a)).
Proof.
  intros [H1 H2]. cbn.
  repeat constructor; assumption.
Qed.

Lemma arguments_valid first more :
  Forall argument_ok (first :: more) ->
  Forall token_valid (vyield (arguments_tree first more)).
Proof.
  intros H. apply Forall_cons_1 in H as [Hf Hm]. unfold arguments_tree.
  assert (H0 : Forall token_valid (vyield (VNode 19 [argument_tree first]))).
  { cbn [vyield map concat]. rewrite app_nil_r. now apply argument_valid. }
  revert H0. generalize (VNode 19 [argument_tree first]).
  induction Hm as [|w more Hw _ IH]; intros t H0; [exact H0|].
  cbn [fold_left]. apply IH. cbn [vyield map concat]. rewrite app_nil_r.
  apply Forall_app. split; [exact H0|].
  apply Forall_app. split; [repeat constructor|now apply argument_valid].
Qed.

Lemma part_valid pt :
  part_ok pt -> Forall token_valid (vyield (part_tree pt)).
Proof.
  intros [Hn Ha]. unfold part_tree. cbn [vyield map concat].
  rewrite app_nil_r.
  apply Forall_app. split; [repeat constructor; exact Hn|].
  apply Forall_app. split; [repeat constructor|].
  apply Forall_app. split; [now apply arguments_valid|].
  repeat constructor.
Qed.

Lemma parts_valid first more :
  Forall part_ok (first :: more) ->
  Forall token_valid (vyield (parts_tree first more)).
Proof.
  intros H. apply Forall_cons_1 in H as [Hf Hm]. unfold parts_tree.
  assert (H0 : Forall token_valid (vyield (VNode 16 [part_tree first]))).
  { cbn [vyield map concat]. rewrite app_nil_r. now apply part_valid. }
  revert H0. generalize (VNode 16 [part_tree first]).
  induction Hm as [|w more Hw _ IH]; intros t H0; [exact H0|].
  cbn [fold_left]. apply IH. cbn [vyield map concat]. rewrite app_nil_r.
  apply Forall_app. split; [exact H0|now apply part_valid].
Qed.

Lemma section_valid sec :
  section_ok sec -> Forall token_valid (vyield (section_tree sec)).
Proof.
  destruct sec as [first more|first more|first more]; intros H;
    cbn [section_tree vyield map concat]; rewrite !app_nil_r.
  - apply Forall_app. split; [repeat constructor|].
    apply Forall_app. split; [now apply names_valid|repeat constructor].
  - apply Forall_app. split; [repeat constructor|].
    apply Forall_app. split; [now apply names_valid|repeat constructor].
  - apply Forall_app. split; [repeat constructor|].
    apply Forall_app. split; [repeat constructor|now apply parts_valid].
Qed.

Lemma chip_valid c : chip_ok c -> Forall token_valid (chip_tokens c).
Proof.
  intros (Hn & H1 & H2 & H3). unfold chip_tokens, chip_tree.
  cbn [vyield map concat]. rewrite !app_nil_r.
  apply Forall_app. split; [repeat constructor|].
  rewrite vyield_name.
  apply Forall_app. split; [repeat constructor; now apply name_valid|].
  apply Forall_app. split; [repeat constructor|].
  apply Forall_app. split; [|repeat constructor].
  apply Forall_app. split; [now apply section_valid|].
  apply Forall_app. split; now apply section_valid.
Qed.

(** The text of a chip parses to the chip. *)
Lemma chip_source_value ty m c ins outs pts :
  wf_mod ty m ->
  m_inputs m <> m_outputs m ->
  read 5 (store m) (VArr (m_inputs m)) = Some (AArr ins) ->
  read 5 (store m) (VArr (m_outputs m)) = Some (AArr outs) ->
  read 5 (store m) (VArr (m_parts m)) = Some (AArr pts) ->
  chip_ok c ->
  exists v m',
    parse (chip_source c) m = (Return v, m')
    /\ read 6 (store m') v = Some (chip_ast_over ins outs pts c).
Proof.
  intros Hwf Hne Ri Ro Rp Hok.
  apply (chip_value _ ty m c ins outs pts Hwf Hne Ri Ro Rp).
  apply print_vlexes. now apply chip_valid.
Qed.

(** ** A text that is read to its end *)

(** From offset [o] to its end the text is a sequence of matches. *)
Inductive lexed (s : string) : nat -> Prop :=
| lexed_end : lexed s (String.length s)
| lexed_step o h m :
    match_first lexRules (slice o s) = Some (h, m) ->
    lexed s (o + String.length m) ->
    lexed s o.

Lemma skips_lexed s o o' : skips s o o' -> lexed s o' -> lexed s o.
Proof.
  induction 1 as [o|o m o' Hm _ IH]; intros H; [exact H|].
  apply (lexed_step s o None m); [|now apply IH].
  apply match_first_spec. now apply skip_first_match.
Qed.

Lemma stream_lexed s tk t ts :
  stream tk t ts ->
  forall fuel tk0,
    tk_inv s tk0 -> _cursor tk0 <= String.length s ->
    getNextToken fuel tk0 = LexToken t tk ->
    lexed s (_cursor tk0).
Proof.
  induction 1 as [tk t Ht|tk t c t' tk' ts Ht Hc Hlex _ IH];
    intros fuel tk0 Hinv0 Hle0 Hlex0.
  - pose proof (getNextToken_skips s fuel tk0 Hinv0 Hle0) as H.
    rewrite Hlex0 in H.
    destruct H as [(_ & Hsk & _)|(l & _ & _ & _ & Hfirst & _)].
    + apply (skips_lexed _ _ _ Hsk). constructor.
    + destruct (token_rule _ _ _ Hfirst) as ((c & Hc & Hr & _) & _).
      rewrite Ht in Hc. injection Hc as <-. lia.
  - pose proof (getNextToken_skips s fuel tk0 Hinv0 Hle0) as H.
    rewrite Hlex0 in H.
    destruct (getNextToken_token _ _ _ _ _ Hinv0 Hlex0) as [Hinv _].
    destruct H as [(-> & _)|(l & _ & Hsk & Hcur & Hfirst & Hend & Hb)].
    + vm_compute in Ht. injection Ht as <-. congruence.
    + apply (skips_lexed _ _ _ Hsk).
      apply (lexed_step s _ (Some (type t)) (value t));
        [now apply match_first_spec|].
      rewrite <- Hend, <- Hcur.
      rewrite (inv_string _ _ Hinv) in Hlex.
      apply (IH _ tk Hinv ltac:(lia) Hlex).
Qed.

Lemma lexes_lexed s ts : lexes s ts -> lexed s 0.
Proof.
  intros (t & tk & Hlex & Hs).
  exact (stream_lexed s tk t ts Hs _ (initString s) (initString_inv s)
           ltac:(simpl; lia) Hlex).
Qed.

Lemma reaches_le s o : reaches s o -> o <= String.length s.
Proof.
  induction 1 as [|o h m _ IH Hm]; [lia|].
  now destruct (match_bound _ _ _ _ IH Hm).
Qed.

Lemma reaches_lexed s o : lexed s 0 -> reaches s o -> lexed s o.
Proof.
  intros H0. induction 1 as [|o h m _ IH Hm]; [exact H0|].
  inversion IH as [E|o' h' m' Hm' Hnext E].
  - pose proof (match_bound s o h m) as Hb. rewrite <- E in Hb at 1.
    destruct (Hb ltac:(lia) Hm) as [Hlt _]. lia.
  - rewrite Hm in Hm'. injection Hm' as <- <-. exact Hnext.
Qed.

(** Every offset of a text read to its end lies in one of the matches. *)
Lemma lexed_segment s o : forall a,
  lexed s a -> reaches s a -> a <= o < String.length s ->
  exists a' h m,
    reaches s a' /\ match_first lexRules (slice a' s) = Some (h, m)
    /\ a' <= o < a' + String.length m.
Proof.
  intros a H. induction H as [|a h m Hm _ IH]; intros Ha Ho; [lia|].
  destruct (Nat.lt_ge_cases o (a + String.length m)) as [Hlt|Hge].
  - exists a, h, m. repeat split; auto; lia.
  - apply IH; [|lia]. now apply (reaches_next s a h m).
Qed.

(** What a rule matches is a comment or is made of lexable characters. *)
Lemma match_kind str h m :
  match_first lexRules str = Some (h, m) ->
  (re_line_comment str = Some m \/ re_block_comment str = Some m)
  \/ str_forallb lexable m = true.
Proof.
  intros H. apply match_first_spec in H.
  destruct (first_match_in _ _ _ _ H) as (re & Hin & Hm).
  unfold lexRules in Hin. simpl in Hin.
  destruct Hin as [Hin|[Hin|Hin]].
  - inversion Hin; subst. left. now left.
  - inversion Hin; subst. left. now right.
  - right.
    repeat (destruct Hin as [Hin|Hin];
      [inversion Hin; subst; clear Hin;
       first [ apply re_lit_inv in Hm; subst m; reflexivity
             | unfold re_plus in Hm;
               match type of Hm with
               | context [take_while ?p str] =>
                   pose proof (take_while_forallb p str) as Hall;
                   destruct (take_while p str); [discriminate|];
                   inversion Hm; subst;
                   apply (forallb_weaken p); [|exact Hall];
                   intros c Hc; unfold lexable; rewrite Hc;
                   rewrite ?orb_true_r; reflexivity
               end ] |]).
    destruct Hin.
Qed.

Lemma forallb_at p m : forall k r c rest,
  str_forallb p m = true -> k < String.length m ->
  slice k (m +++ r) = String c rest -> p c = true.
Proof.
  induction m as [|a m IH]; intros k r c rest Hall Hk Hsl; simpl in Hk; [lia|].
  simpl in Hall. apply andb_prop in Hall as [Ha Hall].
  destruct k as [|k]; simpl in Hsl.
  - now injection Hsl as <- _.
  - apply (IH k r c rest Hall ltac:(lia) Hsl).
Qed.

(** In a text that is read to its end, an opening bracket stands in a
    comment. *)
Lemma lexed_bracket s o rest :
  lexed s 0 -> slice o s = String "[" rest -> in_comment s o.
Proof.
  intros H0 Hsl.
  assert (Ho : o < String.length s).
  { destruct (Nat.lt_ge_cases o (String.length s)) as [|Hge]; auto.
    rewrite (slice_all _ _ Hge) in Hsl. discriminate. }
  destruct (lexed_segment s o 0 H0 (reaches_start s) ltac:(lia))
    as (a & h & m & Ha & Hm & Hin).
  destruct (match_kind _ _ _ Hm) as [Hc|Hlex].
  - exists a, m. auto.
  - exfalso. destruct (match_prefix _ _ _ Hm) as [_ Hpre].
    assert (E : slice o s = slice (o - a) (m +++ slice (String.length m) (slice a s))).
    { rewrite <- Hpre, slice_slice. f_equal. lia. }
    rewrite Hsl in E. symmetry in E.
    pose proof (forallb_at lexable m (o - a) _ _ _ Hlex ltac:(lia) E) as Hb.
    discriminate Hb.
Qed.

(** Every opening bracket of a text that [parse] accepts is in a
    comment. *)
Lemma accepted_brackets s ty m v o rest :
  wf_mod ty m -> fst (parse s m) = Return v ->
  slice o s = String "[" rest -> in_comment s o.
Proof.
  intros Hwf Hret Hsl.
  destruct (parse_sound s ty m v Hwf Hret) as (w & _ & Hlex).
  exact (lexed_bracket s o rest (lexes_lexed _ _ Hlex) Hsl).
Qed.

(** A text with an opening bracket where the tokenizer looks for a match
    is rejected. *)
Lemma reached_bracket s ty m o rest :
  wf_mod ty m -> reaches s o -> slice o s = String "[" rest ->
  exists msg, fst (parse s m) = Throw (SyntaxError msg).
Proof.
  intros Hwf Hr Hsl.
  destruct (parse_outcomes s ty m Hwf)
    as [[v Hv]|[Heoi|(o' & sym & line & col & src & _ & _ & _ & _ & Hmsg)]];
    [|eauto|eauto].
  exfalso.
  destruct (parse_sound s ty m v Hwf Hv) as (w & _ & Hlex).
  pose proof (reaches_lexed s o (lexes_lexed _ _ Hlex) Hr) as Hl.
  inversion Hl as [E|o0 h m0 Hm _ E].
  - rewrite <- E, (slice_all _ _ (Nat.le_refl _)) in Hsl. discriminate.
  - rewrite Hsl in Hm. discriminate Hm.
Qed.

(** ** The automaton of the table *)

(** The stack of the parser as its states, the top first; the empty list
    stands for the stack that holds the state 0 alone. *)
Definition states (stack : list frame) : list nat := map snd stack.

Definition top (sigma : list nat) : nat := hd 0 sigma.

(** One reduction with the token [c] ahead. *)
Definition areduce (sigma : list nat) (c : nat) : option (list nat) :=
  match table_lookup (top sigma) c with
  | Some (Reduce p) =>
      match lhs p, nth_error rhs p with
      | Some A, Some r =>
          if length r <=? length sigma
          then match table_lookup (top (skipn (length r) sigma)) A with
               | Some (Goto t) => Some (t :: skipn (length r) sigma)
               | _ => None
               end
          else None
      | _, _ => None
      end
  | _ => None
  end.

(** Reductions with the token [c] ahead. *)
Inductive areds (c : nat) : list nat -> list nat -> Prop :=
| areds_refl sigma : areds c sigma sigma
| areds_step sigma sigma1 sigma2 :
    areduce sigma c = Some sigma1 -> areds c sigma1 sigma2 ->
    areds c sigma sigma2.

(** From the stack [sigma] the tokens [u] are shifted one after the
    other, each after the reductions it calls for. *)
Inductive ashifts : list nat -> list nat -> list nat -> Prop :=
| ashifts_nil sigma : ashifts sigma [] sigma
| ashifts_cons sigma c u sigma1 n sigma2 :
    areds c sigma sigma1 ->
    table_lookup (top sigma1) c = Some (Shift n) ->
    ashifts (n :: sigma1) u sigma2 ->
    ashifts sigma (c :: u) sigma2.

(** The tokens [u] are shifted and, with [c] ahead, the reductions lead
    to the stack [sigma2]. *)
Definition aruns (sigma : list nat) (u : list nat) (c : nat)
  (sigma2 : list nat) : Prop :=
  exists sigma1, ashifts sigma u sigma1 /\ areds c sigma1 sigma2.

Lemma top_states stack : top (states stack) = top_state stack.
Proof. destruct stack as [|[e q] stack]; reflexivity. Qed.

Lemma aruns_reduce sigma sigma' u c sigma2 :
  areduce sigma (hd c u) = Some sigma' ->
  aruns sigma' u c sigma2 -> aruns sigma u c sigma2.
Proof.
  intros Hred (sigma1 & Hsh & Hreds).
  inversion Hsh as [|? a u' s1 n s2 Ha Hlook Hrest]; subst; simpl in Hred.
  - exists sigma. split; [constructor|]. now apply (areds_step c sigma sigma1).
  - exists sigma1. split; [|exact Hreds].
    apply (ashifts_cons sigma a u' s1 n); auto.
    now apply (areds_step a sigma sigma').
Qed.

Lemma aruns_shift sigma a n u c sigma2 :
  table_lookup (top sigma) a = Some (Shift n) ->
  aruns (n :: sigma) u c sigma2 -> aruns sigma (a :: u) c sigma2.
Proof.
  intros Hlook (sigma1 & Hsh & Hreds). exists sigma1. split; [|exact Hreds].
  apply (ashifts_cons sigma a u sigma n); auto. constructor.
Qed.

Lemma aruns_here sigma c : aruns sigma [] c sigma.
Proof. exists sigma. split; constructor. Qed.

(** ** The parser and the automaton *)

(** What [parse] does with the tokens [ts] of a text that ends as [e]
    says, from the stack [sigma] on: it returns a value, or it throws at
    the end of the input, at one of the tokens, or in the tokenizer. *)
Definition verdict (s : string) (sigma : list nat) (ts : list token)
  (e : ending) (o : outcome) : Prop :=
  (e = AtEnd
   /\ (exists sigma2, aruns sigma (columns ts) 25 sigma2
                      /\ table_lookup (top sigma2) 25 = Some Accept)
   /\ exists v, o = Return v)
  \/ (e = AtEnd
      /\ (exists sigma2, aruns sigma (columns ts) 25 sigma2
                         /\ table_lookup (top sigma2) 25 = None)
      /\ o = Throw unexpectedEndOfInput)
  \/ (exists pre t post l sigma2,
        ts = pre ++ t :: post
        /\ aruns sigma (columns pre) (col (type t)) sigma2
        /\ table_lookup (top sigma2) (col (type t)) = None
        /\ token_at s t l
        /\ o = Throw (SyntaxError
                        (unexpected_token_message s (value t)
                           (startLine l) (startColumn l))))
  \/ (exists ex pre t sigma2 n,
        e = BadChar ex /\ ts = pre ++ [t]
        /\ aruns sigma (columns pre) (col (type t)) sigma2
        /\ table_lookup (top sigma2) (col (type t)) = Some (Shift n)
        /\ o = Throw ex).

Lemma columns_app a b : columns (a ++ b) = columns a ++ columns b.
Proof. apply map_app. Qed.

Lemma hd_app {A : Type} (d c : A) u v : hd d (u ++ c :: v) = hd c u.
Proof. destruct u; reflexivity. Qed.

(** A first step of the automaton is put before a verdict. *)
Lemma verdict_reduce s sigma sigma' ts e o :
  areduce sigma (hd 25 (columns ts)) = Some sigma' ->
  verdict s sigma' ts e o -> verdict s sigma ts e o.
Proof.
  intros Hred [(He & (s2 & Hrun & Hacc) & Hv)
              |[(He & (s2 & Hrun & Hnone) & Ho)
              |[(pre & t & post & l & s2 & Hts & Hrun & Hnone & Hat & Ho)
              |(ex & pre & t & s2 & n & He & Hts & Hrun & Hsh & Ho)]]].
  - left. split; [exact He|]. split; [|exact Hv].
    exists s2. split; [|exact Hacc]. now apply (aruns_reduce sigma sigma').
  - right. left. split; [exact He|]. split; [|exact Ho].
    exists s2. split; [|exact Hnone]. now apply (aruns_reduce sigma sigma').
  - right. right. left. exists pre, t, post, l, s2.
    repeat (split; [auto|]); auto. apply (aruns_reduce sigma sigma'); auto.
    rewrite Hts, columns_app in Hred. cbn [columns map] in Hred.
    now rewrite hd_app in Hred.
  - right. right. right. exists ex, pre, t, s2, n.
    repeat (split; [auto|]); auto. apply (aruns_reduce sigma sigma'); auto.
    rewrite Hts, columns_app in Hred. cbn [columns map] in Hred.
    now rewrite hd_app in Hred.
Qed.

Lemma verdict_shift s sigma n t ts e o :
  table_lookup (top sigma) (col (type t)) = Some (Shift n) ->
  verdict s (n :: sigma) ts e o -> verdict s sigma (t :: ts) e o.
Proof.
  intros Hlook [(He & (s2 & Hrun & Hacc) & Hv)
               |[(He & (s2 & Hrun & Hnone) & Ho)
               |[(pre & t0 & post & l & s2 & Hts & Hrun & Hnone & Hat & Ho)
               |(ex & pre & t0 & s2 & n0 & He & Hts & Hrun & Hsh & Ho)]]].
  - left. split; [exact He|]. split; [|exact Hv].
    exists s2. split; [|exact Hacc]. now apply (aruns_shift sigma _ n).
  - right. left. split; [exact He|]. split; [|exact Ho].
    exists s2. split; [|exact Hnone]. now apply (aruns_shift sigma _ n).
  - right. right. left. exists (t :: pre), t0, post, l, s2.
    split; [now rewrite Hts|].
    split; [now apply (aruns_shift sigma _ n)|]. auto.
  - right. right. right. exists ex, (t :: pre), t0, s2, n0.
    split; [exact He|]. split; [now rewrite Hts|].
    split; [now apply (aruns_shift sigma _ n)|]. auto.
Qed.

Lemma pop_frames_states : forall n stack es stack',
  pop_frames n stack = Some (es, stack') ->
  states stack' = skipn n (states stack) /\ n <= length (states stack).
Proof.
  induction n as [|n IH]; intros stack es stack' H; simpl in H.
  - injection H as _ <-. split; [reflexivity|lia].
  - destruct stack as [|[e q] stack]; [discriminate|].
    destruct (pop_frames n stack) as [[es0 rest]|] eqn:E; [|discriminate].
    injection H as _ <-. destruct (IH _ _ _ E) as [H1 H2].
    simpl. split; [exact H1|lia].
Qed.

Lemma parse_step_lookup s ty st c :
  Inv s ty st ->
  assoc String.eqb (type (p_token st)) tokens = Some c ->
  parse_step st
  = match table_lookup (top_state (p_stack st)) c with
    | None =>
        Finish (Throw (unexpectedToken (p_tokenizer st) (p_token st))) (p_mod st)
    | Some (Shift n) => do_shift c n st
    | Some (Reduce p) => do_reduce p st
    | Some Accept => do_accept st
    | Some (Goto _) => Continue st
    end.
Proof.
  intros [_ _ _ Hst] Hcol. pose proof (valid_top_lt _ _ _ Hst) as Hlt.
  unfold parse_step, table_lookup.
  destruct (nth_error table (top_state (p_stack st))) as [row|] eqn:Erow.
  - now rewrite Hcol.
  - apply nth_error_None in Erow. lia.
Qed.

Lemma scan_column tk t ts e :
  scan tk t ts e ->
  exists c,
    assoc String.eqb (type t) tokens = Some c
    /\ c = col (type t)
    /\ hd 25 (columns ts) = c
    /\ (c = 25 <-> ts = []).
Proof.
  intros H. inversion H as [? ? Hc|? ? c ex Hc Hne _|? ? c t' tk' ts' e' Hc Hne _ _];
    subst.
  - exists 25. unfold col. rewrite Hc. repeat split; auto.
  - exists c. unfold col. cbn [columns map hd]. unfold col. rewrite Hc.
    repeat split; auto; try congruence.
  - exists c. unfold col. cbn [columns map hd]. unfold col. rewrite Hc.
    repeat split; auto; try congruence.
Qed.

Lemma token_message s tk t l :
  tk_inv s tk -> token_at s t l ->
  unexpectedToken tk t
  = SyntaxError (unexpected_token_message s (value t)
                   (startLine l) (startColumn l)).
Proof.
  intros Hinv Hat.
  destruct (token_at_error s tk t l (inv_string _ _ Hinv) Hat) as [-> _].
  unfold throwUnexpectedToken. now rewrite (inv_string _ _ Hinv).
Qed.

(** [parse] follows the automaton. *)
Lemma sim s : forall fuel ty st ts e,
  Inv s ty st -> measure s st < fuel ->
  scan (p_tokenizer st) (p_token st) ts e ->
  verdict s (states (p_stack st)) ts e (fst (parse_loop fuel st)).
Proof.
  induction fuel as [|fuel IH]; intros ty st ts e HI Hfuel Hscan; [lia|].
  pose proof HI as [Htk Htok Hm Hst].
  destruct (scan_column _ _ _ _ Hscan) as (c & Hcol & Hc & Hhd & Hnil).
  pose proof (parse_step_ok s ty st HI) as Hok.
  pose proof (parse_step_lookup s ty st c HI Hcol) as Hstep.
  cbn [parse_loop].
  destruct (table_lookup (top_state (p_stack st)) c) as [[n|n|p|]|] eqn:Elook.
  - (* a number: never under a token *)
    destruct (goto_facts _ _ _ Elook) as (Hlt & _).
    destruct (token_column _ _ _ _ Htok Hcol) as [(-> & _)|(? & _)]; lia.
  - (* shift *)
    destruct (shift_facts _ _ _ Elook) as (Hrange & _).
    rewrite Hstep in Hok |- *. unfold do_shift in Hok |- *.
    inversion Hscan as [? ? Hc25|? ? c' ex Hc' Hne Hlex|? ? c' t' tk' ts' e' Hc' Hne Hlex Hrest].
    + rewrite Hcol in Hc25. injection Hc25 as Hc25. lia.
    + subst. rewrite Hlex. cbn [fst].
      right. right. right. exists ex, [], (p_token st), (states (p_stack st)), n.
      split; [reflexivity|]. split; [reflexivity|].
      split; [apply aruns_here|]. split; [|reflexivity].
      now rewrite top_states.
    + rewrite Hlex in Hok |- *. cbn [step_ok] in Hok.
      destruct Hok as ((ty' & HI') & Hlt & Hne' & _).
      unfold loop_condition. cbn [p_stack]. rewrite orb_true_r.
      specialize (IH _ _ ts' e HI' ltac:(lia) Hrest).
      cbn [p_stack] in IH.
      subst. apply (verdict_shift s _ n); [now rewrite top_states|exact IH].
  - (* reduce *)
    destruct (reduce_turn s ty st _ p HI Hcol Elook)
      as (A & r & es & stack' & t' & st' & e0 & Hlhs & Hrhs & Hpop & Hgoto
          & Hcont & Hstack' & Etk & Etok).
    rewrite Hcont in Hok |- *. cbn [step_ok] in Hok.
    destruct Hok as ((ty' & HI') & Hlt & Hne' & _).
    unfold loop_condition. rewrite Hstack', orb_true_r.
    rewrite <- Etk, <- Etok in Hscan.
    specialize (IH _ _ ts e HI' ltac:(lia) Hscan).
    rewrite Hstack' in IH.
    destruct (pop_frames_states _ _ _ _ Hpop) as [Hskip Hlen].
    apply (verdict_reduce s _ (states ((e0, t') :: stack'))); [|exact IH].
    unfold areduce. rewrite Hhd, top_states, Elook, Hlhs, Hrhs.
    destruct (Nat.leb_spec (length r) (length (states (p_stack st)))); [|lia].
    rewrite <- Hskip, top_states, Hgoto. reflexivity.
  - (* accept *)
    destruct (accept_facts _ _ Elook) as [Htop ->].
    assert (Hts : ts = []) by now apply Hnil.
    assert (He : e = AtEnd) by (inversion Hscan; subst; congruence).
    subst ts e.
    assert (Hstack : exists e0, p_stack st = [(e0, 30)]).
    { destruct Hst as [|e0 t X stack Hst' _ Hin _]; [discriminate|].
      simpl in Htop. subst t. rewrite preds_30 in Hin.
      destruct Hin as [Hin|[]]. symmetry in Hin.
      rewrite (valid_top_0 _ _ _ Hst' Hin). eauto. }
    destruct Hstack as [e0 Hstack].
    destruct (accept_step s ty st e0 HI ltac:(now apply stream_end) Hstack)
      as (v & ->).
    cbn [fst]. left. split; [reflexivity|]. split; [|eauto].
    exists (states (p_stack st)). split; [apply aruns_here|].
    now rewrite top_states.
  - (* no entry *)
    rewrite Hstep. cbn [fst].
    destruct (token_column _ _ _ _ Htok Hcol)
      as [(-> & Et & _)|(Hrange & _ & l & Hat & _)].
    + assert (Hts : ts = []) by now apply Hnil.
      assert (He : e = AtEnd) by (inversion Hscan; subst; congruence).
      subst ts e. rewrite Et.
      right. left. split; [reflexivity|]. split; [|reflexivity].
      exists (states (p_stack st)). split; [apply aruns_here|].
      now rewrite top_states.
    + rewrite (token_message s _ _ l Htk Hat).
      assert (Hts : exists ts', ts = p_token st :: ts').
      { inversion Hscan; subst; eauto.
        match goal with H : assoc _ _ _ = Some 25 |- _ =>
          rewrite Hcol in H; injection H as H; lia end. }
      destruct Hts as [ts' ->].
      right. right. left.
      exists [], (p_token st), ts', l, (states (p_stack st)).
      split; [reflexivity|]. split; [apply aruns_here|].
      split; [now rewrite <- Hc, top_states|]. split; [exact Hat|reflexivity].
Qed.

(** [parse] on a text and its tokens. *)
Lemma parse_verdict s ty m ts e :
  wf_mod ty m -> scans s ts e ->
  (exists ex, ts = [] /\ e = BadChar ex
              /\ getNextToken (lex_fuel s) (initString s) = LexThrow ex
              /\ fst (parse s m) = Throw ex)
  \/ verdict s [] ts e (fst (parse s m)).
Proof.
  intros Hwf Hscans. unfold scans in Hscans. unfold parse.
  destruct (getNextToken (lex_fuel s) (initString s)) as [t tk|ex|] eqn:Hlex;
    [|left|destruct Hscans].
  - right. destruct (initial_Inv s ty m t tk Hwf Hlex) as [HI Hm].
    exact (sim s (parse_fuel s) ty _ ts e HI Hm Hscans).
  - destruct Hscans as [-> ->]. exists ex. auto.
Qed.

(** ** The automaton is deterministic *)

Lemma areduce_shift sigma c n :
  table_lookup (top sigma) c = Some (Shift n) -> areduce sigma c = None.
Proof. unfold areduce. now intros ->. Qed.

Lemma areduce_accept sigma c :
  table_lookup (top sigma) c = Some Accept -> areduce sigma c = None.
Proof. unfold areduce. now intros ->. Qed.

Lemma areduce_none sigma c :
  table_lookup (top sigma) c = None -> areduce sigma c = None.
Proof. unfold areduce. now intros ->. Qed.

(** The reductions with a token ahead end in one stack. *)
Lemma areds_end c sigma sigma1 :
  areds c sigma sigma1 -> areduce sigma1 c = None ->
  forall sigma2, areds c sigma sigma2 -> areduce sigma2 c = None ->
  sigma1 = sigma2.
Proof.
  induction 1 as [sigma|sigma s1 s2 Hred _ IH]; intros Hend sigma2 H2 Hend2.
  - inversion H2 as [|? s1' ? Hred' _]; subst; [reflexivity|congruence].
  - inversion H2 as [|? s1' ? Hred' Hrest]; subst; [congruence|].
    rewrite Hred in Hred'. injection Hred' as <-. now apply IH.
Qed.

Lemma ashifts_fun sigma u sigma1 :
  ashifts sigma u sigma1 -> forall sigma2, ashifts sigma u sigma2 ->
  sigma1 = sigma2.
Proof.
  induction 1 as [sigma|sigma c u s1 n s2 Hreds Hlook _ IH]; intros sigma2 H2.
  - now inversion H2.
  - inversion H2 as [|? ? ? s1' n' ? Hreds' Hlook' Hrest]; subst.
    pose proof (areds_end c sigma s1 Hreds (areduce_shift _ _ _ Hlook)
                  s1' Hreds' (areduce_shift _ _ _ Hlook')) as <-.
    rewrite Hlook in Hlook'. injection Hlook' as <-. now apply IH.
Qed.

Lemma ashifts_app sigma u v sigma2 :
  ashifts sigma (u ++ v) sigma2
  <-> exists sigma1, ashifts sigma u sigma1 /\ ashifts sigma1 v sigma2.
Proof.
  revert sigma. induction u as [|c u IH]; intros sigma; simpl.
  - split.
    + intros H. exists sigma. split; [constructor|exact H].
    + intros (s1 & H1 & H2). inversion H1; subst. exact H2.
  - split.
    + intros H. inversion H as [|? ? ? s1 n ? Hreds Hlook Hrest]; subst.
      apply IH in Hrest as (s & Hu & Hv). exists s. split; [|exact Hv].
      now apply (ashifts_cons sigma c u s1 n).
    + intros (s & Hu & Hv).
      inversion Hu as [|? ? ? s1 n ? Hreds Hlook Hrest]; subst.
      apply (ashifts_cons sigma c (u ++ v) s1 n); auto.
      apply IH. eauto.
Qed.

Lemma ashifts_last sigma u c sigma1 sigma2 n :
  ashifts sigma u sigma1 -> areds c sigma1 sigma2 ->
  table_lookup (top sigma2) c = Some (Shift n) ->
  ashifts sigma (u ++ [c]) (n :: sigma2).
Proof.
  intros Hu Hreds Hlook. apply ashifts_app. exists sigma1. split; [exact Hu|].
  apply (ashifts_cons sigma1 c [] sigma2 n); auto. constructor.
Qed.

(** A token that is shifted is not refused. *)
Lemma shift_not_none sigma u c v sigma1 sigma2 :
  ashifts sigma (u ++ c :: v) sigma1 ->
  aruns sigma u c sigma2 -> table_lookup (top sigma2) c = None -> False.
Proof.
  intros Hall (s1 & Hu & Hreds) Hlook.
  apply ashifts_app in Hall as (s1' & Hu' & Hv).
  rewrite (ashifts_fun _ _ _ Hu' _ Hu) in Hv.
  inversion Hv as [|? ? ? s2 n ? Hreds' Hlook' _]; subst.
  pose proof (areds_end c s1 s2 Hreds' (areduce_shift _ _ _ Hlook')
                sigma2 Hreds (areduce_none _ _ Hlook)) as <-.
  congruence.
Qed.

Lemma accept_not_none sigma u sigma1 sigma2 :
  aruns sigma u 25 sigma1 -> table_lookup (top sigma1) 25 = Some Accept ->
  aruns sigma u 25 sigma2 -> table_lookup (top sigma2) 25 = None -> False.
Proof.
  intros (s1 & Hu & Hreds) Hacc (s2 & Hu' & Hreds') Hnone.
  rewrite (ashifts_fun _ _ _ Hu' _ Hu) in Hreds'.
  pose proof (areds_end 25 s1 sigma1 Hreds (areduce_accept _ _ Hacc)
                sigma2 Hreds' (areduce_none _ _ Hnone)) as <-.
  congruence.
Qed.

Lemma ashifts_columns sigma u sigma1 :
  ashifts sigma u sigma1 -> Forall (fun c => 12 <= c <= 24) u.
Proof.
  induction 1 as [|sigma c u s1 n s2 _ Hlook _ IH]; constructor; auto.
  apply (shift_facts _ _ _ Hlook).
Qed.

(** ** The tokens of a text *)

Lemma scan_fun tk t ts e :
  scan tk t ts e -> forall ts' e', scan tk t ts' e' -> ts = ts' /\ e = e'.
Proof.
  induction 1 as [tk t Ht|tk t c ex Ht Hc Hlex|tk t c t' tk' ts e Ht Hc Hlex _ IH];
    intros ts2 e2 H2; inversion H2; subst; try congruence; auto.
  - split; congruence.
  - match goal with
    | H : getNextToken _ tk = LexToken ?a ?b |- _ =>
        rewrite Hlex in H; injection H as <- <-
    end.
    match goal with
    | H : scan tk' t' _ _ |- _ => destruct (IH _ _ H) as [-> ->]
    end.
    auto.
Qed.

Lemma scans_fun s ts e ts' e' :
  scans s ts e -> scans s ts' e' -> ts = ts' /\ e = e'.
Proof.
  unfold scans.
  destruct (getNextToken (lex_fuel s) (initString s)) as [t tk|ex|].
  - intros H1 H2. eapply scan_fun; eauto.
  - intros [-> ->] [-> ->]. auto.
  - intros [].
Qed.

Lemma token_has_column s tk t :
  tok_inv s tk t -> exists c, assoc String.eqb (type t) tokens = Some c.
Proof.
  intros [[-> _]|(l & Hat & _)].
  - exists 25. reflexivity.
  - destruct (token_rule _ _ _ (ta_rule _ _ _ Hat)) as ((c & Hc & _) & _).
    eauto.
Qed.

(** Every text is read to its end or to a character no rule matches. *)
Lemma scan_total s : forall k tk t,
  String.length s + 1 - _cursor tk < k ->
  tk_inv s tk -> tok_inv s tk t -> exists ts e, scan tk t ts e.
Proof.
  induction k as [|k IH]; intros tk t Hk Hinv Htok; [lia|].
  destruct (token_has_column s tk t Htok) as [c Hc].
  destruct (token_column _ _ _ _ Htok Hc) as [(-> & _)|(Hrange & _ & l & _ & Hle)].
  - exists [], AtEnd. now constructor.
  - pose proof (getNextToken_spec s (lex_fuel s) tk Hinv Hle) as Hspec.
    unfold lex_fuel in Hspec. specialize (Hspec ltac:(lia)).
    pose proof (inv_string _ _ Hinv) as Hstr.
    destruct (getNextToken (String.length s + 2) tk) as [t' tk'|ex|] eqn:Hlex;
      [|exists [t], (BadChar ex)|destruct Hspec].
    + destruct Hspec as (Hinv' & Hlt & Htok').
      destruct (IH tk' t' ltac:(lia) Hinv' Htok') as (ts & e & Hscan).
      exists (t :: ts), e. apply (scan_next tk t c t' tk'); auto; [lia|].
      now rewrite Hstr.
    + apply (scan_bad tk t c); auto; [lia|]. now rewrite Hstr.
Qed.

Lemma scans_total s : exists ts e, scans s ts e.
Proof.
  unfold scans.
  pose proof (getNextToken_spec s (lex_fuel s) _ (initString_inv s)) as Hspec.
  simpl in Hspec. unfold lex_fuel in *. specialize (Hspec ltac:(lia) ltac:(lia)).
  destruct (getNextToken (String.length s + 2) (initString s)) as [t tk|ex|].
  - destruct Hspec as (Hinv & _ & Htok).
    apply (scan_total s (S (String.length s + 1 - _cursor tk))); auto.
  - eauto.
  - destruct Hspec.
Qed.

(** The tokens with their columns and texts. *)
Definition texts (ts : list token) : list (nat * string) :=
  map (fun t => (col (type t), value t)) ts.

Lemma texts_columns ts : map fst (texts ts) = columns ts.
Proof. unfold texts, columns. rewrite map_map. reflexivity. Qed.

Lemma vstream_scan tk t l :
  vstream tk t l ->
  exists ts v, scan tk t ts AtEnd /\ l = texts ts ++ [(25, v)].
Proof.
  induction 1 as [tk t Ht|tk t c t' tk' l Ht Hc Hlex _ (ts & v & Hscan & ->)].
  - exists [], (value t). split; [now constructor|reflexivity].
  - exists (t :: ts), v. split; [now apply (scan_next tk t c t' tk')|].
    simpl. unfold col. now rewrite Ht.
Qed.

Lemma scan_stream tk t ts :
  scan tk t ts AtEnd -> stream tk t (columns ts ++ [25]).
Proof.
  remember AtEnd as e eqn:He.
  induction 1 as [tk t Ht|tk t c ex Ht Hc Hlex|tk t c t' tk' ts e Ht Hc Hlex _ IH];
    [|discriminate|].
  - now constructor.
  - simpl. unfold col at 1. rewrite Ht.
    apply (stream_next tk t c t' tk'); auto.
Qed.

Lemma stream_fun tk t w1 :
  stream tk t w1 -> forall w2, stream tk t w2 -> w1 = w2.
Proof.
  induction 1 as [tk t Ht|tk t c t' tk' ts Ht Hc Hlex _ IH];
    intros w2 H2; inversion H2; subst; try congruence.
  match goal with
  | H : getNextToken _ tk = LexToken ?a ?b |- _ =>
      rewrite Hlex in H; injection H as <- <-
  end.
  f_equal; [congruence|]. now apply IH.
Qed.

Lemma lexes_fun s w1 w2 : lexes s w1 -> lexes s w2 -> w1 = w2.
Proof.
  intros (t1 & tk1 & H1 & S1) (t2 & tk2 & H2 & S2).
  rewrite H1 in H2. injection H2 as <- <-. eapply stream_fun; eauto.
Qed.

Lemma scans_lexes s ts : scans s ts AtEnd -> lexes s (columns ts ++ [25]).
Proof.
  unfold scans, lexes.
  destruct (getNextToken (lex_fuel s) (initString s)) as [t tk|ex|].
  - intros H. exists t, tk. split; [reflexivity|now apply scan_stream].
  - intros [_ H]. discriminate H.
  - intros [].
Qed.

Lemma vlexes_scans s l :
  vlexes s l -> exists ts v, scans s ts AtEnd /\ l = texts ts ++ [(25, v)].
Proof.
  intros (t & tk & Hlex & Hs). unfold scans. rewrite Hlex.
  now apply vstream_scan.
Qed.

(** ** A text for every list of tokens *)

(** A text for the token of column [c]. *)
Definition sample (c : nat) : nat * string :=
  (c, match c with
      | 12 => "CHIP" | 13 => "IN" | 14 => "OUT" | 15 => "PARTS" | 16 => "x"
      | 17 => "{" | 18 => "}" | 19 => ";" | 20 => ":" | 21 => ","
      | 22 => "(" | 23 => ")" | _ => "="
      end)%string.

Definition print_columns (w : list nat) : string :=
  print_tokens (map sample w).

Lemma sample_valid c : 12 <= c <= 24 -> token_valid (sample c).
Proof.
  intros [H1 H2]. do 12 (destruct c as [|c]; [lia|]).
  do 13 (destruct c as [|c]; [reflexivity|]). lia.
Qed.

Lemma print_columns_scans w :
  Forall (fun c => 12 <= c <= 24) w ->
  exists ts, scans (print_columns w) ts AtEnd /\ columns ts = w.
Proof.
  intros Hw.
  assert (Hval : Forall token_valid (map sample w)).
  { apply List.Forall_map. revert Hw. apply List.Forall_impl.
    intros c. apply sample_valid. }
  destruct (vlexes_scans _ _ (print_vlexes _ Hval)) as (ts & v & Hscans & E).
  exists ts. split; [exact Hscans|].
  apply app_inj_tail in E as [E _].
  rewrite <- texts_columns, <- E, map_map. simpl. apply map_id.
Qed.

Lemma yield_columns t :
  wf_tree t = true -> Forall (fun c => 12 <= c <= 24) (yield t).
Proof.
  induction t as [c|p children IH] using tree_induction; intros Hwf.
  - cbn [wf_tree] in Hwf. apply andb_prop in Hwf as [H1 H2].
    apply Nat.leb_le in H1, H2. cbn [yield]. constructor; [lia|constructor].
  - destruct (wf_node _ _ Hwf) as (_ & _ & Hall). cbn [yield].
    clear Hwf. induction children as [|t children IHc]; simpl; [constructor|].
    simpl in Hall. apply andb_prop in Hall as [Ht Hall].
    apply Forall_cons_1 in IH as [IHt IH].
    apply Forall_app. split; auto.
Qed.

(** ** The automaton and the grammar *)

(** The tokens of a chip are shifted and accepted. *)
Lemma derives_accepted w :
  derives Chip_sym w ->
  exists sigma, aruns [] w 25 sigma
                /\ table_lookup (top sigma) 25 = Some Accept.
Proof.
  intros Hd. pose proof Hd as (t & Hwf & _ & Hy).
  pose proof (yield_columns t Hwf) as Hcols. rewrite Hy in Hcols.
  destruct (print_columns_scans w Hcols) as (ts & Hscans & Hts).
  pose proof (scans_lexes _ _ Hscans) as Hlex. rewrite Hts in Hlex.
  destruct (parse_accepts (print_columns w) _ fresh w fresh_wf Hd Hlex)
    as [v Hv].
  destruct (parse_verdict _ _ fresh ts AtEnd fresh_wf Hscans)
    as [(ex & _ & He & _)|Hverdict]; [discriminate He|].
  rewrite Hv in Hverdict.
  destruct Hverdict as [(_ & H & _)
              |[(_ & _ & Ho)
              |[(pre & t0 & post & l & s2 & _ & _ & _ & _ & Ho)
              |(ex & pre & t0 & s2 & n & He & _)]]];
    [now rewrite Hts in H|discriminate Ho|discriminate Ho|discriminate He].
Qed.

(** Tokens that are shifted and accepted are those of a chip. *)
Lemma accepted_derives w sigma :
  aruns [] w 25 sigma -> table_lookup (top sigma) 25 = Some Accept ->
  derives Chip_sym w.
Proof.
  intros Hrun Hacc. pose proof Hrun as (s1 & Hsh & _).
  destruct (print_columns_scans w (ashifts_columns _ _ _ Hsh))
    as (ts & Hscans & Hts).
  destruct (parse_verdict _ _ fresh ts AtEnd fresh_wf Hscans)
    as [(ex & _ & He & _)|Hverdict]; [discriminate He|].
  destruct Hverdict as [(_ & _ & v & Hv)
              |[(_ & (s2 & Hrun2 & Hnone) & _)
              |[(pre & t0 & post & l & s2 & E & Hrun2 & Hnone & _)
              |(ex & pre & t0 & s2 & n & He & _)]]].
  - destruct (parse_sound _ _ fresh v fresh_wf Hv) as (w0 & Hd & Hlex).
    pose proof (lexes_fun _ _ _ Hlex (scans_lexes _ _ Hscans)) as E.
    apply app_inj_tail in E as [E _]. now rewrite E, Hts in Hd.
  - exfalso. rewrite Hts in Hrun2.
    exact (accept_not_none _ _ _ _ Hrun Hacc Hrun2 Hnone).
  - exfalso. rewrite <- Hts, E, columns_app in Hsh.
    exact (shift_not_none _ _ _ _ _ _ Hsh Hrun2 Hnone).
  - discriminate He.
Qed.

(** The beginning of the tokens of a chip is shifted. *)
Lemma begins_shifted w : begins w -> exists sigma, ashifts [] w sigma.
Proof.
  intros (w' & Hd).
  destruct (derives_accepted _ Hd) as (s2 & (s1 & Hsh & _) & _).
  apply ashifts_app in Hsh as (s & Hw & _). eauto.
Qed.

(** ** The stacks of the automaton *)

(** The states entered from the state [q], by a token or by a symbol. *)
Definition succs (q : nat) : list nat :=
  match nth_error table q with
  | Some row =>
      flat_map (fun ce : nat * entry =>
                  match snd ce with
                  | Shift n | Goto n => [n]
                  | _ => []
                  end) row
  | None => []
  end.

(** A stack the automaton can build: each state is entered from the one
    below it, the lowest from the state 0. *)
Inductive is_path : list nat -> Prop :=
| is_path_nil : is_path []
| is_path_cons n sigma :
    is_path sigma -> In n (succs (top sigma)) -> is_path (n :: sigma).

(** The stacks of [n] states. *)
Fixpoint paths (n : nat) : list (list nat) :=
  match n with
  | 0 => [[]]
  | S k =>
      flat_map (fun sigma => map (fun q => q :: sigma) (succs (top sigma)))
        (paths k)
  end.

(** The reductions with [c] ahead, as far as they go. *)
Fixpoint areds_fn (fuel : nat) (sigma : list nat) (c : nat) : list nat :=
  match fuel with
  | 0 => sigma
  | S k =>
      match areduce sigma c with
      | Some sigma' => areds_fn k sigma' c
      | None => sigma
      end
  end.

(** The tokens [u] are shifted from the stack [sigma]. *)
Fixpoint feed (sigma : list nat) (u : list nat) : option (list nat) :=
  match u with
  | [] => Some sigma
  | c :: u' =>
      match table_lookup (top (areds_fn 16 sigma c)) c with
      | Some (Shift n) => feed (n :: areds_fn 16 sigma c) u'
      | _ => None
      end
  end.

(** The tokens [u] are shifted from the stack [sigma], and the end of the
    input is accepted after them. *)
Definition closes (sigma : list nat) (u : list nat) : bool :=
  match feed sigma u with
  | Some sigma1 =>
      match table_lookup (top (areds_fn 16 sigma1 25)) 25 with
      | Some Accept => true
      | _ => false
      end
  | None => false
  end.

Definition shifted (sigma : list nat) (c : nat) : bool :=
  match table_lookup (top (areds_fn 16 sigma c)) c with
  | Some (Shift _) => true
  | _ => false
  end.

(** Tokens that lead from the stack [sigma] to the end of a chip: at each
    step the first of a fixed list of tokens that is shifted. *)
Fixpoint closers (fuel : nat) (sigma : list nat) : list nat :=
  match fuel with
  | 0 => []
  | S k =>
      match table_lookup (top (areds_fn 16 sigma 25)) 25 with
      | Some Accept => []
      | _ =>
          match find (shifted sigma) [18; 19; 23; 17; 20; 22; 24; 13; 16; 12] with
          | Some c =>
              match table_lookup (top (areds_fn 16 sigma c)) c with
              | Some (Shift n) => c :: closers k (n :: areds_fn 16 sigma c)
              | _ => []
              end
          | None => []
          end
      end
  end.

Lemma lookup_succs q c e n :
  table_lookup q c = Some e -> e = Shift n \/ e = Goto n -> In n (succs q).
Proof.
  unfold table_lookup, succs. destruct (nth_error table q) as [row|]; [|discriminate].
  intros H He. apply assoc_in in H. apply in_flat_map. exists (c, e).
  split; [exact H|]. destruct He as [-> | ->]; simpl; auto.
Qed.

Lemma is_path_skipn n : forall sigma, is_path sigma -> is_path (skipn n sigma).
Proof.
  induction n as [|n IH]; intros sigma H; [exact H|].
  destruct H as [|q sigma H _]; simpl; [constructor|]. now apply IH.
Qed.

Lemma areduce_path sigma c sigma' :
  is_path sigma -> areduce sigma c = Some sigma' -> is_path sigma'.
Proof.
  intros Hp. unfold areduce.
  destruct (table_lookup (top sigma) c) as [[t|n|p|]|]; try discriminate.
  destruct (lhs p) as [A|]; [|discriminate].
  destruct (nth_error rhs p) as [r|]; [|discriminate].
  destruct (length r <=? length sigma); [|discriminate].
  destruct (table_lookup (top (skipn (length r) sigma)) A) as [[t|n|p'|]|] eqn:E;
    try discriminate.
  intros H. injection H as <-. constructor; [now apply is_path_skipn|].
  apply (lookup_succs _ _ _ _ E). auto.
Qed.

Lemma areds_path c sigma sigma' :
  areds c sigma sigma' -> is_path sigma -> is_path sigma'.
Proof.
  induction 1 as [|sigma s1 s2 Hred _ IH]; auto.
  intros Hp. apply IH. eapply areduce_path; eauto.
Qed.

Lemma ashifts_path sigma u sigma' :
  ashifts sigma u sigma' -> is_path sigma -> is_path sigma'.
Proof.
  induction 1 as [|sigma c u s1 n s2 Hreds Hlook _ IH]; auto.
  intros Hp. apply IH. constructor; [eapply areds_path; eauto|].
  apply (lookup_succs _ _ _ _ Hlook). auto.
Qed.

Lemma is_path_in sigma : is_path sigma -> In sigma (paths (length sigma)).
Proof.
  induction 1 as [|n sigma _ IH Hn]; simpl; [auto|].
  apply in_flat_map. exists sigma. split; [exact IH|].
  apply in_map_iff. exists n. auto.
Qed.

(** The automaton has no cycle: no stack has 16 states. *)
Lemma paths_16 : paths 16 = [].
Proof. vm_compute. reflexivity. Qed.

Lemma path_short sigma : is_path sigma -> length sigma < 16.
Proof.
  intros Hp. destruct (Nat.lt_ge_cases (length sigma) 16) as [|Hge]; auto.
  pose proof (is_path_in _ (is_path_skipn (length sigma - 16) _ Hp)) as Hin.
  rewrite length_skipn in Hin.
  replace (length sigma - (length sigma - 16)) with 16 in Hin by lia.
  rewrite paths_16 in Hin. destruct Hin.
Qed.

Lemma areds_fn_spec c : forall fuel sigma, areds c sigma (areds_fn fuel sigma c).
Proof.
  induction fuel as [|fuel IH]; intros sigma; simpl; [constructor|].
  destruct (areduce sigma c) as [s1|] eqn:E; [|constructor].
  apply (areds_step c sigma s1); auto.
Qed.

Lemma feed_spec u : forall sigma sigma',
  feed sigma u = Some sigma' -> ashifts sigma u sigma'.
Proof.
  induction u as [|c u IH]; intros sigma sigma' H; cbn [feed] in H.
  - injection H as <-. constructor.
  - destruct (table_lookup (top (areds_fn 16 sigma c)) c) as [[t|n|p|]|] eqn:E;
      try discriminate.
    apply (ashifts_cons sigma c u (areds_fn 16 sigma c) n); auto.
    apply areds_fn_spec.
Qed.

Lemma closes_spec sigma u :
  closes sigma u = true ->
  exists sigma2, aruns sigma u 25 sigma2
                 /\ table_lookup (top sigma2) 25 = Some Accept.
Proof.
  unfold closes. destruct (feed sigma u) as [s1|] eqn:E; [|discriminate].
  destruct (table_lookup (top (areds_fn 16 s1 25)) 25) as [[t|n|p|]|] eqn:Ea;
    try discriminate.
  intros _. exists (areds_fn 16 s1 25). split; [|exact Ea].
  exists s1. split; [now apply feed_spec|apply areds_fn_spec].
Qed.

(** Every stack of the automaton is closed by its [closers]. *)
Lemma paths_close :
  forallb (fun sigma => closes sigma (closers 16 sigma))
    (concat (map paths (seq 0 16))) = true.
Proof. vm_compute. reflexivity. Qed.

(** From every stack of the automaton some tokens lead to the end of a
    chip. *)
Lemma stack_closed sigma :
  is_path sigma ->
  exists u sigma2, aruns sigma u 25 sigma2
                   /\ table_lookup (top sigma2) 25 = Some Accept.
Proof.
  intros Hp. exists (closers 16 sigma). apply closes_spec.
  pose proof paths_close as H. rewrite forallb_forall in H. apply H.
  apply in_concat. exists (paths (length sigma)). split; [|now apply is_path_in].
  apply in_map, in_seq. pose proof (path_short _ Hp). lia.
Qed.

(** Tokens that are shifted are the beginning of the tokens of a chip. *)
Lemma shifted_begins w sigma : ashifts [] w sigma -> begins w.
Proof.
  intros Hsh.
  destruct (stack_closed sigma (ashifts_path _ _ _ Hsh is_path_nil))
    as (u & s2 & (s1 & Hu & Hreds) & Hacc).
  exists u. apply (accepted_derives _ s2); [|exact Hacc].
  exists s1. split; [|exact Hreds]. apply ashifts_app. eauto.
Qed.

Lemma begins_nil : begins [].
Proof. apply (shifted_begins [] []). constructor. Qed.

(** ** Which text fails where *)

(** What stops the parse of a text whose tokens are [ts] and whose
    reading ends as [e] says: the text [sym] at offset [o]. It is the
    first token with which the tokens read so far are no longer the
    beginning of the tokens of a chip; or, when all the tokens are such a
    beginning, the character that no rule matches. *)
Definition offending (s : string) (ts : list token) (e : ending)
  (o : nat) (sym : string) : Prop :=
  (exists pre t post l,
      ts = pre ++ t :: post
      /\ begins (columns pre) /\ ~ begins (columns (pre ++ [t]))
      /\ tloc t = Some l /\ reaches s (startOffset l)
      /\ o = startOffset l /\ sym = value t)
  \/ (exists ex c rest,
        e = BadChar ex /\ begins (columns ts)
        /\ reaches s o /\ slice o s = String c rest
        /\ match_first lexRules (slice o s) = None
        /\ sym = String c EmptyString).

(** The outcome [r] is the syntax error for the text [sym] at offset [o]:
    [sym] stands there, and the message shows the line of [o], a caret
    under its column, [sym] and [line:column]. *)
Definition located (s : string) (o : nat) (sym : string) (r : outcome)
  : Prop :=
  exists line col src,
    str_take (String.length sym) (slice o s) = sym
    /\ position s o line col
    /\ line_source s line = Some src
    /\ r = Throw (SyntaxError (located_message src sym line col)).

Lemma skips_reaches s a b : skips s a b -> reaches s a -> reaches s b.
Proof.
  induction 1 as [o|o m o' Hm _ IH]; intros H; [exact H|].
  apply IH. apply (reaches_next s o None m); [exact H|].
  apply match_first_spec. now apply skip_first_match.
Qed.

Lemma match_first_none rules str :
  Forall (fun r : lex_rule => fst r str = None) rules ->
  match_first rules str = None.
Proof.
  induction 1 as [|[re h] rules Hre _ IH]; simpl; [reflexivity|].
  simpl in Hre. now rewrite Hre.
Qed.

(** The message of an error at offset [o], with the line and the column
    of [o]. *)
Lemma located_form s o sym c rest line col :
  slice o s = String c rest -> is_space c = false ->
  position s o line col ->
  exists src,
    line_source s line = Some src
    /\ unexpected_token_message s sym line col
       = located_message src sym line col.
Proof.
  intros Hsl Hsp (before & here & Htake & _ & Hhere & -> & _).
  assert (Hc : c <> LF) by (intros ->; rewrite space_LF in Hsp; discriminate).
  destruct (line_source_at s o c rest Hsl Hc) as (src & Hnth & Hne).
  rewrite Htake, count_lf_app, Hhere, Nat.add_0_r in Hnth.
  exists src. split; [exact Hnth|].
  unfold unexpected_token_message, located_message.
  unfold line_source. rewrite Hnth.
  destruct src; [congruence|]. rewrite !app_assoc'. reflexivity.
Qed.

Lemma token_located s t l :
  token_at s t l ->
  located s (startOffset l) (value t)
    (Throw (SyntaxError (unexpected_token_message s (value t)
                           (startLine l) (startColumn l)))).
Proof.
  intros Hat.
  destruct (token_at_position s t l Hat) as (Hpos & _ & _ & Htext).
  destruct (token_rule _ _ _ (ta_rule _ _ _ Hat)) as (_ & _ & c & v' & Hv & Hc).
  assert (Hsl : slice (startOffset l) s
                = String c (v' +++ slice (String.length (value t))
                                     (slice (startOffset l) s))).
  { destruct (first_match_in _ _ _ _ (ta_rule _ _ _ Hat)) as (re & Hin & Hm).
    pose proof lexRules_sound as Hsound. rewrite List.Forall_forall in Hsound.
    destruct (Hsound _ Hin _ _ Hm) as [_ Hpre]. simpl in Hpre.
    rewrite Hpre at 1. rewrite Hv. reflexivity. }
  destruct (located_form s _ (value t) c _ _ _ Hsl Hc Hpos) as (src & Hsrc & E).
  exists (startLine l), (startColumn l), src. rewrite E. auto.
Qed.

Lemma lex_error_located s o e :
  o < String.length s -> lex_error_at s o e ->
  exists c rest,
    slice o s = String c rest
    /\ match_first lexRules (slice o s) = None
    /\ located s o (String c EmptyString) (Throw e).
Proof.
  intros Ho (c & rest & bol & line & Hsl & Hnone & Hpos & ->).
  exists c, rest. split; [exact Hsl|].
  split; [rewrite Hsl; now apply match_first_none|].
  assert (Hsp : is_space c = false).
  { unfold lexRules in Hnone.
    inversion Hnone as [|? ? _ H1]; subst. inversion H1 as [|? ? _ H2]; subst.
    inversion H2 as [|? ? H3 _]; subst. simpl in H3.
    unfold re_plus in H3. simpl in H3. destruct (is_space c); congruence. }
  pose proof (pos_of_position s o line bol ltac:(lia) Hpos) as Hposn.
  destruct (located_form s o (String c EmptyString) c rest _ _ Hsl Hsp Hposn)
    as (src & Hsrc & E).
  exists line, (o - bol), src. rewrite E, Hsl. auto.
Qed.

(** The tokens of a text stand at offsets the tokenizer comes to, and so
    does the character at which the reading stops. *)
Lemma scan_reached s tk t ts e :
  scan tk t ts e ->
  tk_inv s tk -> tok_inv s tk t ->
  (_cursor tk <= String.length s -> reaches s (_cursor tk)) ->
  (forall l, tloc t = Some l -> reaches s (startOffset l)) ->
  Forall (fun t0 => exists l, token_at s t0 l /\ reaches s (startOffset l)) ts
  /\ forall ex, e = BadChar ex ->
       exists o, reaches s o /\ o < String.length s /\ lex_error_at s o ex.
Proof.
  induction 1 as [tk t Ht|tk t c ex Ht Hc Hlex|tk t c t' tk' ts e Ht Hc Hlex _ IH];
    intros Hinv Htok Hcur Hstart.
  - split; [constructor|discriminate].
  - destruct (token_column _ _ _ _ Htok Ht) as [(-> & _)|(_ & _ & l & Hat & Hle)];
      [congruence|].
    split.
    + constructor; [|constructor]. exists l. split; [exact Hat|].
      apply Hstart, (ta_loc _ _ _ Hat).
    + intros ex' [= <-].
      pose proof (getNextToken_skips s (lex_fuel (_string tk)) tk Hinv Hle) as Hsk.
      rewrite Hlex in Hsk. destruct Hsk as (o & Hsk & Ho & Herr).
      exists o. split; [|auto]. apply (skips_reaches s _ _ Hsk). auto.
  - destruct (token_column _ _ _ _ Htok Ht) as [(-> & _)|(_ & _ & l & Hat & Hle)];
      [congruence|].
    pose proof (getNextToken_spec s (lex_fuel (_string tk)) tk Hinv Hle) as Hspec.
    rewrite (inv_string _ _ Hinv) in Hspec at 1. unfold lex_fuel in Hspec at 1.
    specialize (Hspec ltac:(lia)). rewrite Hlex in Hspec.
    destruct Hspec as (Hinv' & _ & Htok').
    pose proof (getNextToken_skips s (lex_fuel (_string tk)) tk Hinv Hle) as Hsk.
    rewrite Hlex in Hsk.
    assert (Hnext : (_cursor tk' <= String.length s -> reaches s (_cursor tk'))
                    /\ forall l', tloc t' = Some l' -> reaches s (startOffset l')).
    { destruct Hsk as [(-> & _ & Hc')|(l' & Hl' & Hsk & Hc' & Hfirst & Hend & _)].
      - split; [lia|discriminate].
      - pose proof (skips_reaches s _ _ Hsk (Hcur Hle)) as Hr.
        split.
        + intros _. rewrite Hc', Hend.
          apply (reaches_next s _ (Some (type t')) (value t')); [exact Hr|].
          now apply match_first_spec.
        + intros l2 Hl2. rewrite Hl' in Hl2. now injection Hl2 as <-. }
    destruct Hnext as [Hcur' Hstart'].
    destruct (IH Hinv' Htok' Hcur' Hstart') as [Hall Hbad].
    split; [|exact Hbad].
    constructor; [|exact Hall]. exists l. split; [exact Hat|].
    apply Hstart, (ta_loc _ _ _ Hat).
Qed.

Lemma scans_reached s ts e :
  scans s ts e ->
  Forall (fun t0 => exists l, token_at s t0 l /\ reaches s (startOffset l)) ts
  /\ forall ex, e = BadChar ex ->
       exists o, reaches s o /\ o < String.length s /\ lex_error_at s o ex.
Proof.
  unfold scans.
  pose proof (getNextToken_spec s (lex_fuel s) _ (initString_inv s)) as Hspec.
  simpl in Hspec. unfold lex_fuel in Hspec at 1.
  specialize (Hspec ltac:(lia) ltac:(lia)).
  pose proof (getNextToken_skips s (lex_fuel s) _ (initString_inv s)
                ltac:(simpl; lia)) as Hsk.
  destruct (getNextToken (lex_fuel s) (initString s)) as [t tk|ex|];
    [|intros [-> ->]|intros []].
  - destruct Hspec as (Hinv & _ & Htok). intros Hscan.
    apply (scan_reached s tk t ts e Hscan Hinv Htok).
    + destruct Hsk as [(-> & _ & Hc')|(l' & Hl' & Hsk & Hc' & Hfirst & Hend & _)];
        [lia|].
      intros _. rewrite Hc', Hend.
      apply (reaches_next s _ (Some (type t)) (value t)).
      * apply (skips_reaches s _ _ Hsk). constructor.
      * now apply match_first_spec.
    + destruct Hsk as [(-> & _)|(l' & Hl' & Hsk & _)]; [discriminate|].
      intros l2 Hl2. rewrite Hl' in Hl2. injection Hl2 as <-.
      apply (skips_reaches s _ _ Hsk). constructor.
  - split; [constructor|]. intros ex' [= <-].
    destruct Hsk as (o & Hsk & Ho & Herr). exists o. split; [|auto].
    apply (skips_reaches s _ _ Hsk). constructor.
Qed.

(** What [parse] does with a text, by its tokens: it returns a value for
    the tokens of a chip; it throws "Unexpected end of input." for a
    proper beginning of the tokens of a chip; otherwise it throws the
    located error for the first token that cannot follow those before it,
    or for the first character the tokenizer cannot read. *)
Lemma parse_classified s ty m :
  wf_mod ty m ->
  exists ts e,
    scans s ts e
    /\ ((e = AtEnd /\ derives Chip_sym (columns ts)
         /\ exists v, fst (parse s m) = Return v)
        \/ (e = AtEnd /\ begins (columns ts)
            /\ ~ derives Chip_sym (columns ts)
            /\ fst (parse s m)
               = Throw (SyntaxError "Unexpected end of input."))
        \/ (exists o sym,
              offending s ts e o sym /\ located s o sym (fst (parse s m)))).
Proof.
  intros Hwf. destruct (scans_total s) as (ts & e & Hscans).
  exists ts, e. split; [exact Hscans|].
  destruct (scans_reached s ts e Hscans) as [Htoks Hbad].
  destruct (parse_verdict s ty m ts e Hwf Hscans)
    as [(ex & -> & -> & _ & Hthrow)
       |[(He & (s2 & Hrun & Hacc) & Hv)
        |[(He & (s2 & Hrun & Hnone) & Ho)
         |[(pre & t & post & l & s2 & Hts & Hrun & Hnone & Hat & Ho)
          |(ex & pre & t & s2 & n & He & Hts & Hrun & Hshift & Ho)]]]].
  - (* the first character cannot be read *)
    right. right. destruct (Hbad ex eq_refl) as (o & Hr & Hlt & Herr).
    destruct (lex_error_located s o ex Hlt Herr) as (c & rest & Hsl & Hm & Hloc).
    exists o, (String c EmptyString). rewrite Hthrow. split; [|exact Hloc].
    right. exists ex, c, rest. repeat split; auto. apply begins_nil.
  - left. split; [exact He|]. split; [|exact Hv].
    exact (accepted_derives _ _ Hrun Hacc).
  - right. left. split; [exact He|].
    destruct Hrun as (s1 & Hsh & Hreds).
    split; [exact (shifted_begins _ _ Hsh)|]. split; [|exact Ho].
    intros Hd. destruct (derives_accepted _ Hd) as (s3 & Hrun3 & Hacc).
    apply (accept_not_none _ _ _ _ Hrun3 Hacc (ex_intro _ s1 (conj Hsh Hreds)) Hnone).
  - right. right. exists (startOffset l), (value t).
    split; [|rewrite Ho; now apply token_located].
    left. exists pre, t, post, l.
    split; [exact Hts|]. pose proof Hrun as (s1 & Hsh & Hreds).
    split; [exact (shifted_begins _ _ Hsh)|].
    split.
    { intros Hb. destruct (begins_shifted _ Hb) as [s3 Hsh3].
      rewrite columns_app in Hsh3. cbn [columns map] in Hsh3.
      exact (shift_not_none _ _ _ _ _ _ Hsh3 Hrun Hnone). }
    split; [exact (ta_loc _ _ _ Hat)|]. split; [|auto].
    rewrite Hts in Htoks. apply Forall_app in Htoks as [_ Htoks].
    apply Forall_cons_1 in Htoks as [(l' & Hat' & Hr) _].
    pose proof (ta_loc _ _ _ Hat) as E. rewrite (ta_loc _ _ _ Hat') in E.
    injection E as <-. exact Hr.
  - right. right. destruct (Hbad ex He) as (o & Hr & Hlt & Herr).
    destruct (lex_error_located s o ex Hlt Herr) as (c & rest & Hsl & Hm & Hloc).
    exists o, (String c EmptyString). rewrite Ho. split; [|exact Hloc].
    right. exists ex, c, rest. repeat split; auto.
    destruct Hrun as (s1 & Hsh & Hreds).
    rewrite Hts, columns_app. cbn [columns map].
    exact (shifted_begins _ _ (ashifts_last _ _ _ _ _ _ Hsh Hreds Hshift)).
Qed.

(** ** The tokens of a chip, one after the other *)

Definition names_tokens (first : string) (more : list string)
  : list (nat * string) :=
  (name_col first, first)
    :: flat_map (fun w => [(21, ","%string); (name_col w, w)]) more.

Definition argument_tokens (a : string * string) : list (nat * string) :=
  [(16, fst a); (24, "="%string); (16, snd a)].

Definition arguments_tokens (first : string * string)
  (more : list (string * string)) : list (nat * string) :=
  argument_tokens first
    ++ flat_map (fun a => (21, ","%string) :: argument_tokens a) more.

Definition part_tokens (pt : part) : list (nat * string) :=
  (16, part_name pt) :: (22, "("%string)
    :: arguments_tokens (first_argument pt) (more_arguments pt)
    ++ [(23, ")"%string); (19, ";"%string)].

Definition section_tokens (sec : section) : list (nat * string) :=
  match sec with
  | In_section first more =>
      (13, "IN"%string) :: names_tokens first more ++ [(19, ";"%string)]
  | Out_section first more =>
      (14, "OUT"%string) :: names_tokens first more ++ [(19, ";"%string)]
  | Parts_section first more =>
      (15, "PARTS"%string) :: (20, ":"%string)
        :: flat_map part_tokens (first :: more)
  end.

Lemma vyield_fold {A : Type} (f : A -> list (nat * string))
  (g : vtree -> A -> vtree) :
  (forall t a, vyield (g t a) = vyield t ++ f a) ->
  forall more t, vyield (fold_left g more t) = vyield t ++ flat_map f more.
Proof.
  intros Hg. induction more as [|a more IH]; intros t; simpl.
  - now rewrite app_nil_r.
  - now rewrite IH, Hg, <- app_assoc.
Qed.

Lemma names_tokens_eq first more :
  vyield (names_tree first more) = names_tokens first more.
Proof.
  unfold names_tree, names_tokens.
  rewrite (vyield_fold (fun w => [(21, ","%string); (name_col w, w)])).
  - reflexivity.
  - intros t a. cbn [vyield map concat]. rewrite vyield_name, app_nil_r.
    reflexivity.
Qed.

Lemma arguments_tokens_eq first more :
  vyield (arguments_tree first more) = arguments_tokens first more.
Proof.
  unfold arguments_tree, arguments_tokens.
  rewrite (vyield_fold (fun a => (21, ","%string) :: argument_tokens a)).
  - reflexivity.
  - intros t a. cbn [vyield map concat]. rewrite app_nil_r. reflexivity.
Qed.

Lemma part_tokens_eq pt : vyield (part_tree pt) = part_tokens pt.
Proof.
  unfold part_tree, part_tokens. cbn [vyield map concat].
  rewrite arguments_tokens_eq, app_nil_r. reflexivity.
Qed.

Lemma parts_tokens_eq first more :
  vyield (parts_tree first more) = flat_map part_tokens (first :: more).
Proof.
  unfold parts_tree. rewrite (vyield_fold part_tokens).
  - cbn [vyield map concat flat_map]. now rewrite part_tokens_eq, app_nil_r.
  - intros t a. cbn [vyield map concat]. now rewrite part_tokens_eq, app_nil_r.
Qed.

Lemma section_tokens_eq sec : vyield (section_tree sec) = section_tokens sec.
Proof.
  destruct sec as [first more|first more|first more];
    cbn [section_tree vyield map concat section_tokens]; rewrite !app_nil_r.
  - now rewrite names_tokens_eq.
  - now rewrite names_tokens_eq.
  - now rewrite parts_tokens_eq.
Qed.

(** The tokens of a chip: CHIP, the name, and the three sections in
    braces. *)
Lemma chip_tokens_eq c :
  chip_tokens c
  = (12, "CHIP"%string) :: (name_col (chip_name c), chip_name c)
      :: (17, "{"%string)
      :: section_tokens (section1 c) ++ section_tokens (section2 c)
      ++ section_tokens (section3 c) ++ [(18, "}"%string)].
Proof.
  unfold chip_tokens, chip_tree. cbn [vyield map concat].
  rewrite !section_tokens_eq, vyield_name, !app_nil_r.
  cbn [app]. now rewrite <- !app_assoc.
Qed.

(** ** The chips of the accepted texts *)

Lemma name_text_ok w : text_ok (name_col w) w -> name_ok w.
Proof.
  unfold name_col, name_ok, keyword.
  destruct (String.eqb w "CHIP"); [auto|].
  destruct (String.eqb w "IN"); [auto|].
  destruct (String.eqb w "OUT"); [auto|].
  destruct (String.eqb w "PARTS"); [auto|].
  cbn [text_ok]. auto.
Qed.

Definition texts_good (l : list (nat * string)) : Prop :=
  Forall (fun ct : nat * string => text_ok (fst ct) (snd ct)) l.

Lemma names_good first more :
  texts_good (names_tokens first more) -> Forall name_ok (first :: more).
Proof.
  unfold texts_good, names_tokens. intros H.
  apply Forall_cons_1 in H as [Hf H]. constructor; [now apply name_text_ok|].
  induction more as [|w more IH]; [constructor|].
  cbn [flat_map app] in H.
  apply Forall_cons_1 in H as [_ H]. apply Forall_cons_1 in H as [Hw H].
  constructor; [now apply name_text_ok|auto].
Qed.

Lemma argument_good a : texts_good (argument_tokens a) -> argument_ok a.
Proof.
  unfold texts_good, argument_tokens. intros H.
  apply Forall_cons_1 in H as [H1 H]. apply Forall_cons_1 in H as [_ H].
  apply Forall_cons_1 in H as [H2 _]. split; assumption.
Qed.

Lemma arguments_good first more :
  texts_good (arguments_tokens first more) ->
  Forall argument_ok (first :: more).
Proof.
  unfold arguments_tokens. intros H. apply Forall_app in H as [Hf H].
  constructor; [now apply argument_good|].
  induction more as [|a more IH]; [constructor|].
  cbn [flat_map] in H. apply Forall_cons_1 in H as [_ H].
  apply Forall_app in H as [Ha H].
  constructor; [now apply argument_good|auto].
Qed.

Lemma part_good pt : texts_good (part_tokens pt) -> part_ok pt.
Proof.
  unfold part_tokens. intros H.
  apply Forall_cons_1 in H as [Hn H]. apply Forall_cons_1 in H as [_ H].
  apply Forall_app in H as [Ha _]. split; [exact Hn|now apply arguments_good].
Qed.

Lemma parts_good l : texts_good (flat_map part_tokens l) -> Forall part_ok l.
Proof.
  induction l as [|pt l IH]; intros H; [constructor|].
  cbn [flat_map] in H. apply Forall_app in H as [Hp H].
  constructor; [now apply part_good|auto].
Qed.

Lemma section_good sec : texts_good (section_tokens sec) -> section_ok sec.
Proof.
  destruct sec as [first more|first more|first more]; cbn [section_tokens section_ok];
    intros H; apply Forall_cons_1 in H as [_ H].
  - apply Forall_app in H as [H _]. now apply names_good.
  - apply Forall_app in H as [H _]. now apply names_good.
  - apply Forall_cons_1 in H as [_ H]. now apply parts_good.
Qed.

Lemma chip_good c : texts_good (chip_tokens c) -> chip_ok c.
Proof.
  rewrite chip_tokens_eq. intros H.
  apply Forall_cons_1 in H as [_ H]. apply Forall_cons_1 in H as [Hn H].
  apply Forall_cons_1 in H as [_ H].
  apply Forall_app in H as [H1 H]. apply Forall_app in H as [H2 H].
  apply Forall_app in H as [H3 _].
  split; [now apply name_text_ok|].
  split; [now apply section_good|]. split; now apply section_good.
Qed.

(** The tokens of a text have the texts of their columns. *)
Lemma scans_good s ts e : scans s ts e -> texts_good (texts ts).
Proof.
  intros H. destruct (scans_reached s ts e H) as [Hall _].
  unfold texts_good, texts. apply List.Forall_map.
  revert Hall. apply List.Forall_impl. intros t (l & Hat & _).
  destruct (token_rule _ _ _ (ta_rule _ _ _ Hat)) as ((c & Hc & _ & Hok) & _).
  cbn [fst snd]. unfold col. now rewrite Hc.
Qed.

(** The chip of an accepted text is named as [chip_ok] says. *)
Lemma vlexes_chip_ok s c :
  vlexes s (chip_tokens c ++ [(25, EmptyString)]) -> chip_ok c.
Proof.
  intros H. destruct (vlexes_scans _ _ H) as (ts & v & Hscans & E).
  apply app_inj_tail in E as [E _]. apply chip_good. rewrite E.
  exact (scans_good _ _ _ Hscans).
Qed.

(** The value of every parse, with the chip that was read. *)
Lemma parse_value_ok s ty m v m' ins outs pts :
  wf_mod ty m ->
  m_inputs m <> m_outputs m ->
  read 5 (store m) (VArr (m_inputs m)) = Some (AArr ins) ->
  read 5 (store m) (VArr (m_outputs m)) = Some (AArr outs) ->
  read 5 (store m) (VArr (m_parts m)) = Some (AArr pts) ->
  parse s m = (Return v, m') ->
  exists c,
    chip_ok c
    /\ vlexes s (chip_tokens c ++ [(25, EmptyString)])
    /\ read 6 (store m') v = Some (chip_ast_over ins outs pts c).
Proof.
  intros Hwf Hne Ri Ro Rp Hparse.
  destruct (accepted_chip s ty m v Hwf) as (c & Hlex);
    [now rewrite Hparse|].
  exists c. split; [exact (vlexes_chip_ok s c Hlex)|]. split; [exact Hlex|].
  destruct (chip_value s ty m c ins outs pts Hwf Hne Ri Ro Rp Hlex)
    as (v2 & m2 & Hparse2 & Hread).
  rewrite Hparse in Hparse2. now injection Hparse2 as -> ->.
Qed.

(** ** Keywords where the grammar asks for an identifier *)

(** What the table has for ['('], ['='] and [':']: on the columns of
    ['('] and ['='] no reduction, and a shift only in a state entered on
    an [ID]; and in a state entered on [':'], ['('] or ['='], no token
    but an [ID]. *)
Definition check_id_places (s c : nat) (e : entry) : bool :=
  match e with
  | Reduce _ => negb ((c =? 22) || (c =? 24))
  | Shift _ =>
      if (c =? 22) || (c =? 24)
      then match nth_error acc_sym s with Some X => X =? 16 | None => false end
      else true
  | _ => true
  end
  && match nth_error acc_sym s with
     | Some X =>
         if (X =? 20) || (X =? 22) || (X =? 24)
         then (c <? 12) || (c =? 16)
         else true
     | None => true
     end.

Lemma check_id_places_ok : table_forall check_id_places = true.
Proof. vm_compute. reflexivity. Qed.

Lemma areds_stay c sigma sigma' :
  c = 22 \/ c = 24 -> areds c sigma sigma' -> sigma' = sigma.
Proof.
  intros Hc H. destruct H as [|sigma s1 s2 Hred _]; [reflexivity|].
  exfalso. unfold areduce in Hred.
  destruct (table_lookup (top sigma) c) as [[t|n|p|]|] eqn:E; try discriminate.
  pose proof (table_forall_spec _ check_id_places_ok _ _ _ E) as H.
  unfold check_id_places in H. apply andb_prop in H as [H _].
  destruct Hc as [-> | ->]; discriminate H.
Qed.

(** After a keyword neither ['('] nor ['='] is shifted. *)
Lemma keyword_then_mark sigma k c rest sigma' :
  12 <= k <= 15 -> c = 22 \/ c = 24 ->
  ashifts sigma (k :: c :: rest) sigma' -> False.
Proof.
  intros Hk Hc H.
  inversion H as [|? ? ? s1 n ? _ Hlook Hrest]; subst.
  inversion Hrest as [|? ? ? s2 n2 ? Hreds Hlook2 _]; subst.
  rewrite (areds_stay c _ _ Hc Hreds) in Hlook2. cbn [top hd] in Hlook2.
  destruct (shift_facts _ _ _ Hlook) as (_ & Hacc & _).
  pose proof (table_forall_spec _ check_id_places_ok _ _ _ Hlook2) as Hchk.
  unfold check_id_places in Hchk. apply andb_prop in Hchk as [Hchk _].
  rewrite Hacc in Hchk.
  assert (Hm : (c =? 22) || (c =? 24) = true)
    by (destruct Hc as [-> | ->]; reflexivity).
  rewrite Hm in Hchk. apply Nat.eqb_eq in Hchk. lia.
Qed.

(** After [':'], ['('] and ['='] nothing but an [ID] is shifted. *)
Lemma mark_then_keyword sigma p k rest sigma' :
  p = 20 \/ p = 22 \/ p = 24 -> k <> 16 ->
  ashifts sigma (p :: k :: rest) sigma' -> False.
Proof.
  intros Hp Hk H.
  pose proof (ashifts_columns _ _ _ H) as Hcols.
  apply Forall_cons_1 in Hcols as [_ Hcols].
  apply Forall_cons_1 in Hcols as [Hrange _].
  inversion H as [|? ? ? s1 n ? _ Hlook Hrest]; subst.
  destruct (shift_facts _ _ _ Hlook) as (_ & Hacc & _).
  assert (Hnone : table_lookup n k = None).
  { destruct (table_lookup n k) as [e|] eqn:E; [|reflexivity].
    pose proof (table_forall_spec _ check_id_places_ok _ _ _ E) as Hchk.
    unfold check_id_places in Hchk. apply andb_prop in Hchk as [_ Hchk].
    rewrite Hacc in Hchk.
    assert (Hm : (p =? 20) || (p =? 22) || (p =? 24) = true)
      by (destruct Hp as [-> |[-> | ->]]; reflexivity).
    rewrite Hm in Hchk. apply orb_prop in Hchk as [Hchk|Hchk].
    - apply Nat.ltb_lt in Hchk. lia.
    - apply Nat.eqb_eq in Hchk. contradiction. }
  inversion Hrest as [|? ? ? s2 n2 ? Hreds Hlook2 _]; subst.
  inversion Hreds as [|? s1' ? Hred _]; subst.
  - cbn [top hd] in Hlook2. congruence.
  - unfold areduce in Hred. cbn [top hd] in Hred. now rewrite Hnone in Hred.
Qed.

(** The token [a] directly before the token [b] puts a keyword where the
    grammar asks for an identifier: a keyword before ['('] (the name of a
    part) or before ['='] (the name of an argument); or a keyword after
    [':'] (the name of the first part), after ['('] (the name of the
    first argument) or after ['='] (the value of an argument). *)
Definition keyword_as_id (a b : token) : Prop :=
  (In (type a) keywords /\ (type b = "'('"%string \/ type b = "'='"%string))
  \/ ((type a = "':'"%string \/ type a = "'('"%string
       \/ type a = "'='"%string)
      /\ In (type b) keywords).

Lemma keyword_column ty : In ty keywords -> 12 <= col ty <= 15.
Proof.
  intros H. simpl in H.
  repeat (destruct H as [<-|H]; [vm_compute; lia|]). destruct H.
Qed.

(** A text with a keyword in the place of an identifier is rejected. *)
Lemma keyword_as_id_rejected s ty m ts e pre a b post :
  wf_mod ty m -> scans s ts e ->
  ts = pre ++ a :: b :: post -> keyword_as_id a b ->
  exists msg, fst (parse s m) = Throw (SyntaxError msg).
Proof.
  intros Hwf Hscans Hts Hkw.
  destruct (parse_outcomes s ty m Hwf)
    as [[v Hv]|[Heoi|(o & sym & line & c & src & _ & _ & _ & _ & Hmsg)]];
    [exfalso|eauto|eauto].
  destruct (parse_verdict s ty m ts e Hwf Hscans)
    as [(ex & _ & _ & _ & Hthrow)
       |[(_ & (s2 & (s1 & Hsh & _) & _) & _)
        |[(_ & _ & Ho)
         |[(pre' & t & post' & l & s2 & _ & _ & _ & _ & Ho)
          |(ex & pre' & t & s2 & n & _ & _ & _ & _ & Ho)]]]];
    try congruence.
  rewrite Hts, columns_app in Hsh. cbn [columns map] in Hsh.
  apply ashifts_app in Hsh as (s0 & _ & Hsh).
  destruct Hkw as [(Ha & Hb)|(Ha & Hb)].
  - apply (keyword_then_mark _ _ _ _ _ (keyword_column _ Ha)) in Hsh; auto.
    destruct Hb as [-> | ->]; [left|right]; reflexivity.
  - apply (mark_then_keyword _ (col (type a))) in Hsh; auto.
    + destruct Ha as [-> |[-> | ->]]; [left|right; left|right; right];
        reflexivity.
    + pose proof (keyword_column _ Hb). lia.
Qed.

(** ** An offset has one position *)

Lemma ends_nl_tail c b :
  (String c b = EmptyString \/ exists x, String c b = x +++ nl) ->
  b = EmptyString \/ exists x, b = x +++ nl.
Proof.
  intros [H|[x H]]; [discriminate|].
  destruct x as [|d x]; simpl in H.
  - injection H as _ <-. now left.
  - injection H as _ ->. right. eauto.
Qed.

Lemma count_lf_ends x h : count_lf ((x +++ nl) +++ h) <> 0.
Proof. rewrite !count_lf_app. simpl. lia. Qed.

Lemma last_line_unique : forall b1 h1 b2 h2,
  b1 +++ h1 = b2 +++ h2 ->
  (b1 = EmptyString \/ exists x, b1 = x +++ nl) ->
  (b2 = EmptyString \/ exists x, b2 = x +++ nl) ->
  count_lf h1 = 0 -> count_lf h2 = 0 -> h1 = h2.
Proof.
  induction b1 as [|c b1 IH]; intros h1 b2 h2 E H1 H2 C1 C2.
  - simpl in E. destruct H2 as [->|[x ->]]; [exact E|].
    exfalso. rewrite E in C1. exact (count_lf_ends _ _ C1).
  - destruct b2 as [|d b2].
    + destruct H1 as [H1|[x H1]]; [discriminate|].
      exfalso. change (EmptyString +++ h2) with h2 in E.
      rewrite <- E, H1 in C2. exact (count_lf_ends _ _ C2).
    + simpl in E. injection E as _ E.
      exact (IH h1 b2 h2 E (ends_nl_tail _ _ H1) (ends_nl_tail _ _ H2) C1 C2).
Qed.

(** The line and the column of an offset are its own. *)
Lemma position_fun s o line1 col1 line2 col2 :
  position s o line1 col1 -> position s o line2 col2 ->
  line1 = line2 /\ col1 = col2.
Proof.
  intros (b1 & h1 & E1 & H1 & C1 & -> & ->) (b2 & h2 & E2 & H2 & C2 & -> & ->).
  rewrite E1 in E2.
  pose proof (last_line_unique _ _ _ _ E2 H1 H2 C1 C2) as <-.
  split; [|reflexivity].
  assert (E : count_lf (b1 +++ h1) = count_lf (b2 +++ h1)) by now rewrite E2.
  rewrite !count_lf_app in E. lia.
Qed.

(** ** The offsets and the tokens of a text, computed *)

(** The tokenizer comes from offset [o] to offset [target]. *)
Fixpoint reach_from (fuel : nat) (s : string) (o target : nat) : bool :=
  match fuel with
  | 0 => false
  | S k =>
      (o =? target)
      || match match_first lexRules (slice o s) with
         | Some (_, m) => reach_from k s (o + String.length m) target
         | None => false
         end
  end.

Lemma reach_from_spec s target : forall fuel o,
  reaches s o -> reach_from fuel s o target = true -> reaches s target.
Proof.
  induction fuel as [|fuel IH]; intros o Ho H; [discriminate|].
  cbn [reach_from] in H. apply orb_prop in H as [H|H].
  - apply Nat.eqb_eq in H. now subst.
  - destruct (match_first lexRules (slice o s)) as [[h m]|] eqn:E;
      [|discriminate].
    apply (IH _ (reaches_next s o h m Ho E) H).
Qed.

(** The tokens from [t] on, and how the reading ends. *)
Fixpoint scan_from (fuel : nat) (tk : tokenizer) (t : token)
  : option (list token * ending) :=
  match fuel with
  | 0 => None
  | S k =>
      match assoc String.eqb (type t) tokens with
      | Some c =>
          if c =? 25 then Some ([], AtEnd)
          else
            match getNextToken (lex_fuel (_string tk)) tk with
            | LexToken t' tk' =>
                match scan_from k tk' t' with
                | Some (ts, e) => Some (t :: ts, e)
                | None => None
                end
            | LexThrow ex => Some ([t], BadChar ex)
            | LexOutOfFuel => None
            end
      | None => None
      end
  end.

(** The tokens of a text, and how the reading ends. *)
Definition scan_text (s : string) : option (list token * ending) :=
  match getNextToken (lex_fuel s) (initString s) with
  | LexToken t tk => scan_from (S (String.length s)) tk t
  | LexThrow ex => Some ([], BadChar ex)
  | LexOutOfFuel => None
  end.

Lemma scan_from_spec : forall fuel tk t ts e,
  scan_from fuel tk t = Some (ts, e) -> scan tk t ts e.
Proof.
  induction fuel as [|fuel IH]; intros tk t ts e H; [discriminate|].
  cbn [scan_from] in H.
  destruct (assoc String.eqb (type t) tokens) as [c|] eqn:Ec; [|discriminate].
  destruct (Nat.eqb_spec c 25) as [->|Hne].
  - injection H as <- <-. now constructor.
  - destruct (getNextToken (lex_fuel (_string tk)) tk) as [t' tk'|ex|] eqn:Hlex;
      [|injection H as <- <-; now apply (scan_bad tk t c)|discriminate].
    destruct (scan_from fuel tk' t') as [[ts' e']|] eqn:Hrest; [|discriminate].
    injection H as <- <-.
    apply (scan_next tk t c t' tk'); auto.
Qed.

Lemma scan_text_spec s ts e : scan_text s = Some (ts, e) -> scans s ts e.
Proof.
  unfold scan_text, scans.
  destruct (getNextToken (lex_fuel s) (initString s)) as [t tk|ex|].
  - apply scan_from_spec.
  - intros [= <- <-]. auto.
  - discriminate.
Qed.

(** ** Brackets *)

(** A text with an opening bracket outside its comments is rejected. *)
Lemma bracket_outside_comment s ty m o rest :
  wf_mod ty m -> slice o s = String "[" rest -> ~ in_comment s o ->
  exists msg, fst (parse s m) = Throw (SyntaxError msg).
Proof.
  intros Hwf Hsl Hout.
  destruct (parse_outcomes s ty m Hwf)
    as [[v Hv]|[Heoi|(o' & sym & line & c & src & _ & _ & _ & _ & Hmsg)]];
    [|eauto|eauto].
  exfalso. apply Hout. exact (accepted_brackets s ty m v o rest Hwf Hv Hsl).
Qed.

(** Two tokens, one directly after the other. *)
Lemma adjacent_split {A : Type} (l : list A) i a b :
  nth_error l i = Some a -> nth_error l (S i) = Some b ->
  exists pre post, l = pre ++ a :: b :: post.
Proof.
  revert l. induction i as [|i IH]; intros [|x l] Ha Hb; try discriminate.
  - destruct l as [|y l]; [discriminate|]. simpl in Ha, Hb.
    injection Ha as ->. injection Hb as ->. exists [], l. reflexivity.
  - destruct (IH l Ha Hb) as (pre & post & ->).
    exists (x :: pre), post. reflexivity.
Qed.

Lemma keyword_as_id_refused s ty m ts e i a b :
  wf_mod ty m -> scans s ts e ->
  nth_error ts i = Some a -> nth_error ts (S i) = Some b ->
  keyword_as_id a b ->
  exists msg, fst (parse s m) = Throw (SyntaxError msg).
Proof.
  intros Hwf Hscans Ha Hb Hkw.
  destruct (adjacent_split ts i a b Ha Hb) as (pre & post & Hts).
  exact (keyword_as_id_rejected s ty m ts e pre a b post Hwf Hscans Hts Hkw).
Qed.

(** ** A text has one offending token or character *)

(** No offset the tokenizer comes to lies inside a match. *)
Lemma reaches_gap s a h m :
  reaches s a -> match_first lexRules (slice a s) = Some (h, m) ->
  (forall b, reaches s b -> b < a ->
     forall h' m', match_first lexRules (slice b s) = Some (h', m') ->
                   b + String.length m' <= a) ->
  forall b, reaches s b -> a < b -> a + String.length m <= b.
Proof.
  intros Ha Hm Hbelow b Hb. induction Hb as [|b h2 m2 Hb IH Hm2]; [lia|].
  intros Hlt.
  destruct (Nat.lt_trichotomy b a) as [Hba|[->|Hab]].
  - pose proof (Hbelow b Hb Hba _ _ Hm2). lia.
  - rewrite Hm in Hm2. injection Hm2 as _ <-. lia.
  - specialize (IH Hab). lia.
Qed.

Lemma reaches_next_le s a :
  reaches s a ->
  forall b, reaches s b -> b < a ->
    forall h m, match_first lexRules (slice b s) = Some (h, m) ->
                b + String.length m <= a.
Proof.
  induction 1 as [|a h1 m1 Ha IH Hm1]; intros b Hb Hlt h m Hm; [lia|].
  destruct (Nat.lt_trichotomy b a) as [Hba|[->|Hab]].
  - pose proof (IH b Hb Hba _ _ Hm). lia.
  - rewrite Hm1 in Hm. injection Hm as _ <-. lia.
  - pose proof (reaches_gap s a h1 m1 Ha Hm1 IH b Hb Hab). lia.
Qed.

Lemma reaches_matched s a :
  reaches s a ->
  forall b, reaches s b -> b < a ->
    exists h m, match_first lexRules (slice b s) = Some (h, m).
Proof.
  induction 1 as [|a h1 m1 Ha IH Hm1]; intros b Hb Hlt; [lia|].
  destruct (Nat.lt_trichotomy b a) as [Hba|[->|Hab]].
  - exact (IH b Hb Hba).
  - eauto.
  - pose proof (reaches_gap s a h1 m1 Ha Hm1 (reaches_next_le s a Ha) b Hb Hab).
    lia.
Qed.

(** The tokenizer stops at one offset. *)
Lemma reaches_stop s o o' :
  reaches s o -> match_first lexRules (slice o s) = None ->
  reaches s o' -> match_first lexRules (slice o' s) = None -> o = o'.
Proof.
  intros Ho Hn Ho' Hn'.
  destruct (Nat.lt_trichotomy o o') as [Hlt|[E|Hlt]]; [|exact E|].
  - destruct (reaches_matched s o' Ho' o Ho Hlt) as (h & m & Hm). congruence.
  - destruct (reaches_matched s o Ho o' Ho' Hlt) as (h & m & Hm). congruence.
Qed.

Lemma begins_prefix u v : begins (u ++ v) -> begins u.
Proof. intros (w & H). exists (v ++ w). now rewrite app_assoc. Qed.

Lemma split_twice {A : Type} : forall (pre1 : list A) t1 post1 pre2 t2 post2,
  pre1 ++ t1 :: post1 = pre2 ++ t2 :: post2 ->
  (pre1 = pre2 /\ t1 = t2)
  \/ (exists mid, pre2 = (pre1 ++ [t1]) ++ mid)
  \/ (exists mid, pre1 = (pre2 ++ [t2]) ++ mid).
Proof.
  induction pre1 as [|x pre1 IH]; intros t1 post1 pre2 t2 post2 E.
  - destruct pre2 as [|y pre2]; simpl in E.
    + injection E as -> _. now left.
    + injection E as -> _. right. left. exists pre2. reflexivity.
  - destruct pre2 as [|y pre2]; simpl in E.
    + injection E as -> _. right. right. exists pre1. reflexivity.
    + injection E as -> E.
      destruct (IH _ _ _ _ _ E) as [[-> ->]|[[mid ->]|[mid ->]]].
      * now left.
      * right. left. exists mid. reflexivity.
      * right. right. exists mid. reflexivity.
Qed.

(** What stops the parse of a text is one text at one offset. *)
Lemma offending_fun s ts e o sym o' sym' :
  offending s ts e o sym -> offending s ts e o' sym' ->
  o = o' /\ sym = sym'.
Proof.
  intros [(pre & t & post & l & Hts & Hb & Hnb & Hl & _ & -> & ->)
         |(ex & c & rest & He & Hb & Hr & Hsl & Hm & ->)]
         [(pre' & t' & post' & l' & Hts' & Hb' & Hnb' & Hl' & _ & -> & ->)
         |(ex' & c' & rest' & He' & Hb' & Hr' & Hsl' & Hm' & ->)].
  - rewrite Hts in Hts'.
    destruct (split_twice _ _ _ _ _ _ Hts') as [[-> ->]|[[mid ->]|[mid ->]]].
    + rewrite Hl in Hl'. injection Hl' as <-. auto.
    + exfalso. apply Hnb. rewrite columns_app in Hb'.
      exact (begins_prefix _ _ Hb').
    + exfalso. apply Hnb'. rewrite columns_app in Hb.
      exact (begins_prefix _ _ Hb).
  - exfalso. apply Hnb. rewrite Hts in Hb'.
    replace (pre ++ t :: post) with ((pre ++ [t]) ++ post) in Hb'
      by now rewrite <- app_assoc.
    rewrite columns_app in Hb'. exact (begins_prefix _ _ Hb').
  - exfalso. apply Hnb'. rewrite Hts' in Hb.
    replace (pre' ++ t' :: post') with ((pre' ++ [t']) ++ post') in Hb
      by now rewrite <- app_assoc.
    rewrite columns_app in Hb. exact (begins_prefix _ _ Hb).
  - pose proof (reaches_stop s o o' Hr Hm Hr' Hm') as <-.
    rewrite Hsl in Hsl'. injection Hsl' as <- _. auto.
Qed.

(** * The claims on arguments, errors, locations, keywords and pins *)

(** A chip with a comment and an indexed pin as the value of an
    argument. *)
Definition commented_index_text : string :=
  "CHIP Mux { // picks a or b" +++ nl
    +++ "IN a, sel; OUT out; PARTS: Not(in=sel[0], out=out); }".


(** A chip named CHIP with the pins PARTS, IN and OUT. *)
Definition keyword_chip : chip :=
  (mkChip "CHIP" (In_section "PARTS" ["IN"]) (Out_section "OUT" [])
     (Parts_section (mkPart "Not" ("in", "a") [("out", "b")]) []))%string.

(** A chip whose second part has a keyword as the name of an argument. *)
Definition keyword_argument_text : string :=
  "CHIP X { IN a; OUT b; PARTS: Not(in=a, out=b); Or(IN=a, out=b); }".

(** C4 as the code has it: the value of an argument is an identifier and
    nothing else. When [parse] returns a value, the text is read as the
    tokens of a chip [c] whose parts and arguments are named by
    identifiers, and the parts of the [Chip] object are those the module
    array held before, followed by the parts of [c] in the order of the
    text. The tokens of an argument are an ID, ['='] and an ID, and its
    [Argument] holds the texts of the two ID tokens as strings. Every
    identifier is accepted as a value, [true] and [false] among them:
    every text that is read as the tokens of a chip is parsed to that
    chip, and such a text exists for every chip whose parts and arguments
    are named by identifiers. There is no index and no range:
    a text with an opening bracket outside its comments is rejected with
    a syntax error, and so is a text in which the tokenizer comes to an
    opening bracket. *)
Theorem argument_values :
  (forall s ty m v m' ins outs pts,
      wf_mod ty m ->
      m_inputs m <> m_outputs m ->
      read 5 (store m) (VArr (m_inputs m)) = Some (AArr ins) ->
      read 5 (store m) (VArr (m_outputs m)) = Some (AArr outs) ->
      read 5 (store m) (VArr (m_parts m)) = Some (AArr pts) ->
      parse s m = (Return v, m') ->
      exists c n ains aouts,
        chip_ok c
        /\ vlexes s (chip_tokens c ++ [(col "$", EmptyString)])
        /\ read 6 (store m') v
           = Some (AChip n ains aouts
                     (AArr (pts ++ map part_ast_of (chip_parts c)))))
  /\ (forall c,
        chip_tokens c
        = (12, "CHIP"%string) :: (name_col (chip_name c), chip_name c)
            :: (17, "{"%string)
            :: section_tokens (section1 c) ++ section_tokens (section2 c)
            ++ section_tokens (section3 c) ++ [(18, "}"%string)])
  /\ (forall a,
        argument_tokens a = [(col "ID", fst a); (col "'='", "="%string);
                             (col "ID", snd a)]
        /\ argument_ast_of a = AArgument (AStr (fst a)) (AStr (snd a)))
  /\ (forall s ty m c ins outs pts,
        wf_mod ty m ->
        m_inputs m <> m_outputs m ->
        read 5 (store m) (VArr (m_inputs m)) = Some (AArr ins) ->
        read 5 (store m) (VArr (m_outputs m)) = Some (AArr outs) ->
        read 5 (store m) (VArr (m_parts m)) = Some (AArr pts) ->
        vlexes s (chip_tokens c ++ [(col "$", EmptyString)]) ->
        exists v m',
          parse s m = (Return v, m')
          /\ read 6 (store m') v = Some (chip_ast_over ins outs pts c))
  /\ (forall ty m c ins outs pts,
        wf_mod ty m ->
        m_inputs m <> m_outputs m ->
        read 5 (store m) (VArr (m_inputs m)) = Some (AArr ins) ->
        read 5 (store m) (VArr (m_outputs m)) = Some (AArr outs) ->
        read 5 (store m) (VArr (m_parts m)) = Some (AArr pts) ->
        chip_ok c ->
        exists v m',
          parse (chip_source c) m = (Return v, m')
          /\ read 6 (store m') v = Some (chip_ast_over ins outs pts c))
  /\ (ident "true" = true /\ ident "false" = true)
  /\ (exists v m,
        parse plain_argument_text fresh = (Return v, m)
        /\ read 6 (store m) v = Some plain_argument_ast)
  /\ (forall s ty m o rest,
        wf_mod ty m -> slice o s = String "[" rest -> ~ in_comment s o ->
        exists msg, fst (parse s m) = Throw (SyntaxError msg))
  /\ (forall s ty m o rest,
        wf_mod ty m -> reaches s o -> slice o s = String "[" rest ->
        exists msg, fst (parse s m) = Throw (SyntaxError msg)).
Proof.
  split; [|split; [|split; [|split; [|split; [|split; [|split; [|split]]]]]]].
  - intros s ty m v m' ins outs pts Hwf Hne Ri Ro Rp Hparse.
    destruct (parse_value_ok s ty m v m' ins outs pts Hwf Hne Ri Ro Rp Hparse)
      as (c & Hok & Hlex & Hread).
    exists c. eexists _, _, _. split; [exact Hok|]. split; [exact Hlex|].
    exact Hread.
  - exact chip_tokens_eq.
  - intros a. split; reflexivity.
  - exact chip_value.
  - exact chip_source_value.
  - split; reflexivity.
  - eexists _, _. split; [vm_compute; reflexivity|]. vm_compute. reflexivity.
  - exact bracket_outside_comment.
  - intros s ty m o rest Hwf Hr Hsl. exact (reached_bracket s ty m o rest Hwf Hr Hsl).
Qed.

(** C4 as the spec has it fails: an indexed pin as argument value is
    rejected at the bracket. *)
Lemma indexed_argument_rejected :
  fst (parse (indexed_argument_text "0], out=b); }") fresh)
  = Throw (SyntaxError
             (located_message
                "CHIP Foo { IN a; OUT b; PARTS: Not(in=a[0], out=b); }" "[" 1 39)).
Proof. vm_compute. reflexivity. Qed.

Lemma argument_values_witness :
  reaches commented_index_text 64
  /\ exists msg,
       fst (parse commented_index_text fresh) = Throw (SyntaxError msg).
Proof.
  assert (Hr : reaches commented_index_text 64).
  { apply (reach_from_spec _ _ 80 0); [constructor|vm_compute; reflexivity]. }
  split; [exact Hr|].
  destruct argument_values as (_ & _ & _ & _ & _ & _ & _ & _ & Hb).
  apply (Hb commented_index_text fresh_ty fresh 64
            "0], out=out); }"%string).
  - repeat constructor.
  - exact Hr.
  - reflexivity.
Defined.

(** C5 as the code has it: [parse] throws a [SyntaxError] whose only
    content is its message, and which message it is depends on the text
    as follows. Let [ts] be the tokens the tokenizer reads from the text,
    to its end or to the first character that no lexical rule matches;
    a text has one such list of tokens.
    If the text is read to its end and [ts] are the tokens of a chip,
    [parse] returns a value. If the text is read to its end and [ts] are
    the beginning of the tokens of a chip but not a chip, the input ends
    too early: the message is the bare sentence "Unexpected end of
    input.", with no position. Otherwise some text is unexpected: the
    first token with which the tokens are no longer the beginning of a
    chip or, when there is no such token, the character that cannot be
    read; the message then shows the source line of that text, a caret
    under its column, the text and [line:column]. *)
Theorem parse_errors s ty m :
  wf_mod ty m ->
  exists ts e,
    scans s ts e
    /\ (forall ts' e', scans s ts' e' -> ts' = ts /\ e' = e)
    /\ ((e = AtEnd /\ derives Chip_sym (columns ts)
         /\ exists v, fst (parse s m) = Return v)
        \/ (e = AtEnd /\ begins (columns ts)
            /\ ~ derives Chip_sym (columns ts)
            /\ fst (parse s m)
               = Throw (SyntaxError "Unexpected end of input."))
        \/ (exists o sym,
              offending s ts e o sym
              /\ exists line col src,
                   str_take (String.length sym) (slice o s) = sym
                   /\ position s o line col
                   /\ line_source s line = Some src
                   /\ fst (parse s m)
                      = Throw (SyntaxError
                                 (located_message src sym line col)))).
Proof.
  intros Hwf. destruct (parse_classified s ty m Hwf) as (ts & e & Hscans & H).
  exists ts, e. split; [exact Hscans|].
  split; [intros ts' e' H'; exact (scans_fun _ _ _ _ _ H' Hscans)|].
  destruct H as [H|[H|(o & sym & Hoff & Hloc)]]; [now left|right; now left|].
  right. right. exists o, sym. split; [exact Hoff|exact Hloc].
Qed.

(** C5 as the spec has it fails: the error for an input that ends too
    early carries no line, column, source line or caret. *)
Lemma early_end_has_no_location :
  fst (parse "CHIP" fresh) = Throw (SyntaxError "Unexpected end of input.")
  /\ forall sym line col,
       unexpected_token_message "CHIP" sym line col
       <> "Unexpected end of input."%string.
Proof.
  split; [vm_compute; reflexivity|].
  intros sym line col. unfold unexpected_token_message.
  destruct (line_source "CHIP" line) as [[|c src]|]; simpl; discriminate.
Qed.

Lemma parse_errors_witness :
  wf_mod fresh_ty fresh
  /\ exists ts e,
       scans error_text ts e
       /\ (forall ts' e', scans error_text ts' e' -> ts' = ts /\ e' = e)
       /\ ((e = AtEnd /\ derives Chip_sym (columns ts)
            /\ exists v, fst (parse error_text fresh) = Return v)
           \/ (e = AtEnd /\ begins (columns ts)
               /\ ~ derives Chip_sym (columns ts)
               /\ fst (parse error_text fresh)
                  = Throw (SyntaxError "Unexpected end of input."))
           \/ (exists o sym,
                 offending error_text ts e o sym
                 /\ exists line col src,
                      str_take (String.length sym) (slice o error_text) = sym
                      /\ position error_text o line col
                      /\ line_source error_text line = Some src
                      /\ fst (parse error_text fresh)
                         = Throw (SyntaxError
                                    (located_message src sym line col)))).
Proof.
  assert (Hwf : wf_mod fresh_ty fresh) by (repeat constructor).
  split; [exact Hwf|].
  exact (parse_errors error_text fresh_ty fresh Hwf).
Defined.

(** C6 as the code has it: lines count from one and columns from zero.
    The location of every token the tokenizer produces is the [position]
    of its offsets in the text, and the end offset of a token is its
    start offset plus the length of its text. The line and the column in
    the message of a syntax error are the [position] of the offset of
    the offending text: of the start of the first token with which the
    tokens of the text are no longer the beginning of a chip, or of the
    first character the tokenizer cannot read; a text has one list of
    tokens and at most one such offset. The [position] of an offset is
    one line and one column: the line is one more than the number of line
    feeds before the offset, and the column is the number of characters
    since the last of them, so the first character of the text and the
    character after a line feed are at column 0. *)
Theorem locations :
  (forall s fuel tk t tk' l,
      lexer_state s tk -> getNextToken fuel tk = LexToken t tk' ->
      tloc t = Some l ->
      position s (startOffset l) (startLine l) (startColumn l)
      /\ position s (endOffset l) (endLine l) (endColumn l)
      /\ endOffset l = startOffset l + String.length (value t)
      /\ str_take (String.length (value t)) (slice (startOffset l) s) = value t)
  /\ (forall s ty m msg,
        wf_mod ty m -> fst (parse s m) = Throw (SyntaxError msg) ->
        msg = "Unexpected end of input."%string
        \/ exists ts e o sym line col src,
             scans s ts e
             /\ offending s ts e o sym
             /\ str_take (String.length sym) (slice o s) = sym
             /\ position s o line col
             /\ line_source s line = Some src
             /\ msg = located_message src sym line col)
  /\ (forall s ts e ts' e',
        scans s ts e -> scans s ts' e' -> ts = ts' /\ e = e')
  /\ (forall s ts e o sym o' sym',
        offending s ts e o sym -> offending s ts e o' sym' ->
        o = o' /\ sym = sym')
  /\ (forall s o line1 col1 line2 col2,
        position s o line1 col1 -> position s o line2 col2 ->
        line1 = line2 /\ col1 = col2)
  /\ (forall s line col, position s 0 line col -> line = 1 /\ col = 0)
  /\ (forall s o rest line col,
        slice o s = String LF rest -> position s (S o) line col -> col = 0).
Proof.
  split; [|split; [|split; [|split; [|split; [|split]]]]].
  - intros s fuel tk t tk' l Hst Hlex Hloc.
    pose proof (lexer_state_inv _ _ Hst) as Hinv.
    destruct (getNextToken_token _ _ _ _ _ Hinv Hlex) as [_ [Hnone|(l' & Hat)]];
      [congruence|].
    pose proof (ta_loc _ _ _ Hat) as Hloc'. rewrite Hloc in Hloc'.
    inversion Hloc'; subst l'. now apply token_at_position.
  - intros s ty m msg Hwf Hthrow.
    destruct (parse_classified s ty m Hwf)
      as (ts & e & Hscans
          & [(_ & _ & v & Hv)
            |[(_ & _ & _ & Heoi)
             |(o & sym & Hoff & line & c & src & Htext & Hpos & Hsrc & Hmsg)]]).
    + congruence.
    + left. congruence.
    + right. exists ts, e, o, sym, line, c, src.
      repeat (split; [assumption|]). congruence.
  - exact scans_fun.
  - exact offending_fun.
  - exact position_fun.
  - exact position_start.
  - exact position_after_lf.
Qed.

(** C6 as the spec has it fails: the first character of a line is
    reported at column 0, in the token's location and in the error. *)
Lemma first_column_is_zero :
  (exists t tk l,
      getNextToken 3 (initString "}") = LexToken t tk
      /\ tloc t = Some l /\ startLine l = 1 /\ startColumn l = 0)
  /\ fst (parse "}" fresh) = Throw (SyntaxError (located_message "}" "}" 1 0)).
Proof.
  split; [|vm_compute; reflexivity].
  eexists _, _, _. split; [vm_compute; reflexivity|].
  split; [reflexivity|]. split; reflexivity.
Qed.

Lemma locations_witness :
  wf_mod fresh_ty fresh
  /\ fst (parse error_text fresh)
     = Throw (SyntaxError (located_message error_text "IN" 1 16))
  /\ (located_message error_text "IN" 1 16 = "Unexpected end of input."%string
      \/ exists ts e o sym line col src,
           scans error_text ts e
           /\ offending error_text ts e o sym
           /\ str_take (String.length sym) (slice o error_text) = sym
           /\ position error_text o line col
           /\ line_source error_text line = Some src
           /\ located_message error_text "IN" 1 16
              = located_message src sym line col).
Proof.
  assert (Hwf : wf_mod fresh_ty fresh) by (repeat constructor).
  assert (Hthrow : fst (parse error_text fresh)
                   = Throw (SyntaxError (located_message error_text "IN" 1 16)))
    by (vm_compute; reflexivity).
  split; [exact Hwf|]. split; [exact Hthrow|].
  exact (proj1 (proj2 locations) error_text fresh_ty fresh _ Hwf Hthrow).
Defined.

(** C7 as the code has it: CHIP, IN, OUT and PARTS are the keywords of
    the tokenizer; they are names ([Name -> ID | CHIP | IN | OUT | PARTS])
    but not identifiers, while [true] and [false] are identifiers. A
    keyword is accepted as the name of a chip and as the name of a
    declared pin: every text that is read as the tokens of a chip is
    parsed to that chip, its name and its pins being keywords or
    identifiers, and such a text exists for every chip named so whose
    parts and arguments are named by identifiers. A keyword is not
    accepted where the grammar asks for an ID token. When [parse] returns
    a value the text is read as the tokens of a chip whose parts, argument
    names and argument values are identifiers, and no part name, argument
    name or argument value of the returned AST is a keyword. And every
    text in
    which a keyword token stands directly before ['('] or directly after
    [':'] (as the name of a part), directly before ['='] or directly
    after ['('] (as the name of an argument) or directly after ['='] (as
    the value of an argument) is rejected with a syntax error; so is a
    text that goes on with a keyword where the first part of a chip, the
    name or the value of its first argument is due, whatever follows the
    keyword. *)
Theorem keywords_as_names :
  (forall w, In w keywords -> name_ok w /\ ident w = false)
  /\ (ident "true" = true /\ ident "false" = true)
  /\ (forall ty m c ins outs pts,
        wf_mod ty m ->
        m_inputs m <> m_outputs m ->
        read 5 (store m) (VArr (m_inputs m)) = Some (AArr ins) ->
        read 5 (store m) (VArr (m_outputs m)) = Some (AArr outs) ->
        read 5 (store m) (VArr (m_parts m)) = Some (AArr pts) ->
        chip_ok c ->
        exists v m',
          parse (chip_source c) m = (Return v, m')
          /\ read 6 (store m') v = Some (chip_ast_over ins outs pts c))
  /\ (forall s ty m c ins outs pts,
        wf_mod ty m ->
        m_inputs m <> m_outputs m ->
        read 5 (store m) (VArr (m_inputs m)) = Some (AArr ins) ->
        read 5 (store m) (VArr (m_outputs m)) = Some (AArr outs) ->
        read 5 (store m) (VArr (m_parts m)) = Some (AArr pts) ->
        vlexes s (chip_tokens c ++ [(col "$", EmptyString)]) ->
        exists v m',
          parse s m = (Return v, m')
          /\ read 6 (store m') v = Some (chip_ast_over ins outs pts c))
  /\ (exists v m,
        parse keyword_names_text fresh = (Return v, m)
        /\ read 6 (store m) v = Some keyword_names_ast)
  /\ (forall s ty m v,
        wf_mod ty m -> fst (parse s m) = Return v ->
        exists c,
          chip_ok c /\ vlexes s (chip_tokens c ++ [(col "$", EmptyString)]))
  /\ (forall s ty m v,
        wf_mod ty m -> fst (parse s m) = Return v ->
        exists a, read 6 (store (snd (parse s m))) v = Some a /\ chip_ast a)
  /\ (forall w, id_text w = true -> ~ In w keywords)
  /\ (forall s ty m ts e i a b,
        wf_mod ty m -> scans s ts e ->
        nth_error ts i = Some a -> nth_error ts (S i) = Some b ->
        keyword_as_id a b ->
        exists msg, fst (parse s m) = Throw (SyntaxError msg))
  /\ (forall kw tail,
        In kw keywords ->
        (exists msg, fst (parse (keyword_part_name kw tail) fresh)
                     = Throw (SyntaxError msg))
        /\ (exists msg, fst (parse (keyword_argument_name kw tail) fresh)
                        = Throw (SyntaxError msg))
        /\ (exists msg, fst (parse (keyword_argument_value kw tail) fresh)
                        = Throw (SyntaxError msg))).
Proof.
  split; [|split; [|split; [|split; [|split; [|split; [|split;
    [|split; [|split]]]]]]]].
  - intros w Hin. simpl in Hin.
    repeat (destruct Hin as [<-|Hin]; [split; [left|]; reflexivity|]).
    destruct Hin.
  - split; reflexivity.
  - exact chip_source_value.
  - exact chip_value.
  - eexists _, _. split; [vm_compute; reflexivity|]. vm_compute. reflexivity.
  - intros s ty m v Hwf Hret.
    destruct (accepted_chip s ty m v Hwf Hret) as (c & Hlex).
    exists c. split; [exact (vlexes_chip_ok s c Hlex)|exact Hlex].
  - exact parse_returns_chip.
  - exact id_text_not_keyword.
  - exact keyword_as_id_refused.
  - exact keyword_rejected_as_id.
Qed.

(** C7 as the spec has it fails: keywords are accepted as the name of a
    chip and as names of its pins. *)
Lemma keywords_accepted_as_names :
  exists v m,
    parse "CHIP OUT { IN IN; OUT PARTS; PARTS: Not(in=a, out=b); }" fresh
    = (Return v, m)
    /\ read 6 (store m) v
       = Some (AChip (AStr "OUT") (AArr [AStr "IN"]) (AArr [AStr "PARTS"])
                 (AArr [AChipCall (AStr "Not")
                          (AArr [AArgument (AStr "in") (AStr "a");
                                 AArgument (AStr "out") (AStr "b")])])).
Proof. eexists _, _. split; [vm_compute; reflexivity|]. vm_compute. reflexivity. Qed.

Lemma keywords_as_names_witness :
  (exists v m',
      parse (chip_source keyword_chip) fresh = (Return v, m')
      /\ read 6 (store m') v = Some (chip_ast_over [] [] [] keyword_chip))
  /\ exists msg,
       fst (parse keyword_argument_text fresh) = Throw (SyntaxError msg).
Proof.
  assert (Hwf : wf_mod fresh_ty fresh) by (repeat constructor).
  destruct keywords_as_names as (_ & _ & Hacc & _ & _ & _ & _ & _ & Hrej & _).
  split.
  - apply (Hacc fresh_ty fresh keyword_chip [] [] [] Hwf).
    + vm_compute. intros E; discriminate E.
    + reflexivity.
    + reflexivity.
    + reflexivity.
    + unfold chip_ok, keyword_chip, section_ok, part_ok, argument_ok, name_ok.
      cbn [chip_name section1 section2 section3 part_name first_argument
           more_arguments fst snd].
      repeat first [split | constructor | (left; reflexivity)
                   | reflexivity].
  - let r := eval vm_compute in (scan_text keyword_argument_text) in
    match r with
    | Some (?ts, ?e) =>
        let a := eval vm_compute in (nth 24 ts EOF_TOKEN) in
        let b := eval vm_compute in (nth 25 ts EOF_TOKEN) in
        apply (Hrej keyword_argument_text fresh_ty fresh ts e 24 a b Hwf)
    end.
    + apply scan_text_spec. vm_compute. reflexivity.
    + reflexivity.
    + reflexivity.
    + left. split; [right; left; reflexivity|right; reflexivity].
Defined.



